(** * Sequence containers of Lab3_3sem: myvector, slist, dlist

    A shallow embedding of [myvector.h], [slist.h] and [dlist.h], and the
    properties of the three containers.

    Conventions of the embedding.
    - A method of a class is a computation in the monad [M St], where the
      state [St] holds the object [*this] (and, for [dlist], the heap of
      shared nodes).  A computation ends normally ([Ok]), by the
      [std::out_of_range] exception ([Throw], with the state reached at
      the throw), in undefined behaviour ([Undefined]: null or dangling
      dereference, access outside a buffer, read of a cell that was never
      assigned, signed overflow of an [int]) or never ([Diverge]).
    - [int] is [Z] restricted to [INT_MIN .. INT_MAX]; arithmetic that leaves
      the range is undefined behaviour.
    - A [std::unique_ptr] owns its target exclusively, so the target is a
      part of the owner's value: [option] of the buffer or of the node.
    - [std::shared_ptr] and [std::weak_ptr] are references into a heap of
      nodes; a node is destroyed when its last owner lets go of it.
    - Objects live in a store indexed by their address, so that the
      assignment operators can compare [this] with the address of their
      argument.
    - The element parameter [T &value] of [myvector::push_back] and
      [myvector::insert] is a reference ([Vec.reference]): to an object
      outside the buffer of the vector, or to a cell of that buffer, which
      is read at the point where the code reads it. The lists copy the
      element into the new node before they change anything, so their
      element parameter is a value.
    - Memory and stack are not bounded: [new], [std::make_unique] and
      [std::make_shared] always give an object, and the destruction of a
      chain of nodes, which takes one nested destructor call for each node,
      always ends. *)

From Stdlib Require Import ZArith Lia String Ascii DecimalString.
From stdpp Require Import base tactics option list gmap.

Local Open Scope Z_scope.

(** ** Outcomes and the method monad *)

Inductive outcome (St A : Type) : Type :=
| Ok (a : A) (s : St)
| Throw (s : St)
| Undefined
| Diverge.

Arguments Ok {St A} a s.
Arguments Throw {St A} s.
Arguments Undefined {St A}.
Arguments Diverge {St A}.

Definition M (St A : Type) : Type := St -> outcome St A.

Definition ret {St A} (a : A) : M St A := fun s => Ok a s.

Definition bind {St A B} (m : M St A) (k : A -> M St B) : M St B :=
  fun s =>
    match m s with
    | Ok a s' => k a s'
    | Throw s' => Throw s'
    | Undefined => Undefined
    | Diverge => Diverge
    end.

Definition get {St} : M St St := fun s => Ok s s.
Definition gets {St A} (f : St -> A) : M St A := fun s => Ok (f s) s.
Definition put {St} (s : St) : M St unit := fun _ => Ok tt s.
Definition modify {St} (f : St -> St) : M St unit := fun s => Ok tt (f s).

(** [throw std::out_of_range(...)] *)
Definition throw_out_of_range {St A} : M St A := fun s => Throw s.

Definition undefined {St A} : M St A := fun _ => Undefined.
Definition diverge {St A} : M St A := fun _ => Diverge.

Declare Scope cpp_scope.
Delimit Scope cpp_scope with cpp.
Notation "x ← y ; z" := (bind y (fun x => z))
  (at level 20, y at level 100, z at level 200, only parsing) : cpp_scope.
Notation "y ;; z" := (bind y (fun _ => z))
  (at level 100, z at level 200, only parsing, right associativity) : cpp_scope.

Local Open Scope cpp_scope.

(** *** The type [int] *)

Definition INT_MAX : Z := 2147483647.
Definition INT_MIN : Z := -2147483648.

Definition in_int (z : Z) : bool := (INT_MIN <=? z) && (z <=? INT_MAX).

(** The value of an [int] expression: undefined behaviour on overflow. *)
Definition int {St} (z : Z) : M St Z :=
  if in_int z then ret z else undefined.

(** *** Counted loops

    [for (i = lo; i < hi; ++i)] and [for (i = hi; i > lo; --i)] with a body
    that does not assign [i], [lo] or [hi]; [acc] carries the local
    variables the body assigns. *)

Fixpoint for_range {St A} (n : nat) (i step : Z) (body : Z -> A -> M St A)
    (acc : A) : M St A :=
  match n with
  | O => ret acc
  | S n' => acc' ← body i acc; for_range n' (i + step) step body acc'
  end.

Definition for_up {St A} (lo hi : Z) (body : Z -> A -> M St A) (acc : A) : M St A :=
  for_range (Z.to_nat (hi - lo)) lo 1 body acc.

Definition for_down {St A} (hi lo : Z) (body : Z -> A -> M St A) (acc : A) : M St A :=
  for_range (Z.to_nat (hi - lo)) hi (-1) body acc.

(** *** Objects in a store

    [on this m] runs the method [m] on the object at address [this]. *)

Abbreviation var := nat (only parsing).

Definition on {Obj A} (this : var) (m : M Obj A) : M (gmap nat Obj) A :=
  fun w =>
    match w !! this with
    | None => Undefined
    | Some o =>
        match m o with
        | Ok a o' => Ok a (<[this := o']> w)
        | Throw o' => Throw (<[this := o']> w)
        | Undefined => Undefined
        | Diverge => Diverge
        end
    end.

(** [operator<<] of the element type. *)
Class Printable (T : Type) := show : T -> string.

(** [std::cout << int]: the decimal digits, a minus sign before a negative
    number. *)
#[export] Instance int_Printable : Printable Z :=
  fun z => NilZero.string_of_int (Z.to_int z).

Definition newline : string := String "010"%char "".

(** The text of a sequence: every element followed by a space, then the
    newline. *)
Fixpoint line {T} `{Printable T} (xs : list T) : string :=
  match xs with
  | [] => newline
  | x :: xs' => (show x ++ " " ++ line xs')%string
  end.

(** ** myvector *)

Module Vec.
Section defs.
Context {T : Type}.

(** A buffer made by [new T[n]]: a cell is [None] until it is assigned. *)
Abbreviation buffer := (list (option T)) (only parsing).

Record myvector := mk {
  data : option buffer;    (* std::unique_ptr<T[]> *)
  capacity : Z;
  length : Z
}.

Definition set_data (d : option buffer) (v : myvector) : myvector :=
  mk d (capacity v) (length v).
Definition set_capacity (c : Z) (v : myvector) : myvector :=
  mk (data v) c (length v).
Definition set_length (n : Z) (v : myvector) : myvector :=
  mk (data v) (capacity v) n.

(** [new T[n]] *)
Definition new_array (n : Z) : option buffer := Some (replicate (Z.to_nat n) None).

(** [p[i]] as a value *)
Definition load {St} (p : option buffer) (i : Z) : M St T :=
  match p with
  | None => undefined
  | Some b =>
      if (0 <=? i) && (i <? Z.of_nat (List.length b)) then
        match b !! Z.to_nat i with
        | Some (Some x) => ret x
        | _ => undefined
        end
      else undefined
  end.

(** [p[i] = x] *)
Definition store {St} (p : option buffer) (i : Z) (x : T) : M St (option buffer) :=
  match p with
  | None => undefined
  | Some b =>
      if (0 <=? i) && (i <? Z.of_nat (List.length b)) then
        ret (Some (<[Z.to_nat i := Some x]> b))
      else undefined
  end.

(** [data[i] = x] on the member *)
Definition store_data (i : Z) (x : T) : M myvector unit :=
  d ← gets data; d' ← store d i x; modify (set_data d').

Definition resize : M myvector unit :=
  c ← gets capacity; c2 ← int (c * 2); modify (set_capacity c2);;
  newData ← ret (new_array c2);
  n ← gets length;
  newData ← for_up 0 n (fun i newData =>
               d ← gets data; x ← load d i; store newData i x) newData;
  modify (set_data newData).

(** [myvector()] *)
Definition ctor : myvector := mk (new_array 1) 1 0.

Definition size : M myvector Z := gets length.

(** [T &value] and [T &&value], the parameter of [push_back] and of
    [insert]: what the reference is bound to. [Outside x] is an object
    with the value [x] that the call does not write: a temporary, a
    variable, an element of another container. [Cell i] is the cell [i]
    of the buffer that [data] holds when the call begins, as
    [operator[]] of the vector itself gives it: [v.push_back(v[i])]. *)
Inductive reference : Type :=
| Outside (x : T)
| Cell (i : Z).

(** The value of [value] at the place where the code reads it. [freed]
    says that [resize] has run since the call began: it has deleted the
    buffer that [Cell i] is a cell of, and the read is a use after
    free. *)
Definition read (freed : bool) (value : reference) : M myvector T :=
  match value with
  | Outside x => ret x
  | Cell i => if freed then undefined else d ← gets data; load d i
  end.

Definition push_back (value : reference) : M myvector unit :=
  n ← gets length; c ← gets capacity;
  (if n =? c then resize else ret tt);;
  x ← read (n =? c) value;
  n ← gets length; store_data n x;;
  n' ← int (n + 1); modify (set_length n').

Definition insert (value : reference) (position : Z) : M myvector unit :=
  n ← gets length;
  if (position >? n) || (position <? 0) then throw_out_of_range else
  c ← gets capacity;
  (if n =? c then resize else ret tt);;
  n' ← gets length;
  for_down n' position (fun i _ =>
    d ← gets data; x ← load d (i - 1); store_data i x) tt;;
  x ← read (n =? c) value;
  store_data position x;;
  n'' ← int (n' + 1); modify (set_length n'').

Definition erase (position : Z) : M myvector unit :=
  n ← gets length;
  if (position >=? n) || (position <? 0) then throw_out_of_range else
  for_up position (n - 1) (fun i _ =>
    d ← gets data; x ← load d (i + 1); store_data i x) tt;;
  n' ← int (n - 1); modify (set_length n').

(** [operator[]] read through the returned reference *)
Definition subscript (index : Z) : M myvector T :=
  n ← gets length;
  if (index <? 0) || (index >=? n) then throw_out_of_range else
  d ← gets data; load d index.

(** [operator[]] followed by an assignment through the reference *)
Definition subscript_assign (index : Z) (x : T) : M myvector unit :=
  n ← gets length;
  if (index <? 0) || (index >=? n) then throw_out_of_range else
  store_data index x.

(** [print()]: the result is the text sent to [std::cout]. *)
Definition print `{Printable T} : M myvector string :=
  n ← gets length;
  out ← for_up 0 n (fun i out =>
           d ← gets data; x ← load d i; ret (out ++ show x ++ " ")%string) ""%string;
  ret (out ++ newline)%string.

(** *** Iterator: a raw pointer into the buffer, kept as its offset from
    [data.get()]. *)
Record Iterator := It { ptr : Z }.

Definition begin : M myvector Iterator := ret (It 0).
Definition end_ : M myvector Iterator := n ← gets length; ret (It n).
Definition deref (it : Iterator) : M myvector T := d ← gets data; load d (ptr it).
Definition incr (it : Iterator) : Iterator := It (ptr it + 1).
Definition neq (a b : Iterator) : bool := negb (ptr a =? ptr b).

(** The loop [for (auto i = begin(); i != end(); ++i)] that collects the
    values [* i]; it makes [length] rounds when it ends at all. *)
Fixpoint iter_loop (fuel : nat) (i : Iterator) (acc : list T) : M myvector (list T) :=
  e ← end_;
  if neq i e then
    match fuel with
    | O => undefined
    | S fuel' => x ← deref i; iter_loop fuel' (incr i) (acc ++ [x])
    end
  else ret acc.

Definition iterate : M myvector (list T) :=
  i ← begin; n ← gets length; iter_loop (Z.to_nat n) i [].

(** *** Two objects: construction from and assignment of another vector.
    The world is the store of the vectors. *)
Abbreviation world := (gmap nat myvector) (only parsing).

(** a declaration [myvector<T> this;] *)
Definition construct (this : var) : M world unit := modify <[this := ctor]>.

(** The body shared by [myvector(myvector &&vect)] and
    [operator=(myvector &&vect)]. *)
Definition take_over (this vect : var) : M world unit :=
  d ← on vect (gets data);
  on vect (modify (set_data None));; on this (modify (set_data d));;
  c ← on vect (gets capacity); on this (modify (set_capacity c));;
  n ← on vect (gets length); on this (modify (set_length n));;
  on vect (modify (set_data None));;
  on vect (modify (set_capacity 0));;
  on vect (modify (set_length 0)).

(** [myvector(myvector &&vect)]: the members of the new object at [this]
    start from their default initialisers. *)
Definition move_ctor (this vect : var) : M world unit :=
  modify <[this := mk None 1 0]>;; take_over this vect.

(** [operator=(myvector &&vect)] *)
Definition move_assign (this vect : var) : M world unit :=
  if decide (this = vect) then ret tt else take_over this vect.

(** [operator=(myvector &vect)] *)
Definition copy_assign (this vect : var) : M world unit :=
  if decide (this = vect) then ret tt else
  c ← on vect (gets capacity);
  newData ← ret (new_array c);
  n ← on vect (gets length);
  newData ← for_up 0 n (fun i newData =>
               d ← on vect (gets data); x ← load d i; store newData i x) newData;
  on this (modify (set_data newData));;
  c ← on vect (gets capacity); on this (modify (set_capacity c));;
  n ← on vect (gets length); on this (modify (set_length n)).

(** *** Representation

    [holds v xs]: the first [length] cells of the buffer are assigned and
    hold [xs], the buffer has [capacity] cells, and [capacity] is an
    [int]. *)
Definition cells (v : myvector) : buffer := default [] (data v).

Definition holds (v : myvector) (xs : list T) : Prop :=
  exists rest,
    cells v = (Some <$> xs) ++ rest /\
    length v = Z.of_nat (List.length xs) /\
    capacity v = Z.of_nat (List.length xs + List.length rest) /\
    capacity v <= INT_MAX.

Definition valid (w : world) : Prop :=
  forall this v, w !! this = Some v -> exists xs, holds v xs.

(** The members of a vector that was moved from. *)
Definition moved_from : myvector := mk None 0 0.

(** The capacity after the growth step of [push_back] and [insert]. *)
Definition grown (v : myvector) : Z :=
  if length v =? capacity v then 2 * capacity v else capacity v.

(** The growth step succeeds: there is room, or the capacity can double. *)
Definition can_grow (v : myvector) : Prop :=
  length v < capacity v \/ (0 < capacity v /\ 2 * capacity v <= INT_MAX).
End defs.
Arguments myvector : clear implicits.
Arguments reference : clear implicits.
Arguments Iterator : clear implicits.
Arguments load : simpl never.
Arguments store : simpl never.
Arguments store_data : simpl never.
End Vec.

(** ** slist *)

Module SList.
Section defs.
Context {T : Type}.

(** [Node<T>]; the owning [next] holds the node it owns, or nothing. *)
#[local] Unset Elimination Schemes.
Inductive Node : Type := mkNode (value : T) (next : option Node).
#[local] Set Elimination Schemes.

Definition value (n : Node) : T := let (v, _) := n in v.
Definition next (n : Node) : option Node := let (_, nx) := n in nx.

Record slist := mk {
  head : option Node;    (* std::unique_ptr<Node<T>> *)
  length : Z
}.

Definition set_head (h : option Node) (l : slist) : slist := mk h (length l).
Definition set_length (n : Z) (l : slist) : slist := mk (head l) n.

(** [slist()] *)
Definition ctor : slist := mk None 0.

(** [length++] and [length--] *)
Definition incr_length : M slist unit :=
  n ← gets length; n' ← int (n + 1); modify (set_length n').
Definition decr_length : M slist unit :=
  n ← gets length; n' ← int (n - 1); modify (set_length n').

(** [while (cur->next != nullptr) cur = cur->next.get();] from the node
    [cur], then [cur->next = std::move(newNode)]; the result is the chain
    from the first [cur] on. *)
Fixpoint attach_last (newNode : Node) (cur : Node) : Node :=
  match next cur with
  | None => mkNode (value cur) (Some newNode)
  | Some n => mkNode (value cur) (Some (attach_last newNode n))
  end.

(** [make_unique<Node<T>>(value)] copies [value] into the new node
    before the chain is changed, in [push_back] and in [insert]: the
    parameter is the value that the reference has at the call. *)
Definition push_back (value : T) : M slist unit :=
  newNode ← ret (mkNode value None);
  h ← gets head;
  match h with
  | None => modify (set_head (Some newNode));; incr_length
  | Some cur => modify (set_head (Some (attach_last newNode cur)));; incr_length
  end.

(** The raw pointer [cur] makes [steps] times [cur = cur->next.get()];
    then [upd] is done on [*cur].  The result is the chain from the first
    [cur] on.  Dereferencing [nullptr] is undefined. *)
Fixpoint update_at {St} (steps : nat) (upd : Node -> M St Node) (cur : option Node)
    : M St (option Node) :=
  match cur with
  | None => undefined
  | Some c =>
      match steps with
      | O => c' ← upd c; ret (Some c')
      | S k => nx ← update_at k upd (next c); ret (Some (mkNode (value c) nx))
      end
  end.

(** The same walk, to read [*cur]. *)
Fixpoint node_at {St} (steps : nat) (cur : option Node) : M St Node :=
  match cur with
  | None => undefined
  | Some c =>
      match steps with
      | O => ret c
      | S k => node_at k (next c)
      end
  end.

Definition print_step `{Printable T} (c : Node) (out : string) : string :=
  (out ++ show (value c) ++ " ")%string.

(** [while (cur != nullptr) { std::cout << cur->value << ' '; cur = cur->next.get(); }] *)
Fixpoint print_from `{Printable T} (c : Node) (out : string) : string :=
  match next c with
  | None => print_step c out
  | Some n => print_from n (print_step c out)
  end.

Definition print `{Printable T} : M slist string :=
  h ← gets head;
  out ← ret (match h with None => ""%string | Some c => print_from c "" end);
  ret (out ++ newline)%string.

Definition size : M slist Z := gets length.

Definition subscript (index : Z) : M slist T :=
  n ← gets length;
  if (index <? 0) || (index >=? n) then throw_out_of_range else
  h ← gets head; c ← node_at (Z.to_nat index) h; ret (value c).

Definition subscript_assign (index : Z) (x : T) : M slist unit :=
  n ← gets length;
  if (index <? 0) || (index >=? n) then throw_out_of_range else
  h ← gets head;
  h' ← update_at (Z.to_nat index) (fun c => ret (mkNode x (next c))) h;
  modify (set_head h').

Definition insert (value0 : T) (position : Z) : M slist unit :=
  n ← gets length;
  if (position >? n) || (position <? 0) then throw_out_of_range else
  h ← gets head;
  if position =? 0 then
    modify (set_head (Some (mkNode value0 h)));; incr_length
  else
    h' ← update_at (Z.to_nat (position - 1))
           (fun cur => ret (mkNode (value cur) (Some (mkNode value0 (next cur))))) h;
    modify (set_head h');; incr_length.

Definition erase (position : Z) : M slist unit :=
  n ← gets length;
  if (position >=? n) || (position <? 0) then throw_out_of_range else
  h ← gets head;
  if position =? 0 then
    match h with
    | None => undefined
    | Some c => modify (set_head (next c));; decr_length
    end
  else
    h' ← update_at (Z.to_nat (position - 1))
           (fun cur =>
              match next cur with
              | None => undefined
              | Some gone => ret (mkNode (value cur) (next gone))
              end) h;
    modify (set_head h');; decr_length.

(** *** Iterator: a raw pointer to a node, kept as the node it points to. *)
Record Iterator := It { ptr : option Node }.

Definition begin : M slist Iterator := h ← gets head; ret (It h).
Definition end_ : M slist Iterator := ret (It None).

Definition deref {St} (it : Iterator) : M St T :=
  match ptr it with
  | None => undefined
  | Some c => ret (value c)
  end.

(** [operator++] *)
Definition incr (it : Iterator) : Iterator :=
  match ptr it with
  | Some c => It (next c)
  | None => it
  end.

Fixpoint depth (c : Node) : nat :=
  match next c with
  | None => 1
  | Some n => S (depth n)
  end.

(** [operator!=] compares two [Node*]. The nodes of a chain carry no
    address here; two pointers into the chain of ONE list are equal
    exactly when the same number of nodes follows them, and that is what
    is compared. It is to be used on iterators of one list only; the
    loops of this development compare an iterator with [end()] of its
    list. *)
Definition neq (a b : Iterator) : bool :=
  match ptr a, ptr b with
  | None, None => false
  | Some x, Some y => negb (depth x =? depth y)%nat
  | _, _ => true
  end.

Fixpoint iter_loop (fuel : nat) (i : Iterator) (acc : list T) : M slist (list T) :=
  e ← end_;
  if neq i e then
    match fuel with
    | O => diverge
    | S fuel' => x ← deref i; iter_loop fuel' (incr i) (acc ++ [x])
    end
  else ret acc.

(** A walk over more nodes than the chain has never happens: the chain is
    a finite value. *)
Definition iterate : M slist (list T) :=
  i ← begin;
  iter_loop (match ptr i with None => 0 | Some c => depth c end) i [].

(** *** Two objects *)
Abbreviation world := (gmap nat slist) (only parsing).

Definition construct (this : var) : M world unit := modify <[this := ctor]>.

Definition take_over (this list : var) : M world unit :=
  h ← on list (gets head);
  on list (modify (set_head None));; on this (modify (set_head h));;
  n ← on list (gets length); on this (modify (set_length n));;
  on list (modify (set_head None));;
  on list (modify (set_length 0)).

(** [slist(slist &&list)]; [length] has no default initialiser, the
    constructor assigns it before any use. *)
Definition move_ctor (this list : var) : M world unit :=
  modify <[this := mk None 0]>;; take_over this list.

Definition move_assign (this list : var) : M world unit :=
  if decide (this = list) then ret tt else take_over this list.

(** [while (cur != nullptr) { push_back(cur->value); cur = cur->next.get(); }]
    with [cur] in the chain of the other list. *)
Fixpoint copy_from (this : var) (c : Node) : M world unit :=
  on this (push_back (value c));;
  match next c with
  | None => ret tt
  | Some n => copy_from this n
  end.

Definition copy_assign (this list : var) : M world unit :=
  if decide (this = list) then ret tt else
  on this (modify (set_head None));;
  on this (modify (set_length 0));;
  cur ← on list (gets head);
  match cur with
  | None => ret tt
  | Some c => copy_from this c
  end.

(** *** Representation *)

(** The values of the chain from a node on. *)
Fixpoint values (c : Node) : list T :=
  value c :: match next c with None => [] | Some n => values n end.

Definition elements (h : option Node) : list T :=
  match h with None => [] | Some c => values c end.

(** The chain that stores [xs]. *)
Fixpoint chain_of (xs : list T) : option Node :=
  match xs with
  | [] => None
  | x :: xs' => Some (mkNode x (chain_of xs'))
  end.

(** [holds l xs]: the chain stores [xs], [length] counts its nodes and is
    an [int]. *)
Definition holds (l : slist) (xs : list T) : Prop :=
  elements (head l) = xs /\
  length l = Z.of_nat (List.length xs) /\
  length l <= INT_MAX.

Definition valid (w : world) : Prop :=
  forall this l, w !! this = Some l -> exists xs, holds l xs.
End defs.
Arguments Node : clear implicits.
Arguments slist : clear implicits.
Arguments Iterator : clear implicits.
End SList.

(** ** dlist *)

Module DList.
Section defs.
Context {T : Type}.

Abbreviation loc := nat (only parsing).

(** [DoubleNode<T>]: [next] is the owning [shared_ptr], [prev] the
    [weak_ptr]; both name a node of the heap, or nothing. *)
Record DoubleNode := mkNode {
  value : T;
  next : option loc;
  prev : option loc
}.

(** The nodes alive, and the identity the next [make_shared] gives out.
    An identity is never given twice, so a [weak_ptr] to a destroyed
    node names no node ever after. *)
Record heap := mkHeap {
  nodes : gmap nat DoubleNode;
  next_id : nat
}.

Record dlist := mk {
  head : option loc;    (* std::shared_ptr<DoubleNode<T>> *)
  length : Z
}.

(** [dlist()] *)
Definition ctor : dlist := mk None 0.

Section heap_access.
Context {X : Type}.

(** [std::make_shared<DoubleNode<T>>(value)] *)
Definition make_shared (value : T) : M (heap * X) (option loc) :=
  fun s =>
    let l := next_id s.1 in
    Ok (Some l) (mkHeap (<[l := mkNode value None None]> (nodes s.1)) (S l), s.2).

(** [*p] *)
Definition node (p : option loc) : M (heap * X) DoubleNode :=
  fun s =>
    match p with
    | None => Undefined
    | Some l =>
        match nodes s.1 !! l with
        | None => Undefined
        | Some nd => Ok nd s
        end
    end.

Definition write (p : option loc) (nd : DoubleNode) : M (heap * X) unit :=
  fun s =>
    match p with
    | None => Undefined
    | Some l => Ok tt (mkHeap (<[l := nd]> (nodes s.1)) (next_id s.1), s.2)
    end.

(** [p->next = q], [p->prev = q] and [p->value = x] *)
Definition set_next (p q : option loc) : M (heap * X) unit :=
  nd ← node p; write p (mkNode (value nd) q (prev nd)).
Definition set_prev (p q : option loc) : M (heap * X) unit :=
  nd ← node p; write p (mkNode (value nd) (next nd) q).
Definition set_value (p : option loc) (x : T) : M (heap * X) unit :=
  nd ← node p; write p (mkNode x (next nd) (prev nd)).

(** The node [p] has lost its last owner. *)
Definition destroy (p : option loc) : M (heap * X) unit :=
  fun s =>
    match p with
    | None => Ok tt s
    | Some l => Ok tt (mkHeap (delete l (nodes s.1)) (next_id s.1), s.2)
    end.

(** The number of nodes alive bounds every walk along [next] that ends. *)
Definition alive : M (heap * X) nat := gets (fun s => base.size (nodes s.1)).

(** The owner of the chain from [p] has let go of it: the nodes are
    destroyed one after the other. *)
Fixpoint release_from (fuel : nat) (p : option loc) : M (heap * X) unit :=
  match p with
  | None => ret tt
  | Some _ =>
      match fuel with
      | O => diverge
      | S fuel' => nd ← node p; destroy p;; release_from fuel' (next nd)
      end
  end.

Definition release (p : option loc) : M (heap * X) unit :=
  fuel ← alive; release_from fuel p.

(** [while (cnt < position - 1) { cur = cur->next; cnt++; }] *)
Fixpoint walk (steps : nat) (cur : option loc) : M (heap * X) (option loc) :=
  match steps with
  | O => ret cur
  | S k => nd ← node cur; walk k (next nd)
  end.

(** [while (cur->next) cur = cur->next;] *)
Fixpoint walk_to_last (fuel : nat) (cur : option loc) : M (heap * X) (option loc) :=
  nd ← node cur;
  match next nd with
  | None => ret cur
  | Some _ =>
      match fuel with
      | O => diverge
      | S fuel' => walk_to_last fuel' (next nd)
      end
  end.
End heap_access.

Definition get_head : M (heap * dlist) (option loc) := gets (fun s => head s.2).
Definition set_head (h : option loc) : M (heap * dlist) unit :=
  modify (fun s => (s.1, mk h (length s.2))).
Definition get_length : M (heap * dlist) Z := gets (fun s => length s.2).
Definition set_length (n : Z) : M (heap * dlist) unit :=
  modify (fun s => (s.1, mk (head s.2) n)).

Definition incr_length : M (heap * dlist) unit :=
  n ← get_length; n' ← int (n + 1); set_length n'.
Definition decr_length : M (heap * dlist) unit :=
  n ← get_length; n' ← int (n - 1); set_length n'.

(** [make_shared<DoubleNode<T>>(value)] copies [value] into the new
    node before the chain is changed, in [push_back] and in [insert]:
    the parameter is the value that the reference has at the call. *)
Definition push_back (value : T) : M (heap * dlist) unit :=
  newNode ← make_shared value;
  h ← get_head;
  match h with
  | None => set_head newNode;; incr_length
  | Some _ =>
      fuel ← alive;
      cur ← walk_to_last fuel h;
      set_prev newNode cur;;
      set_next cur newNode;;
      incr_length
  end.

Fixpoint print_from `{Printable T} (fuel : nat) (cur : option loc) (out : string)
    : M (heap * dlist) string :=
  match cur with
  | None => ret out
  | Some _ =>
      match fuel with
      | O => diverge
      | S fuel' =>
          nd ← node cur;
          print_from fuel' (next nd) (out ++ show (value nd) ++ " ")%string
      end
  end.

Definition print `{Printable T} : M (heap * dlist) string :=
  h ← get_head; fuel ← alive;
  out ← print_from fuel h ""%string;
  ret (out ++ newline)%string.

Definition size : M (heap * dlist) Z := get_length.

Definition subscript (index : Z) : M (heap * dlist) T :=
  n ← get_length;
  if (index <? 0) || (index >=? n) then throw_out_of_range else
  h ← get_head; cur ← walk (Z.to_nat index) h;
  nd ← node cur; ret (value nd).

Definition subscript_assign (index : Z) (x : T) : M (heap * dlist) unit :=
  n ← get_length;
  if (index <? 0) || (index >=? n) then throw_out_of_range else
  h ← get_head; cur ← walk (Z.to_nat index) h;
  set_value cur x.

Definition insert (value0 : T) (position : Z) : M (heap * dlist) unit :=
  n ← get_length;
  if (position >? n) || (position <? 0) then throw_out_of_range else
  newNode ← make_shared value0;
  h ← get_head;
  if position =? 0 then
    match h with
    | Some _ => set_prev h newNode;; set_next newNode h
    | None => ret tt
    end;;
    set_head newNode;; incr_length
  else
    cur ← walk (Z.to_nat (position - 1)) h;
    c ← node cur; set_next newNode (next c);;
    nn ← node newNode;
    match next nn with
    | Some _ => set_prev (next nn) newNode
    | None => ret tt
    end;;
    set_prev newNode cur;;
    set_next cur newNode;;
    incr_length.

Definition erase (position : Z) : M (heap * dlist) unit :=
  n ← get_length;
  if (position >=? n) || (position <? 0) then throw_out_of_range else
  h ← get_head;
  if position =? 0 then
    hd ← node h;
    match next hd with
    | None => set_head None;; destroy h
    | Some _ =>
        newHead ← ret (next hd);
        set_prev newHead None;;
        set_head newHead;; destroy h
    end;;
    decr_length
  else
    cur ← walk (Z.to_nat (position - 1)) h;
    c ← node cur; gone ← node (next c);
    set_next cur (next gone);; destroy (next c);;
    c ← node cur;
    match next c with
    | Some _ => set_prev (next c) cur
    | None => ret tt
    end;;
    decr_length.

(** *** Iterator: a raw pointer to a node. *)
Record Iterator := It { ptr : option loc }.

Definition begin : M (heap * dlist) Iterator := h ← get_head; ret (It h).
Definition end_ : M (heap * dlist) Iterator := ret (It None).

Definition deref (it : Iterator) : M (heap * dlist) T :=
  nd ← node (ptr it); ret (value nd).

(** [operator++] *)
Definition incr (it : Iterator) : M (heap * dlist) Iterator :=
  match ptr it with
  | Some _ => nd ← node (ptr it); ret (It (next nd))
  | None => ret it
  end.

Definition neq (a b : Iterator) : bool :=
  negb (bool_decide (ptr a = ptr b)).

(** [++it] done [n] times. *)
Fixpoint advance (n : nat) (it : Iterator) : M (heap * dlist) Iterator :=
  match n with
  | O => ret it
  | S n' => it' ← incr it; advance n' it'
  end.

Fixpoint iter_loop (fuel : nat) (i : Iterator) (acc : list T)
    : M (heap * dlist) (list T) :=
  e ← end_;
  if neq i e then
    match fuel with
    | O => diverge
    | S fuel' => x ← deref i; i' ← incr i; iter_loop fuel' i' (acc ++ [x])
    end
  else ret acc.

Definition iterate : M (heap * dlist) (list T) :=
  i ← begin; fuel ← alive; iter_loop fuel i [].

(** *** Several objects over one heap *)
Abbreviation world := (heap * gmap nat dlist)%type (only parsing).

Definition on {A} (this : var) (m : M (heap * dlist) A) : M world A :=
  fun w =>
    match w.2 !! this with
    | None => Undefined
    | Some d =>
        match m (w.1, d) with
        | Ok a s => Ok a (s.1, <[this := s.2]> w.2)
        | Throw s => Throw (s.1, <[this := s.2]> w.2)
        | Undefined => Undefined
        | Diverge => Diverge
        end
    end.

Definition init : world := (mkHeap ∅ 0, ∅).

Definition construct (this : var) : M world unit :=
  modify (fun w => (w.1, <[this := ctor]> w.2)).

(** [head = std::move(list.head)] destroys the chain [head] owned before. *)
Definition take_over (this list : var) : M world unit :=
  h ← on list get_head; on list (set_head None);;
  old ← on this get_head; on this (set_head h);; release old;;
  n ← on list get_length; on this (set_length n);;
  on list (set_head None);;
  on list (set_length 0).

Definition move_ctor (this list : var) : M world unit :=
  modify (fun w => (w.1, <[this := mk None 0]> w.2));; take_over this list.

Definition move_assign (this list : var) : M world unit :=
  if decide (this = list) then ret tt else take_over this list.

(** [while (cur != nullptr) { push_back(cur->value); cur = cur->next; }] *)
Fixpoint copy_from (fuel : nat) (this : var) (cur : option loc) : M world unit :=
  match cur with
  | None => ret tt
  | Some _ =>
      match fuel with
      | O => diverge
      | S fuel' =>
          nd ← node cur; on this (push_back (value nd));;
          nd ← node cur; copy_from fuel' this (next nd)
      end
  end.

Definition copy_assign (this list : var) : M world unit :=
  if decide (this = list) then ret tt else
  old ← on this get_head; on this (set_head None);; release old;;
  on this (set_length 0);;
  cur ← on list get_head;
  fuel ← alive;
  copy_from fuel this cur.

(** *** Representation *)

(** [seg h pv p lxs q]: the walk along [next] from [p] passes the nodes
    [lxs], each given by its identity and its value, and arrives at [q];
    [prev] of the first node is [pv], [prev] of every other node names
    the node before it. *)
Fixpoint seg (h : gmap nat DoubleNode) (pv p : option loc)
    (lxs : list (nat * T)) (q : option loc) : Prop :=
  match lxs with
  | [] => p = q
  | lx :: lxs' =>
      p = Some lx.1 /\
      exists nx, h !! lx.1 = Some (mkNode lx.2 nx pv) /\ seg h (Some lx.1) nx lxs' q
  end.

(** The pointer that arrives after [k] steps of such a walk. *)
Definition ptr_at (lxs : list (nat * T)) (q : option loc) (k : nat) : option loc :=
  match lxs !! k with
  | Some lx => Some lx.1
  | None => q
  end.

(** The last node of such a walk, or what stands before it. *)
Definition last_loc (pv : option loc) (lxs : list (nat * T)) : option loc :=
  match last lxs with
  | Some lx => Some lx.1
  | None => pv
  end.

(** Every node alive got its identity from [make_shared]. *)
Definition heap_ok (hp : heap) : Prop :=
  forall l, is_Some (nodes hp !! l) -> (l < next_id hp)%nat.

(** [owns hp d lxs]: the chain of [d] is made of the nodes [lxs], ends
    with a null [next], and [length] counts it and is an [int]. *)
Definition owns (hp : heap) (d : dlist) (lxs : list (nat * T)) : Prop :=
  seg (nodes hp) None (head d) lxs None /\
  NoDup lxs.*1 /\
  length d = Z.of_nat (List.length lxs) /\
  length d <= INT_MAX.

(** [updated hp lxs hp' lxs']: a method of the list that owned [lxs] in
    [hp] left the heap [hp']; its chain is now [lxs'], made of nodes it
    had and of the node that was made; no other node has changed. *)
Definition updated (hp : heap) (lxs : list (nat * T)) (hp' : heap)
    (lxs' : list (nat * T)) : Prop :=
  heap_ok hp' /\
  (next_id hp <= next_id hp')%nat /\
  (forall l, l ∈ lxs'.*1 -> l ∈ lxs.*1 \/ l = next_id hp) /\
  (forall l, l ∉ lxs.*1 -> l <> next_id hp -> nodes hp' !! l = nodes hp !! l).

(** Every list owns a chain, and no node is in two chains. *)
Definition valid (w : world) : Prop :=
  heap_ok w.1 /\
  (forall this d, w.2 !! this = Some d -> exists lxs, owns w.1 d lxs) /\
  (forall v1 v2 d1 d2 lxs1 lxs2,
      v1 <> v2 -> w.2 !! v1 = Some d1 -> w.2 !! v2 = Some d2 ->
      owns w.1 d1 lxs1 -> owns w.1 d2 lxs2 -> lxs1.*1 ## lxs2.*1).

(** [reaches h p n]: the walk along [next] from [p] comes to the node [n]. *)
Inductive reaches (h : gmap nat DoubleNode) : option loc -> nat -> Prop :=
| reaches_here l : reaches h (Some l) l
| reaches_next l nd n :
    h !! l = Some nd -> reaches h (next nd) n -> reaches h (Some l) n.

(** Every node of the list that has a successor is named by the [prev]
    of that successor, and that successor is alive. *)
Definition back_linked (hp : heap) (d : dlist) : Prop :=
  forall n nd m,
    reaches (nodes hp) (head d) n -> nodes hp !! n = Some nd -> next nd = Some m ->
    exists md, nodes hp !! m = Some md /\ prev md = Some n.

(** The first node of the list has a null [prev]. *)
Definition head_unlinked (hp : heap) (d : dlist) : Prop :=
  forall l nd, head d = Some l -> nodes hp !! l = Some nd -> prev nd = None.

(** The members of the nodes of a list whose chain is [lxs]: [head] is
    the first node; the node at the place [i] holds its value, its
    [next] is the node at the place [i + 1], or null behind the last
    node, and its [prev] is the node at the place [i - 1], or null in
    the first node. *)
Definition links (hp : heap) (d : dlist) (lxs : list (nat * T)) : Prop :=
  head d = fst <$> lxs !! 0%nat /\
  forall i l x, lxs !! i = Some (l, x) ->
    nodes hp !! l
    = Some (mkNode x (fst <$> lxs !! S i)
              (match i with O => None | S j => fst <$> lxs !! j end)).
End defs.
Arguments DoubleNode : clear implicits.
Arguments heap : clear implicits.
Arguments Iterator : clear implicits.
End DList.

(** ** The three kinds of container behind one interface *)

Inductive kind : Set := DynamicArray | SinglyChain | DoublyChain.

(** A change of one container through its interface. The element of
    [PushBack] and [Insert] is a value: a temporary, or an object that is
    no cell of the container that is changed. *)
Inductive mutation (T : Type) : Type :=
| PushBack (x : T)
| Insert (x : T) (position : Z)
| Erase (position : Z)
| Assign (index : Z) (x : T).

Arguments PushBack {T} x.
Arguments Insert {T} x position.
Arguments Erase {T} position.
Arguments Assign {T} index x.

(** What such a change does to a sequence, when its position is in range. *)
Definition mutate {T} (m : mutation T) (xs : list T) : list T :=
  match m with
  | PushBack x => xs ++ [x]
  | Insert x position =>
      take (Z.to_nat position) xs ++ x :: drop (Z.to_nat position) xs
  | Erase position => take (Z.to_nat position) xs ++ drop (S (Z.to_nat position)) xs
  | Assign index x => <[Z.to_nat index := x]> xs
  end.

Section interface.
Context {T : Type} `{Printable T}.

(** The operations every kind offers, on the objects of a world, and what
    it is for a world to be well formed and for an object to store a
    sequence. *)
Record Container : Type := {
  world : Type;
  no_objects : world;
  construct : var -> M world unit;
  push_back : var -> T -> M world unit;
  insert : var -> T -> Z -> M world unit;
  erase : var -> Z -> M world unit;
  subscript : var -> Z -> M world T;
  subscript_assign : var -> Z -> T -> M world unit;
  size : var -> M world Z;
  print : var -> M world string;
  iterate : var -> M world (list T);
  move_ctor : var -> var -> M world unit;
  move_assign : var -> var -> M world unit;
  copy_assign : var -> var -> M world unit;
  valid : world -> Prop;
  stores : world -> var -> list T -> Prop;
  max_size : Z
}.

(** [push_back] and [insert] of the interface are given an element that
    is not a cell of the container itself ([Vec.Outside]). *)
Definition DynamicArray_impl : Container := {|
  world := gmap nat (Vec.myvector T);
  no_objects := ∅;
  construct := Vec.construct;
  push_back this x := on this (Vec.push_back (Vec.Outside x));
  insert this x position := on this (Vec.insert (Vec.Outside x) position);
  erase this position := on this (Vec.erase position);
  subscript this index := on this (Vec.subscript index);
  subscript_assign this index x := on this (Vec.subscript_assign index x);
  size this := on this Vec.size;
  print this := on this Vec.print;
  iterate this := on this Vec.iterate;
  move_ctor := Vec.move_ctor;
  move_assign := Vec.move_assign;
  copy_assign := Vec.copy_assign;
  valid := Vec.valid;
  stores w this xs := exists v, w !! this = Some v /\ Vec.holds v xs;
  max_size := 2 ^ 30
|}.

Definition SinglyChain_impl : Container := {|
  world := gmap nat (SList.slist T);
  no_objects := ∅;
  construct := SList.construct;
  push_back this x := on this (SList.push_back x);
  insert this x position := on this (SList.insert x position);
  erase this position := on this (SList.erase position);
  subscript this index := on this (SList.subscript index);
  subscript_assign this index x := on this (SList.subscript_assign index x);
  size this := on this SList.size;
  print this := on this SList.print;
  iterate this := on this SList.iterate;
  move_ctor := SList.move_ctor;
  move_assign := SList.move_assign;
  copy_assign := SList.copy_assign;
  valid := SList.valid;
  stores w this xs := exists l, w !! this = Some l /\ SList.holds l xs;
  max_size := INT_MAX
|}.

Definition DoublyChain_impl : Container := {|
  world := DList.heap T * gmap nat DList.dlist;
  no_objects := DList.init;
  construct := DList.construct;
  push_back this x := DList.on this (DList.push_back x);
  insert this x position := DList.on this (DList.insert x position);
  erase this position := DList.on this (DList.erase position);
  subscript this index := DList.on this (DList.subscript index);
  subscript_assign this index x := DList.on this (DList.subscript_assign index x);
  size this := DList.on this DList.size;
  print this := DList.on this DList.print;
  iterate this := DList.on this DList.iterate;
  move_ctor := DList.move_ctor;
  move_assign := DList.move_assign;
  copy_assign := DList.copy_assign;
  valid := DList.valid;
  stores w this xs :=
    exists d lxs, w.2 !! this = Some d /\ DList.owns w.1 d lxs /\ lxs.*2 = xs;
  max_size := INT_MAX
|}.

Definition impl (k : kind) : Container :=
  match k with
  | DynamicArray => DynamicArray_impl
  | SinglyChain => SinglyChain_impl
  | DoublyChain => DoublyChain_impl
  end.

(** [apply c m this]: the container [this] of kind [c] makes the change [m]. *)
Definition apply (c : Container) (m : mutation T) (this : var) : M (world c) unit :=
  match m with
  | PushBack x => push_back c this x
  | Insert x position => insert c this x position
  | Erase position => erase c this position
  | Assign index x => subscript_assign c this index x
  end.

(** [append(x)] for each [x] of a sequence, in order. *)
Fixpoint push_all (c : Container) (this : var) (xs : list T) : M (world c) unit :=
  match xs with
  | [] => ret tt
  | x :: xs' => push_back c this x;; push_all c this xs'
  end.

(** The steps of a program that uses containers of one kind. *)
Inductive command : Type :=
| Construct (this : var)
| Mutate (this : var) (m : mutation T)
| MoveCtor (this other : var)
| MoveAssign (this other : var)
| CopyAssign (this other : var).

Definition run (c : Container) (cmd : command) : M (world c) unit :=
  match cmd with
  | Construct this => construct c this
  | Mutate this m => apply c m this
  | MoveCtor this other => move_ctor c this other
  | MoveAssign this other => move_assign c this other
  | CopyAssign this other => copy_assign c this other
  end.

(** The worlds a program comes to, through normal ends and through
    exceptions it catches. *)
Inductive reachable (c : Container) : world c -> Prop :=
| reachable_start : reachable c (no_objects c)
| reachable_step w cmd w' :
    reachable c w ->
    run c cmd w = Ok tt w' \/ run c cmd w = Throw w' ->
    reachable c w'.

(** The world a program leaves that runs the commands in turn and catches
    the exceptions; a command is the last one when its behaviour is
    undefined. *)
Fixpoint exec_from (c : Container) (w : world c) (cmds : list command) : world c :=
  match cmds with
  | [] => w
  | cmd :: cmds' =>
      match run c cmd w with
      | Ok _ w' | Throw w' => exec_from c w' cmds'
      | Undefined | Diverge => w
      end
  end.

Definition exec (c : Container) (cmds : list command) : world c :=
  exec_from c (no_objects c) cmds.

(** The members of the object [a] are those a move leaves in its source:
    no buffer, [capacity] 0 and [length] 0 for the array, a null [head]
    and [length] 0 for the chains. *)
Definition moved_from_state (k : kind) : world (impl k) -> var -> Prop :=
  match k return world (impl k) -> var -> Prop with
  | DynamicArray => fun w a => w !! a = Some Vec.moved_from
  | SinglyChain => fun w a => w !! a = Some (SList.mk None 0)
  | DoublyChain => fun w a => w.2 !! a = Some (DList.mk None 0)
  end.

(** The storage of [b] is its own and not that of [a]. An array and a
    singly linked chain are held by [unique_ptr], so each object of the
    store has its own; for the array, the buffer of [b] has the capacity of
    [a]. The nodes of two doubly linked chains are in one heap, and no
    node is in both. *)
Definition own_storage (k : kind) : world (impl k) -> var -> var -> Prop :=
  match k return world (impl k) -> var -> var -> Prop with
  | DynamicArray => fun w a b =>
      forall va vb, w !! a = Some va -> w !! b = Some vb ->
        Vec.capacity vb = Vec.capacity va /\
        Z.of_nat (List.length (Vec.cells vb)) = Vec.capacity vb
  | SinglyChain => fun w a b => True
  | DoublyChain => fun w a b =>
      forall da db la lb, w.2 !! a = Some da -> w.2 !! b = Some db ->
        DList.owns w.1 da la -> DList.owns w.1 db lb -> la.*1 ## lb.*1
  end.
End interface.
Arguments Container : clear implicits.

(** The declarations and the changes of [main], which are the same for the
    three kinds; the objects [v1] to [v4] ([s1] to [s4], [d1] to [d4]) are
    numbered 1 to 4. [size() / 2] is 4 and [size()] is 9 where [main] passes
    them to [insert]. *)
Definition main_steps : list (command (T := Z)) :=
  Construct 1%nat
  :: map (fun i => Mutate 1%nat (PushBack i)) [0; 1; 2; 3; 4; 5; 6; 7; 8; 9]
  ++ [ Mutate 1%nat (Erase 6); Mutate 1%nat (Erase 4); Mutate 1%nat (Erase 2);
       Mutate 1%nat (Insert 10 0); Mutate 1%nat (Insert 20 4);
       Mutate 1%nat (Insert 30 9);
       MoveCtor 2%nat 1%nat;
       Construct 3%nat; CopyAssign 3%nat 2%nat;
       Construct 4%nat; MoveAssign 4%nat 3%nat ].

(** The world at the end of [main], for one kind. *)
Definition main_world (k : kind) : world (impl k) := exec (impl k) main_steps.

(** ** Words for further properties *)

Section vocabulary.
Context {T : Type} `{Printable T}.

(** The objects that a command names. *)
Definition names (cmd : command (T := T)) : list var :=
  match cmd with
  | Construct this => [this]
  | Mutate this _ => [this]
  | MoveCtor this other => [this; other]
  | MoveAssign this other => [this; other]
  | CopyAssign this other => [this; other]
  end.

(** The capacity of a vector is 0, or a power of two that is at most
    [2 ^ 30]. *)
Definition doubled_capacity (v : Vec.myvector T) : Prop :=
  Vec.capacity v = 0 \/ exists j, 0 <= j <= 30 /\ Vec.capacity v = 2 ^ j.

(** The container [this] can take one more element: a chain has fewer
    than [INT_MAX] elements; an array has fewer than [2 ^ 30], and its
    capacity is not 0. *)
Definition has_room (k : kind) : world (impl k) -> var -> Prop :=
  match k return world (impl k) -> var -> Prop with
  | DynamicArray => fun w this =>
      exists v, w !! this = Some v /\ Vec.capacity v <> 0 /\ Vec.length v < 2 ^ 30
  | SinglyChain => fun w this =>
      exists l, w !! this = Some l /\ SList.length l < INT_MAX
  | DoublyChain => fun w this =>
      exists d, w.2 !! this = Some d /\ DList.length d < INT_MAX
  end.

(** The members of the object [a] are those of a newly declared
    container. *)
Definition default_state (k : kind) : world (impl k) -> var -> Prop :=
  match k return world (impl k) -> var -> Prop with
  | DynamicArray => fun w a => w !! a = Some Vec.ctor
  | SinglyChain => fun w a => w !! a = Some SList.ctor
  | DoublyChain => fun w a => w.2 !! a = Some DList.ctor
  end.

(** The objects that a command declares: a declaration with the default
    constructor or with the move constructor makes a new object. *)
Definition declares (cmd : command (T := T)) : list var :=
  match cmd with
  | Construct this => [this]
  | MoveCtor this _ => [this]
  | Mutate _ _ | MoveAssign _ _ | CopyAssign _ _ => []
  end.

(** Every node that is alive is a node of the chain of a list. *)
Definition no_garbage (w : DList.heap T * gmap nat DList.dlist) : Prop :=
  forall l, is_Some (DList.nodes w.1 !! l) ->
    exists this d lxs,
      w.2 !! this = Some d /\ DList.owns w.1 d lxs /\ l ∈ lxs.*1.

(** No [next] and no [prev] of a node that is alive names a node that was
    destroyed. *)
Definition no_dangling (hp : DList.heap T) : Prop :=
  forall l nd, DList.nodes hp !! l = Some nd ->
    (forall m, DList.next nd = Some m -> is_Some (DList.nodes hp !! m)) /\
    (forall m, DList.prev nd = Some m -> is_Some (DList.nodes hp !! m)).

(** The position of a change is one that the container accepts when it
    has [n] elements. *)
Definition in_range (m : mutation T) (n : Z) : bool :=
  match m with
  | PushBack _ => true
  | Insert _ position => (0 <=? position) && (position <=? n)
  | Erase position => (0 <=? position) && (position <? n)
  | Assign index _ => (0 <=? index) && (index <? n)
  end.

(** What a step of a program does to the sequences that the objects
    hold: a change with a position out of range is the exception that
    the program catches, and leaves them; a move leaves its source
    empty; an assignment of an object to itself does nothing. *)
Definition model_run (cmd : command (T := T)) (seqs : gmap nat (list T))
    : gmap nat (list T) :=
  match cmd with
  | Construct this => <[this := []]> seqs
  | Mutate this m =>
      match seqs !! this with
      | Some xs =>
          if in_range m (Z.of_nat (List.length xs))
          then <[this := mutate m xs]> seqs else seqs
      | None => seqs
      end
  | MoveCtor this other =>
      <[other := []]> (match seqs !! other with
                       | Some xs => <[this := xs]> seqs
                       | None => seqs
                       end)
  | MoveAssign this other =>
      if decide (this = other) then seqs else
      match seqs !! other with
      | Some xs => <[other := []]> (<[this := xs]> seqs)
      | None => seqs
      end
  | CopyAssign this other =>
      if decide (this = other) then seqs else
      match seqs !! other with
      | Some xs => <[this := xs]> seqs
      | None => seqs
      end
  end.

Definition model_exec (cmds : list (command (T := T))) (seqs : gmap nat (list T))
    : gmap nat (list T) :=
  fold_left (fun seqs cmd => model_run cmd seqs) cmds seqs.

(** No step of the program has undefined behaviour or runs for ever. *)
Fixpoint defined_from (c : Container T) (w : world c) (cmds : list (command (T := T)))
    : Prop :=
  match cmds with
  | [] => True
  | cmd :: cmds' =>
      match run c cmd w with
      | Ok _ w' | Throw w' => defined_from c w' cmds'
      | Undefined | Diverge => False
      end
  end.

(** The sequences [seqs] are what the objects of the world [w] hold. *)
Definition represents (k : kind) (w : world (impl k)) (seqs : gmap nat (list T)) : Prop :=
  forall u xs, stores (impl k) w u xs <-> seqs !! u = Some xs.

(** Every step of the program names objects that were declared before
    it, as a program that compiles does; the move constructor declares
    an object from another one. [allowed] says which steps the program
    may have. *)
Fixpoint scoped (allowed : command (T := T) -> bool) (declared : list var)
    (cmds : list (command (T := T))) : bool :=
  match cmds with
  | [] => true
  | cmd :: cmds' =>
      allowed cmd &&
      match cmd with
      | Construct this => scoped allowed (this :: declared) cmds'
      | Mutate this _ => bool_decide (this ∈ declared) && scoped allowed declared cmds'
      | MoveCtor this other =>
          bool_decide (other ∈ declared) && bool_decide (this <> other)
          && scoped allowed (this :: declared) cmds'
      | MoveAssign this other | CopyAssign this other =>
          bool_decide (this ∈ declared) && bool_decide (other ∈ declared)
          && scoped allowed declared cmds'
      end
  end.

(** The step moves no object. *)
Definition no_move (cmd : command (T := T)) : bool :=
  match cmd with
  | MoveCtor _ _ | MoveAssign _ _ => false
  | _ => true
  end.

(** The step assigns no object: no chain is destroyed in it. *)
Definition no_assignment (cmd : command (T := T)) : bool :=
  match cmd with
  | MoveAssign _ _ | CopyAssign _ _ => false
  | _ => true
  end.
End vocabulary.

(** ** Facts on the monad *)

Lemma bind_Ok {St A B} (m : M St A) (k : A -> M St B) s a s' :
  m s = Ok a s' -> bind m k s = k a s'.
Proof. unfold bind. intros ->. reflexivity. Qed.

Lemma bind_Throw {St A B} (m : M St A) (k : A -> M St B) s s' :
  m s = Throw s' -> bind m k s = Throw s'.
Proof. unfold bind. intros ->. reflexivity. Qed.

Lemma bind_Undefined {St A B} (m : M St A) (k : A -> M St B) s :
  m s = Undefined -> bind m k s = Undefined.
Proof. unfold bind. intros ->. reflexivity. Qed.

Lemma bind_assoc {St A B C} (m : M St A) (k : A -> M St B) (k' : B -> M St C) s :
  bind (bind m k) k' s = bind m (fun a => bind (k a) k') s.
Proof. unfold bind. destruct (m s); reflexivity. Qed.

Lemma int_in_range {St} (z : Z) (s : St) :
  INT_MIN <= z <= INT_MAX -> int z s = Ok z s.
Proof.
  intros Hz. unfold int, in_int.
  destruct (Z.leb_spec INT_MIN z), (Z.leb_spec z INT_MAX); try lia. reflexivity.
Qed.

Lemma int_overflow {St} (z : Z) (s : St) :
  INT_MAX < z -> int z s = Undefined.
Proof.
  intros Hz. unfold int, in_int.
  destruct (Z.leb_spec z INT_MAX); try lia. rewrite andb_false_r. reflexivity.
Qed.

Lemma on_Ok {Obj A} (this : nat) (m : M Obj A) (w : gmap nat Obj) o a o' :
  w !! this = Some o -> m o = Ok a o' -> on this m w = Ok a (<[this := o']> w).
Proof. unfold on. intros -> ->. reflexivity. Qed.

Lemma on_missing {Obj A} (this : nat) (m : M Obj A) (w : gmap nat Obj) :
  w !! this = None -> on this m w = Undefined.
Proof. unfold on. intros ->. reflexivity. Qed.

Lemma on_Undefined {Obj A} (this : nat) (m : M Obj A) (w : gmap nat Obj) o :
  w !! this = Some o -> m o = Undefined -> on this m w = Undefined.
Proof. unfold on. intros -> ->. reflexivity. Qed.

Lemma on_Throw {Obj A} (this : nat) (m : M Obj A) (w : gmap nat Obj) o o' :
  w !! this = Some o -> m o = Throw o' -> on this m w = Throw (<[this := o']> w).
Proof. unfold on. intros -> ->. reflexivity. Qed.

Lemma for_up_unfold {St R} lo hi (body : Z -> R -> M St R) acc n :
  Z.to_nat (hi - lo) = n -> for_up lo hi body acc = for_range n lo 1 body acc.
Proof. intros <-. reflexivity. Qed.

Lemma for_down_unfold {St R} lo hi (body : Z -> R -> M St R) acc n :
  Z.to_nat (hi - lo) = n -> for_down hi lo body acc = for_range n hi (-1) body acc.
Proof. intros <-. reflexivity. Qed.

(** Settles the comparisons of the goal by [lia]. *)
Ltac zcond :=
  repeat match goal with
    | |- context [(?a >? ?b)] => destruct (Z.gtb_spec a b); try lia
    | |- context [(?a >=? ?b)] => destruct (Z.geb_spec a b); try lia
    | |- context [(?a <? ?b)] => destruct (Z.ltb_spec a b); try lia
    | |- context [(?a =? ?b)] => destruct (Z.eqb_spec a b); try lia
    end;
  cbn [orb andb negb].

Tactic Notation "mstep" tactic3(tac) :=
  eapply eq_trans; [eapply bind_Ok; tac |]; cbv beta.

Lemma on_gets {Obj R} (this : nat) (f : Obj -> R) (w : gmap nat Obj) o :
  w !! this = Some o -> on this (gets f) w = Ok (f o) w.
Proof. intros Hw. unfold on, gets. rewrite Hw, insert_id by exact Hw. reflexivity. Qed.

Lemma on_modify {Obj} (this : nat) (f : Obj -> Obj) (w : gmap nat Obj) o :
  w !! this = Some o -> on this (modify f) w = Ok tt (<[this := f o]> w).
Proof. intros Hw. unfold on, modify. rewrite Hw. reflexivity. Qed.

Lemma on_same {Obj R} (this : nat) (m : M Obj R) (w : gmap nat Obj) o a :
  w !! this = Some o -> m o = Ok a o -> on this m w = Ok a w.
Proof. intros Hw Hm. unfold on. rewrite Hw, Hm, insert_id by exact Hw. reflexivity. Qed.

Lemma on_Throw_same {Obj R} (this : nat) (m : M Obj R) (w : gmap nat Obj) o :
  w !! this = Some o -> m o = Throw o -> on this m w = Throw w.
Proof. intros Hw Hm. unfold on. rewrite Hw, Hm, insert_id by exact Hw. reflexivity. Qed.

Lemma on_inv {Obj R} (this : nat) (m : M Obj R) (w w' : gmap nat Obj) a :
  on this m w = Ok a w' ->
  exists o o', w !! this = Some o /\ m o = Ok a o' /\ w' = <[this := o']> w.
Proof.
  unfold on. destruct (w !! this) as [o|]; [|discriminate].
  destruct (m o) as [a' o'| | |] eqn:Hm; try discriminate.
  intros [= <- <-]. eauto.
Qed.

Lemma on_inv_Throw {Obj R} (this : nat) (m : M Obj R) (w w' : gmap nat Obj) :
  on this m w = Throw w' ->
  exists o o', w !! this = Some o /\ m o = Throw o' /\ w' = <[this := o']> w.
Proof.
  unfold on. destruct (w !! this) as [o|]; [|discriminate].
  destruct (m o) as [a' o'| | |] eqn:Hm; try discriminate.
  intros [= <-]. eauto.
Qed.

(** *** Text *)

Lemma append_assoc (a b c : string) : ((a ++ b) ++ c = a ++ (b ++ c))%string.
Proof.
  induction a as [|ch a IH]; [reflexivity|].
  change (String ch ((a ++ b) ++ c) = String ch (a ++ b ++ c))%string.
  rewrite IH. reflexivity.
Qed.

Section line.
Context {T : Type} `{Printable T}.

Lemma line_snoc (out : string) x xs :
  ((out ++ show x ++ " ") ++ line xs = out ++ line (x :: xs))%string.
Proof. cbn [line]. rewrite !append_assoc. reflexivity. Qed.
End line.

(** Appending two sequences one after the other. *)
Lemma push_all_app {T} (c : Container T) this (S1 S2 : list T) (w : world c) :
  push_all c this (S1 ++ S2) w = (push_all c this S1;; push_all c this S2) w.
Proof.
  revert w. induction S1 as [|x S1 IH]; intros w; [reflexivity|].
  cbn [push_all app]. rewrite bind_assoc. unfold bind at 1 2.
  destruct (push_back c this x w); try reflexivity. apply IH.
Qed.

Module VecFacts.
Section facts.
Context {T : Type}.
Implicit Types (v : Vec.myvector T) (xs ys : list T) (b A B : list (option T)).

(** With an element that is not a cell of the vector, [push_back] and
    [insert] read it where they store it. *)
Lemma vec_push_back_outside (x : T) v :
  Vec.push_back (Vec.Outside x) v
  = (n ← gets Vec.length; c ← gets Vec.capacity;
     (if n =? c then Vec.resize else ret tt);;
     n ← gets Vec.length; Vec.store_data n x;;
     n' ← int (n + 1); modify (Vec.set_length n')) v.
Proof. reflexivity. Qed.

Lemma vec_insert_outside (x : T) position v :
  Vec.insert (Vec.Outside x) position v
  = (n ← gets Vec.length;
     if (position >? n) || (position <? 0) then throw_out_of_range else
     c ← gets Vec.capacity;
     (if n =? c then Vec.resize else ret tt);;
     n ← gets Vec.length;
     for_down n position (fun i _ =>
       d ← gets Vec.data; x ← Vec.load d (i - 1); Vec.store_data i x) tt;;
     Vec.store_data position x;;
     n' ← int (n + 1); modify (Vec.set_length n')) v.
Proof. reflexivity. Qed.

Lemma vec_load_middle {St} A x B i (s : St) :
  i = Z.of_nat (List.length A) ->
  Vec.load (Some (A ++ Some x :: B)) i s = Ok x s.
Proof.
  intros ->. unfold Vec.load. rewrite length_app. simpl.
  destruct (Z.leb_spec 0 (Z.of_nat (List.length A))); [|lia].
  destruct (Z.ltb_spec (Z.of_nat (List.length A))
              (Z.of_nat (List.length A + S (List.length B)))); [|lia].
  simpl. rewrite Nat2Z.id, list_lookup_middle by reflexivity. reflexivity.
Qed.

Lemma vec_store_middle {St} A c x B i (s : St) :
  i = Z.of_nat (List.length A) ->
  Vec.store (Some (A ++ c :: B)) i x s = Ok (Some (A ++ Some x :: B)) s.
Proof.
  intros ->. unfold Vec.store. rewrite length_app. simpl.
  destruct (Z.leb_spec 0 (Z.of_nat (List.length A))); [|lia].
  destruct (Z.ltb_spec (Z.of_nat (List.length A))
              (Z.of_nat (List.length A + S (List.length B)))); [|lia].
  simpl. rewrite Nat2Z.id.
  rewrite insert_app_r_alt by lia. rewrite Nat.sub_diag. reflexivity.
Qed.

Lemma vec_store_outside {St} b i x (s : St) :
  Z.of_nat (List.length b) <= i -> Vec.store (Some b) i x s = Undefined.
Proof.
  intros Hi. unfold Vec.store.
  destruct (Z.ltb_spec i (Z.of_nat (List.length b))); [lia|].
  rewrite andb_false_r. reflexivity.
Qed.

Lemma vec_store_data_middle A c x B i v :
  Vec.data v = Some (A ++ c :: B) -> i = Z.of_nat (List.length A) ->
  Vec.store_data i x v = Ok tt (Vec.set_data (Some (A ++ Some x :: B)) v).
Proof.
  intros Hd Hi. unfold Vec.store_data, bind, gets.
  rewrite Hd, (vec_store_middle _ c) by exact Hi. reflexivity.
Qed.

(** The loop of [resize] and of the copy assignment: the Vec.cells of the
    source that hold [ys] go to the same places of the new buffer. *)
Lemma vec_copy_cells {St} (getd : M St (option (list (option T)))) (s : St) ys :
  forall done rest m,
    getd s = Ok (Some ((Some <$> done ++ ys) ++ rest)) s ->
    for_range (List.length ys) (Z.of_nat (List.length done)) 1
      (fun i newData => d ← getd; x ← Vec.load d i; Vec.store newData i x)
      (Some ((Some <$> done) ++ replicate (List.length ys + m) None)) s
    = Ok (Some ((Some <$> done ++ ys) ++ replicate m None)) s.
Proof.
  induction ys as [|y ys IH]; intros done rest m Hd; simpl.
  - rewrite app_nil_r. reflexivity.
  - unfold bind at 1. unfold bind at 1. rewrite Hd.
    rewrite !fmap_app, fmap_cons, <- !app_assoc. simpl.
    unfold bind at 1.
    rewrite vec_load_middle by (rewrite length_fmap; reflexivity).
    rewrite (vec_store_middle _ None) by (rewrite length_fmap; reflexivity).
    specialize (IH (done ++ [y]) rest m).
    rewrite length_app in IH. simpl in IH.
    replace (Z.of_nat (List.length done) + 1) with (Z.of_nat (List.length done + 1)) by lia.
    rewrite !fmap_app, <- !app_assoc in IH. simpl in IH.
    apply IH.
    rewrite Hd. rewrite !fmap_app, <- !app_assoc. simpl. reflexivity.
Qed.

(** The loop of [insert]: the Vec.cells that hold [ys] move one place to the
    right, over the cell after them. *)
Lemma vec_shift_right ys :
  forall A hole B v i,
    Vec.data v = Some (A ++ (Some <$> ys) ++ hole :: B) ->
    i = Z.of_nat (List.length A + List.length ys) ->
    exists hole',
      for_range (List.length ys) i (-1)
        (fun i _ => d ← gets Vec.data; x ← Vec.load d (i - 1); Vec.store_data i x) tt v
      = Ok tt (Vec.set_data (Some (A ++ hole' :: (Some <$> ys) ++ B)) v).
Proof.
  induction ys as [|y ys IH] using rev_ind; intros A hole B v i Hd ->; simpl.
  - exists hole. unfold ret, Vec.set_data. simpl in Hd. rewrite <- Hd.
    destruct v; reflexivity.
  - rewrite length_app. simpl.
    replace (List.length ys + 1)%nat with (S (List.length ys)) by lia. simpl.
    rewrite fmap_app in Hd. simpl in Hd.
    rewrite <- app_assoc in Hd. simpl in Hd.
    unfold bind at 1. unfold bind at 1. unfold gets at 1. rewrite Hd.
    unfold bind at 1.
    rewrite (app_assoc A), vec_load_middle
      by (rewrite length_app, length_fmap; lia).
    assert (Hd' : Vec.data v = Some (((A ++ (Some <$> ys)) ++ [Some y]) ++ hole :: B))
      by (rewrite Hd, <- !app_assoc; reflexivity).
    erewrite vec_store_data_middle; [| exact Hd' | rewrite !length_app, length_fmap; simpl; lia].
    destruct (IH A (Some y) (Some y :: B)
                (Vec.set_data (Some (((A ++ (Some <$> ys)) ++ [Some y]) ++ Some y :: B)) v)
                (Z.of_nat (List.length A + S (List.length ys)) + -1))
      as [hole' Hloop].
    + simpl. rewrite <- !app_assoc. reflexivity.
    + lia.
    + exists hole'. rewrite Hloop. unfold Vec.set_data. simpl.
      rewrite fmap_app, <- !app_assoc. reflexivity.
Qed.

(** The loop of [erase]: the Vec.cells that hold [ys] move one place to the
    left, over the cell before them. *)
Lemma vec_shift_left ys :
  forall A hole B v i,
    Vec.data v = Some (A ++ hole :: (Some <$> ys) ++ B) ->
    i = Z.of_nat (List.length A) ->
    exists hole',
      for_range (List.length ys) i 1
        (fun i _ => d ← gets Vec.data; x ← Vec.load d (i + 1); Vec.store_data i x) tt v
      = Ok tt (Vec.set_data (Some (A ++ (Some <$> ys) ++ hole' :: B)) v).
Proof.
  induction ys as [|y ys IH]; intros A hole B v i Hd ->; simpl.
  - exists hole. unfold ret, Vec.set_data. simpl in Hd. rewrite <- Hd.
    destruct v; reflexivity.
  - simpl in Hd.
    assert (Hd' : Vec.data v = Some ((A ++ [hole]) ++ Some y :: (Some <$> ys) ++ B))
      by (rewrite Hd, <- !app_assoc; reflexivity).
    unfold bind at 1. unfold bind at 1. unfold gets at 1. rewrite Hd'.
    unfold bind at 1.
    rewrite vec_load_middle by (rewrite length_app; simpl; lia).
    erewrite vec_store_data_middle; [| exact Hd | reflexivity].
    destruct (IH (A ++ [Some y]) (Some y) B
                (Vec.set_data (Some (A ++ Some y :: Some y :: (Some <$> ys) ++ B)) v)
                (Z.of_nat (List.length A) + 1))
      as [hole' Hloop].
    + simpl. rewrite <- !app_assoc. reflexivity.
    + rewrite length_app. simpl. lia.
    + exists hole'. etransitivity; [exact Hloop|]. unfold Vec.set_data. simpl.
      rewrite <- !app_assoc. reflexivity.
Qed.

Lemma vec_holds_data v xs :
  Vec.holds v xs -> 0 < Vec.capacity v -> Vec.data v = Some (Vec.cells v).
Proof.
  intros (rest & Hc & Hn & Hcap & _) Hpos. unfold Vec.cells in *.
  destruct (Vec.data v) as [b|]; [reflexivity|]. simpl in Hc.
  symmetry in Hc. apply app_eq_nil in Hc as [Hxs ->].
  apply fmap_nil_inv in Hxs as ->. simpl in Hcap. lia.
Qed.

Lemma vec_resize_spec v xs m :
  Vec.holds v xs -> 2 * Vec.capacity v <= INT_MAX ->
  Z.to_nat (2 * Vec.capacity v) = (List.length xs + m)%nat ->
  Vec.resize v
  = Ok tt (Vec.mk (Some ((Some <$> xs) ++ replicate m None))
             (2 * Vec.capacity v) (Vec.length v)).
Proof.
  intros Hv Hcap Hm. pose proof Hv as (rest & Hc & Hn & Hcap' & _).
  unfold Vec.resize.
  mstep reflexivity.
  mstep (apply int_in_range; unfold INT_MIN; lia).
  mstep reflexivity. mstep reflexivity. mstep reflexivity.
  cbn [Vec.length Vec.set_capacity].
  rewrite (for_up_unfold _ _ _ _ (List.length xs)) by lia.
  unfold Vec.new_array. rewrite (Z.mul_comm (Vec.capacity v) 2), Hm.
  destruct xs as [|x xs'] eqn:Exs.
  - reflexivity.
  - rewrite <- Exs in *.
    mstep (apply (vec_copy_cells (gets Vec.data) _ xs [] rest m)).
    + unfold gets. simpl. rewrite (vec_holds_data v xs Hv), Hc; [reflexivity|].
      rewrite Hcap', Exs. simpl. lia.
    + reflexivity.
Qed.

Lemma vec_grow_spec v xs :
  Vec.holds v xs -> Vec.can_grow v ->
  exists r0 rest,
    (if Vec.length v =? Vec.capacity v then Vec.resize else ret tt) v
    = Ok tt (Vec.mk (Some ((Some <$> xs) ++ r0 :: rest)) (Vec.grown v) (Vec.length v)) /\
    Vec.grown v = Z.of_nat (List.length xs + S (List.length rest)) /\
    Vec.grown v <= INT_MAX.
Proof.
  intros Hv Hg. pose proof Hv as (rest & Hc & Hn & Hcap & Hmax).
  unfold Vec.grown. destruct (Z.eqb_spec (Vec.length v) (Vec.capacity v)) as [Hfull|Hfree].
  - destruct Hg as [Hg|[Hpos Hdbl]]; [lia|].
    exists None, (replicate (Z.to_nat (Vec.capacity v) - 1) None).
    rewrite length_replicate. split; [|lia].
    rewrite (vec_resize_spec v xs (S (Z.to_nat (Vec.capacity v) - 1))) by (assumption || lia).
    reflexivity.
  - assert (Hlt : (List.length xs < List.length xs + List.length rest)%nat).
    { destruct rest; simpl in *; lia. }
    destruct rest as [|r0 rest]; [simpl in Hlt; lia|].
    exists r0, rest. split; [|simpl in *; lia].
    unfold ret. f_equal. destruct v as [d c n]. simpl in *.
    assert (Hd : d = Some (Vec.cells (Vec.mk d c n))).
    { apply (vec_holds_data _ xs Hv). simpl. lia. }
    rewrite Hd, Hc. reflexivity.
Qed.

Lemma vec_insert_spec v xs x pos :
  Vec.holds v xs -> Vec.can_grow v -> (pos <= List.length xs)%nat ->
  exists v',
    Vec.insert (Vec.Outside x) (Z.of_nat pos) v = Ok tt v' /\
    Vec.holds v' (take pos xs ++ x :: drop pos xs) /\
    Vec.capacity v' = Vec.grown v.
Proof.
  intros Hv Hg Hpos. pose proof Hv as (_ & _ & Hn & _ & _).
  destruct (vec_grow_spec v xs Hv Hg) as (r0 & rest & Hgrow & Hcap & Hmax).
  set (v1 := Vec.mk (Some ((Some <$> xs) ++ r0 :: rest)) (Vec.grown v) (Vec.length v)) in *.
  destruct (vec_shift_right (drop pos xs) (Some <$> take pos xs) r0 rest v1 (Vec.length v))
    as [hole Hshift].
  { simpl. rewrite app_assoc, <- fmap_app, take_drop. reflexivity. }
  { rewrite length_fmap, length_take, length_drop. lia. }
  eexists. split; [|split].
  - rewrite vec_insert_outside. mstep reflexivity.
    destruct (Z.gtb_spec (Z.of_nat pos) (Vec.length v)); [lia|].
    destruct (Z.ltb_spec (Z.of_nat pos) 0); [lia|]. cbn [orb].
    mstep reflexivity. mstep (exact Hgrow). mstep reflexivity.
    cbn [Vec.length v1].
    rewrite (for_down_unfold _ _ _ _ (List.length (drop pos xs)))
      by (rewrite length_drop; lia).
    mstep (exact Hshift).
    mstep (eapply vec_store_data_middle;
           [reflexivity | rewrite length_fmap, length_take; lia]).
    mstep (apply int_in_range; unfold INT_MIN; lia).
    reflexivity.
  - exists rest. unfold Vec.cells. cbn. repeat split.
    + rewrite !fmap_app, <- !app_assoc. reflexivity.
    + rewrite Hn, length_app. simpl. rewrite length_take, length_drop. lia.
    + rewrite Hcap, length_app. simpl. rewrite length_take, length_drop. lia.
    + exact Hmax.
  - reflexivity.
Qed.

Lemma vec_insert_throw v x pos :
  pos > Vec.length v \/ pos < 0 -> Vec.insert (Vec.Outside x) pos v = Throw v.
Proof.
  intros Hpos. rewrite vec_insert_outside. unfold bind, gets.
  destruct (Z.gtb_spec pos (Vec.length v)); [reflexivity|].
  destruct (Z.ltb_spec pos 0); [reflexivity|]. lia.
Qed.

Lemma vec_erase_throw v pos :
  pos >= Vec.length v \/ pos < 0 -> Vec.erase pos v = Throw v.
Proof.
  intros Hpos. unfold Vec.erase, bind, gets.
  destruct (Z.geb_spec pos (Vec.length v)); [reflexivity|].
  destruct (Z.ltb_spec pos 0); [reflexivity|]. lia.
Qed.

Lemma vec_subscript_throw v index :
  index < 0 \/ index >= Vec.length v -> Vec.subscript index v = Throw v.
Proof.
  intros Hpos. unfold Vec.subscript, bind, gets.
  destruct (Z.ltb_spec index 0); [reflexivity|].
  destruct (Z.geb_spec index (Vec.length v)); [reflexivity|]. lia.
Qed.

Lemma vec_subscript_assign_throw v index x :
  index < 0 \/ index >= Vec.length v -> Vec.subscript_assign index x v = Throw v.
Proof.
  intros Hpos. unfold Vec.subscript_assign, bind, gets.
  destruct (Z.ltb_spec index 0); [reflexivity|].
  destruct (Z.geb_spec index (Vec.length v)); [reflexivity|]. lia.
Qed.

Lemma vec_for_range_state {St R} n (body : Z -> R -> M St R) :
  (forall i acc s a s', body i acc s = Ok a s' -> s' = s) ->
  forall i step acc s acc' s',
    for_range n i step body acc s = Ok acc' s' -> s' = s.
Proof.
  intros Hbody. induction n as [|n IH]; intros i step acc s acc' s'; simpl.
  - unfold ret. congruence.
  - unfold bind. destruct (body i acc s) as [a s1| | |] eqn:Hb; try discriminate.
    intros Hrest. apply IH in Hrest. apply Hbody in Hb. congruence.
Qed.

Lemma vec_load_state {St} (d : option (list (option T))) i (s : St) x s' :
  Vec.load d i s = Ok x s' -> s' = s.
Proof.
  unfold Vec.load. destruct d as [b|]; [|discriminate].
  destruct (_ && _); [|discriminate].
  destruct (b !! Z.to_nat i) as [[y|]|]; unfold ret, undefined; congruence.
Qed.

Lemma vec_store_state {St} (d : option (list (option T))) i y (s : St) d' s' :
  Vec.store d i y s = Ok d' s' -> s' = s.
Proof.
  unfold Vec.store. destruct d as [b|]; [|discriminate].
  destruct (_ && _); unfold ret, undefined; congruence.
Qed.

Lemma vec_resize_length v v' : Vec.resize v = Ok tt v' -> Vec.length v' = Vec.length v.
Proof.
  unfold Vec.resize. unfold bind at 1. unfold gets at 1.
  unfold bind at 1. unfold int. destruct (in_int _); [|discriminate].
  unfold ret at 1. unfold bind at 1. unfold modify at 1.
  unfold bind at 1. unfold ret at 1. unfold bind at 1. unfold gets at 1.
  unfold bind at 1.
  destruct (for_up _ _ _ _ _) as [d s1| | |] eqn:Hloop; try discriminate.
  apply vec_for_range_state in Hloop.
  - subst s1. unfold modify. intros [= <-]. reflexivity.
  - clear. intros i acc s a s'. unfold bind, gets.
    destruct (Vec.load _ _ _) as [x s1| | |] eqn:Hl; try discriminate.
    apply vec_load_state in Hl. subst s1. apply vec_store_state.
Qed.

(** [insert(x, size())] is [push_back(x)]. *)
Lemma vec_insert_at_size v x :
  0 <= Vec.length v -> Vec.insert (Vec.Outside x) (Vec.length v) v = Vec.push_back (Vec.Outside x) v.
Proof.
  intros Hn. rewrite vec_insert_outside, vec_push_back_outside. unfold bind, gets.
  destruct (Z.gtb_spec (Vec.length v) (Vec.length v)); [lia|].
  destruct (Z.ltb_spec (Vec.length v) 0); [lia|]. cbn [orb].
  destruct ((if Vec.length v =? Vec.capacity v then Vec.resize else ret tt) v)
    as [[] v1| | |] eqn:Hgrow; try reflexivity.
  assert (Hlen : Vec.length v1 = Vec.length v).
  { destruct (Vec.length v =? Vec.capacity v).
    - apply vec_resize_length; assumption.
    - injection Hgrow as <-. reflexivity. }
  rewrite Hlen. unfold for_down. rewrite Z.sub_diag. reflexivity.
Qed.

Lemma vec_erase_spec v xs pos :
  Vec.holds v xs -> (pos < List.length xs)%nat ->
  exists v',
    Vec.erase (Z.of_nat pos) v = Ok tt v' /\
    Vec.holds v' (take pos xs ++ drop (S pos) xs) /\
    Vec.capacity v' = Vec.capacity v.
Proof.
  intros Hv Hpos. pose proof Hv as (rest & Hc & Hn & Hcap & Hmax).
  destruct (lookup_lt_is_Some_2 xs pos Hpos) as [x Hx].
  assert (Hd : Vec.data v
               = Some ((Some <$> take pos xs) ++ Some x
                         :: (Some <$> drop (S pos) xs) ++ rest)).
  { rewrite (vec_holds_data v xs Hv) by lia. rewrite Hc.
    rewrite <- (take_drop_middle xs pos x Hx) at 1.
    rewrite fmap_app, fmap_cons, <- app_assoc. reflexivity. }
  destruct (vec_shift_left (drop (S pos) xs) (Some <$> take pos xs) (Some x) rest v
              (Z.of_nat pos) Hd) as [hole Hshift].
  { rewrite length_fmap, length_take. lia. }
  eexists. split; [|split].
  - unfold Vec.erase. mstep reflexivity.
    destruct (Z.geb_spec (Z.of_nat pos) (Vec.length v)); [lia|].
    destruct (Z.ltb_spec (Z.of_nat pos) 0); [lia|]. cbn [orb].
    rewrite (for_up_unfold _ _ _ _ (List.length (drop (S pos) xs)))
      by (rewrite length_drop; lia).
    mstep (exact Hshift).
    mstep (apply int_in_range; unfold INT_MIN, INT_MAX in *; lia).
    reflexivity.
  - exists (hole :: rest). unfold Vec.cells. cbn. repeat split.
    + rewrite !fmap_app, <- !app_assoc. reflexivity.
    + rewrite Hn, length_app, length_take, length_drop. lia.
    + rewrite Hcap, length_app, length_take, length_drop. simpl. lia.
    + exact Hmax.
  - reflexivity.
Qed.

Lemma vec_holds_lookup v xs i x :
  Vec.holds v xs -> xs !! i = Some x ->
  exists A B,
    Vec.data v = Some (A ++ Some x :: B) /\ List.length A = i /\
    A = (Some <$> take i xs) /\ exists rest, B = (Some <$> drop (S i) xs) ++ rest /\
    Vec.cells v = (Some <$> xs) ++ rest.
Proof.
  intros Hv Hx. pose proof Hv as (rest & Hc & Hn & Hcap & Hmax).
  pose proof (lookup_lt_Some _ _ _ Hx) as Hi.
  exists (Some <$> take i xs), ((Some <$> drop (S i) xs) ++ rest).
  split; [|split; [|split]].
  - rewrite (vec_holds_data v xs Hv) by lia. rewrite Hc.
    rewrite <- (take_drop_middle xs i x Hx) at 1.
    rewrite fmap_app, fmap_cons, <- app_assoc. reflexivity.
  - rewrite length_fmap, length_take. lia.
  - reflexivity.
  - exists rest. split; [reflexivity|exact Hc].
Qed.

Lemma vec_subscript_spec v xs i x :
  Vec.holds v xs -> xs !! i = Some x -> Vec.subscript (Z.of_nat i) v = Ok x v.
Proof.
  intros Hv Hx. pose proof Hv as (rest & Hc & Hn & Hcap & Hmax).
  pose proof (lookup_lt_Some _ _ _ Hx) as Hi.
  destruct (vec_holds_lookup v xs i x Hv Hx) as (A & B & Hd & HA & _).
  unfold Vec.subscript. mstep reflexivity.
  destruct (Z.ltb_spec (Z.of_nat i) 0); [lia|].
  destruct (Z.geb_spec (Z.of_nat i) (Vec.length v)); [lia|]. cbn [orb].
  mstep reflexivity. rewrite Hd. apply vec_load_middle. lia.
Qed.

Lemma vec_subscript_assign_spec v xs i x :
  Vec.holds v xs -> (i < List.length xs)%nat ->
  exists v',
    Vec.subscript_assign (Z.of_nat i) x v = Ok tt v' /\
    Vec.holds v' (<[i := x]> xs) /\ Vec.capacity v' = Vec.capacity v.
Proof.
  intros Hv Hi. pose proof Hv as (rest0 & Hc0 & Hn & Hcap & Hmax).
  destruct (lookup_lt_is_Some_2 xs i Hi) as [y Hy].
  destruct (vec_holds_lookup v xs i y Hv Hy) as (A & B & Hd & HA & HA' & rest & HB & Hc).
  eexists. split; [|split].
  - unfold Vec.subscript_assign. mstep reflexivity.
    destruct (Z.ltb_spec (Z.of_nat i) 0); [lia|].
    destruct (Z.geb_spec (Z.of_nat i) (Vec.length v)); [lia|]. cbn [orb].
    eapply vec_store_data_middle; [exact Hd|lia].
  - rewrite Hc in Hc0. apply app_inv_head in Hc0. subst rest0.
    exists rest. unfold Vec.cells. cbn. repeat split.
    + subst A B. rewrite app_comm_cons, app_assoc. f_equal.
      rewrite <- fmap_cons, <- fmap_app. f_equal.
      rewrite <- (take_drop_middle xs i y Hy) at 3.
      rewrite insert_app_r_alt by (rewrite length_take; lia).
      rewrite length_take. replace (i - i `min` List.length xs)%nat with 0%nat by lia.
      reflexivity.
    + rewrite length_insert. exact Hn.
    + rewrite length_insert. exact Hcap.
    + exact Hmax.
  - reflexivity.
Qed.

Lemma vec_iter_loop_spec v xs ys :
  Vec.holds v xs ->
  forall done acc,
    xs = done ++ ys ->
    Vec.iter_loop (List.length ys) (Vec.It (Z.of_nat (List.length done))) acc v
    = Ok (acc ++ ys) v.
Proof.
  intros Hv. pose proof Hv as (rest & Hc & Hn & Hcap & Hmax).
  induction ys as [|y ys IH]; intros done acc Hxs.
  - simpl. unfold Vec.end_. unfold bind, gets, ret, Vec.neq. simpl.
    rewrite Hn, Hxs, !app_nil_r, Z.eqb_refl. reflexivity.
  - simpl. unfold Vec.end_. unfold bind at 1. unfold bind at 1.
    unfold gets at 1, ret at 1. unfold Vec.neq. cbn [Vec.ptr].
    destruct (Z.eqb_spec (Z.of_nat (List.length done)) (Vec.length v)) as [Heq|_].
    { rewrite Hn, Hxs, length_app in Heq. simpl in Heq. lia. }
    cbn [negb].
    assert (Hy : xs !! List.length done = Some y).
    { rewrite Hxs. apply list_lookup_middle. reflexivity. }
    destruct (vec_holds_lookup v xs _ y Hv Hy) as (A & B & Hd & HA & _).
    mstep (unfold Vec.deref; cbn [Vec.ptr]; mstep reflexivity; rewrite Hd;
           apply vec_load_middle; lia).
    unfold Vec.incr. cbn [Vec.ptr].
    replace (Z.of_nat (List.length done) + 1)
      with (Z.of_nat (List.length (done ++ [y])))
      by (rewrite length_app; simpl; lia).
    rewrite (IH (done ++ [y]) (acc ++ [y])) by (rewrite <- app_assoc; exact Hxs).
    rewrite <- app_assoc. reflexivity.
Qed.

Lemma vec_iterate_spec v xs : Vec.holds v xs -> Vec.iterate v = Ok xs v.
Proof.
  intros Hv. pose proof Hv as (rest & Hc & Hn & Hcap & Hmax).
  unfold Vec.iterate, Vec.begin. mstep reflexivity. mstep reflexivity.
  rewrite Hn, Nat2Z.id.
  apply (vec_iter_loop_spec v xs xs Hv [] []). reflexivity.
Qed.

Lemma vec_size_spec v xs : Vec.holds v xs -> Vec.size v = Ok (Z.of_nat (List.length xs)) v.
Proof. intros (rest & Hc & Hn & Hcap & Hmax). unfold Vec.size, gets. rewrite Hn. reflexivity. Qed.

Lemma vec_print_loop `{Printable T} v xs ys :
  Vec.holds v xs ->
  forall done out,
    xs = done ++ ys ->
    bind (for_range (List.length ys) (Z.of_nat (List.length done)) 1
            (fun i out => d ← gets Vec.data; x ← Vec.load d i;
                          ret (out ++ show x ++ " ")%string) out)
         (fun out => ret (out ++ newline)%string) v
    = Ok (out ++ line ys)%string v.
Proof.
  intros Hv. induction ys as [|y ys IH]; intros done out Hxs.
  - reflexivity.
  - assert (Hy : xs !! List.length done = Some y).
    { rewrite Hxs. apply list_lookup_middle. reflexivity. }
    destruct (vec_holds_lookup v xs _ y Hv Hy) as (A & B & Hd & HA & _).
    cbn [for_range List.length]. rewrite bind_assoc.
    mstep (mstep reflexivity; rewrite Hd;
           mstep (apply vec_load_middle; lia); reflexivity).
    replace (Z.of_nat (List.length done) + 1)
      with (Z.of_nat (List.length (done ++ [y])))
      by (rewrite length_app; simpl; lia).
    rewrite (IH (done ++ [y])) by (rewrite <- app_assoc; exact Hxs).
    rewrite line_snoc. reflexivity.
Qed.

Lemma vec_print_spec `{Printable T} v xs : Vec.holds v xs -> Vec.print v = Ok (line xs) v.
Proof.
  intros Hv. pose proof Hv as (rest & Hc & Hn & Hcap & Hmax).
  unfold Vec.print. mstep reflexivity.
  rewrite (for_up_unfold _ _ _ _ (List.length xs)) by lia.
  apply (vec_print_loop v xs xs Hv [] ""%string). reflexivity.
Qed.

Lemma vec_push_back_spec v xs x :
  Vec.holds v xs -> Vec.can_grow v ->
  exists v',
    Vec.push_back (Vec.Outside x) v = Ok tt v' /\ Vec.holds v' (xs ++ [x]) /\ Vec.capacity v' = Vec.grown v.
Proof.
  intros Hv Hg. pose proof Hv as (rest & Hc & Hn & Hcap & Hmax).
  destruct (vec_insert_spec v xs x (List.length xs) Hv Hg) as (v' & Hins & Hv' & Hcap');
    [lia|].
  exists v'. rewrite <- vec_insert_at_size, Hn by lia.
  rewrite firstn_all, drop_all in Hv'. auto.
Qed.

(** A vector of capacity 0 cannot grow: [resize] doubles 0 to 0 and the
    store that follows is outside the buffer. *)
Lemma vec_insert_capacity_0 v x :
  Vec.capacity v = 0 -> Vec.length v = 0 -> Vec.insert (Vec.Outside x) 0 v = Undefined.
Proof.
  intros Hc Hn. destruct v as [d c n]. simpl in *. subst. reflexivity.
Qed.

Lemma vec_resize_overflow v :
  INT_MAX < 2 * Vec.capacity v -> Vec.resize v = Undefined.
Proof.
  intros Hc. unfold Vec.resize. mstep reflexivity.
  apply bind_Undefined, int_overflow. lia.
Qed.

Lemma vec_insert_no_growth v xs x pos :
  Vec.holds v xs -> ~ Vec.can_grow v -> 0 <= pos <= Vec.length v ->
  Vec.insert (Vec.Outside x) pos v = Undefined.
Proof.
  intros Hv Hg Hpos. pose proof Hv as (rest & Hc & Hn & Hcap & Hmax).
  unfold Vec.can_grow in Hg.
  assert (Hfull : Vec.length v = Vec.capacity v) by lia.
  rewrite vec_insert_outside. unfold bind at 1. unfold gets at 1.
  destruct (Z.gtb_spec pos (Vec.length v)); [lia|].
  destruct (Z.ltb_spec pos 0); [lia|]. cbn [orb].
  unfold bind at 1. unfold gets at 1.
  destruct (Z.eqb_spec (Vec.length v) (Vec.capacity v)); [|lia].
  destruct (Z.eq_dec (Vec.capacity v) 0) as [Hz|Hnz].
  - assert (xs = []) as -> by (destruct xs; simpl in *; [reflexivity|lia]).
    assert (pos = 0) as -> by (simpl in *; lia).
    pose proof (vec_insert_capacity_0 v x Hz ltac:(lia)) as Hu.
    rewrite vec_insert_outside in Hu. unfold bind at 1 in Hu. unfold gets at 1 in Hu.
    rewrite Hn in Hu. simpl in Hu. unfold bind at 1 in Hu. unfold gets at 1 in Hu.
    rewrite Hz in Hu. simpl in Hu. exact Hu.
  - apply bind_Undefined. apply vec_resize_overflow. lia.
Qed.

(** *** Vectors in the store *)

Lemma vec_holds_new m c xs :
  Z.to_nat c = (List.length xs + m)%nat -> 0 <= c <= INT_MAX ->
  Vec.holds (Vec.mk (Some ((Some <$> xs) ++ replicate m None)) c
               (Z.of_nat (List.length xs))) xs.
Proof.
  intros Hm Hc. exists (replicate m None). unfold Vec.cells. cbn.
  rewrite length_replicate. repeat split; lia.
Qed.

Lemma vec_holds_ctor : Vec.holds (T := T) Vec.ctor [].
Proof. exists [None]. unfold Vec.cells, INT_MAX. cbn. repeat split; lia. Qed.

Lemma vec_holds_moved_from : Vec.holds (T := T) Vec.moved_from [].
Proof. exists []. unfold Vec.cells, INT_MAX. cbn. repeat split; lia. Qed.

Lemma vec_holds_inj v xs ys : Vec.holds v xs -> Vec.holds v ys -> xs = ys.
Proof.
  intros (r1 & Hc1 & Hn1 & _) (r2 & Hc2 & Hn2 & _).
  rewrite Hc1 in Hc2. apply app_inj_1 in Hc2 as [Heq _].
  - apply (inj (fmap Some)) in Heq. exact Heq.
  - rewrite !length_fmap. lia.
Qed.

Lemma vec_take_over_spec this vect (w : gmap nat (Vec.myvector T)) o src :
  this <> vect -> w !! this = Some o -> w !! vect = Some src ->
  Vec.take_over this vect w
  = Ok tt (<[vect := Vec.moved_from]> (<[this := src]> w)).
Proof.
  intros Hne Ho Hsrc. unfold Vec.take_over.
  mstep (eapply on_gets; eassumption).
  mstep (eapply on_modify; eassumption).
  mstep (eapply on_modify; simplify_map_eq; reflexivity).
  mstep (eapply on_gets; simplify_map_eq; reflexivity).
  mstep (eapply on_modify; simplify_map_eq; reflexivity).
  mstep (eapply on_gets; simplify_map_eq; reflexivity).
  mstep (eapply on_modify; simplify_map_eq; reflexivity).
  mstep (eapply on_modify; simplify_map_eq; reflexivity).
  mstep (eapply on_modify; simplify_map_eq; reflexivity).
  etransitivity; [eapply on_modify; simplify_map_eq; reflexivity|].
  f_equal. apply map_eq. intros k.
  destruct (decide (k = vect)) as [->|]; [|destruct (decide (k = this)) as [->|]];
    simplify_map_eq; try reflexivity.
  destruct src; reflexivity.
Qed.

Lemma vec_move_assign_spec this vect (w : gmap nat (Vec.myvector T)) o src :
  this <> vect -> w !! this = Some o -> w !! vect = Some src ->
  Vec.move_assign this vect w
  = Ok tt (<[vect := Vec.moved_from]> (<[this := src]> w)).
Proof.
  intros Hne Ho Hsrc. unfold Vec.move_assign.
  destruct (decide (this = vect)); [contradiction|].
  eapply vec_take_over_spec; eassumption.
Qed.

Lemma vec_move_ctor_spec this vect (w : gmap nat (Vec.myvector T)) src :
  this <> vect -> w !! vect = Some src ->
  Vec.move_ctor this vect w
  = Ok tt (<[vect := Vec.moved_from]> (<[this := src]> w)).
Proof.
  intros Hne Hsrc. unfold Vec.move_ctor. mstep reflexivity.
  erewrite vec_take_over_spec; [| exact Hne | apply lookup_insert_eq
                                | rewrite lookup_insert_ne by exact Hne; exact Hsrc].
  rewrite insert_insert_eq. reflexivity.
Qed.

Lemma vec_copy_assign_spec this vect (w : gmap nat (Vec.myvector T)) o src xs :
  this <> vect -> w !! this = Some o -> w !! vect = Some src -> Vec.holds src xs ->
  Vec.copy_assign this vect w
  = Ok tt (<[this := Vec.mk (Some ((Some <$> xs)
                               ++ replicate (Z.to_nat (Vec.capacity src) - List.length xs) None))
                       (Vec.capacity src) (Vec.length src)]> w).
Proof.
  intros Hne Ho Hsrc Hv. pose proof Hv as (rest & Hc & Hn & Hcap & Hmax).
  unfold Vec.copy_assign. destruct (decide (this = vect)); [contradiction|].
  mstep (eapply on_gets; eassumption).
  mstep reflexivity.
  mstep (eapply on_gets; eassumption).
  rewrite (for_up_unfold _ _ _ _ (List.length xs)) by lia.
  unfold Vec.new_array.
  set (m := (Z.to_nat (Vec.capacity src) - List.length xs)%nat).
  assert (Hm : Z.to_nat (Vec.capacity src) = (List.length xs + m)%nat) by lia.
  rewrite Hm.
  assert (Hloop :
    for_range (List.length xs) 0 1
      (fun i newData =>
         d ← on vect (gets Vec.data); x ← Vec.load d i; Vec.store newData i x)
      (Some (replicate (List.length xs + m) None)) w
    = Ok (Some ((Some <$> xs) ++ replicate m None)) w).
  { destruct xs as [|x xs'] eqn:Exs; [reflexivity|]. rewrite <- Exs in *.
    apply (vec_copy_cells (on vect (gets Vec.data)) w xs [] rest m).
    erewrite on_gets by eassumption. simpl.
    rewrite (vec_holds_data src xs Hv), Hc; [reflexivity|].
    rewrite Hcap, Exs. simpl. lia. }
  mstep (exact Hloop).
  mstep (eapply on_modify; eassumption).
  mstep (eapply on_gets; simplify_map_eq; reflexivity).
  mstep (eapply on_modify; simplify_map_eq; reflexivity).
  mstep (eapply on_gets; simplify_map_eq; reflexivity).
  etransitivity; [eapply on_modify; simplify_map_eq; reflexivity|].
  rewrite !insert_insert_eq. reflexivity.
Qed.

(** *** What a normal end tells *)

Lemma vec_can_grow_dec v : Vec.can_grow v \/ ~ Vec.can_grow v.
Proof. unfold Vec.can_grow. lia. Qed.

Lemma vec_insert_inv v xs x pos v' :
  Vec.holds v xs -> Vec.insert (Vec.Outside x) pos v = Ok tt v' ->
  exists p, pos = Z.of_nat p /\ (p <= List.length xs)%nat /\
    Vec.holds v' (take p xs ++ x :: drop p xs) /\
    Vec.can_grow v /\ Vec.capacity v' = Vec.grown v.
Proof.
  intros Hv Hins. pose proof Hv as (rest & Hc & Hn & Hcap & Hmax).
  destruct (Z_lt_dec pos 0) as [Hneg|Hnn].
  { rewrite vec_insert_throw in Hins by lia. discriminate. }
  destruct (Z_gt_dec pos (Vec.length v)) as [Hbig|Hle].
  { rewrite vec_insert_throw in Hins by lia. discriminate. }
  destruct (vec_can_grow_dec v) as [Hg|Hg].
  - exists (Z.to_nat pos). rewrite Z2Nat.id by lia.
    destruct (vec_insert_spec v xs x (Z.to_nat pos) Hv Hg) as (v'' & Hins' & Hv'' & Hcap'');
      [lia|].
    rewrite Z2Nat.id in Hins' by lia. rewrite Hins' in Hins. injection Hins as <-.
    repeat split; (assumption || lia).
  - rewrite (vec_insert_no_growth v xs) in Hins by (assumption || lia). discriminate.
Qed.

Lemma vec_push_back_inv v xs x v' :
  Vec.holds v xs -> Vec.push_back (Vec.Outside x) v = Ok tt v' ->
  Vec.holds v' (xs ++ [x]) /\ Vec.can_grow v /\ Vec.capacity v' = Vec.grown v.
Proof.
  intros Hv Hpush. pose proof Hv as (rest & Hc & Hn & Hcap & Hmax).
  rewrite <- vec_insert_at_size in Hpush by lia.
  destruct (vec_insert_inv v xs x _ v' Hv Hpush) as (p & Hp & Hle & Hv' & Hg & Hcap').
  assert (p = List.length xs) as -> by lia.
  rewrite firstn_all, drop_all in Hv'. auto.
Qed.

Lemma vec_erase_inv v xs pos v' :
  Vec.holds v xs -> Vec.erase pos v = Ok tt v' ->
  exists p, pos = Z.of_nat p /\ (p < List.length xs)%nat /\
    Vec.holds v' (take p xs ++ drop (S p) xs) /\ Vec.capacity v' = Vec.capacity v.
Proof.
  intros Hv Hers. pose proof Hv as (rest & Hc & Hn & Hcap & Hmax).
  destruct (Z_lt_dec pos 0) as [Hneg|Hnn].
  { rewrite vec_erase_throw in Hers by lia. discriminate. }
  destruct (Z_ge_dec pos (Vec.length v)) as [Hbig|Hle].
  { rewrite vec_erase_throw in Hers by lia. discriminate. }
  exists (Z.to_nat pos). rewrite Z2Nat.id by lia.
  destruct (vec_erase_spec v xs (Z.to_nat pos) Hv) as (v'' & Hers' & Hv'' & Hcap''); [lia|].
  rewrite Z2Nat.id in Hers' by lia. rewrite Hers' in Hers. injection Hers as <-.
  repeat split; (assumption || lia).
Qed.

Lemma vec_subscript_assign_inv v xs index x v' :
  Vec.holds v xs -> Vec.subscript_assign index x v = Ok tt v' ->
  exists i, index = Z.of_nat i /\ (i < List.length xs)%nat /\
    Vec.holds v' (<[i := x]> xs) /\ Vec.capacity v' = Vec.capacity v.
Proof.
  intros Hv Hass. pose proof Hv as (rest & Hc & Hn & Hcap & Hmax).
  destruct (Z_lt_dec index 0) as [Hneg|Hnn].
  { rewrite vec_subscript_assign_throw in Hass by lia. discriminate. }
  destruct (Z_ge_dec index (Vec.length v)) as [Hbig|Hle].
  { rewrite vec_subscript_assign_throw in Hass by lia. discriminate. }
  exists (Z.to_nat index). rewrite Z2Nat.id by lia.
  destruct (vec_subscript_assign_spec v xs (Z.to_nat index) x Hv)
    as (v'' & Hass' & Hv'' & Hcap''); [lia|].
  rewrite Z2Nat.id in Hass' by lia. rewrite Hass' in Hass. injection Hass as <-.
  repeat split; (assumption || lia).
Qed.

(** An exception leaves the vector as it was. *)
Lemma vec_insert_Throw_inv v xs x pos v' :
  Vec.holds v xs -> Vec.insert (Vec.Outside x) pos v = Throw v' -> v' = v.
Proof.
  intros Hv Hins. pose proof Hv as (rest & Hc & Hn & Hcap & Hmax).
  destruct (Z_lt_dec pos 0) as [Hneg|Hnn].
  { rewrite vec_insert_throw in Hins by lia. congruence. }
  destruct (Z_gt_dec pos (Vec.length v)) as [Hbig|Hle].
  { rewrite vec_insert_throw in Hins by lia. congruence. }
  destruct (vec_can_grow_dec v) as [Hg|Hg].
  - destruct (vec_insert_spec v xs x (Z.to_nat pos) Hv Hg) as (v'' & Hins' & _); [lia|].
    rewrite Z2Nat.id in Hins' by lia. congruence.
  - rewrite (vec_insert_no_growth v xs) in Hins by (assumption || lia). discriminate.
Qed.

Lemma vec_push_back_Throw_inv v xs x v' :
  Vec.holds v xs -> Vec.push_back (Vec.Outside x) v = Throw v' -> v' = v.
Proof.
  intros Hv Hpush. pose proof Hv as (rest & Hc & Hn & Hcap & Hmax).
  rewrite <- vec_insert_at_size in Hpush by lia.
  eapply vec_insert_Throw_inv; eassumption.
Qed.

Lemma vec_erase_Throw_inv v xs pos v' :
  Vec.holds v xs -> Vec.erase pos v = Throw v' -> v' = v.
Proof.
  intros Hv Hers. pose proof Hv as (rest & Hc & Hn & Hcap & Hmax).
  destruct (Z_lt_dec pos 0) as [Hneg|Hnn].
  { rewrite vec_erase_throw in Hers by lia. congruence. }
  destruct (Z_ge_dec pos (Vec.length v)) as [Hbig|Hle].
  { rewrite vec_erase_throw in Hers by lia. congruence. }
  destruct (vec_erase_spec v xs (Z.to_nat pos) Hv) as (v'' & Hers' & _); [lia|].
  rewrite Z2Nat.id in Hers' by lia. congruence.
Qed.

Lemma vec_subscript_assign_Throw_inv v xs index x v' :
  Vec.holds v xs -> Vec.subscript_assign index x v = Throw v' -> v' = v.
Proof.
  intros Hv Hass. pose proof Hv as (rest & Hc & Hn & Hcap & Hmax).
  destruct (Z_lt_dec index 0) as [Hneg|Hnn].
  { rewrite vec_subscript_assign_throw in Hass by lia. congruence. }
  destruct (Z_ge_dec index (Vec.length v)) as [Hbig|Hle].
  { rewrite vec_subscript_assign_throw in Hass by lia. congruence. }
  destruct (vec_subscript_assign_spec v xs (Z.to_nat index) x Hv) as (v'' & Hass' & _);
    [lia|].
  rewrite Z2Nat.id in Hass' by lia. congruence.
Qed.
End facts.
End VecFacts.

Module SListFacts.
Section facts.
Context {T : Type}.
Implicit Types (c : SList.Node T) (h : option (SList.Node T))
  (l : SList.slist T) (xs ys : list T).

Lemma sl_Node_ind (P : SList.Node T -> Prop) :
  (forall v, P (SList.mkNode v None)) ->
  (forall v n, P n -> P (SList.mkNode v (Some n))) ->
  forall c, P c.
Proof.
  intros Hlast Hstep. fix IH 1. intros [v [n|]].
  - apply Hstep, IH.
  - apply Hlast.
Qed.

Lemma sl_depth_values c : SList.depth c = List.length (SList.values c).
Proof.
  induction c as [v|v n IH] using sl_Node_ind; simpl; [reflexivity|].
  rewrite IH. reflexivity.
Qed.

Lemma sl_chain_elements h : SList.chain_of (SList.elements h) = h.
Proof.
  destruct h as [c|]; [|reflexivity]. simpl.
  induction c as [v|v n IH] using sl_Node_ind; simpl; [reflexivity|].
  simpl in IH. rewrite IH. reflexivity.
Qed.

Lemma sl_elements_chain xs : SList.elements (SList.chain_of xs) = xs.
Proof.
  induction xs as [|x xs IH]; [reflexivity|]. simpl.
  destruct (SList.chain_of xs) as [c|]; simpl in *; f_equal; exact IH.
Qed.

Lemma sl_elements_eq h xs : SList.elements h = xs -> h = SList.chain_of xs.
Proof. intros <-. symmetry. apply sl_chain_elements. Qed.

Lemma sl_attach_last_chain x y xs :
  SList.attach_last (SList.mkNode y None) (SList.mkNode x (SList.chain_of xs))
  = SList.mkNode x (SList.chain_of (xs ++ [y])).
Proof.
  revert x. induction xs as [|x' xs IH]; intros x; [reflexivity|].
  change (SList.mkNode x (Some (SList.attach_last (SList.mkNode y None)
                                   (SList.mkNode x' (SList.chain_of xs))))
          = SList.mkNode x (SList.chain_of ((x' :: xs) ++ [y]))).
  rewrite IH. reflexivity.
Qed.

Lemma sl_update_at_insert {St} xs x k (s : St) :
  (k < List.length xs)%nat ->
  SList.update_at k
    (fun cur => ret (SList.mkNode (SList.value cur)
                       (Some (SList.mkNode x (SList.next cur))))) (SList.chain_of xs) s
  = Ok (SList.chain_of (take (S k) xs ++ x :: drop (S k) xs)) s.
Proof.
  revert k. induction xs as [|x' xs IH]; intros k Hk; simpl in Hk; [lia|].
  destruct k as [|k].
  - reflexivity.
  - cbn [SList.chain_of SList.update_at SList.next SList.value].
    mstep (apply IH; lia). reflexivity.
Qed.

Lemma sl_update_at_erase {St} xs k (s : St) :
  (S k < List.length xs)%nat ->
  SList.update_at k
    (fun cur =>
       match SList.next cur with
       | None => undefined
       | Some gone => ret (SList.mkNode (SList.value cur) (SList.next gone))
       end) (SList.chain_of xs) s
  = Ok (SList.chain_of (take (S k) xs ++ drop (S (S k)) xs)) s.
Proof.
  revert k. induction xs as [|x' xs IH]; intros k Hk; simpl in Hk; [lia|].
  destruct k as [|k].
  - destruct xs as [|x'' xs]; simpl in Hk; [lia|]. reflexivity.
  - cbn [SList.chain_of SList.update_at SList.next SList.value].
    mstep (apply IH; lia). reflexivity.
Qed.

Lemma sl_update_at_assign {St} xs x k (s : St) :
  (k < List.length xs)%nat ->
  SList.update_at k (fun c => ret (SList.mkNode x (SList.next c))) (SList.chain_of xs) s
  = Ok (SList.chain_of (<[k := x]> xs)) s.
Proof.
  revert k. induction xs as [|x' xs IH]; intros k Hk; simpl in Hk; [lia|].
  destruct k as [|k].
  - reflexivity.
  - cbn [SList.chain_of SList.update_at SList.next SList.value].
    mstep (apply IH; lia). reflexivity.
Qed.

Lemma sl_node_at {St} xs x k (s : St) :
  xs !! k = Some x ->
  exists c, SList.node_at k (SList.chain_of xs) s = Ok c s /\ SList.value c = x.
Proof.
  revert k. induction xs as [|x' xs IH]; intros k Hk; [discriminate|].
  destruct k as [|k].
  - injection Hk as <-. eexists. split; reflexivity.
  - apply IH. exact Hk.
Qed.

Lemma sl_holds_eq l xs :
  SList.holds l xs -> l = SList.mk (SList.chain_of xs) (Z.of_nat (List.length xs)).
Proof.
  intros (He & Hn & _). destruct l as [h n]. simpl in *.
  rewrite (sl_elements_eq h xs He), Hn. reflexivity.
Qed.

Lemma sl_holds_mk xs :
  Z.of_nat (List.length xs) <= INT_MAX ->
  SList.holds (SList.mk (SList.chain_of xs) (Z.of_nat (List.length xs))) xs.
Proof. intros Hn. split; [apply sl_elements_chain|split; [reflexivity|exact Hn]]. Qed.

Lemma sl_holds_inj l xs ys : SList.holds l xs -> SList.holds l ys -> xs = ys.
Proof. intros (He & _) (He' & _). congruence. Qed.

Lemma sl_holds_ctor : SList.holds (T := T) SList.ctor [].
Proof. unfold SList.holds, INT_MAX. simpl. repeat split; lia. Qed.

Lemma sl_incr_length h n :
  0 <= n < INT_MAX ->
  SList.incr_length (SList.mk h n) = Ok tt (SList.mk h (n + 1)).
Proof.
  intros Hn. unfold SList.incr_length. mstep reflexivity.
  mstep (apply int_in_range; unfold INT_MIN; simpl; lia). reflexivity.
Qed.

Lemma sl_incr_length_overflow h n :
  INT_MAX <= n -> SList.incr_length (SList.mk h n) = Undefined.
Proof.
  intros Hn. unfold SList.incr_length. mstep reflexivity.
  apply bind_Undefined, int_overflow. simpl. lia.
Qed.

Lemma sl_decr_length h n :
  0 < n <= INT_MAX ->
  SList.decr_length (SList.mk h n) = Ok tt (SList.mk h (n - 1)).
Proof.
  intros Hn. unfold SList.decr_length. mstep reflexivity.
  mstep (apply int_in_range; unfold INT_MIN; simpl; lia). reflexivity.
Qed.

Lemma sl_push_back_run l xs x :
  SList.holds l xs ->
  SList.push_back x l
  = SList.incr_length (SList.mk (SList.chain_of (xs ++ [x])) (SList.length l)).
Proof.
  intros Hv. rewrite (sl_holds_eq l xs Hv). unfold SList.push_back.
  mstep reflexivity. mstep reflexivity. cbn [SList.head SList.length].
  destruct xs as [|x' xs]; cbn [SList.chain_of].
  - mstep reflexivity. reflexivity.
  - mstep reflexivity. unfold SList.set_head. cbn [SList.length].
    rewrite sl_attach_last_chain. reflexivity.
Qed.

Lemma sl_insert_run l xs x pos :
  SList.holds l xs -> (pos <= List.length xs)%nat ->
  SList.insert x (Z.of_nat pos) l
  = SList.incr_length
      (SList.mk (SList.chain_of (take pos xs ++ x :: drop pos xs)) (SList.length l)).
Proof.
  intros Hv Hpos. rewrite (sl_holds_eq l xs Hv). unfold SList.insert.
  mstep reflexivity. cbn [SList.length].
  destruct (Z.gtb_spec (Z.of_nat pos) (Z.of_nat (List.length xs))); [lia|].
  destruct (Z.ltb_spec (Z.of_nat pos) 0); [lia|]. cbn [orb].
  mstep reflexivity. cbn [SList.head].
  destruct pos as [|pos].
  - simpl. mstep reflexivity. reflexivity.
  - destruct (Z.eqb_spec (Z.of_nat (S pos)) 0); [lia|].
    replace (Z.to_nat (Z.of_nat (S pos) - 1)) with pos by lia.
    mstep (apply sl_update_at_insert; lia).
    mstep reflexivity. reflexivity.
Qed.

Lemma sl_insert_at_size l xs x :
  SList.holds l xs -> SList.insert x (SList.length l) l = SList.push_back x l.
Proof.
  intros Hv. pose proof Hv as (_ & Hn & _).
  rewrite Hn, (sl_insert_run l xs x _ Hv), (sl_push_back_run l xs x Hv) by lia.
  rewrite firstn_all, drop_all. reflexivity.
Qed.

Lemma sl_insert_spec l xs x pos :
  SList.holds l xs -> (pos <= List.length xs)%nat -> SList.length l < INT_MAX ->
  exists l',
    SList.insert x (Z.of_nat pos) l = Ok tt l' /\
    SList.holds l' (take pos xs ++ x :: drop pos xs).
Proof.
  intros Hv Hpos Hmax. pose proof Hv as (_ & Hn & _).
  rewrite (sl_insert_run l xs x pos Hv Hpos), sl_incr_length by lia.
  eexists. split; [reflexivity|].
  assert (Hlen : List.length (take pos xs ++ x :: drop pos xs) = S (List.length xs)).
  { rewrite length_app, length_take. simpl. rewrite length_drop. lia. }
  replace (SList.length l + 1) with
    (Z.of_nat (List.length (take pos xs ++ x :: drop pos xs))) by lia.
  apply sl_holds_mk. lia.
Qed.

Lemma sl_push_back_spec l xs x :
  SList.holds l xs -> SList.length l < INT_MAX ->
  exists l', SList.push_back x l = Ok tt l' /\ SList.holds l' (xs ++ [x]).
Proof.
  intros Hv Hmax. pose proof Hv as (_ & Hn & _).
  destruct (sl_insert_spec l xs x (List.length xs) Hv) as (l' & Hins & Hv'); [lia..|].
  exists l'. rewrite <- (sl_insert_at_size l xs x Hv), Hn.
  rewrite firstn_all, drop_all in Hv'. auto.
Qed.

Lemma sl_insert_overflow l xs x pos :
  SList.holds l xs -> (pos <= List.length xs)%nat -> INT_MAX <= SList.length l ->
  SList.insert x (Z.of_nat pos) l = Undefined.
Proof.
  intros Hv Hpos Hmax.
  rewrite (sl_insert_run l xs x pos Hv Hpos). apply sl_incr_length_overflow. exact Hmax.
Qed.

Lemma sl_insert_throw l x pos :
  pos > SList.length l \/ pos < 0 -> SList.insert x pos l = Throw l.
Proof.
  intros Hpos. unfold SList.insert, bind, gets.
  destruct (Z.gtb_spec pos (SList.length l)); [reflexivity|].
  destruct (Z.ltb_spec pos 0); [reflexivity|]. lia.
Qed.

Lemma sl_erase_throw l pos :
  pos >= SList.length l \/ pos < 0 -> SList.erase pos l = Throw l.
Proof.
  intros Hpos. unfold SList.erase, bind, gets.
  destruct (Z.geb_spec pos (SList.length l)); [reflexivity|].
  destruct (Z.ltb_spec pos 0); [reflexivity|]. lia.
Qed.

Lemma sl_subscript_throw l index :
  index < 0 \/ index >= SList.length l -> SList.subscript index l = Throw l.
Proof.
  intros Hpos. unfold SList.subscript, bind, gets.
  destruct (Z.ltb_spec index 0); [reflexivity|].
  destruct (Z.geb_spec index (SList.length l)); [reflexivity|]. lia.
Qed.

Lemma sl_subscript_assign_throw l index x :
  index < 0 \/ index >= SList.length l -> SList.subscript_assign index x l = Throw l.
Proof.
  intros Hpos. unfold SList.subscript_assign, bind, gets.
  destruct (Z.ltb_spec index 0); [reflexivity|].
  destruct (Z.geb_spec index (SList.length l)); [reflexivity|]. lia.
Qed.

Lemma sl_erase_spec l xs pos :
  SList.holds l xs -> (pos < List.length xs)%nat ->
  exists l',
    SList.erase (Z.of_nat pos) l = Ok tt l' /\
    SList.holds l' (take pos xs ++ drop (S pos) xs).
Proof.
  intros Hv Hpos. pose proof Hv as (_ & Hn & Hmax).
  rewrite (sl_holds_eq l xs Hv) in *. cbn [SList.length] in *.
  assert (Hlen : List.length (take pos xs ++ drop (S pos) xs)
                 = (List.length xs - 1)%nat).
  { rewrite length_app, length_take, length_drop. lia. }
  exists (SList.mk (SList.chain_of (take pos xs ++ drop (S pos) xs))
            (Z.of_nat (List.length (take pos xs ++ drop (S pos) xs)))).
  split; [|apply sl_holds_mk; lia].
  unfold SList.erase. mstep reflexivity. cbn [SList.length].
  destruct (Z.geb_spec (Z.of_nat pos) (Z.of_nat (List.length xs))); [lia|].
  destruct (Z.ltb_spec (Z.of_nat pos) 0); [lia|]. cbn [orb].
  mstep reflexivity. cbn [SList.head].
  destruct pos as [|pos].
  - destruct xs as [|x xs]; simpl in Hpos; [lia|]. simpl. simpl in Hmax.
    mstep reflexivity. unfold SList.set_head. cbn [SList.next SList.length].
    rewrite sl_decr_length by lia. rewrite drop_0. repeat f_equal. lia.
  - destruct (Z.eqb_spec (Z.of_nat (S pos)) 0); [lia|].
    replace (Z.to_nat (Z.of_nat (S pos) - 1)) with pos by lia.
    mstep (apply sl_update_at_erase; lia).
    mstep reflexivity. unfold SList.set_head. cbn [SList.length].
    rewrite sl_decr_length by lia. rewrite Hlen. repeat f_equal. lia.
Qed.

Lemma sl_subscript_spec l xs i x :
  SList.holds l xs -> xs !! i = Some x -> SList.subscript (Z.of_nat i) l = Ok x l.
Proof.
  intros Hv Hx. pose proof Hv as (_ & Hn & Hmax).
  pose proof (lookup_lt_Some _ _ _ Hx) as Hi.
  unfold SList.subscript. mstep reflexivity.
  destruct (Z.ltb_spec (Z.of_nat i) 0); [lia|].
  destruct (Z.geb_spec (Z.of_nat i) (SList.length l)); [lia|]. cbn [orb].
  mstep reflexivity. rewrite Nat2Z.id.
  destruct (sl_node_at xs x i l Hx) as (c & Hc & Hval).
  rewrite (sl_holds_eq l xs Hv) at 1. cbn [SList.head].
  mstep (exact Hc). rewrite Hval. reflexivity.
Qed.

Lemma sl_subscript_assign_spec l xs i x :
  SList.holds l xs -> (i < List.length xs)%nat ->
  exists l',
    SList.subscript_assign (Z.of_nat i) x l = Ok tt l' /\
    SList.holds l' (<[i := x]> xs).
Proof.
  intros Hv Hi. pose proof Hv as (_ & Hn & Hmax).
  rewrite (sl_holds_eq l xs Hv) in *. cbn [SList.length] in *.
  exists (SList.mk (SList.chain_of (<[i := x]> xs))
            (Z.of_nat (List.length (<[i := x]> xs)))).
  split; [|apply sl_holds_mk; rewrite length_insert; lia].
  unfold SList.subscript_assign. mstep reflexivity. cbn [SList.length].
  destruct (Z.ltb_spec (Z.of_nat i) 0); [lia|].
  destruct (Z.geb_spec (Z.of_nat i) (Z.of_nat (List.length xs))); [lia|]. cbn [orb].
  mstep reflexivity. rewrite Nat2Z.id. cbn [SList.head].
  mstep (apply sl_update_at_assign; lia).
  rewrite length_insert. reflexivity.
Qed.

Lemma sl_size_spec l xs :
  SList.holds l xs -> SList.size l = Ok (Z.of_nat (List.length xs)) l.
Proof. intros (_ & Hn & _). unfold SList.size, gets. rewrite Hn. reflexivity. Qed.

Lemma sl_iter_loop xs l :
  forall acc fuel,
    (List.length xs <= fuel)%nat ->
    SList.iter_loop fuel (SList.It (SList.chain_of xs)) acc l = Ok (acc ++ xs) l.
Proof.
  induction xs as [|x xs IH]; intros acc fuel Hfuel.
  - destruct fuel; simpl; rewrite app_nil_r; reflexivity.
  - destruct fuel as [|fuel]; simpl in Hfuel; [lia|].
    simpl. unfold SList.end_. unfold bind at 1. unfold ret at 1.
    unfold SList.neq. cbn [SList.ptr SList.chain_of].
    unfold SList.deref. cbn [SList.ptr]. unfold bind at 1. unfold ret at 1.
    unfold SList.incr. cbn [SList.ptr SList.next SList.value].
    rewrite IH by lia. rewrite <- app_assoc. reflexivity.
Qed.

Lemma sl_iterate_spec l xs : SList.holds l xs -> SList.iterate l = Ok xs l.
Proof.
  intros Hv. rewrite (sl_holds_eq l xs Hv) at 1.
  unfold SList.iterate, SList.begin.
  rewrite bind_assoc. mstep reflexivity. mstep reflexivity.
  cbn [SList.head SList.ptr].
  rewrite sl_iter_loop.
  - rewrite <- (sl_holds_eq l xs Hv). reflexivity.
  - destruct (SList.chain_of xs) as [c|] eqn:Hc; [|destruct xs; [simpl; lia|discriminate]].
    rewrite sl_depth_values. change (SList.values c) with (SList.elements (Some c)).
    rewrite <- Hc, sl_elements_chain. lia.
Qed.

Lemma sl_print_from `{Printable T} x xs (out : string) :
  (SList.print_from (SList.mkNode x (SList.chain_of xs)) out ++ newline
   = out ++ line (x :: xs))%string.
Proof.
  revert x out. induction xs as [|x' xs IH]; intros x out.
  - cbn [SList.chain_of SList.print_from SList.next]. unfold SList.print_step.
    cbn [SList.value line]. rewrite !append_assoc. reflexivity.
  - change ((SList.print_from (SList.mkNode x' (SList.chain_of xs))
               (SList.print_step (SList.mkNode x (SList.chain_of (x' :: xs))) out)
             ++ newline)%string = (out ++ line (x :: x' :: xs))%string).
    rewrite IH. unfold SList.print_step. cbn [SList.value]. apply line_snoc.
Qed.

Lemma sl_print_spec `{Printable T} l xs :
  SList.holds l xs -> SList.print l = Ok (line xs) l.
Proof.
  intros Hv. rewrite (sl_holds_eq l xs Hv) at 1.
  unfold SList.print. mstep reflexivity. mstep reflexivity. cbn [SList.head].
  rewrite <- (sl_holds_eq l xs Hv). unfold ret. f_equal.
  destruct xs as [|x xs]; [reflexivity|]. apply (sl_print_from x xs ""%string).
Qed.

(** *** What a normal end tells *)

Lemma sl_insert_inv l xs x pos l' :
  SList.holds l xs -> SList.insert x pos l = Ok tt l' ->
  exists p, pos = Z.of_nat p /\ (p <= List.length xs)%nat /\
    SList.holds l' (take p xs ++ x :: drop p xs) /\ SList.length l < INT_MAX.
Proof.
  intros Hv Hins. pose proof Hv as (_ & Hn & Hmax).
  destruct (Z_lt_dec pos 0) as [Hneg|Hnn].
  { rewrite sl_insert_throw in Hins by lia. discriminate. }
  destruct (Z_gt_dec pos (SList.length l)) as [Hbig|Hle].
  { rewrite sl_insert_throw in Hins by lia. discriminate. }
  exists (Z.to_nat pos). rewrite Z2Nat.id by lia.
  destruct (Z_lt_dec (SList.length l) INT_MAX) as [Hroom|Hfull].
  - destruct (sl_insert_spec l xs x (Z.to_nat pos) Hv) as (l'' & Hins' & Hv''); [lia..|].
    rewrite Z2Nat.id in Hins' by lia. rewrite Hins' in Hins. injection Hins as <-.
    repeat (split; [first [assumption | lia]|]); first [assumption | lia].
  - rewrite <- (Z2Nat.id pos), (sl_insert_overflow l xs) in Hins by (assumption || lia).
    discriminate.
Qed.

Lemma sl_push_back_inv l xs x l' :
  SList.holds l xs -> SList.push_back x l = Ok tt l' ->
  SList.holds l' (xs ++ [x]) /\ SList.length l < INT_MAX.
Proof.
  intros Hv Hpush. pose proof Hv as (_ & Hn & Hmax).
  rewrite <- (sl_insert_at_size l xs x Hv) in Hpush.
  destruct (sl_insert_inv l xs x _ l' Hv Hpush) as (p & Hp & Hle & Hv' & Hroom).
  assert (p = List.length xs) as -> by lia.
  rewrite firstn_all, drop_all in Hv'. auto.
Qed.

Lemma sl_erase_inv l xs pos l' :
  SList.holds l xs -> SList.erase pos l = Ok tt l' ->
  exists p, pos = Z.of_nat p /\ (p < List.length xs)%nat /\
    SList.holds l' (take p xs ++ drop (S p) xs).
Proof.
  intros Hv Hers. pose proof Hv as (_ & Hn & Hmax).
  destruct (Z_lt_dec pos 0) as [Hneg|Hnn].
  { rewrite sl_erase_throw in Hers by lia. discriminate. }
  destruct (Z_ge_dec pos (SList.length l)) as [Hbig|Hle].
  { rewrite sl_erase_throw in Hers by lia. discriminate. }
  exists (Z.to_nat pos). rewrite Z2Nat.id by lia.
  destruct (sl_erase_spec l xs (Z.to_nat pos) Hv) as (l'' & Hers' & Hv''); [lia|].
  rewrite Z2Nat.id in Hers' by lia. rewrite Hers' in Hers. injection Hers as <-.
  repeat (split; [first [assumption | lia]|]); first [assumption | lia].
Qed.

Lemma sl_subscript_assign_inv l xs index x l' :
  SList.holds l xs -> SList.subscript_assign index x l = Ok tt l' ->
  exists i, index = Z.of_nat i /\ (i < List.length xs)%nat /\
    SList.holds l' (<[i := x]> xs).
Proof.
  intros Hv Hass. pose proof Hv as (_ & Hn & Hmax).
  destruct (Z_lt_dec index 0) as [Hneg|Hnn].
  { rewrite sl_subscript_assign_throw in Hass by lia. discriminate. }
  destruct (Z_ge_dec index (SList.length l)) as [Hbig|Hle].
  { rewrite sl_subscript_assign_throw in Hass by lia. discriminate. }
  exists (Z.to_nat index). rewrite Z2Nat.id by lia.
  destruct (sl_subscript_assign_spec l xs (Z.to_nat index) x Hv) as (l'' & Hass' & Hv'');
    [lia|].
  rewrite Z2Nat.id in Hass' by lia. rewrite Hass' in Hass. injection Hass as <-.
  repeat (split; [first [assumption | lia]|]); first [assumption | lia].
Qed.

Lemma sl_insert_Throw_inv l xs x pos l' :
  SList.holds l xs -> SList.insert x pos l = Throw l' -> l' = l.
Proof.
  intros Hv Hins. pose proof Hv as (_ & Hn & Hmax).
  destruct (Z_lt_dec pos 0) as [Hneg|Hnn].
  { rewrite sl_insert_throw in Hins by lia. congruence. }
  destruct (Z_gt_dec pos (SList.length l)) as [Hbig|Hle].
  { rewrite sl_insert_throw in Hins by lia. congruence. }
  rewrite <- (Z2Nat.id pos), (sl_insert_run l xs) in Hins by (assumption || lia).
  destruct (Z_lt_dec (SList.length l) INT_MAX) as [Hroom|Hfull].
  - rewrite sl_incr_length in Hins by lia. discriminate.
  - rewrite sl_incr_length_overflow in Hins by lia. discriminate.
Qed.

Lemma sl_push_back_Throw_inv l xs x l' :
  SList.holds l xs -> SList.push_back x l = Throw l' -> l' = l.
Proof.
  intros Hv Hpush. rewrite <- (sl_insert_at_size l xs x Hv) in Hpush.
  eapply sl_insert_Throw_inv; eassumption.
Qed.

Lemma sl_erase_Throw_inv l xs pos l' :
  SList.holds l xs -> SList.erase pos l = Throw l' -> l' = l.
Proof.
  intros Hv Hers. pose proof Hv as (_ & Hn & Hmax).
  destruct (Z_lt_dec pos 0) as [Hneg|Hnn].
  { rewrite sl_erase_throw in Hers by lia. congruence. }
  destruct (Z_ge_dec pos (SList.length l)) as [Hbig|Hle].
  { rewrite sl_erase_throw in Hers by lia. congruence. }
  destruct (sl_erase_spec l xs (Z.to_nat pos) Hv) as (l'' & Hers' & _); [lia|].
  rewrite Z2Nat.id in Hers' by lia. congruence.
Qed.

Lemma sl_subscript_assign_Throw_inv l xs index x l' :
  SList.holds l xs -> SList.subscript_assign index x l = Throw l' -> l' = l.
Proof.
  intros Hv Hass. pose proof Hv as (_ & Hn & Hmax).
  destruct (Z_lt_dec index 0) as [Hneg|Hnn].
  { rewrite sl_subscript_assign_throw in Hass by lia. congruence. }
  destruct (Z_ge_dec index (SList.length l)) as [Hbig|Hle].
  { rewrite sl_subscript_assign_throw in Hass by lia. congruence. }
  destruct (sl_subscript_assign_spec l xs (Z.to_nat index) x Hv) as (l'' & Hass' & _);
    [lia|].
  rewrite Z2Nat.id in Hass' by lia. congruence.
Qed.

(** *** Lists in the store *)

Lemma sl_take_over_spec this list (w : gmap nat (SList.slist T)) o src :
  this <> list -> w !! this = Some o -> w !! list = Some src ->
  SList.take_over this list w
  = Ok tt (<[list := SList.ctor]> (<[this := src]> w)).
Proof.
  intros Hne Ho Hsrc. unfold SList.take_over.
  mstep (eapply on_gets; eassumption).
  mstep (eapply on_modify; eassumption).
  mstep (eapply on_modify; simplify_map_eq; reflexivity).
  mstep (eapply on_gets; simplify_map_eq; reflexivity).
  mstep (eapply on_modify; simplify_map_eq; reflexivity).
  mstep (eapply on_modify; simplify_map_eq; reflexivity).
  etransitivity; [eapply on_modify; simplify_map_eq; reflexivity|].
  f_equal. apply map_eq. intros k.
  destruct (decide (k = list)) as [->|]; [|destruct (decide (k = this)) as [->|]];
    simplify_map_eq; try reflexivity.
  destruct src; reflexivity.
Qed.

Lemma sl_move_assign_spec this list (w : gmap nat (SList.slist T)) o src :
  this <> list -> w !! this = Some o -> w !! list = Some src ->
  SList.move_assign this list w
  = Ok tt (<[list := SList.ctor]> (<[this := src]> w)).
Proof.
  intros Hne Ho Hsrc. unfold SList.move_assign.
  destruct (decide (this = list)); [contradiction|].
  eapply sl_take_over_spec; eassumption.
Qed.

Lemma sl_move_ctor_spec this list (w : gmap nat (SList.slist T)) src :
  this <> list -> w !! list = Some src ->
  SList.move_ctor this list w
  = Ok tt (<[list := SList.ctor]> (<[this := src]> w)).
Proof.
  intros Hne Hsrc. unfold SList.move_ctor. mstep reflexivity.
  erewrite sl_take_over_spec; [| exact Hne | apply lookup_insert_eq
                               | rewrite lookup_insert_ne by exact Hne; exact Hsrc].
  rewrite insert_insert_eq. reflexivity.
Qed.

Lemma sl_copy_from this (w : gmap nat (SList.slist T)) xs :
  forall x ys,
    Z.of_nat (List.length ys + S (List.length xs)) <= INT_MAX ->
    w !! this = Some (SList.mk (SList.chain_of ys) (Z.of_nat (List.length ys))) ->
    SList.copy_from this (SList.mkNode x (SList.chain_of xs)) w
    = Ok tt (<[this := SList.mk (SList.chain_of (ys ++ x :: xs))
                          (Z.of_nat (List.length (ys ++ x :: xs)))]> w).
Proof.
  revert w. induction xs as [|x' xs IH]; intros w x ys Hmax Hthis.
  - cbn [SList.copy_from SList.chain_of SList.next SList.value].
    destruct (sl_push_back_spec _ ys x (sl_holds_mk ys ltac:(simpl in Hmax; lia)))
      as (l' & Hpush & Hv'); [simpl in *; lia|].
    mstep (eapply on_Ok; [exact Hthis|exact Hpush]).
    rewrite (sl_holds_eq l' _ Hv'). reflexivity.
  - change (bind (on this (SList.push_back x))
              (fun _ => SList.copy_from this (SList.mkNode x' (SList.chain_of xs))) w
            = Ok tt (<[this := SList.mk (SList.chain_of (ys ++ x :: x' :: xs))
                                 (Z.of_nat (List.length (ys ++ x :: x' :: xs)))]> w)).
    destruct (sl_push_back_spec _ ys x (sl_holds_mk ys ltac:(simpl in Hmax; lia)))
      as (l' & Hpush & Hv'); [simpl in *; lia|].
    mstep (eapply on_Ok; [exact Hthis|exact Hpush]).
    rewrite (sl_holds_eq l' _ Hv').
    rewrite (IH _ x' (ys ++ [x])).
    + rewrite insert_insert_eq, <- app_assoc. reflexivity.
    + rewrite length_app. simpl in *. lia.
    + apply lookup_insert_eq.
Qed.

Lemma sl_copy_assign_spec this list (w : gmap nat (SList.slist T)) o src xs :
  this <> list -> w !! this = Some o -> w !! list = Some src -> SList.holds src xs ->
  SList.copy_assign this list w
  = Ok tt (<[this := SList.mk (SList.chain_of xs) (Z.of_nat (List.length xs))]> w).
Proof.
  intros Hne Ho Hsrc Hv. pose proof Hv as (_ & Hn & Hmax).
  unfold SList.copy_assign. destruct (decide (this = list)); [contradiction|].
  mstep (eapply on_modify; eassumption).
  mstep (eapply on_modify; simplify_map_eq; reflexivity).
  mstep (eapply on_gets; simplify_map_eq; reflexivity).
  rewrite (sl_holds_eq src xs Hv). cbn [SList.head].
  rewrite !insert_insert_eq. unfold SList.set_length, SList.set_head. cbn.
  destruct xs as [|x xs]; [reflexivity|]. cbn [SList.chain_of].
  rewrite (sl_copy_from this _ xs x []).
  - rewrite insert_insert_eq. reflexivity.
  - simpl in *. lia.
  - apply lookup_insert_eq.
Qed.
End facts.
End SListFacts.

Module DListFacts.
Section facts.
Context {T : Type}.
Implicit Types (h : gmap nat (DList.DoubleNode T)) (hp : DList.heap T)
  (d : DList.dlist) (lxs pre suf : list (nat * T)) (p q pv : option nat).

(** *** Walks *)

Lemma dl_seg_frame h h' pv p lxs q :
  DList.seg h pv p lxs q ->
  (forall l, l ∈ lxs.*1 -> h' !! l = h !! l) ->
  DList.seg h' pv p lxs q.
Proof.
  revert pv p. induction lxs as [|[l x] lxs IH]; intros pv p Hseg Hsame; [exact Hseg|].
  destruct Hseg as (Hp & nx & Hl & Hrest). simpl in *.
  split; [exact Hp|]. exists nx. split.
  - rewrite Hsame by set_solver. exact Hl.
  - apply IH; [exact Hrest|]. intros l' Hl'. apply Hsame. set_solver.
Qed.

Lemma dl_last_loc_cons pv l x lxs :
  DList.last_loc pv ((l, x) :: lxs) = DList.last_loc (Some l) lxs.
Proof.
  unfold DList.last_loc. destruct lxs as [|lx lxs]; [reflexivity|].
  rewrite last_cons_cons. destruct (last (lx :: lxs)) eqn:E; [reflexivity|].
  apply last_None in E. discriminate.
Qed.

Lemma dl_last_loc_snoc pv lxs l x : DList.last_loc pv (lxs ++ [(l, x)]) = Some l.
Proof. unfold DList.last_loc. rewrite last_snoc. reflexivity. Qed.

Lemma dl_seg_app h pv p lxs1 lxs2 q :
  DList.seg h pv p (lxs1 ++ lxs2) q <->
  exists m, DList.seg h pv p lxs1 m /\ DList.seg h (DList.last_loc pv lxs1) m lxs2 q.
Proof.
  revert pv p. induction lxs1 as [|[l x] lxs1 IH]; intros pv p; simpl.
  - split.
    + intros Hseg. exists p. split; [reflexivity|exact Hseg].
    + intros (m & -> & Hseg). exact Hseg.
  - rewrite dl_last_loc_cons. split.
    + intros (Hp & nx & Hl & Hrest). apply IH in Hrest as (m & H1 & H2).
      exists m. split; [|exact H2]. split; [exact Hp|]. exists nx. auto.
    + intros (m & (Hp & nx & Hl & H1) & H2).
      split; [exact Hp|]. exists nx. split; [exact Hl|]. apply IH. eauto.
Qed.

Lemma dl_seg_det h pv p lxs1 lxs2 :
  DList.seg h pv p lxs1 None -> DList.seg h pv p lxs2 None -> lxs1 = lxs2.
Proof.
  revert pv p lxs2. induction lxs1 as [|[l x] lxs1 IH]; intros pv p [|[l' x'] lxs2]; simpl.
  - reflexivity.
  - intros -> (Hp & _). discriminate.
  - intros (Hp & _) ->. discriminate.
  - intros (Hp & nx & Hl & Hrest) (Hp' & nx' & Hl' & Hrest').
    rewrite Hp in Hp'. injection Hp' as <-. rewrite Hl in Hl'.
    injection Hl' as <- <-. f_equal. eapply IH; eassumption.
Qed.

Lemma dl_seg_alive h pv p lxs q l :
  DList.seg h pv p lxs q -> l ∈ lxs.*1 -> is_Some (h !! l).
Proof.
  revert pv p. induction lxs as [|[l' x] lxs IH]; intros pv p Hseg Hin; simpl in *.
  - set_solver.
  - destruct Hseg as (Hp & nx & Hl & Hrest).
    apply elem_of_cons in Hin as [->|Hin]; [eauto|]. eapply IH; eassumption.
Qed.

(** The node at place [k] of a walk: its fields. *)
Lemma dl_seg_lookup h pv p lxs q k l x :
  DList.seg h pv p lxs q -> lxs !! k = Some (l, x) ->
  h !! l = Some (DList.mkNode x (DList.ptr_at lxs q (S k))
                   (DList.last_loc pv (take k lxs))).
Proof.
  revert pv p k. induction lxs as [|[l' x'] lxs IH]; intros pv p k Hseg Hk; [discriminate|].
  destruct Hseg as (Hp & nx & Hl & Hrest). simpl in *.
  destruct k as [|k].
  - injection Hk as -> ->. rewrite Hl. unfold DList.ptr_at, DList.last_loc. simpl.
    destruct lxs as [|[l2 x2] lxs]; simpl in *.
    + subst nx. reflexivity.
    + destruct Hrest as (-> & _). reflexivity.
  - simpl in Hk. rewrite (IH _ _ _ Hrest Hk).
    unfold DList.ptr_at. simpl. rewrite dl_last_loc_cons. reflexivity.
Qed.

Lemma dl_seg_start h pv p lxs q : DList.seg h pv p lxs q -> p = DList.ptr_at lxs q 0.
Proof. destruct lxs as [|[l x] lxs]; simpl; [auto|]. intros (-> & _). reflexivity. Qed.

Lemma dl_node_ok {X} hp (s : X) l nd :
  DList.nodes hp !! l = Some nd -> DList.node (Some l) (hp, s) = Ok nd (hp, s).
Proof. intros Hl. unfold DList.node. simpl. rewrite Hl. reflexivity. Qed.

Lemma dl_walk {X} hp (s : X) k :
  forall pv p lxs q,
    DList.seg (DList.nodes hp) pv p lxs q -> (k <= List.length lxs)%nat ->
    DList.walk k p (hp, s) = Ok (DList.ptr_at lxs q k) (hp, s).
Proof.
  induction k as [|k IH]; intros pv p lxs q Hseg Hk.
  - simpl. rewrite (dl_seg_start _ _ _ _ _ Hseg). reflexivity.
  - destruct lxs as [|[l x] lxs]; simpl in Hk; [lia|].
    destruct Hseg as (-> & nx & Hl & Hrest). simpl in *.
    mstep (apply dl_node_ok; exact Hl). simpl.
    rewrite (IH _ _ _ _ Hrest) by lia. reflexivity.
Qed.

Lemma dl_walk_to_last {X} hp (s : X) fuel :
  forall pv p lxs l x,
    DList.seg (DList.nodes hp) pv p (lxs ++ [(l, x)]) None ->
    (List.length lxs <= fuel)%nat ->
    DList.walk_to_last fuel p (hp, s) = Ok (Some l) (hp, s).
Proof.
  induction fuel as [|fuel IH]; intros pv p lxs l x Hseg Hfuel.
  - destruct lxs; simpl in Hfuel; [|lia].
    destruct Hseg as (-> & nx & Hl & ->). simpl in *.
    mstep (apply dl_node_ok; exact Hl). reflexivity.
  - destruct lxs as [|[l' x'] lxs].
    + destruct Hseg as (-> & nx & Hl & ->). simpl in *.
      mstep (apply dl_node_ok; exact Hl). reflexivity.
    + destruct Hseg as (-> & nx & Hl & Hrest). simpl in *.
      mstep (apply dl_node_ok; exact Hl). simpl.
      pose proof (dl_seg_start _ _ _ _ _ Hrest) as Hnx.
      destruct lxs as [|[l2 x2] lxs]; unfold DList.ptr_at in Hnx; simpl in Hnx;
        rewrite Hnx; eapply IH; try (rewrite <- Hnx; exact Hrest); lia.
Qed.

(** *** Steps on the heap *)

Lemma dl_set_next_ok {X} hp (s : X) l q nd :
  DList.nodes hp !! l = Some nd ->
  DList.set_next (Some l) q (hp, s)
  = Ok tt (DList.mkHeap (<[l := DList.mkNode (DList.value nd) q (DList.prev nd)]>
                           (DList.nodes hp)) (DList.next_id hp), s).
Proof.
  intros Hl. unfold DList.set_next. mstep (apply dl_node_ok; exact Hl). reflexivity.
Qed.

Lemma dl_set_prev_ok {X} hp (s : X) l q nd :
  DList.nodes hp !! l = Some nd ->
  DList.set_prev (Some l) q (hp, s)
  = Ok tt (DList.mkHeap (<[l := DList.mkNode (DList.value nd) (DList.next nd) q]>
                           (DList.nodes hp)) (DList.next_id hp), s).
Proof.
  intros Hl. unfold DList.set_prev. mstep (apply dl_node_ok; exact Hl). reflexivity.
Qed.

Lemma dl_set_value_ok {X} hp (s : X) l x nd :
  DList.nodes hp !! l = Some nd ->
  DList.set_value (Some l) x (hp, s)
  = Ok tt (DList.mkHeap (<[l := DList.mkNode x (DList.next nd) (DList.prev nd)]>
                           (DList.nodes hp)) (DList.next_id hp), s).
Proof.
  intros Hl. unfold DList.set_value. mstep (apply dl_node_ok; exact Hl). reflexivity.
Qed.

Lemma dl_incr_length hp hd n :
  0 <= n < INT_MAX ->
  DList.incr_length (hp, DList.mk hd n) = Ok tt (hp, DList.mk hd (n + 1)).
Proof.
  intros Hn. unfold DList.incr_length. mstep reflexivity.
  mstep (apply int_in_range; unfold INT_MIN; simpl; lia). reflexivity.
Qed.

Lemma dl_incr_length_overflow hp hd n :
  INT_MAX <= n -> DList.incr_length (hp, DList.mk hd n) = Undefined.
Proof.
  intros Hn. unfold DList.incr_length. mstep reflexivity.
  apply bind_Undefined, int_overflow. simpl. lia.
Qed.

Lemma dl_decr_length hp hd n :
  0 < n <= INT_MAX ->
  DList.decr_length (hp, DList.mk hd n) = Ok tt (hp, DList.mk hd (n - 1)).
Proof.
  intros Hn. unfold DList.decr_length. mstep reflexivity.
  mstep (apply int_in_range; unfold INT_MIN; simpl; lia). reflexivity.
Qed.

Lemma dl_owns_alive hp d lxs l :
  DList.owns hp d lxs -> l ∈ lxs.*1 -> is_Some (DList.nodes hp !! l).
Proof. intros (Hseg & _) Hl. eapply dl_seg_alive; eassumption. Qed.

Lemma dl_owns_below hp d lxs l :
  DList.heap_ok hp -> DList.owns hp d lxs -> l ∈ lxs.*1 -> (l < DList.next_id hp)%nat.
Proof. intros Hok Hown Hl. apply Hok. eapply dl_owns_alive; eassumption. Qed.

Lemma dl_owns_fresh hp d lxs :
  DList.heap_ok hp -> DList.owns hp d lxs -> DList.next_id hp ∉ lxs.*1.
Proof. intros Hok Hown Hl. pose proof (dl_owns_below _ _ _ _ Hok Hown Hl). lia. Qed.

Lemma dl_owns_det hp d lxs1 lxs2 :
  DList.owns hp d lxs1 -> DList.owns hp d lxs2 -> lxs1 = lxs2.
Proof. intros (H1 & _) (H2 & _). eapply dl_seg_det; eassumption. Qed.

Ltac hlook :=
  repeat first [ rewrite lookup_insert_eq
               | rewrite lookup_insert_ne by (congruence || set_solver)
               | rewrite lookup_delete_ne by (congruence || set_solver) ].

Lemma dl_is_Some_insert h l nd l' :
  is_Some (<[l := nd]> h !! l') -> l' = l \/ is_Some (h !! l').
Proof.
  destruct (decide (l' = l)) as [->|Hne]; [auto|].
  rewrite lookup_insert_ne by congruence. auto.
Qed.

Lemma dl_is_Some_delete h l l' : is_Some (delete l h !! l') -> is_Some (h !! l').
Proof.
  destruct (decide (l' = l)) as [->|Hne].
  - rewrite lookup_delete_eq. intros [? [=]].
  - rewrite lookup_delete_ne by congruence. auto.
Qed.

Lemma dl_heap_ok_insert h b l nd :
  DList.heap_ok (DList.mkHeap h b) -> (l < b)%nat ->
  DList.heap_ok (DList.mkHeap (<[l := nd]> h) b).
Proof.
  intros Hok Hl l' Hl'. simpl in *.
  apply dl_is_Some_insert in Hl' as [->|Hl']; [exact Hl|].
  exact (Hok l' Hl').
Qed.

Lemma dl_heap_ok_mono h b b' :
  DList.heap_ok (DList.mkHeap h b) -> (b <= b')%nat -> DList.heap_ok (DList.mkHeap h b').
Proof. intros Hok Hb l Hl. specialize (Hok l Hl). simpl in *. lia. Qed.

Lemma dl_heap_ok_delete h b l :
  DList.heap_ok (DList.mkHeap h b) -> DList.heap_ok (DList.mkHeap (delete l h) b).
Proof. intros Hok l' Hl'. simpl in *. apply dl_is_Some_delete in Hl'. exact (Hok l' Hl'). Qed.

Lemma dl_insert_front hp d lxs x :
  DList.heap_ok hp -> DList.owns hp d lxs ->
  exists hp' hd',
    DList.insert x 0 (hp, d) = DList.incr_length (hp', DList.mk hd' (DList.length d)) /\
    (forall n, n = Z.of_nat (S (List.length lxs)) -> n <= INT_MAX ->
               DList.owns hp' (DList.mk hd' n) ((DList.next_id hp, x) :: lxs)) /\
    DList.next_id hp' = S (DList.next_id hp) /\
    DList.heap_ok hp' /\
    (forall l, l ∉ lxs.*1 -> l <> DList.next_id hp ->
               DList.nodes hp' !! l = DList.nodes hp !! l).
Proof.
  intros Hok Hown.
  pose proof (dl_owns_fresh _ _ _ Hok Hown) as Hfresh.
  destruct Hown as (Hseg & Hnd & Hn & Hmax).
  destruct hp as [h nid], d as [hd n]. simpl in *.
  assert (Hhead : forall k : option nat -> M (DList.heap T * DList.dlist) unit,
    DList.insert x 0 ({| DList.nodes := h; DList.next_id := nid |}, DList.mk hd n)
    = bind (match hd with
            | Some _ => DList.set_prev hd (Some nid);; DList.set_next (Some nid) hd
            | None => ret tt
            end) (fun _ => DList.set_head (Some nid);; DList.incr_length)
        (DList.mkHeap (<[nid := DList.mkNode x None None]> h) (S nid), DList.mk hd n)).
  { intros _. unfold DList.insert. mstep reflexivity. simpl.
    destruct (Z.gtb_spec 0 n); [lia|]. simpl. reflexivity. }
  rewrite (Hhead (fun _ => ret tt)). clear Hhead.
  destruct lxs as [|[l0 x0] lxs]; simpl in *.
  - subst hd. do 2 eexists. split.
    { mstep reflexivity. mstep reflexivity. reflexivity. }
    simpl. split; [|split; [reflexivity|split]].
    + intros n' Hn' Hmax'. split; [|split; [|split]]; simpl; try lia.
      * split; [reflexivity|]. eexists. split; [apply lookup_insert_eq|reflexivity].
      * apply NoDup_singleton.
    + apply dl_heap_ok_insert; [|lia]. apply (dl_heap_ok_mono _ nid); [exact Hok|lia].
    + intros l _ Hl. simpl. rewrite lookup_insert_ne by congruence. reflexivity.
  - destruct Hseg as (-> & nx0 & Hl0 & Hrest).
    apply NoDup_cons in Hnd as [Hl0' Hnd].
    assert (Hne : l0 <> nid) by set_solver.
    do 2 eexists. split.
    { mstep (mstep (eapply dl_set_prev_ok; simpl; hlook; exact Hl0);
             eapply dl_set_next_ok; simpl; hlook; reflexivity).
      mstep reflexivity. reflexivity. }
    simpl. split; [|split; [reflexivity|split]].
    + intros n' Hn' Hmax'. split; [|split; [|split]]; simpl; try lia.
      * split; [reflexivity|]. eexists. split; [hlook; reflexivity|].
        split; [reflexivity|]. eexists. split; [hlook; reflexivity|].
        eapply dl_seg_frame; [exact Hrest|].
        intros l Hl. hlook. reflexivity.
      * apply NoDup_cons. split; [set_solver|]. apply NoDup_cons. auto.
    + pose proof (Hok l0 (mk_is_Some _ _ Hl0)) as Hb0. simpl in Hb0.
      repeat (apply dl_heap_ok_insert; [|lia]).
      apply (dl_heap_ok_mono _ nid); [exact Hok|lia].
    + intros l Hl Hl'. simpl. hlook. reflexivity.
Qed.

Lemma dl_ptr_at_middle pre lc xc suf q :
  DList.ptr_at (pre ++ (lc, xc) :: suf) q (List.length pre) = Some lc.
Proof. unfold DList.ptr_at. rewrite list_lookup_middle by reflexivity. reflexivity. Qed.

(** The parts of a chain around its node [lc]. *)
Lemma dl_owns_split hp d pre lc xc suf :
  DList.owns hp d (pre ++ (lc, xc) :: suf) ->
  exists nxc,
    DList.seg (DList.nodes hp) None (DList.head d) pre (Some lc) /\
    DList.nodes hp !! lc = Some (DList.mkNode xc nxc (DList.last_loc None pre)) /\
    DList.seg (DList.nodes hp) (Some lc) nxc suf None /\
    NoDup pre.*1 /\ NoDup suf.*1 /\ (lc ∉ pre.*1) /\ (lc ∉ suf.*1) /\
    (forall l, l ∈ pre.*1 -> l ∉ suf.*1).
Proof.
  intros (Hseg & Hnd & _).
  apply dl_seg_app in Hseg as (m & Hpre & (-> & nxc & Hlc & Hsuf)). simpl in *.
  rewrite fmap_app, fmap_cons in Hnd. simpl in Hnd.
  apply NoDup_app in Hnd as (Hnd1 & Hdisj & Hnd2).
  apply NoDup_cons in Hnd2 as (Hlc2 & Hnd2).
  exists nxc. repeat split; try assumption.
  - intros Hin. apply (Hdisj lc Hin). set_solver.
  - intros l Hin Hin'. apply (Hdisj l Hin). set_solver.
Qed.

Lemma dl_owns_join h b hd n pre lc xc nxc suf :
  DList.seg h None hd pre (Some lc) ->
  h !! lc = Some (DList.mkNode xc nxc (DList.last_loc None pre)) ->
  DList.seg h (Some lc) nxc suf None ->
  NoDup pre.*1 -> NoDup suf.*1 -> lc ∉ pre.*1 -> lc ∉ suf.*1 ->
  (forall l, l ∈ pre.*1 -> l ∉ suf.*1) ->
  n = Z.of_nat (List.length (pre ++ (lc, xc) :: suf)) -> n <= INT_MAX ->
  DList.owns (DList.mkHeap h b) (DList.mk hd n) (pre ++ (lc, xc) :: suf).
Proof.
  intros Hpre Hlc Hsuf Hnd1 Hnd2 Hlc1 Hlc2 Hdisj Hn Hmax.
  split; [|split; [|split]]; simpl; try assumption.
  - apply dl_seg_app. exists (Some lc). split; [exact Hpre|].
    split; [reflexivity|]. exists nxc. simpl. auto.
  - rewrite fmap_app, fmap_cons. simpl. apply NoDup_app. split; [exact Hnd1|]. split.
    + intros l Hin Hin'. apply elem_of_cons in Hin' as [->|Hin']; [auto|].
      exact (Hdisj l Hin Hin').
    + apply NoDup_cons. auto.
Qed.

Lemma dl_insert_after hp d pre lc xc suf x :
  DList.heap_ok hp -> DList.owns hp d (pre ++ (lc, xc) :: suf) ->
  exists hp' hd',
    DList.insert x (Z.of_nat (S (List.length pre))) (hp, d)
    = DList.incr_length (hp', DList.mk hd' (DList.length d)) /\
    (forall n, n = Z.of_nat (S (List.length (pre ++ (lc, xc) :: suf))) -> n <= INT_MAX ->
       DList.owns hp' (DList.mk hd' n)
         ((pre ++ [(lc, xc)]) ++ (DList.next_id hp, x) :: suf)) /\
    DList.next_id hp' = S (DList.next_id hp) /\
    DList.heap_ok hp' /\
    (forall l, l ∉ (pre ++ (lc, xc) :: suf).*1 -> l <> DList.next_id hp ->
               DList.nodes hp' !! l = DList.nodes hp !! l).
Proof.
  intros Hok Hown.
  pose proof (dl_owns_fresh _ _ _ Hok Hown) as Hfresh.
  pose proof (fun l => dl_owns_below _ _ _ l Hok Hown) as Hbelow.
  destruct (dl_owns_split _ _ _ _ _ _ Hown)
    as (nxc & Hpre & Hlc & Hsuf & Hnd1 & Hnd2 & Hlc1 & Hlc2 & Hdisj).
  destruct Hown as (Hseg & Hnd & Hn & Hmax).
  destruct hp as [h nid], d as [hd n]. simpl in *.
  rewrite fmap_app, fmap_cons in Hfresh, Hbelow. simpl in Hfresh, Hbelow.
  assert (Hne : lc <> nid) by set_solver.
  assert (Hpre_ne : forall l, l ∈ pre.*1 -> l <> nid /\ l <> lc) by set_solver.
  set (h1 := <[nid := DList.mkNode x None None]> h).
  assert (Hwalk : DList.walk (List.length pre) hd
                    (DList.mkHeap h1 (S nid), DList.mk hd n)
                  = Ok (Some lc) (DList.mkHeap h1 (S nid), DList.mk hd n)).
  { rewrite <- (dl_ptr_at_middle pre lc xc suf None).
    eapply dl_walk; [|rewrite length_app; simpl; lia]. simpl.
    eapply dl_seg_frame; [exact Hseg|].
    intros l Hl. unfold h1. rewrite lookup_insert_ne; [reflexivity|].
    rewrite fmap_app, fmap_cons in Hl. simpl in Hl. set_solver. }
  assert (Hhead : forall k : unit,
    DList.insert x (Z.of_nat (S (List.length pre)))
      ({| DList.nodes := h; DList.next_id := nid |}, DList.mk hd n)
    = bind (DList.set_next (Some nid) nxc)
        (fun _ =>
           nn ← DList.node (Some nid);
           match DList.next nn with
           | Some _ => DList.set_prev (DList.next nn) (Some nid)
           | None => ret tt
           end;;
           DList.set_prev (Some nid) (Some lc);;
           DList.set_next (Some lc) (Some nid);;
           DList.incr_length)
        (DList.mkHeap h1 (S nid), DList.mk hd n)).
  { intros _. rewrite length_app in Hn. simpl in Hn.
    remember (Z.of_nat (S (List.length pre))) as pos eqn:Hpos.
    unfold DList.insert. mstep reflexivity. cbn [DList.length snd]. zcond.
    mstep reflexivity. mstep reflexivity. cbn [DList.head snd].
    replace (Z.to_nat (pos - 1)) with (List.length pre) by lia.
    mstep (exact Hwalk).
    mstep (apply dl_node_ok; simpl; unfold h1; hlook; exact Hlc).
    reflexivity. }
  rewrite (Hhead tt). clear Hhead Hwalk.
  assert (Hlen : List.length ((pre ++ [(lc, xc)]) ++ (nid, x) :: suf)
                 = S (List.length (pre ++ (lc, xc) :: suf))).
  { repeat (rewrite length_app; simpl). lia. }
  destruct suf as [|[lp xp] suf]; simpl in *.
  - subst nxc. do 2 eexists. split.
    { mstep (eapply dl_set_next_ok; simpl; unfold h1; hlook; reflexivity).
      mstep (apply dl_node_ok; simpl; hlook; reflexivity). simpl.
      mstep reflexivity.
      mstep (eapply dl_set_prev_ok; simpl; hlook; reflexivity).
      mstep (eapply dl_set_next_ok; simpl; unfold h1; hlook; exact Hlc).
      reflexivity. }
    simpl. split; [|split; [reflexivity|split]].
    + intros n' Hn' Hmax'. rewrite <- Hlen in Hn'. rewrite <- app_assoc in *. simpl in *.
      apply (dl_owns_join _ _ _ _ pre lc xc (Some nid) [(nid, x)]); simpl;
        try assumption; try lia.
      * eapply dl_seg_frame; [exact Hpre|]. intros l Hl.
        destruct (Hpre_ne l Hl). unfold h1. hlook. reflexivity.
      * hlook. reflexivity.
      * split; [reflexivity|]. eexists. split; [hlook; reflexivity|reflexivity].
      * apply NoDup_singleton.
      * set_solver.
      * intros l Hl. destruct (Hpre_ne l Hl). set_solver.
    + pose proof (Hbelow lc ltac:(set_solver)).
      unfold h1. repeat (apply dl_heap_ok_insert; [|lia]).
      apply (dl_heap_ok_mono _ nid); [exact Hok|lia].
    + intros l Hl Hl'. rewrite fmap_app, fmap_cons in Hl. simpl in Hl.
      unfold h1. hlook. reflexivity.
  - destruct Hsuf as (-> & nxp & Hlp & Hsuf).
    apply NoDup_cons in Hnd2 as (Hlp2 & Hnd2).
    assert (Hne2 : lp <> nid /\ lp <> lc) by set_solver.
    destruct Hne2 as [Hne2 Hne3].
    assert (Hsuf_ne : forall l, l ∈ suf.*1 -> l <> nid /\ l <> lc /\ l <> lp) by set_solver.
    do 2 eexists. split.
    { mstep (eapply dl_set_next_ok; simpl; unfold h1; hlook; reflexivity).
      mstep (apply dl_node_ok; simpl; hlook; reflexivity). simpl.
      mstep (eapply dl_set_prev_ok; simpl; unfold h1; hlook; exact Hlp).
      mstep (eapply dl_set_prev_ok; simpl; hlook; reflexivity).
      mstep (eapply dl_set_next_ok; simpl; unfold h1; hlook; exact Hlc).
      reflexivity. }
    simpl. split; [|split; [reflexivity|split]].
    + intros n' Hn' Hmax'. rewrite <- Hlen in Hn'. rewrite <- app_assoc in *. simpl in *.
      apply (dl_owns_join _ _ _ _ pre lc xc (Some nid) ((nid, x) :: (lp, xp) :: suf)); simpl;
        try assumption; try lia.
      * eapply dl_seg_frame; [exact Hpre|]. intros l Hl.
        destruct (Hpre_ne l Hl). assert (l <> lp) by set_solver.
        unfold h1. hlook. reflexivity.
      * hlook. reflexivity.
      * split; [reflexivity|]. eexists. split; [hlook; reflexivity|].
        split; [reflexivity|]. eexists. split; [hlook; reflexivity|].
        eapply dl_seg_frame; [exact Hsuf|]. intros l Hl.
        destruct (Hsuf_ne l Hl) as (? & ? & ?). unfold h1. hlook. reflexivity.
      * apply NoDup_cons. split; [set_solver|]. apply NoDup_cons. auto.
      * set_solver.
      * intros l Hl. destruct (Hpre_ne l Hl). set_solver.
    + pose proof (Hbelow lc ltac:(set_solver)).
      pose proof (Hbelow lp ltac:(set_solver)).
      unfold h1. repeat (apply dl_heap_ok_insert; [|lia]).
      apply (dl_heap_ok_mono _ nid); [exact Hok|lia].
    + intros l Hl Hl'. rewrite fmap_app, fmap_cons in Hl. simpl in Hl.
      unfold h1. hlook. reflexivity.
Qed.

Lemma dl_insert_run hp d lxs x pos :
  DList.heap_ok hp -> DList.owns hp d lxs -> (pos <= List.length lxs)%nat ->
  exists hp' hd',
    DList.insert x (Z.of_nat pos) (hp, d)
    = DList.incr_length (hp', DList.mk hd' (DList.length d)) /\
    (forall n, n = Z.of_nat (S (List.length lxs)) -> n <= INT_MAX ->
       DList.owns hp' (DList.mk hd' n)
         (take pos lxs ++ (DList.next_id hp, x) :: drop pos lxs)) /\
    DList.next_id hp' = S (DList.next_id hp) /\
    DList.heap_ok hp' /\
    (forall l, l ∉ lxs.*1 -> l <> DList.next_id hp ->
               DList.nodes hp' !! l = DList.nodes hp !! l).
Proof.
  intros Hok Hown Hpos. destruct pos as [|k].
  - rewrite take_0, drop_0. apply dl_insert_front; assumption.
  - destruct (lookup_lt_is_Some_2 lxs k ltac:(lia)) as [[lc xc] Hk].
    pose proof (take_drop_middle lxs k _ Hk) as Hsplit.
    rewrite <- Hsplit in Hown.
    destruct (dl_insert_after hp d _ _ _ _ x Hok Hown)
      as (hp' & hd' & Hrun & Hown' & Hnext & Hok' & Hframe).
    rewrite length_take, Nat.min_l in Hrun by lia.
    rewrite Hsplit in Hown', Hframe.
    rewrite <- (take_S_r lxs k _ Hk) in Hown'.
    exists hp', hd'. auto.
Qed.

Lemma dl_insert_spec hp d lxs x pos :
  DList.heap_ok hp -> DList.owns hp d lxs -> (pos <= List.length lxs)%nat ->
  DList.length d < INT_MAX ->
  exists hp' d',
    DList.insert x (Z.of_nat pos) (hp, d) = Ok tt (hp', d') /\
    DList.owns hp' d' (take pos lxs ++ (DList.next_id hp, x) :: drop pos lxs) /\
    DList.next_id hp' = S (DList.next_id hp) /\
    DList.heap_ok hp' /\
    (forall l, l ∉ lxs.*1 -> l <> DList.next_id hp ->
               DList.nodes hp' !! l = DList.nodes hp !! l).
Proof.
  intros Hok Hown Hpos Hroom. pose proof Hown as (_ & _ & Hn & _).
  destruct (dl_insert_run hp d lxs x pos Hok Hown Hpos)
    as (hp' & hd' & Hrun & Hown' & Hnext & Hok' & Hframe).
  exists hp', (DList.mk hd' (DList.length d + 1)).
  rewrite Hrun, dl_incr_length by lia.
  split; [reflexivity|]. split; [apply Hown'; lia|]. auto.
Qed.

Lemma dl_insert_overflow hp d lxs x pos :
  DList.heap_ok hp -> DList.owns hp d lxs -> (pos <= List.length lxs)%nat ->
  INT_MAX <= DList.length d ->
  DList.insert x (Z.of_nat pos) (hp, d) = Undefined.
Proof.
  intros Hok Hown Hpos Hfull.
  destruct (dl_insert_run hp d lxs x pos Hok Hown Hpos) as (hp' & hd' & Hrun & _).
  rewrite Hrun. apply dl_incr_length_overflow. exact Hfull.
Qed.

Lemma dl_insert_throw hp d x pos :
  pos > DList.length d \/ pos < 0 -> DList.insert x pos (hp, d) = Throw (hp, d).
Proof.
  intros Hpos. unfold DList.insert. unfold bind at 1. unfold DList.get_length, gets.
  cbn [snd]. zcond; reflexivity.
Qed.

Lemma dl_erase_throw hp d pos :
  pos >= DList.length d \/ pos < 0 -> DList.erase pos (hp, d) = Throw (hp, d).
Proof.
  intros Hpos. unfold DList.erase. unfold bind at 1. unfold DList.get_length, gets.
  cbn [snd]. zcond; reflexivity.
Qed.

Lemma dl_subscript_throw hp d index :
  index < 0 \/ index >= DList.length d -> DList.subscript index (hp, d) = Throw (hp, d).
Proof.
  intros Hpos. unfold DList.subscript. unfold bind at 1. unfold DList.get_length, gets.
  cbn [snd]. zcond; reflexivity.
Qed.

Lemma dl_subscript_assign_throw hp d index x :
  index < 0 \/ index >= DList.length d ->
  DList.subscript_assign index x (hp, d) = Throw (hp, d).
Proof.
  intros Hpos. unfold DList.subscript_assign. unfold bind at 1.
  unfold DList.get_length, gets. cbn [snd]. zcond; reflexivity.
Qed.

Lemma dl_erase_front hp d l0 x0 lxs :
  DList.heap_ok hp -> DList.owns hp d ((l0, x0) :: lxs) ->
  exists hp' d',
    DList.erase 0 (hp, d) = Ok tt (hp', d') /\
    DList.owns hp' d' lxs /\
    DList.next_id hp' = DList.next_id hp /\
    DList.heap_ok hp' /\
    (forall l, l ∉ ((l0, x0) :: lxs).*1 -> DList.nodes hp' !! l = DList.nodes hp !! l) /\
    DList.nodes hp' !! l0 = None.
Proof.
  intros Hok Hown.
  destruct Hown as (Hseg & Hnd & Hn & Hmax).
  destruct hp as [h nid], d as [hd n]. simpl in *.
  destruct Hseg as (-> & nx0 & Hl0 & Hrest).
  apply NoDup_cons in Hnd as [Hl0' Hnd].
  assert (Hhead : forall k : unit,
    DList.erase 0 ({| DList.nodes := h; DList.next_id := nid |}, DList.mk (Some l0) n)
    = bind (match nx0 with
            | None => DList.set_head None;; DList.destroy (Some l0)
            | Some _ => DList.set_prev nx0 None;; DList.set_head nx0;;
                        DList.destroy (Some l0)
            end) (fun _ => DList.decr_length)
        (DList.mkHeap h nid, DList.mk (Some l0) n)).
  { intros _. unfold DList.erase. mstep reflexivity. cbn [DList.length snd]. zcond.
    mstep reflexivity. cbn [DList.head snd].
    mstep (apply dl_node_ok; exact Hl0). reflexivity. }
  rewrite (Hhead tt). clear Hhead.
  destruct lxs as [|[l1 x1] lxs]; simpl in *.
  - subst nx0. do 2 eexists. split.
    { mstep (mstep reflexivity; reflexivity). simpl.
      rewrite dl_decr_length by (simpl; lia). reflexivity. }
    simpl. split; [|split; [reflexivity|split; [|split]]].
    + split; [|split; [|split]]; simpl; try lia. reflexivity. apply NoDup_nil_2.
    + apply dl_heap_ok_delete. exact Hok.
    + intros l Hl. rewrite lookup_delete_ne by set_solver. reflexivity.
    + apply lookup_delete_eq.
  - destruct Hrest as (-> & nx1 & Hl1 & Hrest).
    apply NoDup_cons in Hnd as [Hl1' Hnd].
    assert (Hne : l1 <> l0) by set_solver.
    do 2 eexists. split.
    { mstep (mstep (eapply dl_set_prev_ok; simpl; exact Hl1);
             mstep reflexivity; reflexivity). simpl.
      rewrite dl_decr_length by (simpl; lia). reflexivity. }
    simpl. split; [|split; [reflexivity|split; [|split]]].
    + split; [|split; [|split]]; simpl; try lia.
      * split; [reflexivity|]. eexists. split; [hlook; reflexivity|].
        eapply dl_seg_frame; [exact Hrest|]. intros l Hl.
        assert (l <> l0 /\ l <> l1) as [? ?] by set_solver. hlook. reflexivity.
      * apply NoDup_cons. auto.
    + apply dl_heap_ok_delete, dl_heap_ok_insert; [exact Hok|].
      apply (Hok l1). simpl. eauto.
    + intros l Hl. assert (l <> l0 /\ l <> l1) as [? ?] by set_solver.
      hlook. reflexivity.
    + apply lookup_delete_eq.
Qed.

Lemma dl_erase_after hp d pre lc xc lg xg suf :
  DList.heap_ok hp -> DList.owns hp d (pre ++ (lc, xc) :: (lg, xg) :: suf) ->
  exists hp' d',
    DList.erase (Z.of_nat (S (List.length pre))) (hp, d) = Ok tt (hp', d') /\
    DList.owns hp' d' (pre ++ (lc, xc) :: suf) /\
    DList.next_id hp' = DList.next_id hp /\
    DList.heap_ok hp' /\
    (forall l, l ∉ (pre ++ (lc, xc) :: (lg, xg) :: suf).*1 ->
               DList.nodes hp' !! l = DList.nodes hp !! l) /\
    DList.nodes hp' !! lg = None.
Proof.
  intros Hok Hown.
  pose proof (fun l => dl_owns_below _ _ _ l Hok Hown) as Hbelow.
  destruct (dl_owns_split _ _ _ _ _ _ Hown)
    as (nxc & Hpre & Hlc & Hsuf & Hnd1 & Hnd2 & Hlc1 & Hlc2 & Hdisj).
  destruct Hown as (Hseg & Hnd & Hn & Hmax).
  destruct hp as [h nid], d as [hd n]. simpl in *.
  destruct Hsuf as (-> & nxg & Hlg & Hsuf).
  apply NoDup_cons in Hnd2 as (Hlg2 & Hnd2).
  rewrite fmap_app, fmap_cons in Hbelow. simpl in Hbelow.
  rewrite length_app in Hn. simpl in Hn.
  assert (Hne : lg <> lc) by set_solver.
  assert (Hpre_ne : forall l, l ∈ pre.*1 -> l <> lc /\ l <> lg) by set_solver.
  assert (Hwalk : DList.walk (List.length pre) hd
                    (DList.mkHeap h nid, DList.mk hd n)
                  = Ok (Some lc) (DList.mkHeap h nid, DList.mk hd n)).
  { rewrite <- (dl_ptr_at_middle pre lc xc ((lg, xg) :: suf) None).
    eapply dl_walk; [exact Hseg|rewrite length_app; simpl; lia]. }
  assert (Hhead : forall k : unit,
    DList.erase (Z.of_nat (S (List.length pre)))
      ({| DList.nodes := h; DList.next_id := nid |}, DList.mk hd n)
    = bind (DList.set_next (Some lc) nxg)
        (fun _ =>
           DList.destroy (Some lg);;
           c ← DList.node (Some lc);
           match DList.next c with
           | Some _ => DList.set_prev (DList.next c) (Some lc)
           | None => ret tt
           end;;
           DList.decr_length)
        (DList.mkHeap h nid, DList.mk hd n)).
  { intros _.
    remember (Z.of_nat (S (List.length pre))) as pos eqn:Hpos.
    unfold DList.erase. mstep reflexivity. cbn [DList.length snd]. zcond.
    mstep reflexivity. cbn [DList.head snd].
    replace (Z.to_nat (pos - 1)) with (List.length pre) by lia.
    mstep (exact Hwalk).
    mstep (apply dl_node_ok; simpl; exact Hlc). cbn [DList.next].
    mstep (apply dl_node_ok; simpl; exact Hlg). reflexivity. }
  rewrite (Hhead tt). clear Hhead Hwalk.
  assert (Hlen : Z.of_nat (List.length (pre ++ (lc, xc) :: suf)) = n - 1).
  { rewrite Hn, length_app. simpl. lia. }
  destruct suf as [|[ls xs] suf]; simpl in *.
  - subst nxg. do 2 eexists. split.
    { mstep (eapply dl_set_next_ok; simpl; exact Hlc).
      mstep reflexivity.
      mstep (apply dl_node_ok; simpl; hlook; reflexivity). simpl.
      mstep reflexivity.
      rewrite dl_decr_length by (simpl; lia). reflexivity. }
    simpl. split; [|split; [reflexivity|split; [|split]]].
    + apply (dl_owns_join _ _ _ _ pre lc xc None []);
        [ | | reflexivity | exact Hnd1 | apply NoDup_nil_2 | exact Hlc1
        | set_solver | set_solver | simpl; lia | simpl; lia ].
      * eapply dl_seg_frame; [exact Hpre|]. intros l Hl.
        destruct (Hpre_ne l Hl). hlook. reflexivity.
      * hlook. reflexivity.
    + apply dl_heap_ok_delete, dl_heap_ok_insert; [exact Hok|].
      apply Hbelow. set_solver.
    + intros l Hl. rewrite fmap_app, fmap_cons in Hl. simpl in Hl.
      hlook. reflexivity.
    + apply lookup_delete_eq.
  - destruct Hsuf as (-> & nxs & Hls & Hsuf).
    apply NoDup_cons in Hnd2 as (Hls2 & Hnd2).
    assert (Hne2 : ls <> lc /\ ls <> lg) by set_solver.
    destruct Hne2 as [Hne2 Hne3].
    assert (Hsuf_ne : forall l, l ∈ suf.*1 -> l <> lc /\ l <> lg /\ l <> ls) by set_solver.
    do 2 eexists. split.
    { mstep (eapply dl_set_next_ok; simpl; exact Hlc).
      mstep reflexivity.
      mstep (apply dl_node_ok; simpl; hlook; reflexivity). simpl.
      mstep (eapply dl_set_prev_ok; simpl; hlook; exact Hls).
      rewrite dl_decr_length by (simpl; lia). reflexivity. }
    simpl. split; [|split; [reflexivity|split; [|split]]].
    + apply (dl_owns_join _ _ _ _ pre lc xc (Some ls) ((ls, xs) :: suf));
        [ | | | exact Hnd1 | apply NoDup_cons; auto | exact Hlc1
        | set_solver | | simpl in *; lia | simpl; lia ].
      * eapply dl_seg_frame; [exact Hpre|]. intros l Hl.
        destruct (Hpre_ne l Hl). assert (l <> ls) by set_solver.
        hlook. reflexivity.
      * hlook. reflexivity.
      * split; [reflexivity|]. eexists. split; [simpl; hlook; reflexivity|].
        eapply dl_seg_frame; [exact Hsuf|]. intros l Hl.
        destruct (Hsuf_ne l Hl) as (? & ? & ?). hlook. reflexivity.
      * intros l Hl. destruct (Hpre_ne l Hl). set_solver.
    + apply dl_heap_ok_insert; [|apply Hbelow; set_solver].
      apply dl_heap_ok_delete, dl_heap_ok_insert; [exact Hok|].
      apply Hbelow. set_solver.
    + intros l Hl. rewrite fmap_app, fmap_cons in Hl. simpl in Hl.
      hlook. reflexivity.
    + rewrite lookup_insert_ne by congruence. apply lookup_delete_eq.
Qed.

Lemma dl_erase_spec hp d lxs pos :
  DList.heap_ok hp -> DList.owns hp d lxs -> (pos < List.length lxs)%nat ->
  exists hp' d',
    DList.erase (Z.of_nat pos) (hp, d) = Ok tt (hp', d') /\
    DList.owns hp' d' (take pos lxs ++ drop (S pos) lxs) /\
    DList.next_id hp' = DList.next_id hp /\
    DList.heap_ok hp' /\
    (forall l, l ∉ lxs.*1 -> DList.nodes hp' !! l = DList.nodes hp !! l).
Proof.
  intros Hok Hown Hpos. destruct pos as [|k].
  - destruct lxs as [|[l0 x0] lxs]; simpl in Hpos; [lia|].
    destruct (dl_erase_front hp d l0 x0 lxs Hok Hown)
      as (hp' & d' & Hrun & Hown' & Hnext & Hok' & Hframe & _).
    exists hp', d'. rewrite take_0. simpl. rewrite drop_0. auto.
  - destruct (lookup_lt_is_Some_2 lxs k ltac:(lia)) as [[lc xc] Hk].
    destruct (lookup_lt_is_Some_2 lxs (S k) ltac:(lia)) as [[lg xg] Hg].
    pose proof (take_drop_middle lxs k _ Hk) as Hsplit.
    pose proof (take_drop_middle lxs (S k) _ Hg) as Hsplit'.
    assert (Hd : drop (S k) lxs = (lg, xg) :: drop (S (S k)) lxs).
    { apply drop_S in Hg. exact Hg. }
    rewrite Hd in Hsplit. rewrite <- Hsplit in Hown.
    destruct (dl_erase_after hp d _ _ _ _ _ _ Hok Hown)
      as (hp' & d' & Hrun & Hown' & Hnext & Hok' & Hframe & _).
    rewrite length_take, Nat.min_l in Hrun by lia.
    rewrite Hsplit in Hframe.
    exists hp', d'. rewrite (take_S_r lxs k _ Hk), <- app_assoc. auto.
Qed.

Lemma dl_subscript_spec hp d lxs i l x :
  DList.owns hp d lxs -> lxs !! i = Some (l, x) ->
  DList.subscript (Z.of_nat i) (hp, d) = Ok x (hp, d).
Proof.
  intros (Hseg & Hnd & Hn & Hmax) Hi.
  pose proof (lookup_lt_Some _ _ _ Hi) as Hlt.
  unfold DList.subscript. mstep reflexivity. cbn [DList.length snd]. zcond.
  mstep reflexivity. cbn [DList.head snd]. rewrite Nat2Z.id.
  mstep (eapply dl_walk; [exact Hseg|lia]).
  unfold DList.ptr_at. rewrite Hi. cbn [fst].
  mstep (apply dl_node_ok; eapply dl_seg_lookup; eassumption). reflexivity.
Qed.

Lemma dl_subscript_assign_spec hp d lxs i x :
  DList.heap_ok hp -> DList.owns hp d lxs -> (i < List.length lxs)%nat ->
  exists hp' lxs',
    DList.subscript_assign (Z.of_nat i) x (hp, d) = Ok tt (hp', d) /\
    DList.owns hp' d lxs' /\ lxs'.*1 = lxs.*1 /\ lxs'.*2 = <[i := x]> lxs.*2 /\
    DList.next_id hp' = DList.next_id hp /\
    DList.heap_ok hp' /\
    (forall l, l ∉ lxs.*1 -> DList.nodes hp' !! l = DList.nodes hp !! l).
Proof.
  intros Hok Hown Hi.
  destruct (lookup_lt_is_Some_2 lxs i Hi) as [[lc xc] Hk].
  pose proof (take_drop_middle lxs i _ Hk) as Hsplit.
  pose proof (fun l => dl_owns_below _ _ _ l Hok Hown) as Hbelow.
  pose proof Hown as (Hseg & Hnd & Hn & Hmax).
  rewrite <- Hsplit in Hown.
  destruct (dl_owns_split _ _ _ _ _ _ Hown)
    as (nxc & Hpre & Hlc & Hsuf & Hnd1 & Hnd2 & Hlc1 & Hlc2 & Hdisj).
  destruct hp as [h nid], d as [hd n]. simpl in *.
  exists (DList.mkHeap (<[lc := DList.mkNode x nxc (DList.last_loc None (take i lxs))]> h) nid),
    (take i lxs ++ (lc, x) :: drop (S i) lxs).
  split; [|split; [|split; [|split; [|split; [reflexivity|split]]]]].
  - unfold DList.subscript_assign. mstep reflexivity. cbn [DList.length snd]. zcond.
    mstep reflexivity. cbn [DList.head snd]. rewrite Nat2Z.id.
    mstep (eapply dl_walk; [exact Hseg|lia]).
    unfold DList.ptr_at. rewrite Hk. cbn [fst].
    erewrite dl_set_value_ok by (simpl; exact Hlc). reflexivity.
  - apply (dl_owns_join _ _ _ _ _ lc x nxc); try assumption.
    + eapply dl_seg_frame; [exact Hpre|]. intros l Hl.
      rewrite lookup_insert_ne by set_solver. reflexivity.
    + apply lookup_insert_eq.
    + eapply dl_seg_frame; [exact Hsuf|]. intros l Hl.
      rewrite lookup_insert_ne by set_solver. reflexivity.
    + rewrite Hn. rewrite <- Hsplit at 1. rewrite !length_app. reflexivity.
  - assert (E : lxs.*1 = (take i lxs).*1 ++ lc :: (drop (S i) lxs).*1).
    { rewrite <- Hsplit at 1. rewrite fmap_app, fmap_cons. reflexivity. }
    rewrite E, fmap_app, fmap_cons. reflexivity.
  - assert (E : lxs.*2 = (take i lxs).*2 ++ xc :: (drop (S i) lxs).*2).
    { rewrite <- Hsplit at 1. rewrite fmap_app, fmap_cons. reflexivity. }
    rewrite E, fmap_app, fmap_cons. simpl.
    rewrite insert_app_r_alt by (rewrite length_fmap, length_take; lia).
    rewrite length_fmap, length_take.
    replace (i - i `min` List.length lxs)%nat with 0%nat by lia. reflexivity.
  - apply dl_heap_ok_insert; [exact Hok|]. apply Hbelow.
    apply list_elem_of_fmap. exists (lc, xc). split; [reflexivity|].
    eapply list_elem_of_lookup_2. exact Hk.
  - intros l Hl. simpl. rewrite lookup_insert_ne; [reflexivity|].
    intros <-. apply Hl. apply list_elem_of_fmap. exists (lc, xc).
    split; [reflexivity|]. eapply list_elem_of_lookup_2. exact Hk.
Qed.

(** A chain has no more nodes than are alive. *)
Lemma dl_owns_size hp d lxs :
  DList.owns hp d lxs -> (List.length lxs <= base.size (DList.nodes hp))%nat.
Proof.
  intros Hown. pose proof Hown as (Hseg & Hnd & _).
  rewrite <- (length_fmap fst lxs), <- size_dom.
  rewrite <- (size_list_to_set (C := gset nat) lxs.*1) by exact Hnd.
  apply subseteq_size. intros l Hl. apply elem_of_list_to_set in Hl.
  apply elem_of_dom. eapply dl_owns_alive; eassumption.
Qed.

Lemma dl_iter_loop hp d lxs :
  forall pv p acc fuel,
    DList.seg (DList.nodes hp) pv p lxs None -> (List.length lxs <= fuel)%nat ->
    DList.iter_loop fuel (DList.It p) acc (hp, d) = Ok (acc ++ lxs.*2) (hp, d).
Proof.
  induction lxs as [|[l x] lxs IH]; intros pv p acc fuel Hseg Hfuel.
  - simpl in Hseg. subst p. destruct fuel; simpl; rewrite app_nil_r; reflexivity.
  - destruct fuel as [|fuel]; simpl in Hfuel; [lia|].
    destruct Hseg as (-> & nx & Hl & Hrest). simpl in *.
    unfold DList.end_. unfold bind at 1. unfold ret at 1.
    unfold DList.neq. cbn [DList.ptr]. rewrite bool_decide_eq_false_2 by discriminate.
    cbn [negb].
    mstep (unfold DList.deref; mstep (apply dl_node_ok; exact Hl); reflexivity).
    mstep (unfold DList.incr; cbn [DList.ptr];
           mstep (apply dl_node_ok; exact Hl); reflexivity).
    cbn [DList.value DList.next].
    rewrite (IH _ _ _ _ Hrest) by lia. rewrite <- app_assoc. reflexivity.
Qed.

Lemma dl_iterate_spec hp d lxs :
  DList.owns hp d lxs -> DList.iterate (hp, d) = Ok lxs.*2 (hp, d).
Proof.
  intros Hown. pose proof (dl_owns_size _ _ _ Hown) as Hsize.
  destruct Hown as (Hseg & _).
  unfold DList.iterate, DList.begin. rewrite bind_assoc.
  mstep reflexivity. mstep reflexivity. mstep reflexivity.
  apply (dl_iter_loop hp d lxs None _ []); assumption.
Qed.

Lemma dl_print_from `{Printable T} hp d lxs :
  forall pv p (out : string) fuel,
    DList.seg (DList.nodes hp) pv p lxs None -> (List.length lxs <= fuel)%nat ->
    bind (DList.print_from fuel p out) (fun out => ret (out ++ newline)%string) (hp, d)
    = Ok (out ++ line lxs.*2)%string (hp, d).
Proof.
  induction lxs as [|[l x] lxs IH]; intros pv p out fuel Hseg Hfuel.
  - simpl in Hseg. subst p. destruct fuel; reflexivity.
  - destruct fuel as [|fuel]; simpl in Hfuel; [lia|].
    destruct Hseg as (-> & nx & Hl & Hrest). simpl in *.
    rewrite bind_assoc. mstep (apply dl_node_ok; exact Hl).
    cbn [DList.value DList.next].
    etransitivity; [apply (IH _ _ _ _ Hrest); lia|].
    f_equal. rewrite !append_assoc. reflexivity.
Qed.

Lemma dl_print_spec `{Printable T} hp d lxs :
  DList.owns hp d lxs -> DList.print (hp, d) = Ok (line lxs.*2) (hp, d).
Proof.
  intros Hown. pose proof (dl_owns_size _ _ _ Hown) as Hsize.
  destruct Hown as (Hseg & _).
  unfold DList.print. mstep reflexivity. mstep reflexivity.
  apply (dl_print_from hp d lxs None _ ""%string); assumption.
Qed.

Lemma dl_size_spec hp d lxs :
  DList.owns hp d lxs -> DList.size (hp, d) = Ok (Z.of_nat (List.length lxs)) (hp, d).
Proof.
  intros (_ & _ & Hn & _). unfold DList.size, DList.get_length, gets. simpl.
  rewrite Hn. reflexivity.
Qed.

(** [insert(x, size())] is [push_back(x)]. *)
Lemma dl_insert_at_size hp d lxs x :
  DList.heap_ok hp -> DList.owns hp d lxs ->
  DList.insert x (DList.length d) (hp, d) = DList.push_back x (hp, d).
Proof.
  intros Hok Hown.
  pose proof (dl_owns_fresh _ _ _ Hok Hown) as Hfresh.
  pose proof (dl_owns_size _ _ _ Hown) as Hsize.
  destruct lxs as [|[lc xc] pre _] using rev_ind.
  - destruct Hown as (Hseg & Hnd & Hn & Hmax).
    destruct hp as [h nid], d as [hd n]. simpl in *. subst hd n. reflexivity.
  - destruct (dl_owns_split _ _ _ _ _ _ Hown)
      as (nxc & Hpre & Hlc & Hsuf & Hnd1 & Hnd2 & Hlc1 & Hlc2 & Hdisj).
    destruct Hown as (Hseg & Hnd & Hn & Hmax).
    destruct hp as [h nid], d as [hd n]. simpl in *. subst nxc.
    rewrite fmap_app in Hfresh. simpl in Hfresh.
    rewrite length_app in Hn, Hsize. simpl in Hn, Hsize.
    assert (Hne : lc <> nid) by set_solver.
    set (h1 := <[nid := DList.mkNode x None None]> h).
    assert (Hseg1 : DList.seg h1 None hd (pre ++ [(lc, xc)]) None).
    { eapply dl_seg_frame; [exact Hseg|].
      intros l Hl. unfold h1. rewrite lookup_insert_ne; [reflexivity|].
      rewrite fmap_app in Hl. simpl in Hl. set_solver. }
    assert (Hhd : exists l0, hd = Some l0).
    { rewrite (dl_seg_start _ _ _ _ _ Hseg). unfold DList.ptr_at.
      destruct pre as [|[l0 x0] pre]; simpl; eauto. }
    destruct Hhd as [l0 Hhd].
    assert (Hwalk : DList.walk (List.length pre) hd
                      (DList.mkHeap h1 (S nid), DList.mk hd n)
                    = Ok (Some lc) (DList.mkHeap h1 (S nid), DList.mk hd n)).
    { rewrite <- (dl_ptr_at_middle pre lc xc [] None).
      eapply dl_walk; [exact Hseg1|rewrite length_app; simpl; lia]. }
    subst h1.
    transitivity (DList.incr_length
      (DList.mkHeap
         (<[lc := DList.mkNode xc (Some nid) (DList.last_loc None pre)]>
            (<[nid := DList.mkNode x None (Some lc)]>
               (<[nid := DList.mkNode x None None]> h))) (S nid),
       DList.mk hd n)).
    + unfold DList.insert. mstep reflexivity. cbn [DList.length snd]. zcond.
      mstep reflexivity. mstep reflexivity. cbn [DList.head snd].
      replace (Z.to_nat (n - 1)) with (List.length pre) by lia.
      mstep (exact Hwalk).
      mstep (apply dl_node_ok; simpl; hlook; exact Hlc).
      cbn [DList.next].
      mstep (eapply dl_set_next_ok; simpl; hlook; reflexivity).
      mstep (apply dl_node_ok; simpl; hlook; reflexivity). simpl.
      mstep reflexivity.
      mstep (eapply dl_set_prev_ok; simpl; hlook; reflexivity).
      mstep (eapply dl_set_next_ok; simpl; hlook; exact Hlc).
      simpl. rewrite !insert_insert_eq. reflexivity.
    + symmetry. unfold DList.push_back. mstep reflexivity. mstep reflexivity.
      cbn [DList.head snd]. rewrite Hhd. rewrite <- Hhd.
      mstep reflexivity.
      mstep (eapply dl_walk_to_last; [exact Hseg1|]; simpl;
             rewrite map_size_insert_None; [lia|]).
      { destruct (h !! nid) eqn:E; [|reflexivity].
        pose proof (Hok nid (mk_is_Some _ _ E)). simpl in *. lia. }
      mstep (eapply dl_set_prev_ok; simpl; hlook; reflexivity).
      mstep (eapply dl_set_next_ok; simpl; hlook; exact Hlc).
      simpl. rewrite !insert_insert_eq. reflexivity.
Qed.

Lemma dl_push_back_spec hp d lxs x :
  DList.heap_ok hp -> DList.owns hp d lxs -> DList.length d < INT_MAX ->
  exists hp' d',
    DList.push_back x (hp, d) = Ok tt (hp', d') /\
    DList.owns hp' d' (lxs ++ [(DList.next_id hp, x)]) /\
    DList.next_id hp' = S (DList.next_id hp) /\
    DList.heap_ok hp' /\
    (forall l, l ∉ lxs.*1 -> l <> DList.next_id hp ->
               DList.nodes hp' !! l = DList.nodes hp !! l).
Proof.
  intros Hok Hown Hroom. pose proof Hown as (_ & _ & Hn & _).
  destruct (dl_insert_spec hp d lxs x (List.length lxs) Hok Hown ltac:(lia) Hroom)
    as (hp' & d' & Hrun & Hown' & Hrest).
  exists hp', d'. rewrite <- (dl_insert_at_size hp d lxs x Hok Hown), Hn.
  rewrite firstn_all, drop_all in Hown'. auto.
Qed.

(** *** What a normal end tells *)

Lemma dl_elem_take_drop (A : Type) (l a : A) (ls : list A) k :
  l ∈ take k ls ++ a :: drop k ls -> l ∈ ls \/ l = a.
Proof.
  rewrite elem_of_app, elem_of_cons.
  intros [Hl|[->|Hl]]; [left|right|left].
  - eapply subseteq_take; eassumption.
  - reflexivity.
  - eapply subseteq_drop; eassumption.
Qed.

Lemma dl_insert_inv hp d lxs x pos hp' d' :
  DList.heap_ok hp -> DList.owns hp d lxs ->
  DList.insert x pos (hp, d) = Ok tt (hp', d') ->
  exists lxs',
    DList.owns hp' d' lxs' /\ lxs'.*2 = mutate (Insert x pos) lxs.*2 /\
    DList.updated hp lxs hp' lxs' /\ 0 <= pos <= Z.of_nat (List.length lxs).
Proof.
  intros Hok Hown Hrun. pose proof Hown as (_ & _ & Hn & Hmax).
  destruct (Z_lt_dec pos 0) as [Hneg|Hnn].
  { rewrite dl_insert_throw in Hrun by lia. discriminate. }
  destruct (Z_gt_dec pos (DList.length d)) as [Hbig|Hle].
  { rewrite dl_insert_throw in Hrun by lia. discriminate. }
  rewrite <- (Z2Nat.id pos) in Hrun by lia.
  destruct (Z_lt_dec (DList.length d) INT_MAX) as [Hroom|Hfull].
  - destruct (dl_insert_spec hp d lxs x (Z.to_nat pos) Hok Hown ltac:(lia) Hroom)
      as (hp'' & d'' & Hrun' & Hown' & Hnext & Hok' & Hframe).
    rewrite Hrun' in Hrun. injection Hrun as <- <-.
    eexists. split; [exact Hown'|]. split; [|split; [|lia]].
    + simpl. rewrite fmap_app, fmap_cons, fmap_take, fmap_drop. reflexivity.
    + split; [exact Hok'|]. split; [lia|]. split; [|exact Hframe].
      intros l Hl. rewrite fmap_app, fmap_cons, fmap_take, fmap_drop in Hl.
      apply dl_elem_take_drop in Hl. exact Hl.
  - rewrite (dl_insert_overflow hp d lxs) in Hrun by (assumption || lia). discriminate.
Qed.

Lemma dl_push_back_inv hp d lxs x hp' d' :
  DList.heap_ok hp -> DList.owns hp d lxs ->
  DList.push_back x (hp, d) = Ok tt (hp', d') ->
  exists lxs',
    DList.owns hp' d' lxs' /\ lxs'.*2 = mutate (PushBack x) lxs.*2 /\
    DList.updated hp lxs hp' lxs'.
Proof.
  intros Hok Hown Hrun. pose proof Hown as (_ & _ & Hn & Hmax).
  rewrite <- (dl_insert_at_size hp d lxs x Hok Hown) in Hrun.
  destruct (dl_insert_inv _ _ _ _ _ _ _ Hok Hown Hrun) as (lxs' & Hown' & Hval & Hupd & _).
  exists lxs'. split; [exact Hown'|]. split; [|exact Hupd].
  rewrite Hval. simpl. rewrite Hn, Nat2Z.id, <- (length_fmap snd lxs).
  rewrite firstn_all, drop_all. reflexivity.
Qed.

Lemma dl_erase_inv hp d lxs pos hp' d' :
  DList.heap_ok hp -> DList.owns hp d lxs ->
  DList.erase pos (hp, d) = Ok tt (hp', d') ->
  exists lxs',
    DList.owns hp' d' lxs' /\ lxs'.*2 = mutate (Erase pos) lxs.*2 /\
    DList.updated hp lxs hp' lxs' /\ 0 <= pos < Z.of_nat (List.length lxs).
Proof.
  intros Hok Hown Hrun. pose proof Hown as (_ & _ & Hn & Hmax).
  destruct (Z_lt_dec pos 0) as [Hneg|Hnn].
  { rewrite dl_erase_throw in Hrun by lia. discriminate. }
  destruct (Z_ge_dec pos (DList.length d)) as [Hbig|Hle].
  { rewrite dl_erase_throw in Hrun by lia. discriminate. }
  rewrite <- (Z2Nat.id pos) in Hrun by lia.
  destruct (dl_erase_spec hp d lxs (Z.to_nat pos) Hok Hown ltac:(lia))
    as (hp'' & d'' & Hrun' & Hown' & Hnext & Hok' & Hframe).
  rewrite Hrun' in Hrun. injection Hrun as <- <-.
  eexists. split; [exact Hown'|]. split; [|split; [|lia]].
  - simpl. rewrite fmap_app, fmap_take, fmap_drop. reflexivity.
  - split; [exact Hok'|]. split; [lia|]. split; [|intros l Hl _; exact (Hframe l Hl)].
    intros l Hl. left. rewrite fmap_app, fmap_take, fmap_drop in Hl.
    apply elem_of_app in Hl as [Hl|Hl].
    + eapply subseteq_take; eassumption.
    + eapply subseteq_drop; eassumption.
Qed.

Lemma dl_subscript_assign_inv hp d lxs index x hp' d' :
  DList.heap_ok hp -> DList.owns hp d lxs ->
  DList.subscript_assign index x (hp, d) = Ok tt (hp', d') ->
  exists lxs',
    DList.owns hp' d' lxs' /\ lxs'.*2 = mutate (Assign index x) lxs.*2 /\
    DList.updated hp lxs hp' lxs' /\ 0 <= index < Z.of_nat (List.length lxs).
Proof.
  intros Hok Hown Hrun. pose proof Hown as (_ & _ & Hn & Hmax).
  destruct (Z_lt_dec index 0) as [Hneg|Hnn].
  { rewrite dl_subscript_assign_throw in Hrun by lia. discriminate. }
  destruct (Z_ge_dec index (DList.length d)) as [Hbig|Hle].
  { rewrite dl_subscript_assign_throw in Hrun by lia. discriminate. }
  rewrite <- (Z2Nat.id index) in Hrun by lia.
  destruct (dl_subscript_assign_spec hp d lxs (Z.to_nat index) x Hok Hown ltac:(lia))
    as (hp'' & lxs' & Hrun' & Hown' & Hlocs & Hvals & Hnext & Hok' & Hframe).
  rewrite Hrun' in Hrun. injection Hrun as <- <-.
  exists lxs'. split; [exact Hown'|]. split; [exact Hvals|]. split; [|lia].
  split; [exact Hok'|]. split; [lia|]. split; [|intros l Hl _; exact (Hframe l Hl)].
  intros l Hl. left. rewrite <- Hlocs. exact Hl.
Qed.

(** An exception leaves heap and list as they were. *)
Lemma dl_insert_Throw_inv hp d lxs x pos s :
  DList.heap_ok hp -> DList.owns hp d lxs ->
  DList.insert x pos (hp, d) = Throw s -> s = (hp, d).
Proof.
  intros Hok Hown Hrun. pose proof Hown as (_ & _ & Hn & Hmax).
  destruct (Z_lt_dec pos 0) as [Hneg|Hnn].
  { rewrite dl_insert_throw in Hrun by lia. congruence. }
  destruct (Z_gt_dec pos (DList.length d)) as [Hbig|Hle].
  { rewrite dl_insert_throw in Hrun by lia. congruence. }
  rewrite <- (Z2Nat.id pos) in Hrun by lia.
  destruct (dl_insert_run hp d lxs x (Z.to_nat pos) Hok Hown ltac:(lia))
    as (hp'' & hd'' & Hrun' & _).
  rewrite Hrun' in Hrun.
  destruct (Z_lt_dec (DList.length d) INT_MAX) as [Hroom|Hfull].
  - rewrite dl_incr_length in Hrun by lia. discriminate.
  - rewrite dl_incr_length_overflow in Hrun by lia. discriminate.
Qed.

Lemma dl_push_back_Throw_inv hp d lxs x s :
  DList.heap_ok hp -> DList.owns hp d lxs ->
  DList.push_back x (hp, d) = Throw s -> s = (hp, d).
Proof.
  intros Hok Hown Hrun. rewrite <- (dl_insert_at_size hp d lxs x Hok Hown) in Hrun.
  eapply dl_insert_Throw_inv; eassumption.
Qed.

Lemma dl_erase_Throw_inv hp d lxs pos s :
  DList.heap_ok hp -> DList.owns hp d lxs ->
  DList.erase pos (hp, d) = Throw s -> s = (hp, d).
Proof.
  intros Hok Hown Hrun. pose proof Hown as (_ & _ & Hn & Hmax).
  destruct (Z_lt_dec pos 0) as [Hneg|Hnn].
  { rewrite dl_erase_throw in Hrun by lia. congruence. }
  destruct (Z_ge_dec pos (DList.length d)) as [Hbig|Hle].
  { rewrite dl_erase_throw in Hrun by lia. congruence. }
  rewrite <- (Z2Nat.id pos) in Hrun by lia.
  destruct (dl_erase_spec hp d lxs (Z.to_nat pos) Hok Hown ltac:(lia))
    as (hp'' & d'' & Hrun' & _).
  congruence.
Qed.

Lemma dl_subscript_assign_Throw_inv hp d lxs index x s :
  DList.heap_ok hp -> DList.owns hp d lxs ->
  DList.subscript_assign index x (hp, d) = Throw s -> s = (hp, d).
Proof.
  intros Hok Hown Hrun. pose proof Hown as (_ & _ & Hn & Hmax).
  destruct (Z_lt_dec index 0) as [Hneg|Hnn].
  { rewrite dl_subscript_assign_throw in Hrun by lia. congruence. }
  destruct (Z_ge_dec index (DList.length d)) as [Hbig|Hle].
  { rewrite dl_subscript_assign_throw in Hrun by lia. congruence. }
  rewrite <- (Z2Nat.id index) in Hrun by lia.
  destruct (dl_subscript_assign_spec hp d lxs (Z.to_nat index) x Hok Hown ltac:(lia))
    as (hp'' & lxs' & Hrun' & _).
  congruence.
Qed.

(** *** Lists in a world *)

Implicit Types (w : DList.heap T * gmap nat DList.dlist) (objs : gmap nat DList.dlist).

Lemma dl_on_Ok {R} this (m : M (DList.heap T * DList.dlist) R) w d a s :
  w.2 !! this = Some d -> m (w.1, d) = Ok a s ->
  DList.on this m w = Ok a (s.1, <[this := s.2]> w.2).
Proof. unfold DList.on. intros -> ->. reflexivity. Qed.

Lemma dl_on_same {R} this (m : M (DList.heap T * DList.dlist) R) w d a :
  w.2 !! this = Some d -> m (w.1, d) = Ok a (w.1, d) ->
  DList.on this m w = Ok a w.
Proof.
  intros Hd Hm. unfold DList.on. rewrite Hd, Hm. simpl.
  rewrite insert_id by exact Hd. destruct w; reflexivity.
Qed.

Lemma dl_on_Throw_same {R} this (m : M (DList.heap T * DList.dlist) R) w d :
  w.2 !! this = Some d -> m (w.1, d) = Throw (w.1, d) ->
  DList.on this m w = Throw w.
Proof.
  intros Hd Hm. unfold DList.on. rewrite Hd, Hm. simpl.
  rewrite insert_id by exact Hd. destruct w; reflexivity.
Qed.

Lemma dl_on_inv {R} this (m : M (DList.heap T * DList.dlist) R) w w' a :
  DList.on this m w = Ok a w' ->
  exists d s, w.2 !! this = Some d /\ m (w.1, d) = Ok a s /\
              w' = (s.1, <[this := s.2]> w.2).
Proof.
  unfold DList.on. destruct (w.2 !! this) as [d|]; [|discriminate].
  destruct (m (w.1, d)) as [a' s| | |] eqn:Hm; try discriminate.
  intros [= <- <-]. eauto.
Qed.

Lemma dl_on_inv_Throw {R} this (m : M (DList.heap T * DList.dlist) R) w w' :
  DList.on this m w = Throw w' ->
  exists d s, w.2 !! this = Some d /\ m (w.1, d) = Throw s /\
              w' = (s.1, <[this := s.2]> w.2).
Proof.
  unfold DList.on. destruct (w.2 !! this) as [d|]; [|discriminate].
  destruct (m (w.1, d)) as [a' s| | |] eqn:Hm; try discriminate.
  intros [= <-]. eauto.
Qed.

Lemma dl_owns_frame hp hp' d lxs :
  DList.owns hp d lxs ->
  (forall l, l ∈ lxs.*1 -> DList.nodes hp' !! l = DList.nodes hp !! l) ->
  DList.owns hp' d lxs.
Proof.
  intros (Hseg & Hrest) Hsame. split; [|exact Hrest].
  eapply dl_seg_frame; eassumption.
Qed.

Lemma dl_owns_head hp d d' lxs :
  DList.owns hp d lxs -> DList.head d' = DList.head d ->
  DList.length d' = DList.length d -> DList.owns hp d' lxs.
Proof. intros (Hseg & Hnd & Hn & Hmax) Hh Hl. unfold DList.owns. rewrite Hh, Hl. auto. Qed.

Lemma dl_owns_nil hp : DList.owns hp (DList.mk None 0) [].
Proof. unfold DList.owns, INT_MAX. simpl. repeat split; try lia. apply NoDup_nil_2. Qed.

Lemma dl_owns_nil_inv hp d lxs : DList.owns hp d lxs -> DList.head d = None -> lxs = [].
Proof.
  intros (Hseg & _) Hh. destruct lxs as [|[l x] lxs]; [reflexivity|].
  destruct Hseg as (Hp & _). congruence.
Qed.

(** The world after the chain of [this] was replaced: the nodes of the
    other lists were left alone, and none of them is in the new chain. *)
Lemma dl_valid_replace hp objs this d lxs hp' d' lxs' :
  DList.valid (hp, objs) -> objs !! this = Some d ->
  DList.owns hp d lxs -> DList.owns hp' d' lxs' -> DList.heap_ok hp' ->
  (forall l, l ∉ lxs.*1 -> (l < DList.next_id hp)%nat ->
             DList.nodes hp' !! l = DList.nodes hp !! l) ->
  (forall u du lu l, u <> this -> objs !! u = Some du -> DList.owns hp du lu ->
                     l ∈ lu.*1 -> l ∉ lxs'.*1) ->
  DList.valid (hp', <[this := d']> objs) /\
  (forall u du lu, u <> this -> objs !! u = Some du -> DList.owns hp du lu ->
                   DList.owns hp' du lu).
Proof.
  intros (Hok & Hall & Hdisj) Hd Hown Hown' Hok' Hframe Hnew. simpl in *.
  assert (Hothers : forall u du lu, u <> this -> objs !! u = Some du ->
                      DList.owns hp du lu -> DList.owns hp' du lu).
  { intros u du lu Hu Hdu Hlu. eapply dl_owns_frame; [exact Hlu|].
    intros l Hl. apply Hframe.
    - intros Hl'. exact (Hdisj u this du d lu lxs Hu Hdu Hd Hlu Hown l Hl Hl').
    - exact (dl_owns_below _ _ _ l Hok Hlu Hl). }
  split; [|exact Hothers]. split; [exact Hok'|]. simpl. split.
  - intros u du Hu. destruct (decide (u = this)) as [->|Hne].
    + rewrite lookup_insert_eq in Hu. injection Hu as <-. eauto.
    + rewrite lookup_insert_ne in Hu by congruence.
      destruct (Hall u du Hu) as [lu Hlu]. exists lu. eauto.
  - assert (Hcross : forall u du lu, u <> this -> objs !! u = Some du ->
                       DList.owns hp' du lu -> lu.*1 ## lxs'.*1).
    { intros u du lu Hu Hdu Hlu'. destruct (Hall u du Hdu) as [lu0 Hlu0].
      pose proof (Hothers u du lu0 Hu Hdu Hlu0) as Hlu0'.
      rewrite (dl_owns_det _ _ _ _ Hlu' Hlu0').
      intros l Hl. exact (Hnew u du lu0 l Hu Hdu Hlu0 Hl). }
    intros v1 v2 d1 d2 l1 l2 Hne H1 H2 Ho1 Ho2.
    destruct (decide (v1 = this)) as [->|Hn1]; destruct (decide (v2 = this)) as [->|Hn2].
    + contradiction.
    + rewrite lookup_insert_eq in H1. injection H1 as <-.
      rewrite lookup_insert_ne in H2 by congruence.
      rewrite (dl_owns_det _ _ _ _ Ho1 Hown').
      intros l Hl Hl'. exact (Hcross v2 d2 l2 Hn2 H2 Ho2 l Hl' Hl).
    + rewrite lookup_insert_eq in H2. injection H2 as <-.
      rewrite lookup_insert_ne in H1 by congruence.
      rewrite (dl_owns_det _ _ _ _ Ho2 Hown'). eapply Hcross; eassumption.
    + rewrite lookup_insert_ne in H1, H2 by congruence.
      destruct (Hall v1 d1 H1) as [l10 Hl10]. destruct (Hall v2 d2 H2) as [l20 Hl20].
      rewrite (dl_owns_det _ _ _ _ Ho1 (Hothers _ _ _ Hn1 H1 Hl10)).
      rewrite (dl_owns_det _ _ _ _ Ho2 (Hothers _ _ _ Hn2 H2 Hl20)).
      exact (Hdisj v1 v2 d1 d2 l10 l20 Hne H1 H2 Hl10 Hl20).
Qed.

(** The world after a method of [this] that changed only its own chain. *)
Lemma dl_valid_update hp objs this d lxs hp' d' lxs' :
  DList.valid (hp, objs) -> objs !! this = Some d ->
  DList.owns hp d lxs -> DList.owns hp' d' lxs' -> DList.updated hp lxs hp' lxs' ->
  DList.valid (hp', <[this := d']> objs) /\
  (forall u du lu, u <> this -> objs !! u = Some du -> DList.owns hp du lu ->
                   DList.owns hp' du lu).
Proof.
  intros Hval Hd Hown Hown' (Hok' & Hnext & Hsub & Hframe).
  pose proof Hval as (Hok & Hall & Hdisj). simpl in *.
  eapply dl_valid_replace; try eassumption.
  - intros l Hl Hlt. apply Hframe; [exact Hl|lia].
  - intros u du lu l Hu Hdu Hlu Hl Hl'. destruct (Hsub l Hl') as [Hin| ->].
    + exact (Hdisj u this du d lu lxs Hu Hdu Hd Hlu Hown l Hl Hin).
    + pose proof (dl_owns_below _ _ _ _ Hok Hlu Hl). lia.
Qed.

Lemma dl_valid_construct hp objs this :
  DList.valid (hp, objs) -> DList.valid (hp, <[this := DList.ctor]> objs).
Proof.
  intros (Hok & Hall & Hdisj). simpl in *. split; [exact Hok|]. simpl. split.
  - intros u du Hu. destruct (decide (u = this)) as [->|Hne].
    + rewrite lookup_insert_eq in Hu. injection Hu as <-. exists []. apply dl_owns_nil.
    + rewrite lookup_insert_ne in Hu by congruence. eauto.
  - intros v1 v2 d1 d2 l1 l2 Hne H1 H2 Ho1 Ho2.
    destruct (decide (v1 = this)) as [->|Hn1]; destruct (decide (v2 = this)) as [->|Hn2].
    + contradiction.
    + rewrite lookup_insert_eq in H1. injection H1 as <-.
      rewrite (dl_owns_nil_inv _ _ _ Ho1 eq_refl). set_solver.
    + rewrite lookup_insert_eq in H2. injection H2 as <-.
      rewrite (dl_owns_nil_inv _ _ _ Ho2 eq_refl). set_solver.
    + rewrite lookup_insert_ne in H1, H2 by congruence.
      exact (Hdisj v1 v2 d1 d2 l1 l2 Hne H1 H2 Ho1 Ho2).
Qed.

(** *** Letting go of a chain *)

Lemma dl_release_from {X} (s : X) lxs :
  forall hp pv p fuel,
    DList.seg (DList.nodes hp) pv p lxs None -> NoDup lxs.*1 ->
    (List.length lxs <= fuel)%nat ->
    exists h',
      DList.release_from fuel p (hp, s) = Ok tt (DList.mkHeap h' (DList.next_id hp), s) /\
      (forall l, l ∈ lxs.*1 -> h' !! l = None) /\
      (forall l, l ∉ lxs.*1 -> h' !! l = DList.nodes hp !! l).
Proof.
  induction lxs as [|[l x] lxs IH]; intros hp pv p fuel Hseg Hnd Hfuel.
  - simpl in Hseg. subst p. exists (DList.nodes hp). split; [|split].
    + destruct fuel, hp; reflexivity.
    + intros l Hl. set_solver.
    + reflexivity.
  - destruct fuel as [|fuel]; simpl in Hfuel; [lia|].
    destruct Hseg as (-> & nx & Hl & Hrest). simpl in *.
    apply NoDup_cons in Hnd as [Hl' Hnd].
    destruct (IH (DList.mkHeap (delete l (DList.nodes hp)) (DList.next_id hp))
                (Some l) nx fuel) as (h' & Hrun & Hgone & Hkept); [|exact Hnd|lia|].
    { simpl. eapply dl_seg_frame; [exact Hrest|]. intros l0 Hl0.
      rewrite lookup_delete_ne; [reflexivity|]. intros ->. contradiction. }
    exists h'. split; [|split].
    + mstep (apply dl_node_ok; exact Hl). mstep reflexivity. exact Hrun.
    + intros l0 Hl0. apply elem_of_cons in Hl0 as [->|Hl0]; [|auto].
      rewrite Hkept by exact Hl'. simpl. apply lookup_delete_eq.
    + intros l0 Hl0. apply not_elem_of_cons in Hl0 as [Hne Hl0].
      rewrite Hkept by exact Hl0. simpl. apply lookup_delete_ne. congruence.
Qed.

Lemma dl_release {X} (s : X) hp d lxs :
  DList.heap_ok hp -> DList.owns hp d lxs ->
  exists h',
    DList.release (DList.head d) (hp, s) = Ok tt (DList.mkHeap h' (DList.next_id hp), s) /\
    DList.heap_ok (DList.mkHeap h' (DList.next_id hp)) /\
    (forall l, l ∈ lxs.*1 -> h' !! l = None) /\
    (forall l, l ∉ lxs.*1 -> h' !! l = DList.nodes hp !! l).
Proof.
  intros Hok Hown. pose proof (dl_owns_size _ _ _ Hown) as Hsize.
  destruct Hown as (Hseg & Hnd & _).
  destruct (dl_release_from s lxs hp None (DList.head d) _ Hseg Hnd Hsize)
    as (h' & Hrun & Hgone & Hkept).
  exists h'. split; [|split; [|split; assumption]].
  - unfold DList.release. mstep reflexivity. exact Hrun.
  - intros l Hl. simpl in Hl. destruct (decide (l ∈ lxs.*1)) as [Hin|Hout].
    + rewrite Hgone in Hl by exact Hin. destruct Hl as [? [=]].
    + rewrite Hkept in Hl by exact Hout. exact (Hok l Hl).
Qed.

(** *** Moving and copying *)

Lemma dl_take_over_run this list hp objs dt dl lt :
  DList.heap_ok hp -> this <> list ->
  objs !! this = Some dt -> objs !! list = Some dl -> DList.owns hp dt lt ->
  exists h',
    DList.take_over this list (hp, objs)
    = Ok tt (DList.mkHeap h' (DList.next_id hp),
             <[list := DList.ctor]> (<[this := dl]> objs)) /\
    DList.heap_ok (DList.mkHeap h' (DList.next_id hp)) /\
    (forall l, l ∈ lt.*1 -> h' !! l = None) /\
    (forall l, l ∉ lt.*1 -> h' !! l = DList.nodes hp !! l).
Proof.
  intros Hok Hne Ht Hl Hown.
  destruct (dl_release (<[this := DList.mk (DList.head dl) (DList.length dt)]>
                          (<[list := DList.mk None (DList.length dl)]> objs))
              hp dt lt Hok Hown) as (h' & Hrel & Hok' & Hgone & Hkept).
  exists h'. split; [|auto].
  unfold DList.take_over.
  mstep (eapply dl_on_same; [exact Hl|reflexivity]).
  mstep (eapply dl_on_Ok; [exact Hl|reflexivity]). simpl.
  mstep (eapply dl_on_same; [simpl; simplify_map_eq; reflexivity|reflexivity]).
  mstep (eapply dl_on_Ok; [simpl; simplify_map_eq; reflexivity|reflexivity]). simpl.
  mstep (exact Hrel).
  mstep (eapply dl_on_same; [simpl; simplify_map_eq; reflexivity|reflexivity]).
  mstep (eapply dl_on_Ok; [simpl; simplify_map_eq; reflexivity|reflexivity]). simpl.
  mstep (eapply dl_on_Ok; [simpl; simplify_map_eq; reflexivity|reflexivity]). simpl.
  etransitivity; [eapply dl_on_Ok; [simpl; simplify_map_eq; reflexivity|reflexivity]|].
  simpl. f_equal. f_equal. apply map_eq. intros k.
  destruct (decide (k = list)) as [->|]; [|destruct (decide (k = this)) as [->|]];
    simplify_map_eq; try reflexivity.
  destruct dl; reflexivity.
Qed.

Lemma dl_valid_take_over this list hp objs dt dl lt ll h' :
  DList.valid (hp, objs) -> this <> list ->
  objs !! this = Some dt -> objs !! list = Some dl ->
  DList.owns hp dt lt -> DList.owns hp dl ll ->
  DList.heap_ok (DList.mkHeap h' (DList.next_id hp)) ->
  (forall l, l ∉ lt.*1 -> h' !! l = DList.nodes hp !! l) ->
  DList.valid (DList.mkHeap h' (DList.next_id hp),
               <[list := DList.ctor]> (<[this := dl]> objs)) /\
  DList.owns (DList.mkHeap h' (DList.next_id hp)) dl ll /\
  (forall u du lu, u <> this -> objs !! u = Some du -> DList.owns hp du lu ->
                   DList.owns (DList.mkHeap h' (DList.next_id hp)) du lu).
Proof.
  intros Hval Hne Ht Hl Hot Hol Hok' Hkept.
  pose proof Hval as (Hok & Hall & Hdisj). simpl in *.
  set (hp' := DList.mkHeap h' (DList.next_id hp)).
  (* the list [this] lets go of its chain *)
  destruct (dl_valid_replace hp objs this dt lt hp' (DList.mk None 0) [])
    as (Hval1 & Hkeep1); try assumption.
  { apply dl_owns_nil. }
  { intros l Hl' _. apply Hkept. exact Hl'. }
  { intros. set_solver. }
  pose proof (Hkeep1 list dl ll ltac:(congruence) Hl Hol) as Hol'.
  (* the other list gives its chain away *)
  destruct (dl_valid_replace hp' (<[this := DList.mk None 0]> objs) list dl ll hp'
              DList.ctor []) as (Hval2 & Hkeep2); try assumption.
  { rewrite lookup_insert_ne by congruence. exact Hl. }
  { apply dl_owns_nil. }
  { reflexivity. }
  { intros. set_solver. }
  (* and [this] takes it *)
  destruct (dl_valid_replace hp' (<[list := DList.ctor]> (<[this := DList.mk None 0]> objs))
              this (DList.mk None 0) [] hp' dl ll) as (Hval3 & Hkeep3); try assumption.
  { rewrite lookup_insert_ne by congruence. apply lookup_insert_eq. }
  { apply dl_owns_nil. }
  { reflexivity. }
  { intros u du lu l Hu Hdu Hlu Hin Hin'.
    destruct (decide (u = list)) as [->|Hul].
    - rewrite lookup_insert_eq in Hdu. injection Hdu as <-.
      rewrite (dl_owns_nil_inv _ _ _ Hlu eq_refl) in Hin. set_solver.
    - rewrite !lookup_insert_ne in Hdu by congruence.
      destruct (Hall u du Hdu) as [lu0 Hlu0].
      pose proof (Hkeep1 u du lu0 Hu Hdu Hlu0) as Hlu0'.
      rewrite (dl_owns_det _ _ _ _ Hlu Hlu0') in Hin.
      exact (Hdisj u list du dl lu0 ll Hul Hdu Hl Hlu0 Hol l Hin Hin'). }
  split; [|split; [exact Hol'|exact Hkeep1]].
  replace (<[list := DList.ctor]> (<[this := dl]> objs))
    with (<[this := dl]> (<[list := DList.ctor]> (<[this := DList.mk None 0]> objs))).
  - exact Hval3.
  - apply map_eq. intros k.
    destruct (decide (k = list)) as [->|]; [|destruct (decide (k = this)) as [->|]];
      simplify_map_eq; reflexivity.
Qed.

Lemma dl_copy_from this list dl lxs :
  forall rem k hp objs fuel dt lt,
    DList.valid (hp, objs) -> this <> list ->
    objs !! list = Some dl -> DList.owns hp dl lxs ->
    objs !! this = Some dt -> DList.owns hp dt lt -> lt.*2 = take k lxs.*2 ->
    (k + rem = List.length lxs)%nat -> (rem <= fuel)%nat ->
    exists hp' dt' lt',
      DList.copy_from fuel this (DList.ptr_at lxs None k) (hp, objs)
      = Ok tt (hp', <[this := dt']> objs) /\
      DList.valid (hp', <[this := dt']> objs) /\
      DList.owns hp' dt' lt' /\ lt'.*2 = lxs.*2 /\
      (forall u du lu, u <> this -> objs !! u = Some du -> DList.owns hp du lu ->
                       DList.owns hp' du lu).
Proof.
  induction rem as [|rem IH]; intros k hp objs fuel dt lt Hval Hne Hl Hol Ht Hot Hvals Hk Hfuel.
  - exists hp, dt, lt. unfold DList.ptr_at.
    rewrite lookup_ge_None_2 by lia. rewrite insert_id by exact Ht.
    split; [destruct fuel; reflexivity|]. split; [exact Hval|]. split; [exact Hot|].
    split; [|auto].
    rewrite Hvals, firstn_all2; [reflexivity|]. rewrite length_fmap. lia.
  - destruct fuel as [|fuel]; [lia|].
    destruct (lookup_lt_is_Some_2 lxs k ltac:(lia)) as [[l x] Hlk].
    pose proof Hval as (Hok & _). simpl in Hok.
    pose proof Hol as (Hsegl & _).
    pose proof (dl_seg_lookup _ _ _ _ _ _ _ _ Hsegl Hlk) as Hnode.
    pose proof Hot as (_ & _ & Hnt & _).
    pose proof Hol as (_ & _ & Hnl & Hmaxl).
    assert (Hlen : List.length lt = k).
    { rewrite <- (length_fmap snd lt), Hvals, length_take, length_fmap. lia. }
    destruct (dl_push_back_spec hp dt lt x Hok Hot ltac:(lia))
      as (hp1 & dt1 & Hpush & Hot1 & Hnext1 & Hok1 & Hframe1).
    destruct (dl_valid_update hp objs this dt lt hp1 dt1 _ Hval Ht Hot Hot1)
      as (Hval1 & Hkeep1).
    { split; [exact Hok1|]. split; [lia|]. split; [|exact Hframe1].
      intros l0 Hl0. rewrite fmap_app in Hl0. simpl in Hl0. set_solver. }
    pose proof (Hkeep1 list dl lxs ltac:(congruence) Hl Hol) as Hol1.
    destruct (IH (S k) hp1 (<[this := dt1]> objs) fuel dt1
                (lt ++ [(DList.next_id hp, x)]) Hval1 Hne)
      as (hp' & dt' & lt' & Hrun & Hval' & Hot' & Hvals' & Hkeep');
      [rewrite lookup_insert_ne by congruence; exact Hl | exact Hol1
      | apply lookup_insert_eq | exact Hot1 | | lia | lia | ].
    { rewrite fmap_app, Hvals. simpl. symmetry. apply take_S_r.
      rewrite list_lookup_fmap, Hlk. reflexivity. }
    rewrite insert_insert_eq in Hrun, Hval'.
    exists hp', dt', lt'. split; [|split; [exact Hval'|split; [exact Hot'|split; [exact Hvals'|]]]].
    + unfold DList.ptr_at at 1. rewrite Hlk. cbn [fst DList.copy_from].
      mstep (apply dl_node_ok; exact Hnode). cbn [DList.value].
      mstep (eapply dl_on_Ok; [exact Ht|exact Hpush]). cbn [fst snd].
      pose proof Hol1 as (Hsegl1 & _).
      mstep (apply dl_node_ok; eapply dl_seg_lookup; [exact Hsegl1|exact Hlk]).
      cbn [DList.next]. exact Hrun.
    + intros u du lu Hu Hdu Hlu. apply (Hkeep' u du lu Hu).
      * rewrite lookup_insert_ne by congruence. exact Hdu.
      * exact (Hkeep1 u du lu Hu Hdu Hlu).
Qed.

Lemma dl_copy_assign_spec this list hp objs dt dl lxs :
  DList.valid (hp, objs) -> this <> list ->
  objs !! this = Some dt -> objs !! list = Some dl -> DList.owns hp dl lxs ->
  exists hp' dt' lt',
    DList.copy_assign this list (hp, objs) = Ok tt (hp', <[this := dt']> objs) /\
    DList.valid (hp', <[this := dt']> objs) /\
    DList.owns hp' dt' lt' /\ lt'.*2 = lxs.*2 /\
    (forall u du lu, u <> this -> objs !! u = Some du -> DList.owns hp du lu ->
                     DList.owns hp' du lu).
Proof.
  intros Hval Hne Ht Hl Hol. pose proof Hval as (Hok & Hall & Hdisj). simpl in *.
  destruct (Hall this dt Ht) as [lt Hot].
  destruct (dl_release (<[this := DList.mk None (DList.length dt)]> objs) hp dt lt Hok Hot)
    as (h1 & Hrel & Hok1 & Hgone & Hkept).
  set (hp1 := DList.mkHeap h1 (DList.next_id hp)) in *.
  destruct (dl_valid_replace hp objs this dt lt hp1 (DList.mk None 0) [])
    as (Hval1 & Hkeep1); try assumption.
  { apply dl_owns_nil. }
  { intros l Hl' _. apply Hkept. exact Hl'. }
  { intros. set_solver. }
  pose proof (Hkeep1 list dl lxs ltac:(congruence) Hl Hol) as Hol1.
  pose proof (dl_owns_size _ _ _ Hol1) as Hsize.
  destruct (dl_copy_from this list dl lxs (List.length lxs) 0 hp1
              (<[this := DList.mk None 0]> objs) (base.size h1) (DList.mk None 0) []
              Hval1 Hne)
    as (hp' & dt' & lt' & Hrun & Hval' & Hot' & Hvals' & Hkeep');
    [rewrite lookup_insert_ne by congruence; exact Hl | exact Hol1
    | apply lookup_insert_eq | apply dl_owns_nil | reflexivity | lia | exact Hsize | ].
  rewrite insert_insert_eq in Hrun, Hval'.
  exists hp', dt', lt'. split; [|split; [exact Hval'|split; [exact Hot'|split; [exact Hvals'|]]]].
  - unfold DList.copy_assign. destruct (decide (this = list)); [contradiction|].
    mstep (eapply dl_on_same; [exact Ht|reflexivity]).
    mstep (eapply dl_on_Ok; [exact Ht|reflexivity]). cbn [fst snd].
    mstep (exact Hrel).
    mstep (eapply dl_on_Ok; [simpl; simplify_map_eq; reflexivity|reflexivity]).
    cbn [fst snd DList.head]. rewrite insert_insert_eq.
    mstep (eapply dl_on_same; [simpl; simplify_map_eq; reflexivity|reflexivity]).
    mstep reflexivity. cbn [fst snd DList.nodes].
    pose proof Hol as (Hsegl & _).
    rewrite (dl_seg_start _ _ _ _ _ Hsegl). exact Hrun.
  - intros u du lu Hu Hdu Hlu. apply (Hkeep' u du lu Hu).
    + rewrite lookup_insert_ne by congruence. exact Hdu.
    + exact (Hkeep1 u du lu Hu Hdu Hlu).
Qed.
End facts.
End DListFacts.

(** ** The laws of the interface, kind by kind *)

Module VecLaws.
Import VecFacts.
Section laws.
Context {T : Type} `{Printable T}.
Local Abbreviation c := (DynamicArray_impl (T:=T)).
Implicit Types (w : gmap nat (Vec.myvector T)) (xs ys : list T).

Lemma vec_w_stores_inj w this xs ys : stores c w this xs -> stores c w this ys -> xs = ys.
Proof.
  intros (v & Hv & Hxs) (v' & Hv' & Hys). rewrite Hv in Hv'. injection Hv' as <-.
  eapply vec_holds_inj; eassumption.
Qed.

Lemma vec_w_size_inv w this n w' :
  size c this w = Ok n w' -> exists v, w !! this = Some v /\ Vec.length v = n /\ w' = w.
Proof.
  intros Hsize. apply on_inv in Hsize as (v & v' & Hv & Hrun & ->).
  unfold Vec.size, gets in Hrun. injection Hrun as <- <-.
  exists v. rewrite insert_id by exact Hv. auto.
Qed.

Lemma vec_w_throws w this n x pos :
  size c this w = Ok n w ->
  (pos < 0 \/ pos > n -> insert c this x pos w = Throw w) /\
  (pos < 0 \/ pos >= n ->
     erase c this pos w = Throw w /\ subscript c this pos w = Throw w /\
     subscript_assign c this pos x w = Throw w).
Proof.
  intros Hsize. apply vec_w_size_inv in Hsize as (v & Hv & <- & _).
  split; [intros Hpos|intros Hpos; split; [|split]];
    (eapply on_Throw_same; [exact Hv|]).
  - apply vec_insert_throw. lia.
  - apply vec_erase_throw. lia.
  - apply vec_subscript_throw. lia.
  - apply vec_subscript_assign_throw. lia.
Qed.

Lemma vec_w_observe w this xs :
  stores c w this xs ->
  iterate c this w = Ok xs w /\ size c this w = Ok (Z.of_nat (List.length xs)) w /\
  print c this w = Ok (line xs) w /\
  (forall i x, xs !! i = Some x -> subscript c this (Z.of_nat i) w = Ok x w).
Proof.
  intros (v & Hv & Hxs). split; [|split; [|split]].
  - eapply on_same; [exact Hv|]. apply vec_iterate_spec. exact Hxs.
  - eapply on_same; [exact Hv|]. apply vec_size_spec. exact Hxs.
  - eapply on_same; [exact Hv|]. apply vec_print_spec. exact Hxs.
  - intros i x Hi. eapply on_same; [exact Hv|]. eapply vec_subscript_spec; eassumption.
Qed.

Lemma vec_w_iterate_inv w this xs w' :
  valid c w -> iterate c this w = Ok xs w' -> stores c w this xs.
Proof.
  intros Hval Hit. apply on_inv in Hit as (v & v' & Hv & Hrun & ->).
  destruct (Hval this v Hv) as [ys Hys].
  rewrite (vec_iterate_spec v ys Hys) in Hrun. injection Hrun as <- <-.
  exists v. auto.
Qed.

Lemma vec_valid_insert w this v :
  valid c w -> (exists xs, Vec.holds v xs) -> valid c (<[this := v]> w).
Proof.
  intros Hval Hv u vu Hu. destruct (decide (u = this)) as [->|Hne].
  - rewrite lookup_insert_eq in Hu. injection Hu as <-. exact Hv.
  - rewrite lookup_insert_ne in Hu by congruence. exact (Hval u vu Hu).
Qed.

Lemma vec_stores_other w this v u ys :
  u <> this -> stores c w u ys -> stores c (<[this := v]> w) u ys.
Proof.
  intros Hne (vu & Hu & Hys). exists vu. rewrite lookup_insert_ne by congruence. auto.
Qed.

Lemma vec_w_apply w this m w' xs :
  valid c w -> stores c w this xs ->
  apply c m this w = Ok tt w' ->
  valid c w' /\ stores c w' this (mutate m xs) /\
  (forall u ys, u <> this -> stores c w u ys -> stores c w' u ys).
Proof.
  intros Hval (v & Hv & Hxs) Hrun.
  destruct m as [x|x pos|pos|index x]; simpl in Hrun;
    apply on_inv in Hrun as (v0 & v' & Hv0 & Hrun & ->);
    rewrite Hv in Hv0; injection Hv0 as <-.
  - destruct (vec_push_back_inv _ _ _ _ Hxs Hrun) as (Hv' & _).
    split; [apply vec_valid_insert; eauto|]. split; [|intros; apply vec_stores_other; auto].
    exists v'. rewrite lookup_insert_eq. auto.
  - destruct (vec_insert_inv _ _ _ _ _ Hxs Hrun) as (p & -> & Hp & Hv' & _).
    split; [apply vec_valid_insert; eauto|]. split; [|intros; apply vec_stores_other; auto].
    exists v'. rewrite lookup_insert_eq. simpl. rewrite Nat2Z.id. auto.
  - destruct (vec_erase_inv _ _ _ _ Hxs Hrun) as (p & -> & Hp & Hv' & _).
    split; [apply vec_valid_insert; eauto|]. split; [|intros; apply vec_stores_other; auto].
    exists v'. rewrite lookup_insert_eq. simpl. rewrite Nat2Z.id. auto.
  - destruct (vec_subscript_assign_inv _ _ _ _ _ Hxs Hrun) as (p & -> & Hp & Hv' & _).
    split; [apply vec_valid_insert; eauto|]. split; [|intros; apply vec_stores_other; auto].
    exists v'. rewrite lookup_insert_eq. simpl. rewrite Nat2Z.id. auto.
Qed.

Lemma vec_w_apply_Throw w this m w' :
  valid c w -> apply c m this w = Throw w' -> w' = w.
Proof.
  intros Hval Hrun.
  destruct m as [x|x pos|pos|index x]; simpl in Hrun;
    apply on_inv_Throw in Hrun as (v & v' & Hv & Hrun & ->);
    destruct (Hval this v Hv) as [xs Hxs].
  - rewrite (vec_push_back_Throw_inv _ _ _ _ Hxs Hrun). apply insert_id, Hv.
  - rewrite (vec_insert_Throw_inv _ _ _ _ _ Hxs Hrun). apply insert_id, Hv.
  - rewrite (vec_erase_Throw_inv _ _ _ _ Hxs Hrun). apply insert_id, Hv.
  - rewrite (vec_subscript_assign_Throw_inv _ _ _ _ _ Hxs Hrun). apply insert_id, Hv.
Qed.

Lemma vec_w_insert_at_size w this x n :
  valid c w -> size c this w = Ok n w ->
  insert c this x n w = push_back c this x w.
Proof.
  intros Hval Hsize. apply vec_w_size_inv in Hsize as (v & Hv & <- & _).
  destruct (Hval this v Hv) as (xs & rest & _ & Hn & _).
  simpl. unfold on. rewrite Hv, vec_insert_at_size by lia. reflexivity.
Qed.

Lemma vec_w_construct w this :
  valid c w ->
  construct c this w = Ok tt (<[this := Vec.ctor]> w) /\
  valid c (<[this := Vec.ctor]> w) /\ stores c (<[this := Vec.ctor]> w) this [].
Proof.
  intros Hval. split; [reflexivity|]. split.
  - apply vec_valid_insert; [exact Hval|]. exists []. apply vec_holds_ctor.
  - exists Vec.ctor. rewrite lookup_insert_eq. split; [reflexivity|apply vec_holds_ctor].
Qed.

Lemma vec_w_fresh_insert w this x :
  valid c w ->
  exists w2,
    insert c this x 0 (<[this := Vec.ctor]> w) = Ok tt w2 /\
    valid c w2 /\ stores c w2 this [x].
Proof.
  intros Hval.
  destruct (vec_insert_spec Vec.ctor [] x 0 vec_holds_ctor) as (v' & Hrun & Hv' & _).
  { left. simpl. lia. }
  { simpl. lia. }
  exists (<[this := v']> (<[this := Vec.ctor]> w)). split; [|split].
  - eapply on_Ok; [apply lookup_insert_eq|exact Hrun].
  - apply vec_valid_insert; [|eauto]. apply vec_valid_insert; [exact Hval|].
    exists []. apply vec_holds_ctor.
  - exists v'. rewrite lookup_insert_eq. auto.
Qed.

(** Appending a sequence: the capacity stays a power of two, the least
    one that is not below the length, and doubles without overflow as
    long as it is below [2 ^ 30]. *)
Lemma vec_w_push_all S : forall w this v xs j,
  w !! this = Some v -> Vec.holds v xs ->
  Vec.capacity v = 2 ^ j -> 0 <= j <= 30 ->
  (j = 0 \/ 2 ^ (j - 1) < Z.of_nat (List.length xs)) ->
  Z.of_nat (List.length xs + List.length S) <= 2 ^ 30 ->
  exists v' j',
    push_all c this S w = Ok tt (<[this := v']> w) /\ Vec.holds v' (xs ++ S) /\
    Vec.capacity v' = 2 ^ j' /\ 0 <= j' <= 30 /\
    (j' = 0 \/ 2 ^ (j' - 1) < Z.of_nat (List.length (xs ++ S))).
Proof.
  induction S as [|x S IH]; intros w this v xs j Hv Hxs Hcap Hj Htight Hlen.
  - exists v, j. rewrite insert_id by exact Hv. rewrite app_nil_r. auto.
  - assert (Hn : Vec.length v = Z.of_nat (List.length xs)).
    { destruct Hxs as (rest & _ & Hn & _). exact Hn. }
    assert (Hle : Vec.length v <= Vec.capacity v).
    { destruct Hxs as (rest & _ & Hn' & Hc & _). lia. }
    assert (Hpos : 0 < 2 ^ j) by (apply Z.pow_pos_nonneg; lia).
    assert (Hgrow : Vec.can_grow v /\
              exists j', Vec.grown v = 2 ^ j' /\ 0 <= j' <= 30 /\
                         (j' = 0 \/ 2 ^ (j' - 1) < Z.of_nat (List.length (xs ++ [x])))).
    { unfold Vec.can_grow, Vec.grown. rewrite length_app. cbn [List.length].
      destruct (Z.eqb_spec (Vec.length v) (Vec.capacity v)) as [Heq|Hne].
      - assert (j < 30).
        { destruct (Z_lt_le_dec j 30) as [|Hge]; [assumption|].
          assert (2 ^ 30 <= 2 ^ j) by (apply Z.pow_le_mono_r; lia).
          cbn [List.length] in Hlen. lia. }
        assert (2 ^ (j + 1) <= 2 ^ 30) by (apply Z.pow_le_mono_r; lia).
        assert (Hd : 2 ^ (j + 1) = 2 * 2 ^ j) by (rewrite Z.pow_add_r by lia; lia).
        split.
        + right. unfold INT_MAX. lia.
        + exists (j + 1). rewrite Hcap. split; [lia|]. split; [lia|]. right.
          replace (j + 1 - 1) with j by lia. lia.
      - split; [left; lia|]. exists j. split; [exact Hcap|]. split; [exact Hj|].
        destruct Htight as [->|Htight]; [left; reflexivity|right; lia]. }
    destruct Hgrow as (Hcan & j' & Hg & Hj' & Htight').
    destruct (vec_push_back_spec v xs x Hxs Hcan) as (v' & Hrun & Hv' & Hcap').
    destruct (IH (<[this := v']> w) this v' (xs ++ [x]) j') as
      (v'' & j'' & Hrest & Hv'' & Hcap'' & Hj'' & Htight'').
    { apply lookup_insert_eq. }
    { exact Hv'. }
    { congruence. }
    { exact Hj'. }
    { exact Htight'. }
    { rewrite length_app. cbn [List.length] in *. lia. }
    exists v'', j''. rewrite <- app_assoc in Hv'', Htight''. split; [|auto].
    cbn [push_all]. mstep (eapply on_Ok; [exact Hv|exact Hrun]).
    rewrite Hrest, insert_insert_eq. reflexivity.
Qed.

Lemma vec_w_round_trip w this S :
  valid c w -> Z.of_nat (List.length S) <= max_size c ->
  exists w2,
    push_all c this S (<[this := Vec.ctor]> w) = Ok tt w2 /\
    valid c w2 /\ stores c w2 this S.
Proof.
  intros Hval Hlen.
  destruct (vec_w_push_all S (<[this := Vec.ctor]> w) this Vec.ctor [] 0)
    as (v' & j' & Hrun & Hv' & _).
  { apply lookup_insert_eq. }
  { apply vec_holds_ctor. }
  { reflexivity. }
  { lia. }
  { left. reflexivity. }
  { exact Hlen. }
  exists (<[this := v']> (<[this := Vec.ctor]> w)). split; [exact Hrun|]. split.
  - apply vec_valid_insert; [|eauto]. apply vec_valid_insert; [exact Hval|].
    exists []. apply vec_holds_ctor.
  - exists v'. rewrite lookup_insert_eq. auto.
Qed.

Lemma vec_push_back_overflow v xs x :
  Vec.holds v xs -> Vec.length v = Vec.capacity v -> INT_MAX < 2 * Vec.capacity v ->
  Vec.push_back (Vec.Outside x) v = Undefined.
Proof.
  intros Hxs Hfull Hbig.
  assert (Hn : 0 <= Vec.length v) by (destruct Hxs as (rest & _ & Hn & _); lia).
  rewrite <- (vec_insert_at_size v x Hn).
  apply (vec_insert_no_growth v xs); [exact Hxs| |lia].
  unfold Vec.can_grow. lia.
Qed.

(** One element more than [2 ^ 30]: the capacity is [2 ^ 30] when the
    last one comes, and its double is not an [int]. *)
Lemma vec_push_all_overflow w this S n :
  Z.of_nat n = 2 ^ 30 -> (n < List.length S)%nat ->
  push_all c this S (<[this := Vec.ctor]> w) = Undefined.
Proof.
  intros Hn Hlen. rewrite <- (take_drop n S), push_all_app.
  assert (Htake : List.length (take n S) = n) by (rewrite length_take; lia).
  destruct (drop n S) as [|x rest] eqn:Hdrop.
  { apply (f_equal List.length) in Hdrop. rewrite length_drop in Hdrop.
    cbn [List.length] in Hdrop. lia. }
  destruct (vec_w_push_all (take n S) (<[this := Vec.ctor]> w) this Vec.ctor [] 0)
    as (v' & j' & Hrun & Hv' & Hcap' & Hj' & Htight').
  { apply lookup_insert_eq. }
  { apply vec_holds_ctor. }
  { reflexivity. }
  { lia. }
  { left. reflexivity. }
  { cbn [List.length]. lia. }
  cbn [app] in Hv', Htight'.
  assert (Hfull : Vec.length v' = Vec.capacity v' /\ Vec.capacity v' = 2 ^ 30).
  { destruct Hv' as (rest' & _ & Hlen' & Hcap & _). rewrite Htake in *.
    assert (Hge : 2 ^ 30 <= 2 ^ j') by lia.
    assert (30 <= j').
    { destruct (Z_lt_le_dec j' 30) as [Hlt|]; [|assumption].
      assert (2 ^ j' < 2 ^ 30) by (apply Z.pow_lt_mono_r; lia). lia. }
    replace j' with 30 in * by lia. lia. }
  destruct Hfull as (Hfull & Hcap30).
  mstep (exact Hrun). cbn [push_all].
  apply bind_Undefined.
  change (on this (Vec.push_back (Vec.Outside x)) (<[this := v']> (<[this := Vec.ctor]> w)) = Undefined).
  unfold on. rewrite lookup_insert_eq.
  rewrite (vec_push_back_overflow v' (take n S) x Hv' Hfull); [reflexivity|].
  rewrite Hcap30. unfold INT_MAX. lia.
Qed.

Lemma vec_w_moved w a b src xs :
  valid c w -> a <> b -> Vec.holds src xs ->
  let w' := <[a := Vec.moved_from]> (<[b := src]> w) in
  valid c w' /\ stores c w' b xs /\ stores c w' a [] /\
  w' !! a = Some Vec.moved_from /\
  (forall u ys, u <> a -> u <> b -> stores c w u ys -> stores c w' u ys).
Proof.
  intros Hval Hne Hsrc w'. unfold w'. split; [|split; [|split; [|split]]].
  - apply vec_valid_insert; [|exists []; apply vec_holds_moved_from].
    apply vec_valid_insert; [exact Hval|eauto].
  - exists src. rewrite lookup_insert_ne, lookup_insert_eq by congruence. auto.
  - exists Vec.moved_from. rewrite lookup_insert_eq. split; [reflexivity|apply vec_holds_moved_from].
  - apply lookup_insert_eq.
  - intros u ys Hua Hub Hu. do 2 (apply vec_stores_other; [assumption|]). exact Hu.
Qed.

Lemma vec_w_move_ctor w a b xs :
  valid c w -> a <> b -> stores c w a xs ->
  exists w',
    move_ctor c b a w = Ok tt w' /\ valid c w' /\
    stores c w' b xs /\ stores c w' a [] /\ w' !! a = Some Vec.moved_from.
Proof.
  intros Hval Hne (src & Ha & Hxs).
  exists (<[a := Vec.moved_from]> (<[b := src]> w)).
  split; [apply vec_move_ctor_spec; [congruence|exact Ha]|].
  destruct (vec_w_moved w a b src xs Hval Hne Hxs) as (? & ? & ? & ? & _). auto.
Qed.

Lemma vec_w_move_assign w a b xs ys :
  valid c w -> a <> b -> stores c w a xs -> stores c w b ys ->
  exists w',
    move_assign c b a w = Ok tt w' /\ valid c w' /\
    stores c w' b xs /\ stores c w' a [] /\ w' !! a = Some Vec.moved_from.
Proof.
  intros Hval Hne (src & Ha & Hxs) (o & Hb & _).
  exists (<[a := Vec.moved_from]> (<[b := src]> w)).
  split; [eapply vec_move_assign_spec; [congruence|exact Hb|exact Ha]|].
  destruct (vec_w_moved w a b src xs Hval Hne Hxs) as (? & ? & ? & ? & _). auto.
Qed.

Lemma vec_w_copy_assign w a b xs ys :
  valid c w -> a <> b -> stores c w a xs -> stores c w b ys ->
  exists w',
    copy_assign c b a w = Ok tt w' /\ valid c w' /\
    stores c w' b xs /\ stores c w' a xs /\
    (forall va vb, w' !! a = Some va -> w' !! b = Some vb ->
       Vec.capacity vb = Vec.capacity va /\
       Z.of_nat (List.length (Vec.cells vb)) = Vec.capacity vb).
Proof.
  intros Hval Hne (src & Ha & Hxs) (o & Hb & _).
  eexists. split; [eapply vec_copy_assign_spec; [congruence|exact Hb|exact Ha|exact Hxs]|].
  destruct Hxs as (rest & Hcells & Hn & Hcap & Hmax).
  assert (Hnew : Vec.holds
            (Vec.mk (Some ((Some <$> xs)
               ++ replicate (Z.to_nat (Vec.capacity src) - List.length xs) None))
               (Vec.capacity src) (Vec.length src)) xs).
  { rewrite Hn. apply vec_holds_new; lia. }
  split; [|split; [|split]].
  - apply vec_valid_insert; [exact Hval|eauto].
  - eexists. rewrite lookup_insert_eq. split; [reflexivity|exact Hnew].
  - exists src. rewrite lookup_insert_ne by congruence. split; [exact Ha|].
    exists rest. auto.
  - intros va vb Hva Hvb. rewrite lookup_insert_ne in Hva by congruence.
    rewrite lookup_insert_eq in Hvb. rewrite Ha in Hva.
    injection Hva as <-. injection Hvb as <-. simpl. split; [reflexivity|].
    unfold Vec.cells. simpl.
    rewrite length_app, length_fmap, length_replicate. lia.
Qed.

Lemma vec_w_self_assign w a :
  copy_assign c a a w = Ok tt w /\ move_assign c a a w = Ok tt w.
Proof.
  simpl. unfold Vec.copy_assign, Vec.move_assign.
  destruct (decide (a = a)) as [_|Hne]; [|congruence]. split; reflexivity.
Qed.

(** *** Every step of a program keeps the world well formed *)

Lemma vec_w_stored w this v : valid c w -> w !! this = Some v -> exists xs, stores c w this xs.
Proof. intros Hval Hv. destruct (Hval this v Hv) as [xs Hxs]. exists xs, v. auto. Qed.

Lemma vec_w_apply_valid w this m w' :
  valid c w ->
  apply c m this w = Ok tt w' \/ apply c m this w = Throw w' ->
  valid c w'.
Proof.
  intros Hval [Hrun|Hrun].
  - assert (Hex : exists v, w !! this = Some v).
    { destruct m; simpl in Hrun; apply on_inv in Hrun as (v & _ & Hv & _); eauto. }
    destruct Hex as [v Hv]. destruct (vec_w_stored w this v Hval Hv) as [xs Hst].
    apply (vec_w_apply w this m w' xs Hval Hst Hrun).
  - rewrite (vec_w_apply_Throw w this m w' Hval Hrun). exact Hval.
Qed.

Lemma vec_take_over_self w a o :
  w !! a = Some o -> Vec.take_over a a w = Ok tt (<[a := Vec.moved_from]> w).
Proof.
  intros Ho. unfold Vec.take_over.
  mstep (eapply on_gets; eassumption).
  mstep (eapply on_modify; eassumption).
  do 7 (mstep (first [eapply on_modify|eapply on_gets]; apply lookup_insert_eq);
        rewrite ?insert_insert_eq).
  etransitivity; [eapply on_modify; apply lookup_insert_eq|].
  rewrite insert_insert_eq. reflexivity.
Qed.

Lemma vec_w_move_ctor_valid w this other w' :
  valid c w ->
  move_ctor c this other w = Ok tt w' \/ move_ctor c this other w = Throw w' ->
  valid c w'.
Proof.
  intros Hval Hrun. simpl in Hrun. destruct (decide (this = other)) as [->|Hne].
  - assert (Hr : Vec.move_ctor other other w = Ok tt (<[other := Vec.moved_from]> w)).
    { unfold Vec.move_ctor. mstep reflexivity.
      erewrite vec_take_over_self by apply lookup_insert_eq.
      rewrite insert_insert_eq. reflexivity. }
    rewrite Hr in Hrun. destruct Hrun as [Hrun|Hrun]; [|discriminate].
    injection Hrun as <-. apply vec_valid_insert; [exact Hval|].
    exists []. apply vec_holds_moved_from.
  - destruct (w !! other) as [src|] eqn:Ha.
    + destruct (vec_w_stored w other src Hval Ha) as [xs Hst].
      destruct (vec_w_move_ctor w other this xs Hval) as (w'' & Hr & Hv & _);
        [congruence|exact Hst|].
      simpl in Hr. rewrite Hr in Hrun.
      destruct Hrun as [Hrun|Hrun]; [|discriminate]. injection Hrun as <-. exact Hv.
    + assert (Hu : Vec.move_ctor this other w = Undefined).
      { unfold Vec.move_ctor, Vec.take_over. mstep reflexivity.
        apply bind_Undefined, on_missing.
        rewrite lookup_insert_ne by congruence. exact Ha. }
      rewrite Hu in Hrun. destruct Hrun; discriminate.
Qed.

Lemma vec_w_move_assign_valid w this other w' :
  valid c w ->
  move_assign c this other w = Ok tt w' \/ move_assign c this other w = Throw w' ->
  valid c w'.
Proof.
  intros Hval Hrun. simpl in Hrun. destruct (decide (this = other)) as [->|Hne].
  - unfold Vec.move_assign in Hrun. destruct (decide (other = other)); [|congruence].
    destruct Hrun as [Hrun|Hrun]; [|discriminate]. injection Hrun as <-. exact Hval.
  - destruct (w !! other) as [src|] eqn:Ha; [destruct (w !! this) as [o|] eqn:Ht|].
    + destruct (vec_w_stored w other src Hval Ha) as [xs Hst].
      destruct (vec_w_stored w this o Hval Ht) as [ys Hst'].
      destruct (vec_w_move_assign w other this xs ys Hval) as (w'' & Hr & Hv & _);
        [congruence|exact Hst|exact Hst'|].
      simpl in Hr. rewrite Hr in Hrun.
      destruct Hrun as [Hrun|Hrun]; [|discriminate]. injection Hrun as <-. exact Hv.
    + assert (Hu : Vec.move_assign this other w = Undefined).
      { unfold Vec.move_assign, Vec.take_over.
        destruct (decide (this = other)); [congruence|].
        mstep (eapply on_gets; exact Ha).
        mstep (eapply on_modify; exact Ha).
        apply bind_Undefined, on_missing.
        rewrite lookup_insert_ne by congruence. exact Ht. }
      rewrite Hu in Hrun. destruct Hrun; discriminate.
    + assert (Hu : Vec.move_assign this other w = Undefined).
      { unfold Vec.move_assign, Vec.take_over.
        destruct (decide (this = other)); [congruence|].
        apply bind_Undefined, on_missing. exact Ha. }
      rewrite Hu in Hrun. destruct Hrun; discriminate.
Qed.

Lemma vec_copy_assign_missing w this other src xs :
  this <> other -> w !! this = None -> w !! other = Some src -> Vec.holds src xs ->
  Vec.copy_assign this other w = Undefined.
Proof.
  intros Hne Ht Hsrc Hv. pose proof Hv as (rest & Hc & Hn & Hcap & Hmax).
  unfold Vec.copy_assign. destruct (decide (this = other)); [contradiction|].
  mstep (eapply on_gets; eassumption).
  mstep reflexivity.
  mstep (eapply on_gets; eassumption).
  rewrite (for_up_unfold _ _ _ _ (List.length xs)) by lia.
  unfold Vec.new_array.
  set (m := (Z.to_nat (Vec.capacity src) - List.length xs)%nat).
  assert (Hm : Z.to_nat (Vec.capacity src) = (List.length xs + m)%nat) by lia.
  rewrite Hm.
  assert (Hloop :
    for_range (List.length xs) 0 1
      (fun i newData =>
         d ← on other (gets Vec.data); x ← Vec.load d i; Vec.store newData i x)
      (Some (replicate (List.length xs + m) None)) w
    = Ok (Some ((Some <$> xs) ++ replicate m None)) w).
  { destruct xs as [|x xs'] eqn:Exs; [reflexivity|]. rewrite <- Exs in *.
    apply (vec_copy_cells (on other (gets Vec.data)) w xs [] rest m).
    erewrite on_gets by eassumption. simpl.
    rewrite (vec_holds_data src xs Hv), Hc; [reflexivity|].
    rewrite Hcap, Exs. simpl. lia. }
  mstep (exact Hloop).
  apply bind_Undefined, on_missing. exact Ht.
Qed.

Lemma vec_w_copy_assign_valid w this other w' :
  valid c w ->
  copy_assign c this other w = Ok tt w' \/ copy_assign c this other w = Throw w' ->
  valid c w'.
Proof.
  intros Hval Hrun. simpl in Hrun. destruct (decide (this = other)) as [->|Hne].
  - unfold Vec.copy_assign in Hrun. destruct (decide (other = other)); [|congruence].
    destruct Hrun as [Hrun|Hrun]; [|discriminate]. injection Hrun as <-. exact Hval.
  - destruct (w !! other) as [src|] eqn:Ha; [destruct (w !! this) as [o|] eqn:Ht|].
    + destruct (vec_w_stored w other src Hval Ha) as [xs Hst].
      destruct (vec_w_stored w this o Hval Ht) as [ys Hst'].
      destruct (vec_w_copy_assign w other this xs ys Hval) as (w'' & Hr & Hv & _);
        [congruence|exact Hst|exact Hst'|].
      simpl in Hr. rewrite Hr in Hrun.
      destruct Hrun as [Hrun|Hrun]; [|discriminate]. injection Hrun as <-. exact Hv.
    + destruct (Hval other src Ha) as [xs Hxs].
      rewrite (vec_copy_assign_missing w this other src xs Hne Ht Ha Hxs) in Hrun.
      destruct Hrun; discriminate.
    + assert (Hu : Vec.copy_assign this other w = Undefined).
      { unfold Vec.copy_assign.
        destruct (decide (this = other)); [congruence|].
        apply bind_Undefined, on_missing. exact Ha. }
      rewrite Hu in Hrun. destruct Hrun; discriminate.
Qed.

Lemma vec_reachable_valid w : reachable c w -> valid c w.
Proof.
  induction 1 as [|w cmd w' _ IH Hrun].
  - intros this v Hv. simpl in Hv. rewrite lookup_empty in Hv. discriminate.
  - destruct cmd as [this|this m|this other|this other|this other]; simpl in Hrun.
    + destruct Hrun as [Hrun|Hrun]; [|discriminate]. injection Hrun as <-.
      apply vec_valid_insert; [exact IH|]. exists []. apply vec_holds_ctor.
    + exact (vec_w_apply_valid w this m w' IH Hrun).
    + exact (vec_w_move_ctor_valid w this other w' IH Hrun).
    + exact (vec_w_move_assign_valid w this other w' IH Hrun).
    + exact (vec_w_copy_assign_valid w this other w' IH Hrun).
Qed.

(** An erasure and an assignment at a position in range complete. *)
Lemma vec_w_in_place w this xs i :
  valid c w -> stores c w this xs -> (i < List.length xs)%nat ->
  (exists w', erase c this (Z.of_nat i) w = Ok tt w') /\
  (forall x, exists w', subscript_assign c this (Z.of_nat i) x w = Ok tt w').
Proof.
  intros _ (v & Hv & Hxs) Hi. split; [|intros x].
  - destruct (vec_erase_spec v xs i Hxs Hi) as (v' & Hrun & _).
    eexists. eapply on_Ok; eassumption.
  - destruct (vec_subscript_assign_spec v xs i x Hxs Hi) as (v' & Hrun & _).
    eexists. eapply on_Ok; eassumption.
Qed.
End laws.
End VecLaws.

Module SListLaws.
Import SListFacts.
Section laws.
Context {T : Type} `{Printable T}.
Local Abbreviation c := (SinglyChain_impl (T:=T)).
Implicit Types (w : gmap nat (SList.slist T)) (xs ys : list T).

Lemma sl_w_stores_inj w this xs ys : stores c w this xs -> stores c w this ys -> xs = ys.
Proof.
  intros (v & Hv & Hxs) (v' & Hv' & Hys). rewrite Hv in Hv'. injection Hv' as <-.
  eapply sl_holds_inj; eassumption.
Qed.

Lemma sl_w_size_inv w this n w' :
  size c this w = Ok n w' -> exists v, w !! this = Some v /\ SList.length v = n /\ w' = w.
Proof.
  intros Hsize. apply on_inv in Hsize as (v & v' & Hv & Hrun & ->).
  unfold SList.size, gets in Hrun. injection Hrun as <- <-.
  exists v. rewrite insert_id by exact Hv. auto.
Qed.

Lemma sl_w_throws w this n x pos :
  size c this w = Ok n w ->
  (pos < 0 \/ pos > n -> insert c this x pos w = Throw w) /\
  (pos < 0 \/ pos >= n ->
     erase c this pos w = Throw w /\ subscript c this pos w = Throw w /\
     subscript_assign c this pos x w = Throw w).
Proof.
  intros Hsize. apply sl_w_size_inv in Hsize as (v & Hv & <- & _).
  split; [intros Hpos|intros Hpos; split; [|split]];
    (eapply on_Throw_same; [exact Hv|]).
  - apply sl_insert_throw. lia.
  - apply sl_erase_throw. lia.
  - apply sl_subscript_throw. lia.
  - apply sl_subscript_assign_throw. lia.
Qed.

Lemma sl_w_observe w this xs :
  stores c w this xs ->
  iterate c this w = Ok xs w /\ size c this w = Ok (Z.of_nat (List.length xs)) w /\
  print c this w = Ok (line xs) w /\
  (forall i x, xs !! i = Some x -> subscript c this (Z.of_nat i) w = Ok x w).
Proof.
  intros (v & Hv & Hxs). split; [|split; [|split]].
  - eapply on_same; [exact Hv|]. apply sl_iterate_spec. exact Hxs.
  - eapply on_same; [exact Hv|]. apply sl_size_spec. exact Hxs.
  - eapply on_same; [exact Hv|]. apply sl_print_spec. exact Hxs.
  - intros i x Hi. eapply on_same; [exact Hv|]. eapply sl_subscript_spec; eassumption.
Qed.

Lemma sl_w_iterate_inv w this xs w' :
  valid c w -> iterate c this w = Ok xs w' -> stores c w this xs.
Proof.
  intros Hval Hit. apply on_inv in Hit as (v & v' & Hv & Hrun & ->).
  destruct (Hval this v Hv) as [ys Hys].
  rewrite (sl_iterate_spec v ys Hys) in Hrun. injection Hrun as <- <-.
  exists v. auto.
Qed.

Lemma sl_valid_insert w this v :
  valid c w -> (exists xs, SList.holds v xs) -> valid c (<[this := v]> w).
Proof.
  intros Hval Hv u vu Hu. destruct (decide (u = this)) as [->|Hne].
  - rewrite lookup_insert_eq in Hu. injection Hu as <-. exact Hv.
  - rewrite lookup_insert_ne in Hu by congruence. exact (Hval u vu Hu).
Qed.

Lemma sl_stores_other w this v u ys :
  u <> this -> stores c w u ys -> stores c (<[this := v]> w) u ys.
Proof.
  intros Hne (vu & Hu & Hys). exists vu. rewrite lookup_insert_ne by congruence. auto.
Qed.

Lemma sl_w_apply w this m w' xs :
  valid c w -> stores c w this xs ->
  apply c m this w = Ok tt w' ->
  valid c w' /\ stores c w' this (mutate m xs) /\
  (forall u ys, u <> this -> stores c w u ys -> stores c w' u ys).
Proof.
  intros Hval (v & Hv & Hxs) Hrun.
  destruct m as [x|x pos|pos|index x]; simpl in Hrun;
    apply on_inv in Hrun as (v0 & v' & Hv0 & Hrun & ->);
    rewrite Hv in Hv0; injection Hv0 as <-.
  - destruct (sl_push_back_inv _ _ _ _ Hxs Hrun) as (Hv' & _).
    split; [apply sl_valid_insert; eauto|]. split; [|intros; apply sl_stores_other; auto].
    exists v'. rewrite lookup_insert_eq. auto.
  - destruct (sl_insert_inv _ _ _ _ _ Hxs Hrun) as (p & -> & Hp & Hv' & _).
    split; [apply sl_valid_insert; eauto|]. split; [|intros; apply sl_stores_other; auto].
    exists v'. rewrite lookup_insert_eq. simpl. rewrite Nat2Z.id. auto.
  - destruct (sl_erase_inv _ _ _ _ Hxs Hrun) as (p & -> & Hp & Hv').
    split; [apply sl_valid_insert; eauto|]. split; [|intros; apply sl_stores_other; auto].
    exists v'. rewrite lookup_insert_eq. simpl. rewrite Nat2Z.id. auto.
  - destruct (sl_subscript_assign_inv _ _ _ _ _ Hxs Hrun) as (p & -> & Hp & Hv').
    split; [apply sl_valid_insert; eauto|]. split; [|intros; apply sl_stores_other; auto].
    exists v'. rewrite lookup_insert_eq. simpl. rewrite Nat2Z.id. auto.
Qed.

Lemma sl_w_apply_Throw w this m w' :
  valid c w -> apply c m this w = Throw w' -> w' = w.
Proof.
  intros Hval Hrun.
  destruct m as [x|x pos|pos|index x]; simpl in Hrun;
    apply on_inv_Throw in Hrun as (v & v' & Hv & Hrun & ->);
    destruct (Hval this v Hv) as [xs Hxs].
  - rewrite (sl_push_back_Throw_inv _ _ _ _ Hxs Hrun). apply insert_id, Hv.
  - rewrite (sl_insert_Throw_inv _ _ _ _ _ Hxs Hrun). apply insert_id, Hv.
  - rewrite (sl_erase_Throw_inv _ _ _ _ Hxs Hrun). apply insert_id, Hv.
  - rewrite (sl_subscript_assign_Throw_inv _ _ _ _ _ Hxs Hrun). apply insert_id, Hv.
Qed.

Lemma sl_w_insert_at_size w this x n :
  valid c w -> size c this w = Ok n w ->
  insert c this x n w = push_back c this x w.
Proof.
  intros Hval Hsize. apply sl_w_size_inv in Hsize as (v & Hv & <- & _).
  destruct (Hval this v Hv) as (xs & Hxs).
  simpl. unfold on. rewrite Hv, (sl_insert_at_size _ _ _ Hxs). reflexivity.
Qed.

Lemma sl_w_construct w this :
  valid c w ->
  construct c this w = Ok tt (<[this := SList.ctor]> w) /\
  valid c (<[this := SList.ctor]> w) /\ stores c (<[this := SList.ctor]> w) this [].
Proof.
  intros Hval. split; [reflexivity|]. split.
  - apply sl_valid_insert; [exact Hval|]. exists []. apply sl_holds_ctor.
  - exists SList.ctor. rewrite lookup_insert_eq. split; [reflexivity|apply sl_holds_ctor].
Qed.

Lemma sl_w_fresh_insert w this x :
  valid c w ->
  exists w2,
    insert c this x 0 (<[this := SList.ctor]> w) = Ok tt w2 /\
    valid c w2 /\ stores c w2 this [x].
Proof.
  intros Hval.
  destruct (sl_insert_spec SList.ctor [] x 0 sl_holds_ctor) as (v' & Hrun & Hv').
  { simpl. lia. }
  { unfold INT_MAX. simpl. lia. }
  exists (<[this := v']> (<[this := SList.ctor]> w)). split; [|split].
  - eapply on_Ok; [apply lookup_insert_eq|exact Hrun].
  - apply sl_valid_insert; [|eauto]. apply sl_valid_insert; [exact Hval|].
    exists []. apply sl_holds_ctor.
  - exists v'. rewrite lookup_insert_eq. auto.
Qed.

Lemma sl_w_push_all S : forall w this v xs,
  w !! this = Some v -> SList.holds v xs ->
  Z.of_nat (List.length xs + List.length S) <= INT_MAX ->
  exists v',
    push_all c this S w = Ok tt (<[this := v']> w) /\ SList.holds v' (xs ++ S).
Proof.
  induction S as [|x S IH]; intros w this v xs Hv Hxs Hlen.
  - exists v. rewrite insert_id by exact Hv. rewrite app_nil_r. auto.
  - assert (Hn : SList.length v = Z.of_nat (List.length xs)).
    { destruct Hxs as (_ & Hn & _). exact Hn. }
    destruct (sl_push_back_spec v xs x Hxs) as (v' & Hrun & Hv').
    { simpl in Hlen. lia. }
    destruct (IH (<[this := v']> w) this v' (xs ++ [x])) as (v'' & Hrest & Hv'').
    { apply lookup_insert_eq. }
    { exact Hv'. }
    { rewrite length_app. simpl in *. lia. }
    exists v''. split.
    + cbn [push_all]. mstep (eapply on_Ok; [exact Hv|exact Hrun]).
      rewrite Hrest, insert_insert_eq. reflexivity.
    + rewrite <- app_assoc in Hv''. exact Hv''.
Qed.

Lemma sl_w_round_trip w this S :
  valid c w -> Z.of_nat (List.length S) <= max_size c ->
  exists w2,
    push_all c this S (<[this := SList.ctor]> w) = Ok tt w2 /\
    valid c w2 /\ stores c w2 this S.
Proof.
  intros Hval Hlen.
  destruct (sl_w_push_all S (<[this := SList.ctor]> w) this SList.ctor [])
    as (v' & Hrun & Hv').
  { apply lookup_insert_eq. }
  { apply sl_holds_ctor. }
  { exact Hlen. }
  exists (<[this := v']> (<[this := SList.ctor]> w)). split; [exact Hrun|]. split.
  - apply sl_valid_insert; [|eauto]. apply sl_valid_insert; [exact Hval|].
    exists []. apply sl_holds_ctor.
  - exists v'. rewrite lookup_insert_eq. auto.
Qed.

Lemma sl_w_moved w a b src xs :
  valid c w -> a <> b -> SList.holds src xs ->
  let w' := <[a := SList.ctor]> (<[b := src]> w) in
  valid c w' /\ stores c w' b xs /\ stores c w' a [] /\
  w' !! a = Some SList.ctor.
Proof.
  intros Hval Hne Hsrc w'. unfold w'. split; [|split; [|split]].
  - apply sl_valid_insert; [|exists []; apply sl_holds_ctor].
    apply sl_valid_insert; [exact Hval|eauto].
  - exists src. rewrite lookup_insert_ne, lookup_insert_eq by congruence. auto.
  - exists SList.ctor. rewrite lookup_insert_eq. split; [reflexivity|apply sl_holds_ctor].
  - apply lookup_insert_eq.
Qed.

Lemma sl_w_move_ctor w a b xs :
  valid c w -> a <> b -> stores c w a xs ->
  exists w',
    move_ctor c b a w = Ok tt w' /\ valid c w' /\
    stores c w' b xs /\ stores c w' a [] /\ w' !! a = Some SList.ctor.
Proof.
  intros Hval Hne (src & Ha & Hxs).
  exists (<[a := SList.ctor]> (<[b := src]> w)).
  split; [apply sl_move_ctor_spec; [congruence|exact Ha]|].
  apply sl_w_moved; assumption.
Qed.

Lemma sl_w_move_assign w a b xs ys :
  valid c w -> a <> b -> stores c w a xs -> stores c w b ys ->
  exists w',
    move_assign c b a w = Ok tt w' /\ valid c w' /\
    stores c w' b xs /\ stores c w' a [] /\ w' !! a = Some SList.ctor.
Proof.
  intros Hval Hne (src & Ha & Hxs) (o & Hb & _).
  exists (<[a := SList.ctor]> (<[b := src]> w)).
  split; [eapply sl_move_assign_spec; [congruence|exact Hb|exact Ha]|].
  apply sl_w_moved; assumption.
Qed.

Lemma sl_w_copy_assign w a b xs ys :
  valid c w -> a <> b -> stores c w a xs -> stores c w b ys ->
  exists w',
    copy_assign c b a w = Ok tt w' /\ valid c w' /\
    stores c w' b xs /\ stores c w' a xs.
Proof.
  intros Hval Hne (src & Ha & Hxs) (o & Hb & _).
  eexists. split; [eapply sl_copy_assign_spec; [congruence|exact Hb|exact Ha|exact Hxs]|].
  assert (Hnew : SList.holds (SList.mk (SList.chain_of xs) (Z.of_nat (List.length xs))) xs).
  { apply sl_holds_mk. destruct Hxs as (_ & Hn & Hmax). lia. }
  split; [|split].
  - apply sl_valid_insert; [exact Hval|eauto].
  - eexists. rewrite lookup_insert_eq. split; [reflexivity|exact Hnew].
  - exists src. rewrite lookup_insert_ne by congruence. auto.
Qed.

Lemma sl_w_self_assign w a :
  copy_assign c a a w = Ok tt w /\ move_assign c a a w = Ok tt w.
Proof.
  simpl. unfold SList.copy_assign, SList.move_assign.
  destruct (decide (a = a)) as [_|Hne]; [|congruence]. split; reflexivity.
Qed.

Lemma sl_w_stored w this v : valid c w -> w !! this = Some v -> exists xs, stores c w this xs.
Proof. intros Hval Hv. destruct (Hval this v Hv) as [xs Hxs]. exists xs, v. auto. Qed.

Lemma sl_w_apply_valid w this m w' :
  valid c w ->
  apply c m this w = Ok tt w' \/ apply c m this w = Throw w' ->
  valid c w'.
Proof.
  intros Hval [Hrun|Hrun].
  - assert (Hex : exists v, w !! this = Some v).
    { destruct m; simpl in Hrun; apply on_inv in Hrun as (v & _ & Hv & _); eauto. }
    destruct Hex as [v Hv]. destruct (sl_w_stored w this v Hval Hv) as [xs Hst].
    apply (sl_w_apply w this m w' xs Hval Hst Hrun).
  - rewrite (sl_w_apply_Throw w this m w' Hval Hrun). exact Hval.
Qed.

Lemma sl_take_over_self w a o :
  w !! a = Some o -> SList.take_over a a w = Ok tt (<[a := SList.ctor]> w).
Proof.
  intros Ho. unfold SList.take_over.
  mstep (eapply on_gets; eassumption).
  mstep (eapply on_modify; eassumption).
  do 4 (mstep (first [eapply on_modify|eapply on_gets]; apply lookup_insert_eq);
        rewrite ?insert_insert_eq).
  etransitivity; [eapply on_modify; apply lookup_insert_eq|].
  rewrite insert_insert_eq. reflexivity.
Qed.

Lemma sl_w_move_ctor_valid w this other w' :
  valid c w ->
  move_ctor c this other w = Ok tt w' \/ move_ctor c this other w = Throw w' ->
  valid c w'.
Proof.
  intros Hval Hrun. simpl in Hrun. destruct (decide (this = other)) as [->|Hne].
  - assert (Hr : SList.move_ctor other other w = Ok tt (<[other := SList.ctor]> w)).
    { unfold SList.move_ctor. mstep reflexivity.
      erewrite sl_take_over_self by apply lookup_insert_eq.
      rewrite insert_insert_eq. reflexivity. }
    rewrite Hr in Hrun. destruct Hrun as [Hrun|Hrun]; [|discriminate].
    injection Hrun as <-. apply sl_valid_insert; [exact Hval|].
    exists []. apply sl_holds_ctor.
  - destruct (w !! other) as [src|] eqn:Ha.
    + destruct (sl_w_stored w other src Hval Ha) as [xs Hst].
      destruct (sl_w_move_ctor w other this xs Hval) as (w'' & Hr & Hv & _);
        [congruence|exact Hst|].
      simpl in Hr. rewrite Hr in Hrun.
      destruct Hrun as [Hrun|Hrun]; [|discriminate]. injection Hrun as <-. exact Hv.
    + assert (Hu : SList.move_ctor this other w = Undefined).
      { unfold SList.move_ctor, SList.take_over. mstep reflexivity.
        apply bind_Undefined, on_missing.
        rewrite lookup_insert_ne by congruence. exact Ha. }
      rewrite Hu in Hrun. destruct Hrun; discriminate.
Qed.

Lemma sl_w_move_assign_valid w this other w' :
  valid c w ->
  move_assign c this other w = Ok tt w' \/ move_assign c this other w = Throw w' ->
  valid c w'.
Proof.
  intros Hval Hrun. simpl in Hrun. destruct (decide (this = other)) as [->|Hne].
  - unfold SList.move_assign in Hrun. destruct (decide (other = other)); [|congruence].
    destruct Hrun as [Hrun|Hrun]; [|discriminate]. injection Hrun as <-. exact Hval.
  - destruct (w !! other) as [src|] eqn:Ha; [destruct (w !! this) as [o|] eqn:Ht|].
    + destruct (sl_w_stored w other src Hval Ha) as [xs Hst].
      destruct (sl_w_stored w this o Hval Ht) as [ys Hst'].
      destruct (sl_w_move_assign w other this xs ys Hval) as (w'' & Hr & Hv & _);
        [congruence|exact Hst|exact Hst'|].
      simpl in Hr. rewrite Hr in Hrun.
      destruct Hrun as [Hrun|Hrun]; [|discriminate]. injection Hrun as <-. exact Hv.
    + assert (Hu : SList.move_assign this other w = Undefined).
      { unfold SList.move_assign, SList.take_over.
        destruct (decide (this = other)); [congruence|].
        mstep (eapply on_gets; exact Ha).
        mstep (eapply on_modify; exact Ha).
        apply bind_Undefined, on_missing.
        rewrite lookup_insert_ne by congruence. exact Ht. }
      rewrite Hu in Hrun. destruct Hrun; discriminate.
    + assert (Hu : SList.move_assign this other w = Undefined).
      { unfold SList.move_assign, SList.take_over.
        destruct (decide (this = other)); [congruence|].
        apply bind_Undefined, on_missing. exact Ha. }
      rewrite Hu in Hrun. destruct Hrun; discriminate.
Qed.

Lemma sl_w_copy_assign_valid w this other w' :
  valid c w ->
  copy_assign c this other w = Ok tt w' \/ copy_assign c this other w = Throw w' ->
  valid c w'.
Proof.
  intros Hval Hrun. simpl in Hrun. destruct (decide (this = other)) as [->|Hne].
  - unfold SList.copy_assign in Hrun. destruct (decide (other = other)); [|congruence].
    destruct Hrun as [Hrun|Hrun]; [|discriminate]. injection Hrun as <-. exact Hval.
  - destruct (w !! this) as [o|] eqn:Ht; [destruct (w !! other) as [src|] eqn:Ha|].
    + destruct (sl_w_stored w other src Hval Ha) as [xs Hst].
      destruct (sl_w_stored w this o Hval Ht) as [ys Hst'].
      destruct (sl_w_copy_assign w other this xs ys Hval) as (w'' & Hr & Hv & _);
        [congruence|exact Hst|exact Hst'|].
      simpl in Hr. rewrite Hr in Hrun.
      destruct Hrun as [Hrun|Hrun]; [|discriminate]. injection Hrun as <-. exact Hv.
    + assert (Hu : SList.copy_assign this other w = Undefined).
      { unfold SList.copy_assign.
        destruct (decide (this = other)); [congruence|].
        mstep (eapply on_modify; exact Ht).
        mstep (eapply on_modify; apply lookup_insert_eq).
        apply bind_Undefined, on_missing.
        rewrite !lookup_insert_ne by congruence. exact Ha. }
      rewrite Hu in Hrun. destruct Hrun; discriminate.
    + assert (Hu : SList.copy_assign this other w = Undefined).
      { unfold SList.copy_assign.
        destruct (decide (this = other)); [congruence|].
        apply bind_Undefined, on_missing. exact Ht. }
      rewrite Hu in Hrun. destruct Hrun; discriminate.
Qed.

Lemma sl_reachable_valid w : reachable c w -> valid c w.
Proof.
  induction 1 as [|w cmd w' _ IH Hrun].
  - intros this v Hv. simpl in Hv. rewrite lookup_empty in Hv. discriminate.
  - destruct cmd as [this|this m|this other|this other|this other]; simpl in Hrun.
    + destruct Hrun as [Hrun|Hrun]; [|discriminate]. injection Hrun as <-.
      apply sl_valid_insert; [exact IH|]. exists []. apply sl_holds_ctor.
    + exact (sl_w_apply_valid w this m w' IH Hrun).
    + exact (sl_w_move_ctor_valid w this other w' IH Hrun).
    + exact (sl_w_move_assign_valid w this other w' IH Hrun).
    + exact (sl_w_copy_assign_valid w this other w' IH Hrun).
Qed.

(** An erasure and an assignment at a position in range complete. *)
Lemma sl_w_in_place w this xs i :
  valid c w -> stores c w this xs -> (i < List.length xs)%nat ->
  (exists w', erase c this (Z.of_nat i) w = Ok tt w') /\
  (forall x, exists w', subscript_assign c this (Z.of_nat i) x w = Ok tt w').
Proof.
  intros _ (v & Hv & Hxs) Hi. split; [|intros x].
  - destruct (sl_erase_spec v xs i Hxs Hi) as (v' & Hrun & _).
    eexists. eapply on_Ok; eassumption.
  - destruct (sl_subscript_assign_spec v xs i x Hxs Hi) as (v' & Hrun & _).
    eexists. eapply on_Ok; eassumption.
Qed.

(** One element more than [INT_MAX]: [length++] overflows. *)
Lemma sl_push_all_overflow w this S n :
  Z.of_nat n = INT_MAX -> (n < List.length S)%nat ->
  push_all c this S (<[this := SList.ctor]> w) = Undefined.
Proof.
  intros Hn Hlen. rewrite <- (take_drop n S), push_all_app.
  assert (Htake : List.length (take n S) = n) by (rewrite length_take; lia).
  destruct (drop n S) as [|x rest] eqn:Hdrop.
  { apply (f_equal List.length) in Hdrop. rewrite length_drop in Hdrop.
    cbn [List.length] in Hdrop. lia. }
  destruct (sl_w_push_all (take n S) (<[this := SList.ctor]> w) this SList.ctor [])
    as (v' & Hrun & Hv').
  { apply lookup_insert_eq. }
  { apply sl_holds_ctor. }
  { cbn [List.length]. lia. }
  cbn [app] in Hv'.
  mstep (exact Hrun). cbn [push_all].
  apply bind_Undefined.
  apply (on_Undefined this (SList.push_back x) _ v' (lookup_insert_eq _ _ _)).
  assert (Hfull : SList.length v' = Z.of_nat (List.length (take n S)))
    by (destruct Hv' as (_ & Hl & _); exact Hl).
  rewrite <- (sl_insert_at_size v' (take n S) x Hv'), Hfull.
  apply (sl_insert_overflow v' (take n S)); [exact Hv'|lia|lia].
Qed.
End laws.
End SListLaws.

Module DListLaws.
Import DListFacts.
Section laws.
Context {T : Type} `{Printable T}.
Local Abbreviation c := (DoublyChain_impl (T:=T)).
Implicit Types (w : DList.heap T * gmap nat DList.dlist) (xs ys : list T).
Implicit Types (hp : DList.heap T) (lxs : list (nat * T)).

Lemma dl_w_stores_inj w this xs ys : stores c w this xs -> stores c w this ys -> xs = ys.
Proof.
  intros (d & lxs & Hd & Hown & <-) (d' & lxs' & Hd' & Hown' & <-).
  rewrite Hd in Hd'. injection Hd' as <-.
  rewrite (dl_owns_det _ _ _ _ Hown Hown'). reflexivity.
Qed.

Lemma dl_w_size_inv w this n w' :
  size c this w = Ok n w' -> exists d, w.2 !! this = Some d /\ DList.length d = n.
Proof.
  intros Hsize. apply dl_on_inv in Hsize as (d & s & Hd & Hrun & _).
  unfold DList.size, DList.get_length, gets in Hrun. injection Hrun as <- _.
  exists d. auto.
Qed.

Lemma dl_w_throws w this n x pos :
  size c this w = Ok n w ->
  (pos < 0 \/ pos > n -> insert c this x pos w = Throw w) /\
  (pos < 0 \/ pos >= n ->
     erase c this pos w = Throw w /\ subscript c this pos w = Throw w /\
     subscript_assign c this pos x w = Throw w).
Proof.
  intros Hsize. apply dl_w_size_inv in Hsize as (d & Hd & <-).
  split; [intros Hpos|intros Hpos; split; [|split]];
    (eapply dl_on_Throw_same; [exact Hd|]).
  - apply dl_insert_throw. lia.
  - apply dl_erase_throw. lia.
  - apply dl_subscript_throw. lia.
  - apply dl_subscript_assign_throw. lia.
Qed.

Lemma dl_w_observe w this xs :
  stores c w this xs ->
  iterate c this w = Ok xs w /\ size c this w = Ok (Z.of_nat (List.length xs)) w /\
  print c this w = Ok (line xs) w /\
  (forall i x, xs !! i = Some x -> subscript c this (Z.of_nat i) w = Ok x w).
Proof.
  intros (d & lxs & Hd & Hown & <-). split; [|split; [|split]].
  - eapply dl_on_same; [exact Hd|]. apply dl_iterate_spec. exact Hown.
  - eapply dl_on_same; [exact Hd|]. rewrite length_fmap. apply dl_size_spec. exact Hown.
  - eapply dl_on_same; [exact Hd|]. apply dl_print_spec. exact Hown.
  - intros i x Hi. rewrite list_lookup_fmap in Hi.
    destruct (lxs !! i) as [[l y]|] eqn:Hl; [|discriminate]. injection Hi as <-.
    eapply dl_on_same; [exact Hd|]. eapply dl_subscript_spec; eassumption.
Qed.

Lemma dl_w_iterate_inv w this xs w' :
  valid c w -> iterate c this w = Ok xs w' -> stores c w this xs.
Proof.
  intros (Hok & Hval & Hdisj) Hit. apply dl_on_inv in Hit as (d & s & Hd & Hrun & _).
  destruct (Hval this d Hd) as [lxs Hown].
  rewrite (dl_iterate_spec _ _ _ Hown) in Hrun. injection Hrun as <- _.
  exists d, lxs. auto.
Qed.

Lemma dl_w_apply w this m w' xs :
  valid c w -> stores c w this xs ->
  apply c m this w = Ok tt w' ->
  valid c w' /\ stores c w' this (mutate m xs) /\
  (forall u ys, u <> this -> stores c w u ys -> stores c w' u ys).
Proof.
  intros Hval (d & lxs & Hd & Hown & <-) Hrun. destruct w as [hp objs].
  assert (Hok : DList.heap_ok hp) by apply Hval.
  assert (Hinv : exists hp' d' lxs',
             w' = (hp', <[this := d']> objs) /\
             DList.owns hp' d' lxs' /\ lxs'.*2 = mutate m lxs.*2 /\
             DList.updated hp lxs hp' lxs').
  { destruct m as [x|x pos|pos|index x]; simpl in Hrun;
      apply dl_on_inv in Hrun as (d0 & [hp' d'] & Hd0 & Hrun & ->);
      simpl in Hd0, Hrun; simpl in Hd; rewrite Hd in Hd0; injection Hd0 as <-.
    - destruct (dl_push_back_inv _ _ _ _ _ _ Hok Hown Hrun) as (lxs' & ? & ? & ?).
      exists hp', d', lxs'. auto.
    - destruct (dl_insert_inv _ _ _ _ _ _ _ Hok Hown Hrun) as (lxs' & ? & ? & ? & _).
      exists hp', d', lxs'. auto.
    - destruct (dl_erase_inv _ _ _ _ _ _ Hok Hown Hrun) as (lxs' & ? & ? & ? & _).
      exists hp', d', lxs'. auto.
    - destruct (dl_subscript_assign_inv _ _ _ _ _ _ _ Hok Hown Hrun) as (lxs' & ? & ? & ? & _).
      exists hp', d', lxs'. auto. }
  destruct Hinv as (hp' & d' & lxs' & -> & Hown' & Hvals & Hupd).
  destruct (dl_valid_update hp objs this d lxs hp' d' lxs' Hval Hd Hown Hown' Hupd)
    as (Hval' & Hframe).
  split; [exact Hval'|]. split.
  - exists d', lxs'. simpl. rewrite lookup_insert_eq. auto.
  - intros u ys Hne (du & lu & Hu & Hou & <-). simpl in Hu.
    exists du, lu. simpl. rewrite lookup_insert_ne by congruence.
    split; [exact Hu|]. split; [|reflexivity]. eapply Hframe; eassumption.
Qed.

Lemma dl_w_apply_Throw w this m w' :
  valid c w -> apply c m this w = Throw w' -> w' = w.
Proof.
  intros Hval Hrun. destruct w as [hp objs].
  assert (Hok : DList.heap_ok hp) by apply Hval.
  destruct m as [x|x pos|pos|index x]; simpl in Hrun;
    apply dl_on_inv_Throw in Hrun as (d & s & Hd & Hrun & ->); simpl in Hd, Hrun;
    destruct (proj1 (proj2 Hval) this d Hd) as [lxs Hown]; simpl in Hown.
  - rewrite (dl_push_back_Throw_inv _ _ _ _ _ Hok Hown Hrun). simpl.
    rewrite insert_id by exact Hd. reflexivity.
  - rewrite (dl_insert_Throw_inv _ _ _ _ _ _ Hok Hown Hrun). simpl.
    rewrite insert_id by exact Hd. reflexivity.
  - rewrite (dl_erase_Throw_inv _ _ _ _ _ Hok Hown Hrun). simpl.
    rewrite insert_id by exact Hd. reflexivity.
  - rewrite (dl_subscript_assign_Throw_inv _ _ _ _ _ _ Hok Hown Hrun). simpl.
    rewrite insert_id by exact Hd. reflexivity.
Qed.

Lemma dl_w_insert_at_size w this x n :
  valid c w -> size c this w = Ok n w ->
  insert c this x n w = push_back c this x w.
Proof.
  intros Hval Hsize. apply dl_w_size_inv in Hsize as (d & Hd & <-).
  destruct (proj1 (proj2 Hval) this d Hd) as [lxs Hown].
  simpl. unfold DList.on. rewrite Hd.
  rewrite (dl_insert_at_size _ _ _ _ (proj1 Hval) Hown). reflexivity.
Qed.

Lemma dl_w_construct w this :
  valid c w ->
  construct c this w = Ok tt (w.1, <[this := DList.ctor]> w.2) /\
  valid c (w.1, <[this := DList.ctor]> w.2) /\
  stores c (w.1, <[this := DList.ctor]> w.2) this [].
Proof.
  intros Hval. destruct w as [hp objs]. split; [reflexivity|]. split.
  - apply dl_valid_construct. exact Hval.
  - exists DList.ctor, []. simpl. rewrite lookup_insert_eq.
    split; [reflexivity|]. split; [apply dl_owns_nil|reflexivity].
Qed.

Lemma dl_w_push_back w this xs x :
  valid c w -> stores c w this xs -> Z.of_nat (List.length xs) < INT_MAX ->
  exists w', push_back c this x w = Ok tt w' /\ valid c w' /\ stores c w' this (xs ++ [x]).
Proof.
  intros Hval Hst Hlen. pose proof Hst as (d & lxs & Hd & Hown & <-).
  destruct w as [hp objs]. simpl in Hd, Hown.
  destruct (dl_push_back_spec hp d lxs x (proj1 Hval) Hown) as (hp' & d' & Hrun & _).
  { destruct Hown as (_ & _ & Hn & _). rewrite length_fmap in Hlen. lia. }
  exists (hp', <[this := d']> objs).
  assert (Hw : push_back c this x (hp, objs) = Ok tt (hp', <[this := d']> objs)).
  { exact (dl_on_Ok this _ (hp, objs) d tt (hp', d') Hd Hrun). }
  split; [exact Hw|].
  destruct (dl_w_apply (hp, objs) this (PushBack x) _ _ Hval Hst Hw) as (? & ? & _).
  auto.
Qed.

Lemma dl_w_fresh_insert w this x :
  valid c w ->
  exists w2,
    insert c this x 0 (w.1, <[this := DList.ctor]> w.2) = Ok tt w2 /\
    valid c w2 /\ stores c w2 this [x].
Proof.
  intros Hval. destruct (dl_w_construct w this Hval) as (_ & Hval1 & Hst1).
  destruct w as [hp objs].
  destruct (dl_insert_spec hp DList.ctor [] x 0 (proj1 Hval) (dl_owns_nil hp))
    as (hp' & d' & Hrun & _).
  { simpl. lia. }
  { unfold INT_MAX. simpl. lia. }
  exists (hp', <[this := d']> (<[this := DList.ctor]> objs)).
  assert (Hw : insert c this x 0 (hp, <[this := DList.ctor]> objs)
               = Ok tt (hp', <[this := d']> (<[this := DList.ctor]> objs))).
  { exact (dl_on_Ok this _ (hp, <[this := DList.ctor]> objs) DList.ctor tt (hp', d')
             (lookup_insert_eq _ _ _) Hrun). }
  split; [exact Hw|].
  destruct (dl_w_apply _ this (Insert x 0) _ _ Hval1 Hst1 Hw) as (? & ? & _).
  auto.
Qed.

Lemma dl_w_push_all S : forall w this xs,
  valid c w -> stores c w this xs ->
  Z.of_nat (List.length xs + List.length S) <= INT_MAX ->
  exists w', push_all c this S w = Ok tt w' /\ valid c w' /\ stores c w' this (xs ++ S).
Proof.
  induction S as [|x S IH]; intros w this xs Hval Hst Hlen.
  - exists w. rewrite app_nil_r. auto.
  - destruct (dl_w_push_back w this xs x Hval Hst) as (w1 & Hrun & Hval1 & Hst1).
    { simpl in Hlen. lia. }
    destruct (IH w1 this (xs ++ [x]) Hval1 Hst1) as (w2 & Hrest & Hval2 & Hst2).
    { rewrite length_app. simpl in *. lia. }
    exists w2. split; [|split; [exact Hval2|]].
    + cbn [push_all]. mstep (exact Hrun). exact Hrest.
    + rewrite <- app_assoc in Hst2. exact Hst2.
Qed.

Lemma dl_w_round_trip w this S :
  valid c w -> Z.of_nat (List.length S) <= max_size c ->
  exists w2,
    push_all c this S (w.1, <[this := DList.ctor]> w.2) = Ok tt w2 /\
    valid c w2 /\ stores c w2 this S.
Proof.
  intros Hval Hlen. destruct (dl_w_construct w this Hval) as (_ & Hval1 & Hst1).
  apply (dl_w_push_all S _ this [] Hval1 Hst1). exact Hlen.
Qed.

Lemma dl_w_take_over w a b xs ys :
  valid c w -> a <> b -> stores c w a xs -> stores c w b ys ->
  exists w',
    DList.take_over b a w = Ok tt w' /\ valid c w' /\
    stores c w' b xs /\ stores c w' a [] /\ w'.2 !! a = Some DList.ctor /\
    (forall u zs, u <> a -> u <> b -> stores c w u zs -> stores c w' u zs).
Proof.
  intros Hval Hne (da & la & Ha & Hoa & <-) (db & lb & Hb & Hob & _).
  destruct w as [hp objs]. simpl in Ha, Hb, Hoa, Hob.
  destruct (dl_take_over_run b a hp objs db da lb (proj1 Hval)) as (h' & Hrun & Hok' & _ & Hkept);
    [congruence|assumption..|].
  destruct (dl_valid_take_over b a hp objs db da lb la h' Hval) as (Hval' & Hoa' & Hframe);
    [congruence|assumption..|].
  eexists. split; [exact Hrun|]. split; [exact Hval'|]. split; [|split; [|split]].
  - exists da, la. simpl. rewrite lookup_insert_ne, lookup_insert_eq by congruence. auto.
  - exists DList.ctor, []. simpl. rewrite lookup_insert_eq.
    split; [reflexivity|]. split; [apply dl_owns_nil|reflexivity].
  - simpl. apply lookup_insert_eq.
  - intros u zs Hua Hub (du & lu & Hu & Hou & <-). simpl in Hu, Hou.
    exists du, lu. simpl. rewrite !lookup_insert_ne by congruence.
    split; [exact Hu|]. split; [|reflexivity]. eapply Hframe; eassumption.
Qed.

Lemma dl_w_move_assign w a b xs ys :
  valid c w -> a <> b -> stores c w a xs -> stores c w b ys ->
  exists w',
    move_assign c b a w = Ok tt w' /\ valid c w' /\
    stores c w' b xs /\ stores c w' a [] /\ w'.2 !! a = Some DList.ctor.
Proof.
  intros Hval Hne Ha Hb.
  destruct (dl_w_take_over w a b xs ys Hval Hne Ha Hb) as (w' & Hrun & ? & ? & ? & ? & _).
  exists w'. simpl. unfold DList.move_assign.
  destruct (decide (b = a)); [congruence|]. auto.
Qed.

Lemma dl_w_stores_construct w this u ys :
  u <> this -> stores c w u ys -> stores c (w.1, <[this := DList.ctor]> w.2) u ys.
Proof.
  intros Hne (du & lu & Hu & Hou & <-). exists du, lu. simpl.
  rewrite lookup_insert_ne by congruence. auto.
Qed.

Lemma dl_w_move_ctor w a b xs :
  valid c w -> a <> b -> stores c w a xs ->
  exists w',
    move_ctor c b a w = Ok tt w' /\ valid c w' /\
    stores c w' b xs /\ stores c w' a [] /\ w'.2 !! a = Some DList.ctor.
Proof.
  intros Hval Hne Ha.
  destruct (dl_w_construct w b Hval) as (_ & Hval1 & Hb1).
  pose proof (dl_w_stores_construct w b a xs Hne Ha) as Ha1.
  destruct (dl_w_take_over _ a b xs [] Hval1 Hne Ha1 Hb1) as (w' & Hrun & ? & ? & ? & ? & _).
  exists w'. split; [|auto]. destruct w as [hp objs]. exact Hrun.
Qed.

Lemma dl_w_copy_assign w a b xs ys :
  valid c w -> a <> b -> stores c w a xs -> stores c w b ys ->
  exists w',
    copy_assign c b a w = Ok tt w' /\ valid c w' /\
    stores c w' b xs /\ stores c w' a xs /\
    (forall da db la lb, w'.2 !! a = Some da -> w'.2 !! b = Some db ->
       DList.owns w'.1 da la -> DList.owns w'.1 db lb -> la.*1 ## lb.*1).
Proof.
  intros Hval Hne (da & la & Ha & Hoa & <-) (db & lb & Hb & Hob & _).
  destruct w as [hp objs]. simpl in Ha, Hb, Hoa, Hob.
  destruct (dl_copy_assign_spec b a hp objs db da la Hval) as
    (hp' & db' & lb' & Hrun & Hval' & Hob' & Hvals & Hframe);
    [congruence|assumption..|].
  eexists. split; [exact Hrun|]. split; [exact Hval'|]. split; [|split].
  - exists db', lb'. simpl. rewrite lookup_insert_eq. auto.
  - exists da, la. simpl. rewrite lookup_insert_ne by congruence.
    split; [exact Ha|]. split; [|reflexivity]. eapply Hframe; eauto.
  - intros da0 db0 la0 lb0 Ha0 Hb0 Hoa0 Hob0.
    exact (proj2 (proj2 Hval') a b da0 db0 la0 lb0 Hne Ha0 Hb0 Hoa0 Hob0).
Qed.

Lemma dl_w_self_assign w a :
  copy_assign c a a w = Ok tt w /\ move_assign c a a w = Ok tt w.
Proof.
  simpl. unfold DList.copy_assign, DList.move_assign.
  destruct (decide (a = a)) as [_|Hne]; [|congruence]. split; reflexivity.
Qed.

(** *** Every step of a program keeps the world well formed *)

Lemma dl_on_missing {R} this (m : M (DList.heap T * DList.dlist) R) w :
  w.2 !! this = None -> DList.on this m w = Undefined.
Proof. intros Hnone. unfold DList.on. rewrite Hnone. reflexivity. Qed.

Lemma dl_w_stored w this d :
  valid c w -> w.2 !! this = Some d -> exists xs, stores c w this xs.
Proof.
  intros (_ & Hall & _) Hd. destruct (Hall this d Hd) as [lxs Hown].
  exists lxs.*2, d, lxs. auto.
Qed.

Lemma dl_w_apply_valid w this m w' :
  valid c w ->
  apply c m this w = Ok tt w' \/ apply c m this w = Throw w' ->
  valid c w'.
Proof.
  intros Hval [Hrun|Hrun].
  - assert (Hex : exists d, w.2 !! this = Some d).
    { destruct m; simpl in Hrun; apply dl_on_inv in Hrun as (d & _ & Hd & _); eauto. }
    destruct Hex as [d Hd]. destruct (dl_w_stored w this d Hval Hd) as [xs Hst].
    apply (dl_w_apply w this m w' xs Hval Hst Hrun).
  - rewrite (dl_w_apply_Throw w this m w' Hval Hrun). exact Hval.
Qed.

Lemma dl_release_null {X} (s : DList.heap T * X) : DList.release None s = Ok tt s.
Proof.
  unfold DList.release, DList.alive, gets, bind.
  destruct (base.size (DList.nodes s.1)); reflexivity.
Qed.

Lemma dl_move_ctor_self (hp : DList.heap T) objs a :
  DList.move_ctor a a (hp, objs) = Ok tt (hp, <[a := DList.ctor]> objs).
Proof.
  unfold DList.move_ctor, DList.take_over.
  mstep reflexivity. cbn [fst snd].
  mstep (eapply dl_on_same; [apply lookup_insert_eq|reflexivity]).
  mstep (eapply dl_on_same; [apply lookup_insert_eq|reflexivity]).
  mstep (eapply dl_on_same; [apply lookup_insert_eq|reflexivity]).
  mstep (eapply dl_on_same; [apply lookup_insert_eq|reflexivity]).
  mstep (apply dl_release_null).
  mstep (eapply dl_on_same; [apply lookup_insert_eq|reflexivity]).
  mstep (eapply dl_on_same; [apply lookup_insert_eq|reflexivity]).
  mstep (eapply dl_on_same; [apply lookup_insert_eq|reflexivity]).
  eapply dl_on_same; [apply lookup_insert_eq|reflexivity].
Qed.

Lemma dl_w_move_ctor_valid w this other w' :
  valid c w ->
  move_ctor c this other w = Ok tt w' \/ move_ctor c this other w = Throw w' ->
  valid c w'.
Proof.
  intros Hval Hrun. destruct w as [hp objs]. simpl in Hrun.
  destruct (decide (this = other)) as [->|Hne].
  - rewrite dl_move_ctor_self in Hrun.
    destruct Hrun as [Hrun|Hrun]; [|discriminate].
    injection Hrun as <-. apply dl_valid_construct. exact Hval.
  - destruct (objs !! other) as [da|] eqn:Ha.
    + destruct (dl_w_stored (hp, objs) other da Hval Ha) as [xs Hst].
      destruct (dl_w_move_ctor (hp, objs) other this xs Hval) as (w'' & Hr & Hv & _);
        [congruence|exact Hst|].
      simpl in Hr. rewrite Hr in Hrun.
      destruct Hrun as [Hrun|Hrun]; [|discriminate]. injection Hrun as <-. exact Hv.
    + assert (Hu : DList.move_ctor this other (hp, objs) = Undefined).
      { unfold DList.move_ctor, DList.take_over. mstep reflexivity.
        apply bind_Undefined, dl_on_missing. simpl.
        rewrite lookup_insert_ne by congruence. exact Ha. }
      rewrite Hu in Hrun. destruct Hrun; discriminate.
Qed.

Lemma dl_w_move_assign_valid w this other w' :
  valid c w ->
  move_assign c this other w = Ok tt w' \/ move_assign c this other w = Throw w' ->
  valid c w'.
Proof.
  intros Hval Hrun. destruct w as [hp objs]. simpl in Hrun.
  destruct (decide (this = other)) as [->|Hne].
  - unfold DList.move_assign in Hrun. destruct (decide (other = other)); [|congruence].
    destruct Hrun as [Hrun|Hrun]; [|discriminate]. injection Hrun as <-. exact Hval.
  - destruct (objs !! other) as [da|] eqn:Ha; [destruct (objs !! this) as [dt|] eqn:Ht|].
    + destruct (dl_w_stored (hp, objs) other da Hval Ha) as [xs Hst].
      destruct (dl_w_stored (hp, objs) this dt Hval Ht) as [ys Hst'].
      destruct (dl_w_move_assign (hp, objs) other this xs ys Hval) as (w'' & Hr & Hv & _);
        [congruence|exact Hst|exact Hst'|].
      simpl in Hr. rewrite Hr in Hrun.
      destruct Hrun as [Hrun|Hrun]; [|discriminate]. injection Hrun as <-. exact Hv.
    + assert (Hu : DList.move_assign this other (hp, objs) = Undefined).
      { unfold DList.move_assign, DList.take_over.
        destruct (decide (this = other)); [congruence|].
        mstep (eapply (dl_on_same other _ (hp, objs)); [exact Ha|reflexivity]).
        mstep (exact (dl_on_Ok other _ (hp, objs) da tt _ Ha eq_refl)).
        apply bind_Undefined, dl_on_missing. simpl.
        rewrite lookup_insert_ne by congruence. exact Ht. }
      rewrite Hu in Hrun. destruct Hrun; discriminate.
    + assert (Hu : DList.move_assign this other (hp, objs) = Undefined).
      { unfold DList.move_assign, DList.take_over.
        destruct (decide (this = other)); [congruence|].
        apply bind_Undefined, dl_on_missing. exact Ha. }
      rewrite Hu in Hrun. destruct Hrun; discriminate.
Qed.

Lemma dl_w_copy_assign_valid w this other w' :
  valid c w ->
  copy_assign c this other w = Ok tt w' \/ copy_assign c this other w = Throw w' ->
  valid c w'.
Proof.
  intros Hval Hrun. destruct w as [hp objs]. simpl in Hrun.
  destruct (decide (this = other)) as [->|Hne].
  - unfold DList.copy_assign in Hrun. destruct (decide (other = other)); [|congruence].
    destruct Hrun as [Hrun|Hrun]; [|discriminate]. injection Hrun as <-. exact Hval.
  - destruct (objs !! this) as [dt|] eqn:Ht; [destruct (objs !! other) as [da|] eqn:Ha|].
    + destruct (dl_w_stored (hp, objs) other da Hval Ha) as [xs Hst].
      destruct (dl_w_stored (hp, objs) this dt Hval Ht) as [ys Hst'].
      destruct (dl_w_copy_assign (hp, objs) other this xs ys Hval) as (w'' & Hr & Hv & _);
        [congruence|exact Hst|exact Hst'|].
      simpl in Hr. rewrite Hr in Hrun.
      destruct Hrun as [Hrun|Hrun]; [|discriminate]. injection Hrun as <-. exact Hv.
    + assert (Hu : DList.copy_assign this other (hp, objs) = Undefined).
      { pose proof Hval as (Hok & Hall & _). simpl in Hok, Hall.
        destruct (Hall this dt Ht) as [lt Hot].
        destruct (dl_release (<[this := DList.mk None (DList.length dt)]> objs)
                    hp dt lt Hok Hot) as (h1 & Hrel & _).
        unfold DList.copy_assign.
        destruct (decide (this = other)); [congruence|].
        mstep (eapply (dl_on_same this _ (hp, objs)); [exact Ht|reflexivity]).
        mstep (exact (dl_on_Ok this _ (hp, objs) dt tt _ Ht eq_refl)). cbn [fst snd].
        mstep (exact Hrel).
        mstep (eapply dl_on_Ok; [simpl; apply lookup_insert_eq|reflexivity]).
        apply bind_Undefined, dl_on_missing. simpl.
        rewrite !lookup_insert_ne by congruence. exact Ha. }
      rewrite Hu in Hrun. destruct Hrun; discriminate.
    + assert (Hu : DList.copy_assign this other (hp, objs) = Undefined).
      { unfold DList.copy_assign.
        destruct (decide (this = other)); [congruence|].
        apply bind_Undefined, dl_on_missing. exact Ht. }
      rewrite Hu in Hrun. destruct Hrun; discriminate.
Qed.

Lemma dl_valid_init : valid c (no_objects c).
Proof.
  split; [|split].
  - intros l [nd Hl]. simpl in Hl. rewrite lookup_empty in Hl. discriminate.
  - intros this d Hd. simpl in Hd. rewrite lookup_empty in Hd. discriminate.
  - intros v1 v2 d1 d2 lxs1 lxs2 _ Hd. simpl in Hd. rewrite lookup_empty in Hd. discriminate.
Qed.

Lemma dl_reachable_valid w : reachable c w -> valid c w.
Proof.
  induction 1 as [|w cmd w' _ IH Hrun]; [apply dl_valid_init|].
  destruct cmd as [this|this m|this other|this other|this other]; simpl in Hrun.
  - destruct Hrun as [Hrun|Hrun]; [|discriminate].
    destruct w as [hp objs]. injection Hrun as <-. apply dl_valid_construct. exact IH.
  - exact (dl_w_apply_valid w this m w' IH Hrun).
  - exact (dl_w_move_ctor_valid w this other w' IH Hrun).
  - exact (dl_w_move_assign_valid w this other w' IH Hrun).
  - exact (dl_w_copy_assign_valid w this other w' IH Hrun).
Qed.

(** *** The backward references of a well-formed world *)

Lemma dl_seg_reaches (h : gmap nat (DList.DoubleNode T)) p n :
  DList.reaches h p n ->
  forall pv (lxs : list (nat * T)),
    DList.seg h pv p lxs None -> exists k x, lxs !! k = Some (n, x).
Proof.
  induction 1 as [l|l nd n Hl Hreach IH]; intros pv lxs Hseg.
  - destruct lxs as [|[l0 x0] lxs]; [discriminate|].
    destruct Hseg as (Hp & _). simpl in Hp. injection Hp as ->.
    exists 0%nat, x0. reflexivity.
  - destruct lxs as [|[l0 x0] lxs]; [discriminate|].
    destruct Hseg as (Hp & nx & Hnode & Hrest). simpl in Hp, Hnode, Hrest.
    injection Hp as ->. rewrite Hl in Hnode. injection Hnode as ->.
    destruct (IH _ _ Hrest) as (k & x & Hk). exists (S k), x. exact Hk.
Qed.

Lemma dl_owns_back_linked hp d lxs : DList.owns hp d lxs -> DList.back_linked hp d.
Proof.
  intros (Hseg & _) n nd m Hreach Hn Hnext.
  destruct (dl_seg_reaches _ _ _ Hreach _ _ Hseg) as (k & x & Hk).
  pose proof (dl_seg_lookup _ _ _ _ _ _ _ _ Hseg Hk) as Hnode.
  rewrite Hn in Hnode. injection Hnode as ->. simpl in Hnext.
  unfold DList.ptr_at in Hnext.
  destruct (lxs !! S k) as [[m0 y]|] eqn:Hm; [|discriminate].
  simpl in Hnext. injection Hnext as ->.
  pose proof (dl_seg_lookup _ _ _ _ _ _ _ _ Hseg Hm) as Hnode.
  eexists. split; [exact Hnode|]. simpl.
  rewrite (take_S_r _ _ _ Hk). apply dl_last_loc_snoc.
Qed.

Lemma dl_owns_head_prev hp d lxs l nd :
  DList.owns hp d lxs -> DList.head d = Some l -> DList.nodes hp !! l = Some nd ->
  DList.prev nd = None.
Proof.
  intros (Hseg & _) Hhead Hl. rewrite Hhead in Hseg.
  destruct lxs as [|[l0 x0] lxs]; [discriminate|].
  destruct Hseg as (Hp & nx & Hnode & _). simpl in Hp, Hnode.
  injection Hp as ->. rewrite Hl in Hnode. injection Hnode as ->. reflexivity.
Qed.

(** An erasure and an assignment at a position in range complete. *)
Lemma dl_w_in_place w this xs i :
  valid c w -> stores c w this xs -> (i < List.length xs)%nat ->
  (exists w', erase c this (Z.of_nat i) w = Ok tt w') /\
  (forall x, exists w', subscript_assign c this (Z.of_nat i) x w = Ok tt w').
Proof.
  intros Hval (d & lxs & Hd & Hown & <-) Hi. rewrite length_fmap in Hi.
  destruct w as [hp objs]. simpl in Hd, Hown. split; [|intros x].
  - destruct (dl_erase_spec hp d lxs i (proj1 Hval) Hown Hi) as (hp' & d' & Hrun & _).
    eexists. exact (dl_on_Ok this _ (hp, objs) d tt (hp', d') Hd Hrun).
  - destruct (dl_subscript_assign_spec hp d lxs i x (proj1 Hval) Hown Hi)
      as (hp' & lxs' & Hrun & _).
    eexists. exact (dl_on_Ok this _ (hp, objs) d tt (hp', d) Hd Hrun).
Qed.

Lemma dl_on_Undefined {R} this (m : M (DList.heap T * DList.dlist) R) w d :
  w.2 !! this = Some d -> m (w.1, d) = Undefined -> DList.on this m w = Undefined.
Proof. intros Hd Hm. unfold DList.on. rewrite Hd, Hm. reflexivity. Qed.

(** One element more than [INT_MAX]: [length++] overflows. *)
Lemma dl_push_all_overflow w this S n :
  valid c w -> Z.of_nat n = INT_MAX -> (n < List.length S)%nat ->
  push_all c this S (w.1, <[this := DList.ctor]> w.2) = Undefined.
Proof.
  intros Hval Hn Hlen. rewrite <- (take_drop n S), push_all_app.
  assert (Htake : List.length (take n S) = n) by (rewrite length_take; lia).
  destruct (drop n S) as [|x rest] eqn:Hdrop.
  { apply (f_equal List.length) in Hdrop. rewrite length_drop in Hdrop.
    cbn [List.length] in Hdrop. lia. }
  destruct (dl_w_construct w this Hval) as (_ & Hval1 & Hst1).
  destruct (dl_w_push_all (take n S) _ this [] Hval1 Hst1) as (w2 & Hrun & Hval2 & Hst2).
  { cbn [List.length]. lia. }
  cbn [app] in Hst2.
  mstep (exact Hrun). cbn [push_all].
  apply bind_Undefined.
  destruct Hst2 as (d & lxs & Hd & Hown & Hvals).
  apply (dl_on_Undefined this (DList.push_back x) w2 d Hd).
  assert (Hlen2 : List.length lxs = n).
  { rewrite <- Htake, <- Hvals, length_fmap. reflexivity. }
  assert (Hfull : DList.length d = Z.of_nat (List.length lxs))
    by (destruct Hown as (_ & _ & Hl & _); exact Hl).
  destruct w2 as [hp2 objs2]. simpl in *.
  rewrite <- (dl_insert_at_size hp2 d lxs x (proj1 Hval2) Hown), Hfull.
  apply (dl_insert_overflow hp2 d lxs); [exact (proj1 Hval2)|exact Hown|lia|lia].
Qed.
End laws.
End DListLaws.

(** ** The laws of the interface, for every kind *)

Section laws.
Context {T : Type} `{Printable T}.
Import VecLaws SListLaws DListLaws.

Lemma reachable_valid k (w : world (impl k)) : reachable (impl k) w -> valid (impl k) w.
Proof.
  destruct k; [apply vec_reachable_valid|apply sl_reachable_valid|apply dl_reachable_valid].
Qed.

Lemma law_stores_inj k (w : world (impl k)) this xs ys :
  stores (impl k) w this xs -> stores (impl k) w this ys -> xs = ys.
Proof.
  destruct k; [apply vec_w_stores_inj|apply sl_w_stores_inj|apply dl_w_stores_inj].
Qed.

Lemma law_iterate_inv k (w w' : world (impl k)) this xs :
  valid (impl k) w -> iterate (impl k) this w = Ok xs w' -> stores (impl k) w this xs.
Proof.
  destruct k; [apply vec_w_iterate_inv|apply sl_w_iterate_inv|apply dl_w_iterate_inv].
Qed.

Lemma law_observe k (w : world (impl k)) this xs :
  stores (impl k) w this xs ->
  iterate (impl k) this w = Ok xs w /\
  size (impl k) this w = Ok (Z.of_nat (List.length xs)) w /\
  print (impl k) this w = Ok (line xs) w /\
  (forall i x, xs !! i = Some x -> subscript (impl k) this (Z.of_nat i) w = Ok x w).
Proof.
  destruct k; [apply vec_w_observe|apply sl_w_observe|apply dl_w_observe].
Qed.

Lemma law_throws k (w : world (impl k)) this n x pos :
  size (impl k) this w = Ok n w ->
  (pos < 0 \/ pos > n -> insert (impl k) this x pos w = Throw w) /\
  (pos < 0 \/ pos >= n ->
     erase (impl k) this pos w = Throw w /\ subscript (impl k) this pos w = Throw w /\
     subscript_assign (impl k) this pos x w = Throw w).
Proof.
  destruct k; [apply vec_w_throws|apply sl_w_throws|apply dl_w_throws].
Qed.

Lemma law_apply k (w w' : world (impl k)) this m xs :
  valid (impl k) w -> stores (impl k) w this xs ->
  apply (impl k) m this w = Ok tt w' ->
  valid (impl k) w' /\ stores (impl k) w' this (mutate m xs) /\
  (forall u ys, u <> this -> stores (impl k) w u ys -> stores (impl k) w' u ys).
Proof.
  destruct k; [apply vec_w_apply|apply sl_w_apply|apply dl_w_apply].
Qed.

Lemma law_apply_Throw k (w w' : world (impl k)) this m :
  valid (impl k) w -> apply (impl k) m this w = Throw w' -> w' = w.
Proof.
  destruct k; [apply vec_w_apply_Throw|apply sl_w_apply_Throw|apply dl_w_apply_Throw].
Qed.

Lemma law_insert_at_size k (w : world (impl k)) this x n :
  valid (impl k) w -> size (impl k) this w = Ok n w ->
  insert (impl k) this x n w = push_back (impl k) this x w.
Proof.
  destruct k;
    [apply vec_w_insert_at_size|apply sl_w_insert_at_size|apply dl_w_insert_at_size].
Qed.

Lemma law_fresh_insert k (w : world (impl k)) this x :
  valid (impl k) w ->
  exists w1 w2,
    construct (impl k) this w = Ok tt w1 /\
    insert (impl k) this x 0 w1 = Ok tt w2 /\
    valid (impl k) w2 /\ stores (impl k) w2 this [x].
Proof.
  intros Hval. destruct k.
  - destruct (vec_w_fresh_insert w this x Hval) as (w2 & ? & ? & ?).
    exists (<[this := Vec.ctor]> w), w2. split; [reflexivity|auto].
  - destruct (sl_w_fresh_insert w this x Hval) as (w2 & ? & ? & ?).
    exists (<[this := SList.ctor]> w), w2. split; [reflexivity|auto].
  - destruct (dl_w_fresh_insert w this x Hval) as (w2 & ? & ? & ?).
    exists (w.1, <[this := DList.ctor]> w.2), w2. split; [|auto].
    destruct w; reflexivity.
Qed.

Lemma law_round_trip k (w : world (impl k)) this S :
  valid (impl k) w -> Z.of_nat (List.length S) <= max_size (impl k) ->
  exists w1 w2,
    construct (impl k) this w = Ok tt w1 /\
    push_all (impl k) this S w1 = Ok tt w2 /\
    valid (impl k) w2 /\ stores (impl k) w2 this S.
Proof.
  intros Hval Hlen. destruct k.
  - destruct (vec_w_round_trip w this S Hval Hlen) as (w2 & ? & ? & ?).
    exists (<[this := Vec.ctor]> w), w2. split; [reflexivity|auto].
  - destruct (sl_w_round_trip w this S Hval Hlen) as (w2 & ? & ? & ?).
    exists (<[this := SList.ctor]> w), w2. split; [reflexivity|auto].
  - destruct (dl_w_round_trip w this S Hval Hlen) as (w2 & ? & ? & ?).
    exists (w.1, <[this := DList.ctor]> w.2), w2. split; [|auto].
    destruct w; reflexivity.
Qed.

(** Past [max_size] the behaviour of the appends is undefined. *)
Lemma law_round_trip_overflow k (w : world (impl k)) this S :
  valid (impl k) w -> max_size (impl k) < Z.of_nat (List.length S) ->
  (construct (impl k) this;; push_all (impl k) this S) w = Undefined.
Proof.
  intros Hval Hlen. destruct k.
  - eapply eq_trans; [eapply bind_Ok; reflexivity|]. cbv beta.
    apply (vec_push_all_overflow w this S (Z.to_nat (2 ^ 30))).
    + apply Z2Nat.id. apply Z.pow_nonneg. lia.
    + change (max_size (impl DynamicArray)) with (2 ^ 30) in Hlen.
      assert (0 <= 2 ^ 30) by (apply Z.pow_nonneg; lia). lia.
  - eapply eq_trans; [eapply bind_Ok; reflexivity|]. cbv beta.
    apply (sl_push_all_overflow w this S (Z.to_nat INT_MAX)).
    + apply Z2Nat.id. unfold INT_MAX. lia.
    + change (max_size (impl SinglyChain)) with INT_MAX in Hlen.
      unfold INT_MAX in *. lia.
  - eapply eq_trans; [eapply bind_Ok; destruct w; reflexivity|]. cbv beta.
    apply (dl_push_all_overflow w this S (Z.to_nat INT_MAX) Hval).
    + apply Z2Nat.id. unfold INT_MAX. lia.
    + change (max_size (impl DoublyChain)) with INT_MAX in Hlen.
      unfold INT_MAX in *. lia.
Qed.

Lemma law_move_ctor k (w : world (impl k)) a b xs :
  valid (impl k) w -> a <> b -> stores (impl k) w a xs ->
  exists w',
    move_ctor (impl k) b a w = Ok tt w' /\ valid (impl k) w' /\
    stores (impl k) w' b xs /\ stores (impl k) w' a [] /\ moved_from_state k w' a.
Proof.
  destruct k; [apply vec_w_move_ctor|apply sl_w_move_ctor|apply dl_w_move_ctor].
Qed.

Lemma law_move_assign k (w : world (impl k)) a b xs ys :
  valid (impl k) w -> a <> b -> stores (impl k) w a xs -> stores (impl k) w b ys ->
  exists w',
    move_assign (impl k) b a w = Ok tt w' /\ valid (impl k) w' /\
    stores (impl k) w' b xs /\ stores (impl k) w' a [] /\ moved_from_state k w' a.
Proof.
  destruct k; [apply vec_w_move_assign|apply sl_w_move_assign|apply dl_w_move_assign].
Qed.

Lemma law_copy_assign k (w : world (impl k)) a b xs ys :
  valid (impl k) w -> a <> b -> stores (impl k) w a xs -> stores (impl k) w b ys ->
  exists w',
    copy_assign (impl k) b a w = Ok tt w' /\ valid (impl k) w' /\
    stores (impl k) w' b xs /\ stores (impl k) w' a xs /\ own_storage k w' a b.
Proof.
  destruct k; [apply vec_w_copy_assign| |apply dl_w_copy_assign].
  intros Hval Hne Ha Hb.
  destruct (sl_w_copy_assign w a b xs ys Hval Hne Ha Hb) as (w' & ? & ? & ? & ?).
  exists w'. simpl. auto.
Qed.

Lemma law_in_place k (w : world (impl k)) this xs i :
  valid (impl k) w -> stores (impl k) w this xs -> (i < List.length xs)%nat ->
  (exists w', erase (impl k) this (Z.of_nat i) w = Ok tt w') /\
  (forall x, exists w', subscript_assign (impl k) this (Z.of_nat i) x w = Ok tt w').
Proof.
  destruct k; [apply vec_w_in_place|apply sl_w_in_place|apply dl_w_in_place].
Qed.

Lemma law_self_assign k (w : world (impl k)) a :
  copy_assign (impl k) a a w = Ok tt w /\ move_assign (impl k) a a w = Ok tt w.
Proof.
  destruct k; [apply vec_w_self_assign|apply sl_w_self_assign|apply dl_w_self_assign].
Qed.
End laws.

(** ** Iterators at the end of a chain *)

Section iterators.
Context {T : Type}.
Import DListFacts.

Lemma sl_incr_end n : Nat.iter n SList.incr (SList.It (T := T) None) = SList.It None.
Proof. induction n as [|n IH]; [reflexivity|]. simpl. rewrite IH. reflexivity. Qed.

Lemma sl_incr_chain (xs : list T) n :
  Nat.iter (List.length xs + n) SList.incr (SList.It (SList.chain_of xs)) = SList.It None.
Proof.
  induction xs as [|x xs IH]; [apply sl_incr_end|].
  cbn [List.length Nat.add]. rewrite Nat.iter_succ_r. exact IH.
Qed.

Lemma dl_advance_end n (s : DList.heap T * DList.dlist) :
  DList.advance n (DList.It None) s = Ok (DList.It None) s.
Proof. induction n as [|n IH]; [reflexivity|]. simpl. exact IH. Qed.

Lemma dl_advance_seg (hp : DList.heap T) d (lxs : list (nat * T)) n :
  forall pv p,
    DList.seg (DList.nodes hp) pv p lxs None ->
    DList.advance (List.length lxs + n) (DList.It p) (hp, d) = Ok (DList.It None) (hp, d).
Proof.
  induction lxs as [|[l x] lxs IH]; intros pv p Hseg.
  - simpl in Hseg. subst p. apply dl_advance_end.
  - destruct Hseg as (-> & nx & Hl & Hrest). simpl in Hl, Hrest.
    cbn [List.length Nat.add DList.advance].
    mstep (unfold DList.incr; cbn [DList.ptr fst];
           mstep (apply dl_node_ok; exact Hl); reflexivity).
    cbn [DList.next]. exact (IH _ _ Hrest).
Qed.
End iterators.

(** ** Programs and the worlds they reach *)

Section programs.
Context {T : Type} `{Printable T}.

Lemma exec_from_reachable (c : Container T) w cmds :
  reachable c w -> reachable c (exec_from c w cmds).
Proof.
  revert w. induction cmds as [|cmd cmds IH]; intros w Hw; [exact Hw|].
  cbn [exec_from]. destruct (run c cmd w) as [[] w'|w'| |] eqn:Hrun; try exact Hw.
  - apply IH. apply (reachable_step c w cmd w' Hw). left. exact Hrun.
  - apply IH. apply (reachable_step c w cmd w' Hw). right. exact Hrun.
Qed.

Lemma exec_reachable (c : Container T) cmds : reachable c (exec c cmds).
Proof. apply exec_from_reachable, reachable_start. Qed.
End programs.

Lemma main_world_reachable k : reachable (impl k) (main_world k).
Proof. apply exec_reachable. Qed.

(** What [main] leaves: [v2] and [v4] hold the ten numbers that [main]
    prints last, [v1] and [v3] were moved from; the same for the chains. *)
(** The nodes of the list [d4] at the end of [main]. *)
Lemma main_d4_owns :
  DList.owns (main_world DoublyChain).1 (DList.mk (Some 13%nat) 10)
    [(13%nat, 10); (14%nat, 0); (15%nat, 1); (16%nat, 3); (17%nat, 20);
     (18%nat, 5); (19%nat, 7); (20%nat, 8); (21%nat, 9); (22%nat, 30)].
Proof.
  split; [|split; [|split]].
  - repeat (split; [reflexivity|]; eexists; split; [vm_compute; reflexivity|]).
    reflexivity.
  - apply (bool_decide_unpack _). vm_compute. reflexivity.
  - reflexivity.
  - vm_compute. discriminate.
Qed.

Example main_leaves k :
  iterate (impl k) 4%nat (main_world k)
  = Ok [10; 0; 1; 3; 20; 5; 7; 8; 9; 30] (main_world k) /\
  iterate (impl k) 2%nat (main_world k)
  = Ok [10; 0; 1; 3; 20; 5; 7; 8; 9; 30] (main_world k) /\
  iterate (impl k) 1%nat (main_world k) = Ok [] (main_world k) /\
  iterate (impl k) 3%nat (main_world k) = Ok [] (main_world k) /\
  size (impl k) 4%nat (main_world k) = Ok 10 (main_world k).
Proof. destruct k; vm_compute; repeat split. Qed.

(** The ten appends have doubled the capacity of [v1] from 1 to 16; the
    copy [v3], which [v4] took over, got a buffer of that capacity. *)
Example main_capacities :
  Vec.capacity <$> (main_world DynamicArray !! 2%nat) = Some 16 /\
  Vec.capacity <$> (main_world DynamicArray !! 4%nat) = Some 16 /\
  main_world DynamicArray !! 1%nat = Some Vec.moved_from /\
  main_world DynamicArray !! 3%nat = Some Vec.moved_from.
Proof. vm_compute. repeat split. Qed.

(** ** The properties of the containers *)

(** C2. For each of the three kinds: where [size()] is [n], [insert] at a
    position below 0 or above [n], and [erase], [operator[]] and an
    assignment through [operator[]] at a position below 0 or not below [n],
    end in [std::out_of_range] and leave the world, hence the container, its
    size and its elements, as it was; so do [erase(size())], [erase(-1)],
    [at(size())] and [insert(x, size() + 1)]. *)
Theorem out_of_range_changes_nothing {T} `{Printable T} k (w : world (impl k))
    this n x pos :
  size (impl k) this w = Ok n w ->
  (pos < 0 \/ pos > n -> insert (impl k) this x pos w = Throw w) /\
  (pos < 0 \/ pos >= n ->
     erase (impl k) this pos w = Throw w /\
     subscript (impl k) this pos w = Throw w /\
     subscript_assign (impl k) this pos x w = Throw w) /\
  erase (impl k) this n w = Throw w /\
  erase (impl k) this (-1) w = Throw w /\
  subscript (impl k) this n w = Throw w /\
  insert (impl k) this x (n + 1) w = Throw w.
Proof.
  intros Hsize.
  split; [|split; [|split; [|split; [|split]]]].
  - apply (law_throws k w this n x pos Hsize).
  - apply (law_throws k w this n x pos Hsize).
  - apply (law_throws k w this n x n Hsize). lia.
  - apply (law_throws k w this n x (-1) Hsize). lia.
  - apply (law_throws k w this n x n Hsize). lia.
  - apply (law_throws k w this n x (n + 1) Hsize). lia.
Qed.

Lemma out_of_range_changes_nothing_witness :
  insert (impl SinglyChain) 2%nat 7 11 (main_world SinglyChain)
  = Throw (main_world SinglyChain).
Proof.
  refine (proj1 (out_of_range_changes_nothing SinglyChain (main_world SinglyChain)
                   2%nat 10 7 11 _) _).
  - vm_compute. reflexivity.
  - right. lia.
Defined.

(** C3. A vector that was moved from has [capacity] 0 and [length] 0, so
    [push_back] and [insert] take it for full and call [resize]. [resize]
    doubles 0 to 0, where the capacity should become 1: the new array has
    no cell, and the store of the value at index 0 is outside of it. *)
Theorem growth_from_capacity_0 {T} `{Printable T} (x : T) :
  exec (impl DynamicArray) [Construct 1%nat; MoveCtor 2%nat 1%nat] !! 1%nat
  = Some Vec.moved_from /\
  Vec.capacity (Vec.moved_from (T := T)) = 0 /\
  Vec.length (Vec.moved_from (T := T)) = 0 /\
  Vec.resize (Vec.moved_from (T := T)) = Ok tt (Vec.mk (Some []) 0 0) /\
  Vec.push_back (Vec.Outside x) Vec.moved_from = Undefined /\
  Vec.insert (Vec.Outside x) 0 Vec.moved_from = Undefined.
Proof.
  split; [vm_compute; reflexivity|].
  split; [reflexivity|]. split; [reflexivity|]. split; [reflexivity|].
  split.
  - rewrite <- (VecFacts.vec_insert_at_size Vec.moved_from x); [|simpl; lia].
    apply VecFacts.vec_insert_capacity_0; reflexivity.
  - apply VecFacts.vec_insert_capacity_0; reflexivity.
Qed.

(** C5. For each of the three kinds, in a world a program reaches, with [a]
    an object that stores [xs] and [b] another object: the copy assignment
    [b = a] ends normally; then [b] and [a] both store [xs]; the storage of
    [b] is its own (for the array a buffer of the capacity of [a]); a
    change of [b] that ends normally leaves [a] with [xs] and [b] with the
    changed sequence, and the same with [a] and [b] exchanged; a change that
    ends in an exception changes nothing; and the erasures and assignments
    at a position in range do end normally. *)
Theorem copy_assignment_is_deep {T} `{Printable T} k (w : world (impl k)) a b xs ys :
  reachable (impl k) w -> a <> b ->
  iterate (impl k) a w = Ok xs w -> iterate (impl k) b w = Ok ys w ->
  exists w',
    copy_assign (impl k) b a w = Ok tt w' /\
    iterate (impl k) b w' = Ok xs w' /\ iterate (impl k) a w' = Ok xs w' /\
    own_storage k w' a b /\
    (forall m w'', apply (impl k) m b w' = Ok tt w'' ->
       iterate (impl k) a w'' = Ok xs w'' /\
       iterate (impl k) b w'' = Ok (mutate m xs) w'') /\
    (forall m w'', apply (impl k) m a w' = Ok tt w'' ->
       iterate (impl k) b w'' = Ok xs w'' /\
       iterate (impl k) a w'' = Ok (mutate m xs) w'') /\
    (forall m w'',
       apply (impl k) m b w' = Throw w'' \/ apply (impl k) m a w' = Throw w'' ->
       w'' = w') /\
    (forall i x, (i < List.length xs)%nat ->
       (exists w'', apply (impl k) (Erase (Z.of_nat i)) b w' = Ok tt w'') /\
       (exists w'', apply (impl k) (Assign (Z.of_nat i) x) b w' = Ok tt w'') /\
       (exists w'', apply (impl k) (Erase (Z.of_nat i)) a w' = Ok tt w'') /\
       (exists w'', apply (impl k) (Assign (Z.of_nat i) x) a w' = Ok tt w'')).
Proof.
  intros Hreach Hne Ha Hb. pose proof (reachable_valid k w Hreach) as Hval.
  pose proof (law_iterate_inv k w w a xs Hval Ha) as Hsa.
  pose proof (law_iterate_inv k w w b ys Hval Hb) as Hsb.
  destruct (law_copy_assign k w a b xs ys Hval Hne Hsa Hsb)
    as (w' & Hrun & Hval' & Hb' & Ha' & Hown).
  exists w'. split; [exact Hrun|].
  split; [apply (law_observe k w' b xs Hb')|].
  split; [apply (law_observe k w' a xs Ha')|].
  split; [exact Hown|].
  split; [|split; [|split]].
  - intros m w'' Hm.
    destruct (law_apply k w' w'' b m xs Hval' Hb' Hm) as (_ & Hb'' & Hframe).
    split.
    + apply (law_observe k w'' a xs). apply Hframe; [exact Hne|exact Ha'].
    + apply (law_observe k w'' b _ Hb'').
  - intros m w'' Hm.
    destruct (law_apply k w' w'' a m xs Hval' Ha' Hm) as (_ & Ha'' & Hframe).
    split.
    + apply (law_observe k w'' b xs). apply Hframe; [congruence|exact Hb'].
    + apply (law_observe k w'' a _ Ha'').
  - intros m w'' [Hm|Hm]; exact (law_apply_Throw k w' w'' _ m Hval' Hm).
  - intros i x Hi.
    destruct (law_in_place k w' b xs i Hval' Hb' Hi) as (Heb & Hab).
    destruct (law_in_place k w' a xs i Hval' Ha' Hi) as (Hea & Haa).
    split; [exact Heb|]. split; [exact (Hab x)|]. split; [exact Hea|exact (Haa x)].
Qed.

Lemma copy_assignment_is_deep_witness :
  exists w',
    copy_assign (impl DoublyChain) 3%nat 2%nat (main_world DoublyChain) = Ok tt w' /\
    iterate (impl DoublyChain) 3%nat w' = Ok [10; 0; 1; 3; 20; 5; 7; 8; 9; 30] w' /\
    iterate (impl DoublyChain) 2%nat w' = Ok [10; 0; 1; 3; 20; 5; 7; 8; 9; 30] w'.
Proof.
  destruct (copy_assignment_is_deep DoublyChain (main_world DoublyChain) 2%nat 3%nat
              [10; 0; 1; 3; 20; 5; 7; 8; 9; 30] [])
    as (w' & Hrun & Hb & Ha & _).
  - apply main_world_reachable.
  - lia.
  - vm_compute. reflexivity.
  - vm_compute. reflexivity.
  - exists w'. auto.
Defined.

(** For each of the three kinds, in a world a program reaches:
    [insert(x, size())] has the outcome of [push_back(x)], whatever it is;
    and [insert(x, 0)] on a container just declared leaves a container of
    one element, which [operator[]] gives at index 0. *)
Lemma insert_at_the_ends {T} `{Printable T} k (w : world (impl k)) this x :
  reachable (impl k) w ->
  (forall n, size (impl k) this w = Ok n w ->
     insert (impl k) this x n w = push_back (impl k) this x w) /\
  (exists w1 w2,
     construct (impl k) this w = Ok tt w1 /\
     insert (impl k) this x 0 w1 = Ok tt w2 /\
     size (impl k) this w2 = Ok 1 w2 /\
     subscript (impl k) this 0 w2 = Ok x w2 /\
     iterate (impl k) this w2 = Ok [x] w2).
Proof.
  intros Hreach. pose proof (reachable_valid k w Hreach) as Hval. split.
  - intros n. apply law_insert_at_size. exact Hval.
  - destruct (law_fresh_insert k w this x Hval) as (w1 & w2 & Hc & Hi & Hval2 & Hst).
    exists w1, w2. split; [exact Hc|]. split; [exact Hi|].
    destruct (law_observe k w2 this [x] Hst) as (Hit & Hsize & _ & Hsub).
    split; [exact Hsize|]. split; [exact (Hsub 0%nat x eq_refl)|exact Hit].
Qed.

(** C6. At the end of [main] the vector [v1] has been moved from: its
    [size()] is 0 and it has no element, it is an empty container. The
    behaviour of [v1.insert(x, 0)] is undefined there: [resize] leaves the
    capacity 0 and the value is stored outside of the array. The two
    chains, which [main] has moved from in the same way, take the same
    call: [s1] and [d1] have the one element [x] after it. *)
Theorem insert_into_moved_from_array (x : Z) :
  size (impl DynamicArray) 1%nat (main_world DynamicArray)
  = Ok 0 (main_world DynamicArray) /\
  iterate (impl DynamicArray) 1%nat (main_world DynamicArray)
  = Ok [] (main_world DynamicArray) /\
  insert (impl DynamicArray) 1%nat x 0 (main_world DynamicArray) = Undefined /\
  (exists w',
     insert (impl SinglyChain) 1%nat x 0 (main_world SinglyChain) = Ok tt w' /\
     size (impl SinglyChain) 1%nat w' = Ok 1 w' /\
     subscript (impl SinglyChain) 1%nat 0 w' = Ok x w') /\
  (exists w',
     insert (impl DoublyChain) 1%nat x 0 (main_world DoublyChain) = Ok tt w' /\
     size (impl DoublyChain) 1%nat w' = Ok 1 w' /\
     subscript (impl DoublyChain) 1%nat 0 w' = Ok x w').
Proof.
  assert (Hv1 : main_world DynamicArray !! 1%nat = Some Vec.moved_from)
    by (vm_compute; reflexivity).
  split; [vm_compute; reflexivity|]. split; [vm_compute; reflexivity|].
  split; [|split].
  - apply (on_Undefined 1%nat (Vec.insert (Vec.Outside x) 0) (main_world DynamicArray)
             Vec.moved_from Hv1).
    apply VecFacts.vec_insert_capacity_0; reflexivity.
  - eexists. split; [vm_compute; reflexivity|]. split; vm_compute; reflexivity.
  - eexists. split; [vm_compute; reflexivity|]. split; vm_compute; reflexivity.
Qed.

(** C8. For each of the three kinds, in a world a program reaches, with
    [this] an object that stores [xs]: [print()] ends normally, the text it
    writes is [line xs], that is every element in order, each followed by
    one space, and then a newline, and the world after it is the world
    before, so that nothing of the container has changed. *)
Theorem display_writes_the_line {T} `{Printable T} k (w : world (impl k)) this xs :
  reachable (impl k) w -> iterate (impl k) this w = Ok xs w ->
  print (impl k) this w = Ok (line xs) w /\
  line xs = (String.concat "" (map (fun x => show x ++ " ") xs) ++ newline)%string.
Proof.
  intros Hreach Hit. pose proof (reachable_valid k w Hreach) as Hval.
  split.
  - apply law_observe. exact (law_iterate_inv k w w this xs Hval Hit).
  - clear. induction xs as [|x xs IH]; [reflexivity|].
    cbn [line map]. rewrite IH. destruct xs as [|y xs].
    + cbn [map String.concat]. rewrite !append_assoc. reflexivity.
    + cbn [map String.concat]. change (String.append "" ?s) with s.
      rewrite !append_assoc. reflexivity.
Qed.

Lemma display_writes_the_line_witness :
  print (impl DynamicArray) 4%nat (main_world DynamicArray)
  = Ok ("10 0 1 3 20 5 7 8 9 30 " ++ newline)%string (main_world DynamicArray).
Proof.
  refine (proj1 (display_writes_the_line DynamicArray (main_world DynamicArray) 4%nat
                   [10; 0; 1; 3; 20; 5; 7; 8; 9; 30] _ _)).
  - apply main_world_reachable.
  - vm_compute. reflexivity.
Defined.

(** C9. For each of the three kinds and in every world: the copy assignment
    and the move assignment of an object to itself end normally and leave
    the world as it was, and with it the elements, the length and the
    capacity of the object. *)
Theorem self_assignment_changes_nothing {T} `{Printable T} k (w : world (impl k)) a :
  copy_assign (impl k) a a w = Ok tt w /\ move_assign (impl k) a a w = Ok tt w.
Proof. apply law_self_assign. Qed.

(** C10. For the two chains: [operator++] on an iterator that is at
    [end()], whose pointer is null, gives that iterator again, however often
    it is done, and reads no node; and from [begin()] of a chain of
    [n] nodes, [n] or more increments end at [end()], none of them
    undefined. *)
Theorem increment_at_end_stays_at_end {T} (hp : DList.heap T) d lxs (xs : list T)
    (l : SList.slist T) n :
  DList.owns hp d lxs ->
  SList.end_ l = Ok (SList.It None) l /\
  Nat.iter n SList.incr (SList.It (T := T) None) = SList.It None /\
  SList.neq (Nat.iter n SList.incr (SList.It (T := T) None)) (SList.It None) = false /\
  Nat.iter (List.length xs + n) SList.incr (SList.It (SList.chain_of xs)) = SList.It None /\
  DList.end_ (hp, d) = Ok (DList.It None) (hp, d) /\
  DList.advance n (DList.It None) (hp, d) = Ok (DList.It None) (hp, d) /\
  DList.advance (List.length lxs + n) (DList.It (DList.head d)) (hp, d)
  = Ok (DList.It None) (hp, d).
Proof.
  intros (Hseg & _).
  split; [reflexivity|]. split; [apply sl_incr_end|].
  split; [rewrite sl_incr_end; reflexivity|]. split; [apply sl_incr_chain|].
  split; [reflexivity|]. split; [apply dl_advance_end|].
  exact (dl_advance_seg hp d lxs n None (DList.head d) Hseg).
Qed.

Lemma increment_at_end_stays_at_end_witness :
  DList.advance 3 (DList.It (Some 0%nat))
    (DList.mkHeap {[ 0%nat := DList.mkNode 5 None None ]} 1, DList.mk (Some 0%nat) 1)
  = Ok (DList.It None)
      (DList.mkHeap {[ 0%nat := DList.mkNode 5 None None ]} 1, DList.mk (Some 0%nat) 1).
Proof.
  refine (proj2 (proj2 (proj2 (proj2 (proj2 (proj2
    (increment_at_end_stays_at_end
       (DList.mkHeap {[ 0%nat := DList.mkNode 5 None None ]} 1) (DList.mk (Some 0%nat) 1)
       [(0%nat, 5)] [] (SList.mk None 0) 2 _))))))).
  split; [|split; [|split]].
  - split; [reflexivity|]. exists None. split; [reflexivity|reflexivity].
  - apply NoDup_singleton.
  - reflexivity.
  - vm_compute. discriminate.
Defined.

(** ** More on the array: what a step does to the store and to the capacity *)

Module VecMore.
Import VecFacts VecLaws.
Section more.
Context {T : Type} `{Printable T}.
Local Abbreviation c := (DynamicArray_impl (T:=T)).
Implicit Types (w : gmap nat (Vec.myvector T)) (xs ys : list T).
Implicit Types (v src : Vec.myvector T).

Lemma vec_move_ctor_inv w this other w' :
  valid c w ->
  move_ctor c this other w = Ok tt w' \/ move_ctor c this other w = Throw w' ->
  (this = other /\ w' = <[other := Vec.moved_from]> w) \/
  (this <> other /\ exists src,
     w !! other = Some src /\ w' = <[other := Vec.moved_from]> (<[this := src]> w)).
Proof.
  intros Hval Hrun. simpl in Hrun. destruct (decide (this = other)) as [->|Hne].
  - left. split; [reflexivity|].
    assert (Hr : Vec.move_ctor other other w = Ok tt (<[other := Vec.moved_from]> w)).
    { unfold Vec.move_ctor. mstep reflexivity.
      erewrite vec_take_over_self by apply lookup_insert_eq.
      rewrite insert_insert_eq. reflexivity. }
    rewrite Hr in Hrun. destruct Hrun as [Hrun|Hrun]; [|discriminate].
    injection Hrun as <-. reflexivity.
  - right. split; [exact Hne|]. destruct (w !! other) as [src|] eqn:Ha.
    + exists src. split; [reflexivity|].
      rewrite (vec_move_ctor_spec this other w src Hne Ha) in Hrun.
      destruct Hrun as [Hrun|Hrun]; [|discriminate]. injection Hrun as <-. reflexivity.
    + assert (Hu : Vec.move_ctor this other w = Undefined).
      { unfold Vec.move_ctor, Vec.take_over. mstep reflexivity.
        apply bind_Undefined, on_missing.
        rewrite lookup_insert_ne by congruence. exact Ha. }
      rewrite Hu in Hrun. destruct Hrun; discriminate.
Qed.

Lemma vec_move_assign_inv w this other w' :
  valid c w ->
  move_assign c this other w = Ok tt w' \/ move_assign c this other w = Throw w' ->
  (this = other /\ w' = w) \/
  (this <> other /\ exists o src,
     w !! this = Some o /\ w !! other = Some src /\
     w' = <[other := Vec.moved_from]> (<[this := src]> w)).
Proof.
  intros Hval Hrun. simpl in Hrun. destruct (decide (this = other)) as [->|Hne].
  - left. split; [reflexivity|].
    unfold Vec.move_assign in Hrun. destruct (decide (other = other)); [|congruence].
    destruct Hrun as [Hrun|Hrun]; [|discriminate]. injection Hrun as <-. reflexivity.
  - right. split; [exact Hne|].
    destruct (w !! other) as [src|] eqn:Ha; [destruct (w !! this) as [o|] eqn:Ht|].
    + exists o, src. split; [reflexivity|]. split; [reflexivity|].
      rewrite (vec_move_assign_spec this other w o src Hne Ht Ha) in Hrun.
      destruct Hrun as [Hrun|Hrun]; [|discriminate]. injection Hrun as <-. reflexivity.
    + assert (Hu : Vec.move_assign this other w = Undefined).
      { unfold Vec.move_assign, Vec.take_over.
        destruct (decide (this = other)); [congruence|].
        mstep (eapply on_gets; exact Ha).
        mstep (eapply on_modify; exact Ha).
        apply bind_Undefined, on_missing.
        rewrite lookup_insert_ne by congruence. exact Ht. }
      rewrite Hu in Hrun. destruct Hrun; discriminate.
    + assert (Hu : Vec.move_assign this other w = Undefined).
      { unfold Vec.move_assign, Vec.take_over.
        destruct (decide (this = other)); [congruence|].
        apply bind_Undefined, on_missing. exact Ha. }
      rewrite Hu in Hrun. destruct Hrun; discriminate.
Qed.

Lemma vec_copy_assign_inv w this other w' :
  valid c w ->
  copy_assign c this other w = Ok tt w' \/ copy_assign c this other w = Throw w' ->
  (this = other /\ w' = w) \/
  (this <> other /\ exists o src xs,
     w !! this = Some o /\ w !! other = Some src /\ Vec.holds src xs /\
     w' = <[this := Vec.mk
               (Some ((Some <$> xs)
                        ++ replicate (Z.to_nat (Vec.capacity src) - List.length xs) None))
               (Vec.capacity src) (Vec.length src)]> w).
Proof.
  intros Hval Hrun. simpl in Hrun. destruct (decide (this = other)) as [->|Hne].
  - left. split; [reflexivity|].
    unfold Vec.copy_assign in Hrun. destruct (decide (other = other)); [|congruence].
    destruct Hrun as [Hrun|Hrun]; [|discriminate]. injection Hrun as <-. reflexivity.
  - right. split; [exact Hne|].
    destruct (w !! other) as [src|] eqn:Ha; [destruct (w !! this) as [o|] eqn:Ht|].
    + destruct (Hval other src Ha) as [xs Hxs].
      exists o, src, xs. split; [reflexivity|]. split; [reflexivity|].
      split; [exact Hxs|].
      rewrite (vec_copy_assign_spec this other w o src xs Hne Ht Ha Hxs) in Hrun.
      destruct Hrun as [Hrun|Hrun]; [|discriminate]. injection Hrun as <-. reflexivity.
    + destruct (Hval other src Ha) as [xs Hxs].
      rewrite (vec_copy_assign_missing w this other src xs Hne Ht Ha Hxs) in Hrun.
      destruct Hrun; discriminate.
    + assert (Hu : Vec.copy_assign this other w = Undefined).
      { unfold Vec.copy_assign.
        destruct (decide (this = other)); [congruence|].
        apply bind_Undefined, on_missing. exact Ha. }
      rewrite Hu in Hrun. destruct Hrun; discriminate.
Qed.

(** What a change of the vector [this] does to its capacity and to its
    length. *)
Lemma vec_apply_inv w this m w' :
  valid c w -> apply c m this w = Ok tt w' ->
  exists v v' xs,
    w !! this = Some v /\ w' = <[this := v']> w /\
    Vec.holds v xs /\ Vec.holds v' (mutate m xs) /\
    match m with
    | PushBack _ | Insert _ _ =>
        Vec.can_grow v /\ Vec.capacity v' = Vec.grown v /\
        Vec.length v' = Vec.length v + 1
    | Erase _ => Vec.capacity v' = Vec.capacity v /\ Vec.length v' = Vec.length v - 1
    | Assign _ _ => Vec.capacity v' = Vec.capacity v /\ Vec.length v' = Vec.length v
    end.
Proof.
  intros Hval Hrun.
  assert (Hlen : forall v xs, Vec.holds v xs -> Vec.length v = Z.of_nat (List.length xs)).
  { intros v xs (rest & _ & Hn & _). exact Hn. }
  destruct m as [x|x pos|pos|index x]; simpl in Hrun;
    apply on_inv in Hrun as (v & v' & Hv & Hrun & ->);
    destruct (Hval this v Hv) as [xs Hxs]; exists v, v', xs;
    (split; [exact Hv|]); (split; [reflexivity|]); (split; [exact Hxs|]).
  - destruct (vec_push_back_inv _ _ _ _ Hxs Hrun) as (Hv' & Hg & Hc).
    split; [exact Hv'|]. split; [exact Hg|]. split; [exact Hc|].
    rewrite (Hlen _ _ Hv'), (Hlen _ _ Hxs), length_app. simpl. lia.
  - destruct (vec_insert_inv _ _ _ _ _ Hxs Hrun) as (p & -> & Hp & Hv' & Hg & Hc).
    simpl. rewrite Nat2Z.id. split; [exact Hv'|]. split; [exact Hg|]. split; [exact Hc|].
    rewrite (Hlen _ _ Hv'), (Hlen _ _ Hxs), length_app. cbn [List.length].
    rewrite length_take, length_drop. lia.
  - destruct (vec_erase_inv _ _ _ _ Hxs Hrun) as (p & -> & Hp & Hv' & Hc).
    simpl. rewrite Nat2Z.id. split; [exact Hv'|]. split; [exact Hc|].
    rewrite (Hlen _ _ Hv'), (Hlen _ _ Hxs), length_app, length_take, length_drop. lia.
  - destruct (vec_subscript_assign_inv _ _ _ _ _ Hxs Hrun) as (p & -> & Hp & Hv' & Hc).
    simpl. rewrite Nat2Z.id. split; [exact Hv'|]. split; [exact Hc|].
    rewrite (Hlen _ _ Hv'), (Hlen _ _ Hxs), length_insert. reflexivity.
Qed.

Lemma vec_doubled_grown v xs :
  Vec.holds v xs -> doubled_capacity v -> Vec.can_grow v ->
  doubled_capacity (Vec.mk (Vec.data v) (Vec.grown v) (Vec.length v)).
Proof.
  intros (rest & _ & Hn & Hcap & _) Hd Hg. unfold doubled_capacity, Vec.grown in *.
  cbn [Vec.capacity Vec.length].
  destruct (Z.eqb_spec (Vec.length v) (Vec.capacity v)) as [Heq|Hne]; [|exact Hd].
  destruct Hg as [Hg|(Hpos & Hmax)]; [lia|].
  destruct Hd as [Hd|(j & Hj & Hd)]; [lia|]. right. exists (j + 1).
  assert (Hd2 : 2 ^ (j + 1) = 2 * 2 ^ j) by (rewrite Z.pow_add_r by lia; lia).
  split; [|lia].
  destruct (Z_lt_le_dec j 30) as [|Hge]; [lia|].
  assert (2 ^ 30 <= 2 ^ j) by (apply Z.pow_le_mono_r; lia).
  unfold INT_MAX in Hmax. lia.
Qed.

Lemma vec_doubled_eq v v' :
  Vec.capacity v' = Vec.capacity v -> doubled_capacity v -> doubled_capacity v'.
Proof. unfold doubled_capacity. intros ->. auto. Qed.

Lemma vec_doubled_insert w this v :
  (forall u vu, w !! u = Some vu -> doubled_capacity vu) -> doubled_capacity v ->
  forall u vu, <[this := v]> w !! u = Some vu -> doubled_capacity vu.
Proof.
  intros Hall Hv u vu Hu. destruct (decide (u = this)) as [->|Hne].
  - rewrite lookup_insert_eq in Hu. injection Hu as <-. exact Hv.
  - rewrite lookup_insert_ne in Hu by congruence. exact (Hall u vu Hu).
Qed.

Lemma vec_doubled_moved_from : doubled_capacity (Vec.moved_from (T := T)).
Proof. left. reflexivity. Qed.

Lemma vec_reachable_doubled w :
  reachable c w -> forall u vu, w !! u = Some vu -> doubled_capacity vu.
Proof.
  induction 1 as [|w cmd w' Hreach IH Hrun].
  - intros u vu Hu. simpl in Hu. rewrite lookup_empty in Hu. discriminate.
  - pose proof (vec_reachable_valid w Hreach) as Hval.
    destruct cmd as [this|this m|this other|this other|this other]; simpl in Hrun.
    + destruct Hrun as [Hrun|Hrun]; [|discriminate]. injection Hrun as <-.
      apply vec_doubled_insert; [exact IH|]. right. exists 0. split; [lia|reflexivity].
    + destruct Hrun as [Hrun|Hrun].
      * destruct (vec_apply_inv w this m w' Hval Hrun)
          as (v & v' & xs & Hv & -> & Hxs & Hxs' & Hcap).
        apply vec_doubled_insert; [exact IH|].
        destruct m as [x|x pos|pos|index x].
        -- destruct Hcap as (Hg & Hc & _).
           eapply vec_doubled_eq; [|exact (vec_doubled_grown v xs Hxs (IH _ _ Hv) Hg)].
           exact Hc.
        -- destruct Hcap as (Hg & Hc & _).
           eapply vec_doubled_eq; [|exact (vec_doubled_grown v xs Hxs (IH _ _ Hv) Hg)].
           exact Hc.
        -- exact (vec_doubled_eq v v' (proj1 Hcap) (IH _ _ Hv)).
        -- exact (vec_doubled_eq v v' (proj1 Hcap) (IH _ _ Hv)).
      * rewrite (vec_w_apply_Throw w this m w' Hval Hrun). exact IH.
    + destruct (vec_move_ctor_inv w this other w' Hval Hrun)
        as [(-> & ->)|(Hne & src & Hsrc & ->)].
      * apply vec_doubled_insert; [exact IH|apply vec_doubled_moved_from].
      * apply vec_doubled_insert; [|apply vec_doubled_moved_from].
        apply vec_doubled_insert; [exact IH|exact (IH _ _ Hsrc)].
    + destruct (vec_move_assign_inv w this other w' Hval Hrun)
        as [(-> & ->)|(Hne & o & src & Ho & Hsrc & ->)]; [exact IH|].
      apply vec_doubled_insert; [|apply vec_doubled_moved_from].
      apply vec_doubled_insert; [exact IH|exact (IH _ _ Hsrc)].
    + destruct (vec_copy_assign_inv w this other w' Hval Hrun)
        as [(-> & ->)|(Hne & o & src & xs & Ho & Hsrc & Hxs & ->)]; [exact IH|].
      apply vec_doubled_insert; [exact IH|].
      exact (vec_doubled_eq src _ eq_refl (IH _ _ Hsrc)).
Qed.

(** A command changes the objects it names, and no other. *)
Lemma vec_run_frame w cmd w' u :
  valid c w -> run c cmd w = Ok tt w' \/ run c cmd w = Throw w' ->
  u ∉ names cmd -> w' !! u = w !! u.
Proof.
  intros Hval Hrun Hu.
  destruct cmd as [this|this m|this other|this other|this other];
    simpl in Hrun, Hu.
  - destruct Hrun as [Hrun|Hrun]; [|discriminate]. injection Hrun as <-.
    apply lookup_insert_ne. set_solver.
  - destruct Hrun as [Hrun|Hrun].
    + destruct (vec_apply_inv w this m w' Hval Hrun) as (v & v' & xs & _ & -> & _).
      apply lookup_insert_ne. set_solver.
    + rewrite (vec_w_apply_Throw w this m w' Hval Hrun). reflexivity.
  - destruct (vec_move_ctor_inv w this other w' Hval Hrun)
      as [(-> & ->)|(Hne & src & Hsrc & ->)].
    + apply lookup_insert_ne. set_solver.
    + rewrite !lookup_insert_ne by set_solver. reflexivity.
  - destruct (vec_move_assign_inv w this other w' Hval Hrun)
      as [(-> & ->)|(Hne & o & src & Ho & Hsrc & ->)]; [reflexivity|].
    rewrite !lookup_insert_ne by set_solver. reflexivity.
  - destruct (vec_copy_assign_inv w this other w' Hval Hrun)
      as [(-> & ->)|(Hne & o & src & xs & Ho & Hsrc & Hxs & ->)]; [reflexivity|].
    apply lookup_insert_ne. set_solver.
Qed.

(** With room, the growth step of [push_back] and [insert] succeeds. *)
Lemma vec_room_can_grow w this v xs :
  reachable c w -> w !! this = Some v -> Vec.holds v xs ->
  Vec.capacity v <> 0 -> Vec.length v < 2 ^ 30 -> Vec.can_grow v.
Proof.
  intros Hreach Hv (rest & _ & Hn & Hcap & _) Hnz Hlt.
  destruct (vec_reachable_doubled w Hreach this v Hv) as [Hz|(j & Hj & Hd)]; [lia|].
  unfold Vec.can_grow.
  destruct (Z.eq_dec (Vec.length v) (Vec.capacity v)) as [Heq|Hne]; [|left; lia].
  right. assert (0 < 2 ^ j) by (apply Z.pow_pos_nonneg; lia). split; [lia|].
  assert (j < 30).
  { destruct (Z_lt_le_dec j 30) as [|Hge]; [assumption|].
    assert (2 ^ 30 <= 2 ^ j) by (apply Z.pow_le_mono_r; lia). lia. }
  assert (2 ^ (j + 1) <= 2 ^ 30) by (apply Z.pow_le_mono_r; lia).
  assert (Hd2 : 2 ^ (j + 1) = 2 * 2 ^ j) by (rewrite Z.pow_add_r by lia; lia).
  unfold INT_MAX. lia.
Qed.
End more.
End VecMore.

(** ** More on the singly linked list: what a step does to the store *)

Module SListMore.
Import SListFacts SListLaws.
Section more.
Context {T : Type} `{Printable T}.
Local Abbreviation c := (SinglyChain_impl (T:=T)).
Implicit Types (w : gmap nat (SList.slist T)) (xs ys : list T).

Lemma sl_move_ctor_inv w this other w' :
  valid c w ->
  move_ctor c this other w = Ok tt w' \/ move_ctor c this other w = Throw w' ->
  (this = other /\ w' = <[other := SList.ctor]> w) \/
  (this <> other /\ exists src,
     w !! other = Some src /\ w' = <[other := SList.ctor]> (<[this := src]> w)).
Proof.
  intros Hval Hrun. simpl in Hrun. destruct (decide (this = other)) as [->|Hne].
  - left. split; [reflexivity|].
    assert (Hr : SList.move_ctor other other w = Ok tt (<[other := SList.ctor]> w)).
    { unfold SList.move_ctor. mstep reflexivity.
      erewrite sl_take_over_self by apply lookup_insert_eq.
      rewrite insert_insert_eq. reflexivity. }
    rewrite Hr in Hrun. destruct Hrun as [Hrun|Hrun]; [|discriminate].
    injection Hrun as <-. reflexivity.
  - right. split; [exact Hne|]. destruct (w !! other) as [src|] eqn:Ha.
    + exists src. split; [reflexivity|].
      rewrite (sl_move_ctor_spec this other w src Hne Ha) in Hrun.
      destruct Hrun as [Hrun|Hrun]; [|discriminate]. injection Hrun as <-. reflexivity.
    + assert (Hu : SList.move_ctor this other w = Undefined).
      { unfold SList.move_ctor, SList.take_over. mstep reflexivity.
        apply bind_Undefined, on_missing.
        rewrite lookup_insert_ne by congruence. exact Ha. }
      rewrite Hu in Hrun. destruct Hrun; discriminate.
Qed.

Lemma sl_move_assign_inv w this other w' :
  valid c w ->
  move_assign c this other w = Ok tt w' \/ move_assign c this other w = Throw w' ->
  (this = other /\ w' = w) \/
  (this <> other /\ exists o src,
     w !! this = Some o /\ w !! other = Some src /\
     w' = <[other := SList.ctor]> (<[this := src]> w)).
Proof.
  intros Hval Hrun. simpl in Hrun. destruct (decide (this = other)) as [->|Hne].
  - left. split; [reflexivity|].
    unfold SList.move_assign in Hrun. destruct (decide (other = other)); [|congruence].
    destruct Hrun as [Hrun|Hrun]; [|discriminate]. injection Hrun as <-. reflexivity.
  - right. split; [exact Hne|].
    destruct (w !! other) as [src|] eqn:Ha; [destruct (w !! this) as [o|] eqn:Ht|].
    + exists o, src. split; [reflexivity|]. split; [reflexivity|].
      rewrite (sl_move_assign_spec this other w o src Hne Ht Ha) in Hrun.
      destruct Hrun as [Hrun|Hrun]; [|discriminate]. injection Hrun as <-. reflexivity.
    + assert (Hu : SList.move_assign this other w = Undefined).
      { unfold SList.move_assign, SList.take_over.
        destruct (decide (this = other)); [congruence|].
        mstep (eapply on_gets; exact Ha).
        mstep (eapply on_modify; exact Ha).
        apply bind_Undefined, on_missing.
        rewrite lookup_insert_ne by congruence. exact Ht. }
      rewrite Hu in Hrun. destruct Hrun; discriminate.
    + assert (Hu : SList.move_assign this other w = Undefined).
      { unfold SList.move_assign, SList.take_over.
        destruct (decide (this = other)); [congruence|].
        apply bind_Undefined, on_missing. exact Ha. }
      rewrite Hu in Hrun. destruct Hrun; discriminate.
Qed.

Lemma sl_copy_assign_inv w this other w' :
  valid c w ->
  copy_assign c this other w = Ok tt w' \/ copy_assign c this other w = Throw w' ->
  (this = other /\ w' = w) \/
  (this <> other /\ exists o src xs,
     w !! this = Some o /\ w !! other = Some src /\ SList.holds src xs /\
     w' = <[this := SList.mk (SList.chain_of xs) (Z.of_nat (List.length xs))]> w).
Proof.
  intros Hval Hrun. simpl in Hrun. destruct (decide (this = other)) as [->|Hne].
  - left. split; [reflexivity|].
    unfold SList.copy_assign in Hrun. destruct (decide (other = other)); [|congruence].
    destruct Hrun as [Hrun|Hrun]; [|discriminate]. injection Hrun as <-. reflexivity.
  - right. split; [exact Hne|].
    destruct (w !! this) as [o|] eqn:Ht; [destruct (w !! other) as [src|] eqn:Ha|].
    + destruct (Hval other src Ha) as [xs Hxs].
      exists o, src, xs. split; [reflexivity|]. split; [reflexivity|].
      split; [exact Hxs|].
      rewrite (sl_copy_assign_spec this other w o src xs Hne Ht Ha Hxs) in Hrun.
      destruct Hrun as [Hrun|Hrun]; [|discriminate]. injection Hrun as <-. reflexivity.
    + assert (Hu : SList.copy_assign this other w = Undefined).
      { unfold SList.copy_assign.
        destruct (decide (this = other)); [congruence|].
        mstep (eapply on_modify; exact Ht).
        mstep (eapply on_modify; apply lookup_insert_eq).
        apply bind_Undefined, on_missing.
        rewrite !lookup_insert_ne by congruence. exact Ha. }
      rewrite Hu in Hrun. destruct Hrun; discriminate.
    + assert (Hu : SList.copy_assign this other w = Undefined).
      { unfold SList.copy_assign.
        destruct (decide (this = other)); [congruence|].
        apply bind_Undefined, on_missing. exact Ht. }
      rewrite Hu in Hrun. destruct Hrun; discriminate.
Qed.

Lemma sl_run_frame w cmd w' u :
  valid c w -> run c cmd w = Ok tt w' \/ run c cmd w = Throw w' ->
  u ∉ names cmd -> w' !! u = w !! u.
Proof.
  intros Hval Hrun Hu.
  destruct cmd as [this|this m|this other|this other|this other];
    simpl in Hrun, Hu.
  - destruct Hrun as [Hrun|Hrun]; [|discriminate]. injection Hrun as <-.
    apply lookup_insert_ne. set_solver.
  - destruct Hrun as [Hrun|Hrun].
    + assert (Hex : exists v', w' = <[this := v']> w).
      { destruct m; simpl in Hrun; apply on_inv in Hrun as (v & v' & _ & _ & ->); eauto. }
      destruct Hex as [v' ->]. apply lookup_insert_ne. set_solver.
    + rewrite (sl_w_apply_Throw w this m w' Hval Hrun). reflexivity.
  - destruct (sl_move_ctor_inv w this other w' Hval Hrun)
      as [(-> & ->)|(Hne & src & Hsrc & ->)].
    + apply lookup_insert_ne. set_solver.
    + rewrite !lookup_insert_ne by set_solver. reflexivity.
  - destruct (sl_move_assign_inv w this other w' Hval Hrun)
      as [(-> & ->)|(Hne & o & src & Ho & Hsrc & ->)]; [reflexivity|].
    rewrite !lookup_insert_ne by set_solver. reflexivity.
  - destruct (sl_copy_assign_inv w this other w' Hval Hrun)
      as [(-> & ->)|(Hne & o & src & xs & Ho & Hsrc & Hxs & ->)]; [reflexivity|].
    apply lookup_insert_ne. set_solver.
Qed.
End more.
End SListMore.

(** ** More on the doubly linked list: the nodes of a chain, one by one *)

Module DListMore.
Import DListFacts DListLaws.
Section more.
Context {T : Type} `{Printable T}.
Local Abbreviation c := (DoublyChain_impl (T:=T)).
Implicit Types (w : DList.heap T * gmap nat DList.dlist) (xs ys : list T).
Implicit Types (hp : DList.heap T) (lxs : list (nat * T)) (d : DList.dlist).

Lemma dl_dead_at_next_id hp : DList.heap_ok hp -> DList.nodes hp !! DList.next_id hp = None.
Proof.
  intros Hok. destruct (DList.nodes hp !! DList.next_id hp) eqn:E; [|reflexivity].
  assert (DList.next_id hp < DList.next_id hp)%nat by (apply Hok; eauto). lia.
Qed.

(** [erase]: the node at the position is destroyed, the chain keeps the
    other nodes. *)
Lemma dl_erase_exact hp d lxs pos l x :
  DList.heap_ok hp -> DList.owns hp d lxs -> lxs !! pos = Some (l, x) ->
  exists hp' d',
    DList.erase (Z.of_nat pos) (hp, d) = Ok tt (hp', d') /\
    DList.owns hp' d' (take pos lxs ++ drop (S pos) lxs) /\
    DList.next_id hp' = DList.next_id hp /\
    DList.heap_ok hp' /\
    (forall l', l' ∉ lxs.*1 -> DList.nodes hp' !! l' = DList.nodes hp !! l') /\
    DList.nodes hp' !! l = None.
Proof.
  intros Hok Hown Hpos. destruct pos as [|k].
  - destruct lxs as [|[l0 x0] lxs]; [discriminate|]. simpl in Hpos.
    injection Hpos as -> ->.
    destruct (dl_erase_front hp d l x lxs Hok Hown)
      as (hp' & d' & Hrun & Hown' & Hnext & Hok' & Hframe & Hdead).
    exists hp', d'. rewrite take_0. simpl. rewrite drop_0. auto 10.
  - assert (Hlen : (S k < List.length lxs)%nat) by (eapply lookup_lt_Some; eassumption).
    destruct (lookup_lt_is_Some_2 lxs k ltac:(lia)) as [[lc xc] Hk].
    pose proof (take_drop_middle lxs k _ Hk) as Hsplit.
    assert (Hd : drop (S k) lxs = (l, x) :: drop (S (S k)) lxs).
    { apply drop_S in Hpos. exact Hpos. }
    rewrite Hd in Hsplit. rewrite <- Hsplit in Hown.
    destruct (dl_erase_after hp d _ _ _ _ _ _ Hok Hown)
      as (hp' & d' & Hrun & Hown' & Hnext & Hok' & Hframe & Hdead).
    rewrite length_take, Nat.min_l in Hrun by lia.
    rewrite Hsplit in Hframe.
    exists hp', d'. rewrite (take_S_r lxs k _ Hk), <- app_assoc. auto 10.
Qed.

Lemma dl_in_take_drop_S (A : Type) (ls : list A) k a e :
  ls !! k = Some e -> a ∈ ls -> a ∉ take k ls ++ drop (S k) ls -> a = e.
Proof.
  intros Hk Ha Hna. rewrite <- (take_drop_middle ls k e Hk) in Ha.
  rewrite elem_of_app, elem_of_cons in Ha. rewrite elem_of_app in Hna.
  destruct Ha as [Ha|[->|Ha]]; [tauto|reflexivity|tauto].
Qed.

(** A change of the list [this], node by node. *)
Lemma dl_apply_exact w this m w' :
  valid c w -> apply c m this w = Ok tt w' ->
  exists d lxs d' lxs',
    w.2 !! this = Some d /\ DList.owns w.1 d lxs /\
    w'.2 = <[this := d']> w.2 /\ DList.owns w'.1 d' lxs' /\
    DList.updated w.1 lxs w'.1 lxs' /\
    (forall l, l ∈ lxs.*1 \/ l = DList.next_id w.1 -> l ∉ lxs'.*1 ->
               DList.nodes w'.1 !! l = None) /\
    match m with
    | PushBack x => lxs' = lxs ++ [(DList.next_id w.1, x)]
    | Insert x pos =>
        lxs' = take (Z.to_nat pos) lxs
               ++ (DList.next_id w.1, x) :: drop (Z.to_nat pos) lxs /\
        0 <= pos <= Z.of_nat (List.length lxs)
    | Erase pos =>
        lxs' = take (Z.to_nat pos) lxs ++ drop (S (Z.to_nat pos)) lxs /\
        0 <= pos < Z.of_nat (List.length lxs)
    | Assign index x =>
        lxs'.*1 = lxs.*1 /\ lxs'.*2 = <[Z.to_nat index := x]> lxs.*2 /\
        0 <= index < Z.of_nat (List.length lxs)
    end.
Proof.
  intros Hval Hrun. destruct w as [hp objs].
  assert (Hok : DList.heap_ok hp) by apply Hval.
  assert (Hins : forall d lxs x pos hp' d',
            DList.owns hp d lxs ->
            DList.insert x pos (hp, d) = Ok tt (hp', d') ->
            0 <= pos <= Z.of_nat (List.length lxs) /\
            let lxs' := take (Z.to_nat pos) lxs
                        ++ (DList.next_id hp, x) :: drop (Z.to_nat pos) lxs in
            DList.owns hp' d' lxs' /\ DList.updated hp lxs hp' lxs' /\
            (forall l, l ∈ lxs.*1 \/ l = DList.next_id hp -> l ∉ lxs'.*1 ->
                       DList.nodes hp' !! l = None)).
  { intros d lxs x pos hp' d' Hown Hr. pose proof Hown as (_ & _ & Hn & Hmax).
    destruct (Z_lt_dec pos 0) as [Hneg|Hnn].
    { rewrite dl_insert_throw in Hr by lia. discriminate. }
    destruct (Z_gt_dec pos (DList.length d)) as [Hbig|Hle].
    { rewrite dl_insert_throw in Hr by lia. discriminate. }
    split; [lia|]. rewrite <- (Z2Nat.id pos) in Hr by lia.
    destruct (Z_lt_dec (DList.length d) INT_MAX) as [Hroom|Hfull].
    - destruct (dl_insert_spec hp d lxs x (Z.to_nat pos) Hok Hown ltac:(lia) Hroom)
        as (hp'' & d'' & Hrun' & Hown' & Hnext & Hok' & Hframe).
      rewrite Hrun' in Hr. injection Hr as <- <-.
      split; [exact Hown'|]. split.
      + split; [exact Hok'|]. split; [lia|]. split; [|exact Hframe].
        intros l Hl. rewrite fmap_app, fmap_cons, fmap_take, fmap_drop in Hl.
        apply dl_elem_take_drop in Hl. exact Hl.
      + intros l Hl Hnl. exfalso. apply Hnl.
        rewrite fmap_app, fmap_cons, fmap_take, fmap_drop.
        rewrite elem_of_app, elem_of_cons. destruct Hl as [Hl | ->]; [|auto].
        rewrite <- (take_drop (Z.to_nat pos) lxs.*1), elem_of_app in Hl. tauto.
    - rewrite (dl_insert_overflow hp d lxs) in Hr by (assumption || lia). discriminate. }
  destruct m as [x|x pos|pos|index x]; simpl in Hrun;
    apply dl_on_inv in Hrun as (d & [hp' d'] & Hd & Hrun & ->);
    simpl in Hd, Hrun;
    destruct (proj1 (proj2 Hval) this d Hd) as [lxs Hown]; simpl in Hown.
  - rewrite <- (dl_insert_at_size hp d lxs x Hok Hown) in Hrun.
    destruct (Hins d lxs x _ hp' d' Hown Hrun) as (_ & Hown' & Hupd & Hclosed).
    assert (Hn : Z.to_nat (DList.length d) = List.length lxs)
      by (destruct Hown as (_ & _ & Hn & _); lia).
    rewrite Hn, firstn_all, drop_all in Hown', Hupd, Hclosed.
    exists d, lxs, d', (lxs ++ [(DList.next_id hp, x)]). simpl. auto 10.
  - destruct (Hins d lxs x pos hp' d' Hown Hrun) as (Hpos & Hown' & Hupd & Hclosed).
    exists d, lxs, d', (take (Z.to_nat pos) lxs
                        ++ (DList.next_id hp, x) :: drop (Z.to_nat pos) lxs).
    simpl. auto 10.
  - pose proof Hown as (_ & _ & Hn & Hmax).
    destruct (Z_lt_dec pos 0) as [Hneg|Hnn].
    { rewrite dl_erase_throw in Hrun by lia. discriminate. }
    destruct (Z_ge_dec pos (DList.length d)) as [Hbig|Hle].
    { rewrite dl_erase_throw in Hrun by lia. discriminate. }
    rewrite <- (Z2Nat.id pos) in Hrun by lia.
    destruct (lookup_lt_is_Some_2 lxs (Z.to_nat pos) ltac:(lia)) as [[l x] Hl].
    destruct (dl_erase_exact hp d lxs (Z.to_nat pos) l x Hok Hown Hl)
      as (hp'' & d'' & Hrun' & Hown' & Hnext & Hok' & Hframe & Hdead).
    rewrite Hrun' in Hrun. injection Hrun as <- <-.
    exists d, lxs, d'', (take (Z.to_nat pos) lxs ++ drop (S (Z.to_nat pos)) lxs).
    simpl. split; [exact Hd|]. split; [exact Hown|]. split; [reflexivity|].
    split; [exact Hown'|]. split; [|split; [|split; [reflexivity|lia]]].
    + split; [exact Hok'|]. split; [lia|].
      split; [|intros l0 Hl0 _; exact (Hframe l0 Hl0)].
      intros l0 Hl0. left. rewrite fmap_app, fmap_take, fmap_drop in Hl0.
      apply elem_of_app in Hl0 as [Hl0|Hl0].
      * eapply subseteq_take; eassumption.
      * eapply subseteq_drop; eassumption.
    + intros l0 [Hl0 | ->] Hnl0.
      * rewrite fmap_app, fmap_take, fmap_drop in Hnl0.
        assert (Hl1 : lxs.*1 !! Z.to_nat pos = Some l)
          by (rewrite list_lookup_fmap, Hl; reflexivity).
        rewrite (dl_in_take_drop_S _ _ _ _ _ Hl1 Hl0 Hnl0). exact Hdead.
      * rewrite <- Hnext. apply dl_dead_at_next_id. exact Hok'.
  - pose proof Hown as (_ & _ & Hn & Hmax).
    destruct (Z_lt_dec index 0) as [Hneg|Hnn].
    { rewrite dl_subscript_assign_throw in Hrun by lia. discriminate. }
    destruct (Z_ge_dec index (DList.length d)) as [Hbig|Hle].
    { rewrite dl_subscript_assign_throw in Hrun by lia. discriminate. }
    rewrite <- (Z2Nat.id index) in Hrun by lia.
    destruct (dl_subscript_assign_spec hp d lxs (Z.to_nat index) x Hok Hown ltac:(lia))
      as (hp'' & lxs' & Hrun' & Hown' & Hlocs & Hvals & Hnext & Hok' & Hframe).
    rewrite Hrun' in Hrun. injection Hrun as <- <-.
    exists d, lxs, d, lxs'. simpl.
    split; [exact Hd|]. split; [exact Hown|]. split; [reflexivity|].
    split; [exact Hown'|]. split; [|split; [|split; [exact Hlocs|split; [exact Hvals|lia]]]].
    + split; [exact Hok'|]. split; [lia|].
      split; [|intros l0 Hl0 _; exact (Hframe l0 Hl0)].
      intros l0 Hl0. left. rewrite <- Hlocs. exact Hl0.
    + intros l0 [Hl0 | ->] Hnl0.
      * rewrite Hlocs in Hnl0. contradiction.
      * rewrite <- Hnext. apply dl_dead_at_next_id. exact Hok'.
Qed.

(** *** Moves and copies, node by node *)

Lemma dl_take_over_full this other hp objs dt dl lt ll :
  DList.valid (hp, objs) -> this <> other ->
  objs !! this = Some dt -> objs !! other = Some dl ->
  DList.owns hp dt lt -> DList.owns hp dl ll ->
  exists h',
    DList.take_over this other (hp, objs)
    = Ok tt (DList.mkHeap h' (DList.next_id hp),
             <[other := DList.ctor]> (<[this := dl]> objs)) /\
    DList.valid (DList.mkHeap h' (DList.next_id hp),
                 <[other := DList.ctor]> (<[this := dl]> objs)) /\
    DList.owns (DList.mkHeap h' (DList.next_id hp)) dl ll /\
    (forall l, l ∈ lt.*1 -> h' !! l = None) /\
    (forall l, l ∉ lt.*1 -> h' !! l = DList.nodes hp !! l) /\
    (forall u du lu, u <> this -> objs !! u = Some du -> DList.owns hp du lu ->
                     DList.owns (DList.mkHeap h' (DList.next_id hp)) du lu).
Proof.
  intros Hval Hne Ht Hl Hot Hol.
  destruct (dl_take_over_run this other hp objs dt dl lt (proj1 Hval) Hne Ht Hl Hot)
    as (h' & Hrun & Hok' & Hdead & Hkept).
  destruct (dl_valid_take_over this other hp objs dt dl lt ll h' Hval Hne Ht Hl Hot Hol
              Hok' Hkept) as (Hval' & Hol' & Hframe).
  exists h'. auto 10.
Qed.

Lemma dl_move_assign_inv w this other w' :
  valid c w ->
  move_assign c this other w = Ok tt w' \/ move_assign c this other w = Throw w' ->
  (this = other /\ w' = w) \/
  (this <> other /\ exists dt dl lt ll,
     w.2 !! this = Some dt /\ w.2 !! other = Some dl /\
     DList.owns w.1 dt lt /\ DList.owns w.1 dl ll /\
     w'.2 = <[other := DList.ctor]> (<[this := dl]> w.2) /\
     DList.next_id w'.1 = DList.next_id w.1 /\
     valid c w' /\ DList.owns w'.1 dl ll /\
     (forall l, l ∈ lt.*1 -> DList.nodes w'.1 !! l = None) /\
     (forall l, l ∉ lt.*1 -> DList.nodes w'.1 !! l = DList.nodes w.1 !! l) /\
     (forall u du lu, u <> this -> w.2 !! u = Some du -> DList.owns w.1 du lu ->
                      DList.owns w'.1 du lu)).
Proof.
  intros Hval Hrun. destruct w as [hp objs]. simpl in Hrun.
  destruct (decide (this = other)) as [->|Hne].
  - left. split; [reflexivity|].
    unfold DList.move_assign in Hrun. destruct (decide (other = other)); [|congruence].
    destruct Hrun as [Hrun|Hrun]; [|discriminate]. injection Hrun as <-. reflexivity.
  - right. split; [exact Hne|].
    destruct (objs !! other) as [dl|] eqn:Ha; [destruct (objs !! this) as [dt|] eqn:Ht|].
    + destruct (proj1 (proj2 Hval) this dt Ht) as [lt Hot].
      destruct (proj1 (proj2 Hval) other dl Ha) as [ll Hol]. simpl in Hot, Hol.
      destruct (dl_take_over_full this other hp objs dt dl lt ll Hval Hne Ht Ha Hot Hol)
        as (h' & Hr & Hval' & Hol' & Hdead & Hkept & Hframe).
      unfold DList.move_assign in Hrun. destruct (decide (this = other)); [congruence|].
      rewrite Hr in Hrun. destruct Hrun as [Hrun|Hrun]; [|discriminate].
      injection Hrun as <-. exists dt, dl, lt, ll. simpl. auto 12.
    + assert (Hu : DList.move_assign this other (hp, objs) = Undefined).
      { unfold DList.move_assign, DList.take_over.
        destruct (decide (this = other)); [congruence|].
        mstep (eapply (dl_on_same other _ (hp, objs)); [exact Ha|reflexivity]).
        mstep (exact (dl_on_Ok other _ (hp, objs) dl tt _ Ha eq_refl)).
        apply bind_Undefined, dl_on_missing. simpl.
        rewrite lookup_insert_ne by congruence. exact Ht. }
      rewrite Hu in Hrun. destruct Hrun; discriminate.
    + assert (Hu : DList.move_assign this other (hp, objs) = Undefined).
      { unfold DList.move_assign, DList.take_over.
        destruct (decide (this = other)); [congruence|].
        apply bind_Undefined, dl_on_missing. exact Ha. }
      rewrite Hu in Hrun. destruct Hrun; discriminate.
Qed.

Lemma dl_move_ctor_inv w this other w' :
  valid c w ->
  move_ctor c this other w = Ok tt w' \/ move_ctor c this other w = Throw w' ->
  (this = other /\ w' = (w.1, <[other := DList.ctor]> w.2)) \/
  (this <> other /\ exists dl ll,
     w.2 !! other = Some dl /\ DList.owns w.1 dl ll /\
     w'.2 = <[other := DList.ctor]> (<[this := dl]> w.2) /\
     DList.next_id w'.1 = DList.next_id w.1 /\
     valid c w' /\ DList.owns w'.1 dl ll /\
     (forall l, DList.nodes w'.1 !! l = DList.nodes w.1 !! l) /\
     (forall u du lu, u <> this -> w.2 !! u = Some du -> DList.owns w.1 du lu ->
                      DList.owns w'.1 du lu)).
Proof.
  intros Hval Hrun. destruct w as [hp objs]. simpl in Hrun.
  destruct (decide (this = other)) as [->|Hne].
  - left. split; [reflexivity|]. rewrite dl_move_ctor_self in Hrun.
    destruct Hrun as [Hrun|Hrun]; [|discriminate]. injection Hrun as <-. reflexivity.
  - right. split; [exact Hne|]. destruct (objs !! other) as [dl|] eqn:Ha.
    + destruct (proj1 (proj2 Hval) other dl Ha) as [ll Hol]. simpl in Hol.
      pose proof (dl_valid_construct hp objs this Hval) as Hval1.
      assert (Hol1 : DList.owns hp dl ll) by exact Hol.
      destruct (dl_take_over_full this other hp (<[this := DList.ctor]> objs)
                  DList.ctor dl [] ll Hval1 Hne)
        as (h' & Hr & Hval' & Hol' & Hdead & Hkept & Hframe).
      { apply lookup_insert_eq. }
      { rewrite lookup_insert_ne by congruence. exact Ha. }
      { apply dl_owns_nil. }
      { exact Hol. }
      rewrite insert_insert_eq in Hr, Hval'.
      assert (Hrun' : DList.move_ctor this other (hp, objs)
                      = Ok tt (DList.mkHeap h' (DList.next_id hp),
                               <[other := DList.ctor]> (<[this := dl]> objs))).
      { unfold DList.move_ctor. mstep reflexivity. exact Hr. }
      rewrite Hrun' in Hrun. destruct Hrun as [Hrun|Hrun]; [|discriminate].
      injection Hrun as <-. exists dl, ll. simpl.
      split; [exact Ha|]. split; [exact Hol|]. split; [reflexivity|].
      split; [reflexivity|]. split; [exact Hval'|]. split; [exact Hol'|]. split.
      * intros l. apply Hkept. set_solver.
      * intros u du lu Hu Hdu Hlu. apply (Hframe u du lu Hu); [|exact Hlu].
        rewrite lookup_insert_ne by congruence. exact Hdu.
    + assert (Hu : DList.move_ctor this other (hp, objs) = Undefined).
      { unfold DList.move_ctor, DList.take_over. mstep reflexivity.
        apply bind_Undefined, dl_on_missing. simpl.
        rewrite lookup_insert_ne by congruence. exact Ha. }
      rewrite Hu in Hrun. destruct Hrun; discriminate.
Qed.

Lemma dl_copy_assign_inv w this other w' :
  valid c w ->
  copy_assign c this other w = Ok tt w' \/ copy_assign c this other w = Throw w' ->
  (this = other /\ w' = w) \/
  (this <> other /\ exists dt dl ll dt' lt',
     w.2 !! this = Some dt /\ w.2 !! other = Some dl /\ DList.owns w.1 dl ll /\
     w'.2 = <[this := dt']> w.2 /\
     valid c w' /\ DList.owns w'.1 dt' lt' /\ lt'.*2 = ll.*2 /\
     (forall u du lu, u <> this -> w.2 !! u = Some du -> DList.owns w.1 du lu ->
                      DList.owns w'.1 du lu)).
Proof.
  intros Hval Hrun. destruct w as [hp objs]. simpl in Hrun.
  destruct (decide (this = other)) as [->|Hne].
  - left. split; [reflexivity|].
    unfold DList.copy_assign in Hrun. destruct (decide (other = other)); [|congruence].
    destruct Hrun as [Hrun|Hrun]; [|discriminate]. injection Hrun as <-. reflexivity.
  - right. split; [exact Hne|].
    destruct (objs !! this) as [dt|] eqn:Ht; [destruct (objs !! other) as [dl|] eqn:Ha|].
    + destruct (proj1 (proj2 Hval) other dl Ha) as [ll Hol]. simpl in Hol.
      destruct (dl_copy_assign_spec this other hp objs dt dl ll Hval Hne Ht Ha Hol)
        as (hp' & dt' & lt' & Hr & Hval' & Hot' & Hvals & Hframe).
      rewrite Hr in Hrun. destruct Hrun as [Hrun|Hrun]; [|discriminate].
      injection Hrun as <-. exists dt, dl, ll, dt', lt'. simpl. auto 10.
    + assert (Hu : DList.copy_assign this other (hp, objs) = Undefined).
      { pose proof Hval as (Hok & Hall & _). simpl in Hok, Hall.
        destruct (Hall this dt Ht) as [lt Hot].
        destruct (dl_release (<[this := DList.mk None (DList.length dt)]> objs)
                    hp dt lt Hok Hot) as (h1 & Hrel & _).
        unfold DList.copy_assign.
        destruct (decide (this = other)); [congruence|].
        mstep (eapply (dl_on_same this _ (hp, objs)); [exact Ht|reflexivity]).
        mstep (exact (dl_on_Ok this _ (hp, objs) dt tt _ Ht eq_refl)). cbn [fst snd].
        mstep (exact Hrel).
        mstep (eapply dl_on_Ok; [simpl; apply lookup_insert_eq|reflexivity]).
        apply bind_Undefined, dl_on_missing. simpl.
        rewrite !lookup_insert_ne by congruence. exact Ha. }
      rewrite Hu in Hrun. destruct Hrun; discriminate.
    + assert (Hu : DList.copy_assign this other (hp, objs) = Undefined).
      { unfold DList.copy_assign.
        destruct (decide (this = other)); [congruence|].
        apply bind_Undefined, dl_on_missing. exact Ht. }
      rewrite Hu in Hrun. destruct Hrun; discriminate.
Qed.

(** A command leaves the lists it does not name as they are: the same
    members, the same nodes. *)
Lemma dl_run_frame w cmd w' u du lu :
  valid c w -> run c cmd w = Ok tt w' \/ run c cmd w = Throw w' ->
  u ∉ names cmd -> w.2 !! u = Some du -> DList.owns w.1 du lu ->
  w'.2 !! u = Some du /\ DList.owns w'.1 du lu.
Proof.
  intros Hval Hrun Hu Hdu Hlu.
  destruct cmd as [this|this m|this other|this other|this other];
    simpl in Hrun, Hu.
  - destruct Hrun as [Hrun|Hrun]; [|discriminate]. destruct w as [hp objs].
    injection Hrun as <-. simpl in *.
    rewrite lookup_insert_ne by set_solver. auto.
  - destruct Hrun as [Hrun|Hrun].
    + destruct (dl_apply_exact w this m w' Hval Hrun)
        as (d & lxs & d' & lxs' & Hd & Hown & Hw' & Hown' & Hupd & _).
      destruct w as [hp objs], w' as [hp' objs']. simpl in *. subst objs'.
      destruct (dl_valid_update hp objs this d lxs hp' d' lxs' Hval Hd Hown Hown' Hupd)
        as (_ & Hframe).
      rewrite lookup_insert_ne by set_solver. split; [exact Hdu|].
      apply (Hframe u du lu); [set_solver|exact Hdu|exact Hlu].
    + rewrite (dl_w_apply_Throw w this m w' Hval Hrun). auto.
  - destruct (dl_move_ctor_inv w this other w' Hval Hrun)
      as [(-> & ->)|(Hne & dl & ll & Hl & Hol & Hw' & _ & _ & _ & _ & Hframe)].
    + simpl. rewrite lookup_insert_ne by set_solver. auto.
    + rewrite Hw', !lookup_insert_ne by set_solver. split; [exact Hdu|].
      apply (Hframe u du lu); [set_solver|exact Hdu|exact Hlu].
  - destruct (dl_move_assign_inv w this other w' Hval Hrun)
      as [(-> & ->)|(Hne & dt & dl & lt & ll & _ & _ & _ & _ & Hw' & _ & _ & _ & _ & _ & Hframe)];
      [auto|].
    rewrite Hw', !lookup_insert_ne by set_solver. split; [exact Hdu|].
    apply (Hframe u du lu); [set_solver|exact Hdu|exact Hlu].
  - destruct (dl_copy_assign_inv w this other w' Hval Hrun)
      as [(-> & ->)|(Hne & dt & dl & ll & dt' & lt' & _ & _ & _ & Hw' & _ & _ & _ & Hframe)];
      [auto|].
    rewrite Hw', !lookup_insert_ne by set_solver. split; [exact Hdu|].
    apply (Hframe u du lu); [set_solver|exact Hdu|exact Hlu].
Qed.

(** *** No node is lost *)

Lemma dl_bind_inv {St A B} (m : M St A) (k : A -> M St B) s b s' :
  bind m k s = Ok b s' -> exists a s1, m s = Ok a s1 /\ k a s1 = Ok b s'.
Proof. unfold bind. destruct (m s) as [a s1| | |]; try discriminate. eauto. Qed.

Lemma dl_node_inv {X} p (s s' : DList.heap T * X) nd :
  DList.node p s = Ok nd s' -> s' = s.
Proof.
  unfold DList.node. destruct p as [l|]; [|discriminate].
  destruct (DList.nodes s.1 !! l); [|discriminate]. intros [= _ <-]. reflexivity.
Qed.

Lemma dl_garbage_construct w this :
  no_garbage w -> w.2 !! this = None -> no_garbage (w.1, <[this := DList.ctor]> w.2).
Proof.
  intros Htight Hfresh l Hl. destruct (Htight l Hl) as (u & du & lu & Hu & Hou & Hin).
  exists u, du, lu. simpl. rewrite lookup_insert_ne by congruence. auto.
Qed.

Lemma dl_garbage_apply w this m w' :
  valid c w -> no_garbage w -> apply c m this w = Ok tt w' -> no_garbage w'.
Proof.
  intros Hval Htight Hrun.
  destruct (dl_apply_exact w this m w' Hval Hrun)
    as (d & lxs & d' & lxs' & Hd & Hown & Hw' & Hown' & Hupd & Hclosed & _).
  destruct w as [hp objs], w' as [hp' objs']. simpl in *. subst objs'.
  destruct (dl_valid_update hp objs this d lxs hp' d' lxs' Hval Hd Hown Hown' Hupd)
    as (_ & Hframe).
  intros l Hl. simpl in *.
  destruct (decide (l ∈ lxs'.*1)) as [Hin|Hnin].
  { exists this, d', lxs'. rewrite lookup_insert_eq. auto. }
  destruct (decide (l ∈ lxs.*1 \/ l = DList.next_id hp)) as [Hold|Hnew].
  { rewrite (Hclosed l Hold Hnin) in Hl. destruct Hl; discriminate. }
  destruct Hupd as (_ & _ & _ & Hsame).
  rewrite Hsame in Hl by tauto.
  destruct (Htight l Hl) as (u & du & lu & Hu & Hou & Hin). simpl in *.
  assert (u <> this).
  { intros ->. rewrite Hd in Hu. injection Hu as <-.
    rewrite (dl_owns_det _ _ _ _ Hown Hou) in Hnew. tauto. }
  exists u, du, lu. rewrite lookup_insert_ne by congruence.
  split; [exact Hu|]. split; [|exact Hin]. eapply Hframe; eassumption.
Qed.

Lemma dl_garbage_move_ctor w this other w' :
  valid c w -> no_garbage w -> w.2 !! this = None ->
  move_ctor c this other w = Ok tt w' \/ move_ctor c this other w = Throw w' ->
  no_garbage w'.
Proof.
  intros Hval Htight Hfresh Hrun.
  destruct (dl_move_ctor_inv w this other w' Hval Hrun)
    as [(-> & ->)|(Hne & dl & ll & Hl & Hol & Hw' & _ & _ & Hol' & Hsame & Hframe)].
  - apply dl_garbage_construct; assumption.
  - intros l Hal. rewrite Hsame in Hal.
    destruct (Htight l Hal) as (u & du & lu & Hu & Hou & Hin).
    assert (u <> this) by (intros ->; rewrite Hfresh in Hu; discriminate).
    destruct (decide (u = other)) as [->|Huo].
    + rewrite Hl in Hu. injection Hu as <-.
      rewrite (dl_owns_det _ _ _ _ Hou Hol) in Hin.
      exists this, dl, ll. rewrite Hw', lookup_insert_ne, lookup_insert_eq by congruence.
      auto.
    + exists u, du, lu. rewrite Hw', !lookup_insert_ne by congruence.
      split; [exact Hu|]. split; [|exact Hin]. eapply Hframe; eassumption.
Qed.

Lemma dl_garbage_move_assign w this other w' :
  valid c w -> no_garbage w ->
  move_assign c this other w = Ok tt w' \/ move_assign c this other w = Throw w' ->
  no_garbage w'.
Proof.
  intros Hval Htight Hrun.
  destruct (dl_move_assign_inv w this other w' Hval Hrun)
    as [(-> & ->)|(Hne & dt & dl & lt & ll & Ht & Hl & Hot & Hol & Hw' & _ & _ & Hol'
                   & Hdead & Hsame & Hframe)]; [exact Htight|].
  intros l Hal.
  destruct (decide (l ∈ lt.*1)) as [Hin|Hnin].
  { rewrite (Hdead l Hin) in Hal. destruct Hal; discriminate. }
  rewrite (Hsame l Hnin) in Hal.
  destruct (Htight l Hal) as (u & du & lu & Hu & Hou & Hin).
  assert (u <> this).
  { intros ->. rewrite Ht in Hu. injection Hu as <-.
    rewrite (dl_owns_det _ _ _ _ Hot Hou) in Hnin. contradiction. }
  destruct (decide (u = other)) as [->|Huo].
  - rewrite Hl in Hu. injection Hu as <-.
    rewrite (dl_owns_det _ _ _ _ Hou Hol) in Hin.
    exists this, dl, ll. rewrite Hw', lookup_insert_ne, lookup_insert_eq by congruence.
    auto.
  - exists u, du, lu. rewrite Hw', !lookup_insert_ne by congruence.
    split; [exact Hu|]. split; [|exact Hin]. eapply Hframe; eassumption.
Qed.

(** The loop of the copy assignment is a row of calls of [push_back]. *)
Lemma dl_garbage_copy_from this fuel : forall cur w w',
  valid c w -> no_garbage w ->
  DList.copy_from fuel this cur w = Ok tt w' ->
  valid c w' /\ no_garbage w'.
Proof.
  induction fuel as [|fuel IH]; intros cur w w' Hval Htight Hrun.
  - destruct cur; simpl in Hrun; [discriminate|]. injection Hrun as <-. auto.
  - destruct cur as [l|]; simpl in Hrun; [|injection Hrun as <-; auto].
    apply dl_bind_inv in Hrun as (nd & w0 & Hnode & Hrun).
    apply dl_node_inv in Hnode as ->.
    apply dl_bind_inv in Hrun as ([] & w1 & Hpush & Hrun).
    apply dl_bind_inv in Hrun as (nd' & w2 & Hnode' & Hrun).
    apply dl_node_inv in Hnode' as ->.
    assert (Hpush' : apply c (PushBack (DList.value nd)) this w = Ok tt w1) by exact Hpush.
    apply (IH (DList.next nd') w1 w').
    + exact (dl_w_apply_valid w this _ w1 Hval (or_introl Hpush')).
    + exact (dl_garbage_apply w this _ w1 Hval Htight Hpush').
    + exact Hrun.
Qed.

Lemma dl_copy_assign_prelude this other hp objs dt dl lt :
  DList.valid (hp, objs) -> this <> other ->
  objs !! this = Some dt -> objs !! other = Some dl -> DList.owns hp dt lt ->
  exists h1,
    DList.copy_assign this other (hp, objs)
    = DList.copy_from (base.size h1) this (DList.head dl)
        (DList.mkHeap h1 (DList.next_id hp), <[this := DList.mk None 0]> objs) /\
    DList.valid (DList.mkHeap h1 (DList.next_id hp), <[this := DList.mk None 0]> objs) /\
    (forall l, l ∈ lt.*1 -> h1 !! l = None) /\
    (forall l, l ∉ lt.*1 -> h1 !! l = DList.nodes hp !! l) /\
    (forall u du lu, u <> this -> objs !! u = Some du -> DList.owns hp du lu ->
                     DList.owns (DList.mkHeap h1 (DList.next_id hp)) du lu).
Proof.
  intros Hval Hne Ht Hl Hot. pose proof Hval as (Hok & Hall & Hdisj). simpl in *.
  destruct (dl_release (<[this := DList.mk None (DList.length dt)]> objs) hp dt lt Hok Hot)
    as (h1 & Hrel & Hok1 & Hgone & Hkept).
  destruct (dl_valid_replace hp objs this dt lt (DList.mkHeap h1 (DList.next_id hp))
              (DList.mk None 0) [])
    as (Hval1 & Hkeep1); try assumption.
  { apply dl_owns_nil. }
  { intros l Hl' _. apply Hkept. exact Hl'. }
  { intros. set_solver. }
  exists h1. split; [|auto].
  unfold DList.copy_assign. destruct (decide (this = other)); [contradiction|].
  mstep (eapply dl_on_same; [exact Ht|reflexivity]).
  mstep (eapply dl_on_Ok; [exact Ht|reflexivity]). cbn [fst snd].
  mstep (exact Hrel).
  mstep (eapply dl_on_Ok; [simpl; simplify_map_eq; reflexivity|reflexivity]).
  cbn [fst snd DList.head]. rewrite insert_insert_eq.
  mstep (eapply dl_on_same; [simpl; simplify_map_eq; reflexivity|reflexivity]).
  mstep reflexivity. reflexivity.
Qed.

Lemma dl_garbage_copy_assign w this other w' :
  valid c w -> no_garbage w ->
  copy_assign c this other w = Ok tt w' \/ copy_assign c this other w = Throw w' ->
  no_garbage w'.
Proof.
  intros Hval Htight Hrun.
  destruct (dl_copy_assign_inv w this other w' Hval Hrun)
    as [(-> & ->)|(Hne & dt & dl & ll & dt' & lt' & Ht & Hl & Hol & _)]; [exact Htight|].
  destruct w as [hp objs]. simpl in *.
  destruct (proj1 (proj2 Hval) this dt Ht) as [lt Hot]. simpl in Hot.
  destruct (dl_copy_assign_prelude this other hp objs dt dl lt Hval Hne Ht Hl Hot)
    as (h1 & Heq & Hval1 & Hdead & Hsame & Hframe).
  rewrite Heq in Hrun. destruct Hrun as [Hrun|Hrun].
  - refine (proj2 (dl_garbage_copy_from this _ _ _ w' Hval1 _ Hrun)).
    intros l Hal. simpl in Hal.
    destruct (decide (l ∈ lt.*1)) as [Hin|Hnin].
    { rewrite (Hdead l Hin) in Hal. destruct Hal; discriminate. }
    rewrite (Hsame l Hnin) in Hal.
    destruct (Htight l Hal) as (u & du & lu & Hu & Hou & Hin). simpl in *.
    assert (u <> this).
    { intros ->. rewrite Ht in Hu. injection Hu as <-.
      rewrite (dl_owns_det _ _ _ _ Hot Hou) in Hnin. contradiction. }
    exists u, du, lu. simpl. rewrite lookup_insert_ne by congruence.
    split; [exact Hu|]. split; [|exact Hin]. eapply Hframe; eassumption.
  - exfalso.
    destruct (dl_copy_assign_spec this other hp objs dt dl ll Hval Hne Ht Hl Hol)
      as (hp' & dt'' & lt'' & Hr & _).
    rewrite Heq in Hr. rewrite Hr in Hrun. discriminate.
Qed.

(** In a well-formed world without garbage no link dangles. *)
Lemma dl_garbage_dangling w : valid c w -> no_garbage w -> no_dangling w.1.
Proof.
  intros Hval Htight l nd Hl.
  destruct (Htight l ltac:(eauto)) as (u & du & lu & Hu & Hou & Hin).
  apply list_elem_of_fmap in Hin as ([l0 x] & -> & Hin).
  apply list_elem_of_lookup in Hin as [k Hk].
  pose proof (dl_seg_lookup _ _ _ _ _ _ _ _ (proj1 Hou) Hk) as Hnode.
  simpl in Hl. rewrite Hl in Hnode. injection Hnode as ->. simpl. split.
  - intros m Hm. unfold DList.ptr_at in Hm.
    destruct (lu !! S k) as [[m0 y]|] eqn:Hm0; [|discriminate].
    simpl in Hm. injection Hm as ->.
    apply (dl_owns_alive _ _ _ _ Hou). apply list_elem_of_fmap.
    exists (m, y). split; [reflexivity|]. eapply list_elem_of_lookup_2; eassumption.
  - intros m Hm. unfold DList.last_loc in Hm.
    destruct (last (take k lu)) as [[m0 y]|] eqn:Hm0; [|discriminate].
    simpl in Hm. injection Hm as ->.
    apply (dl_owns_alive _ _ _ _ Hou). apply list_elem_of_fmap.
    exists (m, y). split; [reflexivity|].
    apply last_Some_elem_of in Hm0. eapply subseteq_take; eassumption.
Qed.

(** A program that declares no object twice loses no node. *)
Lemma dl_exec_from_garbage cmds : forall w,
  valid c w -> no_garbage w -> NoDup (flat_map declares cmds) ->
  (forall u, u ∈ flat_map declares cmds -> w.2 !! u = None) ->
  no_garbage (exec_from c w cmds).
Proof.
  induction cmds as [|cmd cmds IH]; intros w Hval Htight Hnd Hfresh; [exact Htight|].
  cbn [flat_map] in Hnd, Hfresh. apply NoDup_app in Hnd as (Hnd1 & Hnd12 & Hnd2).
  cbn [exec_from].
  destruct (run c cmd w) as [[] w'|w'| |] eqn:Hrun; try exact Htight.
  - assert (Hstep : run c cmd w = Ok tt w' \/ run c cmd w = Throw w') by (left; exact Hrun).
    assert (Hval' : valid c w').
    { destruct cmd as [this|this m|this other|this other|this other]; simpl in Hstep.
      - destruct Hstep as [Hs|Hs]; [|discriminate]. destruct w. injection Hs as <-.
        apply dl_valid_construct. exact Hval.
      - exact (dl_w_apply_valid w this m w' Hval Hstep).
      - exact (dl_w_move_ctor_valid w this other w' Hval Hstep).
      - exact (dl_w_move_assign_valid w this other w' Hval Hstep).
      - exact (dl_w_copy_assign_valid w this other w' Hval Hstep). }
    apply IH; [exact Hval'| |exact Hnd2|].
    + destruct cmd as [this|this m|this other|this other|this other]; simpl in Hrun.
      * destruct w as [hp objs]. injection Hrun as <-.
        apply (dl_garbage_construct (hp, objs) this Htight). apply Hfresh. set_solver.
      * exact (dl_garbage_apply w this m w' Hval Htight Hrun).
      * apply (dl_garbage_move_ctor w this other w' Hval Htight); [|auto].
        apply Hfresh. set_solver.
      * apply (dl_garbage_move_assign w this other w' Hval Htight). auto.
      * apply (dl_garbage_copy_assign w this other w' Hval Htight). auto.
    + intros u Hu. assert (Hu0 : w.2 !! u = None) by (apply Hfresh; set_solver).
      assert (Hnu : u ∉ declares cmd) by (intros Hin; exact (Hnd12 u Hin Hu)).
      destruct (w'.2 !! u) as [du|] eqn:Hdu; [|reflexivity]. exfalso.
      destruct cmd as [this|this m|this other|this other|this other];
        simpl in Hrun, Hnu.
      * destruct w as [hp objs]. injection Hrun as <-. simpl in *.
        rewrite lookup_insert_ne in Hdu by set_solver. congruence.
      * destruct (dl_apply_exact w this m w' Hval Hrun)
          as (d & lxs & d' & lxs' & Hd & _ & Hw' & _).
        rewrite Hw' in Hdu. destruct (decide (u = this)) as [->|Hne]; [congruence|].
        rewrite lookup_insert_ne in Hdu by congruence. congruence.
      * destruct (dl_move_ctor_inv w this other w' Hval Hstep)
          as [(-> & ->)|(Hne & dl & ll & Hl & _ & Hw' & _)].
        -- simpl in Hdu. rewrite lookup_insert_ne in Hdu by set_solver. congruence.
        -- rewrite Hw' in Hdu. destruct (decide (u = other)) as [->|Huo]; [congruence|].
           rewrite lookup_insert_ne, lookup_insert_ne in Hdu by set_solver. congruence.
      * destruct (dl_move_assign_inv w this other w' Hval Hstep)
          as [(-> & ->)|(Hne & dt & dl & lt & ll & Ht & Hl & _ & _ & Hw' & _)];
          [congruence|].
        rewrite Hw' in Hdu. destruct (decide (u = other)) as [->|Huo]; [congruence|].
        destruct (decide (u = this)) as [->|Hut]; [congruence|].
        rewrite !lookup_insert_ne in Hdu by congruence. congruence.
      * destruct (dl_copy_assign_inv w this other w' Hval Hstep)
          as [(-> & ->)|(Hne & dt & dl & ll & dt' & lt' & Ht & Hl & _ & Hw' & _)];
          [congruence|].
        rewrite Hw' in Hdu. destruct (decide (u = this)) as [->|Hut]; [congruence|].
        rewrite lookup_insert_ne in Hdu by congruence. congruence.
  - assert (Hstep : run c cmd w = Ok tt w' \/ run c cmd w = Throw w') by (right; exact Hrun).
    assert (Heq : w' = w).
    { destruct cmd as [this|this m|this other|this other|this other]; simpl in Hrun.
      - discriminate.
      - exact (dl_w_apply_Throw w this m w' Hval Hrun).
      - destruct (dl_move_ctor_inv w this other w' Hval Hstep)
          as [(-> & ->)|(Hne & dl & ll & Hl & _)].
        + destruct w as [hp objs]. simpl in Hrun.
          rewrite dl_move_ctor_self in Hrun. discriminate.
        + exfalso. destruct (dl_w_stored w other dl Hval Hl) as [xs Hst].
          destruct (dl_w_move_ctor w other this xs Hval) as (w'' & Hr & _);
            [congruence|exact Hst|].
          simpl in Hr. rewrite Hr in Hrun. discriminate.
      - destruct (dl_move_assign_inv w this other w' Hval Hstep)
          as [(-> & ->)|(Hne & dt & dl & lt & ll & Ht & Hl & _)]; [reflexivity|].
        exfalso. destruct (dl_w_stored w other dl Hval Hl) as [xs Hst].
        destruct (dl_w_stored w this dt Hval Ht) as [ys Hst'].
        destruct (dl_w_move_assign w other this xs ys Hval) as (w'' & Hr & _);
          [congruence|exact Hst|exact Hst'|].
        simpl in Hr. rewrite Hr in Hrun. discriminate.
      - destruct (dl_copy_assign_inv w this other w' Hval Hstep)
          as [(-> & ->)|(Hne & dt & dl & ll & dt' & lt' & Ht & Hl & _)]; [reflexivity|].
        exfalso. destruct (dl_w_stored w other dl Hval Hl) as [xs Hst].
        destruct (dl_w_stored w this dt Hval Ht) as [ys Hst'].
        destruct (dl_w_copy_assign w other this xs ys Hval) as (w'' & Hr & _);
          [congruence|exact Hst|exact Hst'|].
        simpl in Hr. rewrite Hr in Hrun. discriminate. }
    subst w'. apply IH; [exact Hval|exact Htight|exact Hnd2|].
    intros u Hu. apply Hfresh. set_solver.
Qed.
End more.
End DListMore.

(** ** Further laws of the interface, for every kind *)

Section more_laws.
Context {T : Type} `{Printable T}.
Import VecFacts VecLaws SListFacts SListLaws DListFacts DListLaws.
Import VecMore SListMore DListMore.

Lemma law_size_inv k (w w' : world (impl k)) this n :
  valid (impl k) w -> size (impl k) this w = Ok n w' ->
  w' = w /\ n <= INT_MAX /\
  exists xs, stores (impl k) w this xs /\ n = Z.of_nat (List.length xs).
Proof.
  intros Hval Hsize. destruct k.
  - pose proof Hsize as Hs.
    apply on_inv in Hs as (v & v' & Hv & Hrun & ->).
    unfold Vec.size, gets in Hrun. injection Hrun as <- <-.
    rewrite insert_id by exact Hv. split; [reflexivity|].
    destruct (Hval this v Hv) as [xs Hxs].
    pose proof Hxs as (rest & _ & Hn & Hcap & Hmax).
    split; [lia|]. exists xs. split; [exists v; auto|exact Hn].
  - pose proof Hsize as Hs.
    apply on_inv in Hs as (v & v' & Hv & Hrun & ->).
    unfold SList.size, gets in Hrun. injection Hrun as <- <-.
    rewrite insert_id by exact Hv. split; [reflexivity|].
    destruct (Hval this v Hv) as [xs Hxs].
    pose proof Hxs as (_ & Hn & Hmax).
    split; [lia|]. exists xs. split; [exists v; auto|exact Hn].
  - pose proof Hsize as Hs.
    apply dl_on_inv in Hs as (d & s & Hd & Hrun & ->).
    unfold DList.size, DList.get_length, gets in Hrun. injection Hrun as <- <-.
    simpl. rewrite insert_id by exact Hd. split; [destruct w; reflexivity|].
    destruct (proj1 (proj2 Hval) this d Hd) as [lxs Hown].
    pose proof Hown as (_ & _ & Hn & Hmax).
    split; [exact Hmax|]. exists lxs.*2. split; [exists d, lxs; auto|].
    rewrite length_fmap. exact Hn.
Qed.

Lemma law_insert_room k (w : world (impl k)) this xs x i :
  reachable (impl k) w -> stores (impl k) w this xs -> has_room k w this ->
  (i <= List.length xs)%nat ->
  exists w', insert (impl k) this x (Z.of_nat i) w = Ok tt w'.
Proof.
  intros Hreach Hst Hroom Hi. destruct k.
  - destruct Hst as (v & Hv & Hxs). destruct Hroom as (v0 & Hv0 & Hnz & Hlt).
    simpl in Hv, Hv0. rewrite Hv in Hv0. injection Hv0 as <-.
    pose proof (vec_room_can_grow w this v xs Hreach Hv Hxs Hnz Hlt) as Hg.
    destruct (vec_insert_spec v xs x i Hxs Hg Hi) as (v' & Hrun & _).
    eexists. eapply on_Ok; eassumption.
  - destruct Hst as (l & Hl & Hxs). destruct Hroom as (l0 & Hl0 & Hlt).
    simpl in Hl, Hl0. rewrite Hl in Hl0. injection Hl0 as <-.
    destruct (sl_insert_spec l xs x i Hxs Hi Hlt) as (l' & Hrun & _).
    eexists. eapply on_Ok; eassumption.
  - pose proof (dl_reachable_valid w Hreach) as Hval.
    destruct Hst as (d & lxs & Hd & Hown & <-). destruct Hroom as (d0 & Hd0 & Hlt).
    simpl in Hd, Hd0. rewrite Hd in Hd0. injection Hd0 as <-.
    rewrite length_fmap in Hi. destruct w as [hp objs]. simpl in *.
    destruct (dl_insert_spec hp d lxs x i (proj1 Hval) Hown Hi Hlt)
      as (hp' & d' & Hrun & _).
    eexists. exact (dl_on_Ok this _ (hp, objs) d tt (hp', d') Hd Hrun).
Qed.

Lemma law_frame k (w w' : world (impl k)) cmd u xs :
  valid (impl k) w ->
  run (impl k) cmd w = Ok tt w' \/ run (impl k) cmd w = Throw w' ->
  u ∉ names cmd -> stores (impl k) w u xs -> stores (impl k) w' u xs.
Proof.
  intros Hval Hrun Hu Hst. destruct k.
  - destruct Hst as (v & Hv & Hxs). exists v. split; [|exact Hxs].
    simpl. rewrite (vec_run_frame w cmd w' u Hval Hrun Hu). exact Hv.
  - destruct Hst as (v & Hv & Hxs). exists v. split; [|exact Hxs].
    simpl. rewrite (sl_run_frame w cmd w' u Hval Hrun Hu). exact Hv.
  - destruct Hst as (d & lxs & Hd & Hown & Hvals).
    destruct (dl_run_frame w cmd w' u d lxs Hval Hrun Hu Hd Hown) as (Hd' & Hown').
    exists d, lxs. auto.
Qed.

Lemma law_run_valid k (w w' : world (impl k)) cmd :
  reachable (impl k) w ->
  run (impl k) cmd w = Ok tt w' \/ run (impl k) cmd w = Throw w' ->
  valid (impl k) w'.
Proof.
  intros Hreach Hrun. apply reachable_valid.
  exact (reachable_step (impl k) w cmd w' Hreach Hrun).
Qed.
End more_laws.

(** ** Further properties of the containers *)

(** X1. For each of the three kinds, in a world a program reaches, with
    [this] an object that stores [xs] and [i] a position below the number of
    its elements: [erase(i)] ends normally, the elements are then those
    before the position followed by those after it, in their order, and
    [size()] is one less. *)
Theorem erase_removes_one {T} `{Printable T} k (w : world (impl k)) this xs i :
  reachable (impl k) w -> iterate (impl k) this w = Ok xs w ->
  (i < List.length xs)%nat ->
  exists w',
    erase (impl k) this (Z.of_nat i) w = Ok tt w' /\
    iterate (impl k) this w' = Ok (take i xs ++ drop (S i) xs) w' /\
    size (impl k) this w' = Ok (Z.of_nat (List.length xs) - 1) w'.
Proof.
  intros Hreach Hit Hi. pose proof (reachable_valid k w Hreach) as Hval.
  pose proof (law_iterate_inv k w w this xs Hval Hit) as Hst.
  destruct (law_in_place k w this xs i Hval Hst Hi) as ((w' & Hrun) & _).
  exists w'. split; [exact Hrun|].
  destruct (law_apply k w w' this (Erase (Z.of_nat i)) xs Hval Hst Hrun) as (_ & Hst' & _).
  simpl in Hst'. rewrite Nat2Z.id in Hst'.
  destruct (law_observe k w' this _ Hst') as (Hit' & Hsize' & _).
  split; [exact Hit'|]. rewrite Hsize'. f_equal.
  rewrite length_app, length_take, length_drop. lia.
Qed.

Lemma erase_removes_one_witness :
  exists w',
    erase (impl DoublyChain) 4%nat 3 (main_world DoublyChain) = Ok tt w' /\
    iterate (impl DoublyChain) 4%nat w' = Ok [10; 0; 1; 20; 5; 7; 8; 9; 30] w' /\
    size (impl DoublyChain) 4%nat w' = Ok 9 w'.
Proof.
  refine (erase_removes_one DoublyChain (main_world DoublyChain) 4%nat
            [10; 0; 1; 3; 20; 5; 7; 8; 9; 30] 3 _ _ _).
  - apply main_world_reachable.
  - vm_compute. reflexivity.
  - simpl. lia.
Defined.

(** X2. For each of the three kinds, in a world a program reaches, with
    [this] an object that stores [xs] and [x] its element at the index [i]:
    [operator[]] gives [x] and changes nothing; an assignment of [y]
    through the reference it returns ends normally, the element at [i] is
    then [y], which [operator[]] gives, the other elements and [size()] are
    as before. *)
Theorem subscript_in_range {T} `{Printable T} k (w : world (impl k)) this xs i x y :
  reachable (impl k) w -> iterate (impl k) this w = Ok xs w -> xs !! i = Some x ->
  subscript (impl k) this (Z.of_nat i) w = Ok x w /\
  exists w',
    subscript_assign (impl k) this (Z.of_nat i) y w = Ok tt w' /\
    iterate (impl k) this w' = Ok (<[i := y]> xs) w' /\
    subscript (impl k) this (Z.of_nat i) w' = Ok y w' /\
    size (impl k) this w' = Ok (Z.of_nat (List.length xs)) w'.
Proof.
  intros Hreach Hit Hx. pose proof (reachable_valid k w Hreach) as Hval.
  pose proof (law_iterate_inv k w w this xs Hval Hit) as Hst.
  assert (Hi : (i < List.length xs)%nat) by (eapply lookup_lt_Some; eassumption).
  split; [apply (law_observe k w this xs Hst); exact Hx|].
  destruct (law_in_place k w this xs i Hval Hst Hi) as (_ & Hassign).
  destruct (Hassign y) as (w' & Hrun). exists w'. split; [exact Hrun|].
  destruct (law_apply k w w' this (Assign (Z.of_nat i) y) xs Hval Hst Hrun)
    as (_ & Hst' & _).
  simpl in Hst'. rewrite Nat2Z.id in Hst'.
  destruct (law_observe k w' this _ Hst') as (Hit' & Hsize' & _ & Hsub').
  split; [exact Hit'|]. split.
  - apply Hsub'. apply list_lookup_insert_eq. exact Hi.
  - rewrite Hsize', length_insert. reflexivity.
Qed.

Lemma subscript_in_range_witness :
  subscript (impl SinglyChain) 2%nat 4 (main_world SinglyChain)
  = Ok 20 (main_world SinglyChain).
Proof.
  refine (proj1 (subscript_in_range SinglyChain (main_world SinglyChain) 2%nat
                   [10; 0; 1; 3; 20; 5; 7; 8; 9; 30] 4 20 0 _ _ _)).
  - apply main_world_reachable.
  - vm_compute. reflexivity.
  - reflexivity.
Defined.

(** X3. For each of the three kinds, in a world a program reaches: where
    [size()] ends normally it changes nothing, and the number it gives is
    the number of elements that the iteration from [begin()] to [end()]
    visits; it is an [int] that is not negative. *)
Theorem size_counts_elements {T} `{Printable T} k (w w' : world (impl k)) this n :
  reachable (impl k) w -> size (impl k) this w = Ok n w' ->
  w' = w /\ 0 <= n <= INT_MAX /\
  exists xs, iterate (impl k) this w = Ok xs w /\ n = Z.of_nat (List.length xs).
Proof.
  intros Hreach Hsize. pose proof (reachable_valid k w Hreach) as Hval.
  destruct (law_size_inv k w w' this n Hval Hsize) as (-> & Hmax & xs & Hst & ->).
  split; [reflexivity|]. split; [lia|]. exists xs. split; [|reflexivity].
  apply (law_observe k w this xs Hst).
Qed.

Lemma size_counts_elements_witness :
  exists xs,
    iterate (impl DynamicArray) 2%nat (main_world DynamicArray)
    = Ok xs (main_world DynamicArray) /\ 10 = Z.of_nat (List.length xs).
Proof.
  refine (proj2 (proj2 (size_counts_elements DynamicArray (main_world DynamicArray)
                          (main_world DynamicArray) 2%nat 10 _ _))).
  - apply main_world_reachable.
  - vm_compute. reflexivity.
Defined.

(** X4. For each of the three kinds, in a world a program reaches, with
    [this] an object that stores [xs] and has room for one more element
    (fewer than [INT_MAX] elements in a chain; fewer than [2 ^ 30] in an
    array, whose capacity is not 0), and [i] a position that is at most the
    number of the elements: [insert(x, i)] ends normally, [x] is then at
    the position [i], before it the elements that were before the position
    and after it the others, and [size()] is one more; [push_back(x)] ends
    normally and [x] is then the last element. The element [x] is a value
    that is no cell of the container itself: a temporary or an object
    outside its buffer (for the lists this is no restriction: they copy the
    element into the new node first). *)
Theorem insert_places_element {T} `{Printable T} k (w : world (impl k)) this xs x i :
  reachable (impl k) w -> iterate (impl k) this w = Ok xs w -> has_room k w this ->
  (i <= List.length xs)%nat ->
  (exists w',
     insert (impl k) this x (Z.of_nat i) w = Ok tt w' /\
     iterate (impl k) this w' = Ok (take i xs ++ x :: drop i xs) w' /\
     size (impl k) this w' = Ok (Z.of_nat (List.length xs) + 1) w') /\
  (exists w',
     push_back (impl k) this x w = Ok tt w' /\
     iterate (impl k) this w' = Ok (xs ++ [x]) w').
Proof.
  intros Hreach Hit Hroom Hi. pose proof (reachable_valid k w Hreach) as Hval.
  pose proof (law_iterate_inv k w w this xs Hval Hit) as Hst.
  split.
  - destruct (law_insert_room k w this xs x i Hreach Hst Hroom Hi) as (w' & Hrun).
    exists w'. split; [exact Hrun|].
    destruct (law_apply k w w' this (Insert x (Z.of_nat i)) xs Hval Hst Hrun)
      as (_ & Hst' & _).
    simpl in Hst'. rewrite Nat2Z.id in Hst'.
    destruct (law_observe k w' this _ Hst') as (Hit' & Hsize' & _).
    split; [exact Hit'|]. rewrite Hsize'. f_equal.
    rewrite length_app. cbn [List.length]. rewrite length_take, length_drop. lia.
  - destruct (law_insert_room k w this xs x (List.length xs) Hreach Hst Hroom (le_n _))
      as (w' & Hrun).
    destruct (law_observe k w this xs Hst) as (_ & Hsize & _).
    rewrite (law_insert_at_size k w this x _ Hval Hsize) in Hrun.
    exists w'. split; [exact Hrun|].
    destruct (law_apply k w w' this (PushBack x) xs Hval Hst Hrun) as (_ & Hst' & _).
    apply (law_observe k w' this _ Hst').
Qed.

Lemma insert_places_element_witness :
  exists w',
    insert (impl DynamicArray) 4%nat 99 2 (main_world DynamicArray) = Ok tt w' /\
    iterate (impl DynamicArray) 4%nat w' = Ok [10; 0; 99; 1; 3; 20; 5; 7; 8; 9; 30] w' /\
    size (impl DynamicArray) 4%nat w' = Ok 11 w'.
Proof.
  refine (proj1 (insert_places_element DynamicArray (main_world DynamicArray) 4%nat
                   [10; 0; 1; 3; 20; 5; 7; 8; 9; 30] 99 2 _ _ _ _)).
  - apply main_world_reachable.
  - vm_compute. reflexivity.
  - eexists. split; [vm_compute; reflexivity|]. split; [discriminate|reflexivity].
  - simpl. lia.
Defined.

(** X5. For each of the three kinds, in a world a program reaches, with
    [this] an object that stores [xs]: when [insert(x, pos)] has ended
    normally, [erase(pos)] ends normally and the object stores [xs]
    again. *)
Theorem insert_then_erase {T} `{Printable T} k (w w1 : world (impl k)) this xs x pos :
  reachable (impl k) w -> iterate (impl k) this w = Ok xs w ->
  insert (impl k) this x pos w = Ok tt w1 ->
  exists w2,
    erase (impl k) this pos w1 = Ok tt w2 /\ iterate (impl k) this w2 = Ok xs w2.
Proof.
  intros Hreach Hit Hins. pose proof (reachable_valid k w Hreach) as Hval.
  pose proof (law_iterate_inv k w w this xs Hval Hit) as Hst.
  destruct (law_observe k w this xs Hst) as (_ & Hsize & _).
  assert (Hpos : 0 <= pos <= Z.of_nat (List.length xs)).
  { destruct (Z_lt_dec pos 0) as [Hneg|Hnn];
      [|destruct (Z_gt_dec pos (Z.of_nat (List.length xs))) as [Hbig|Hle]; [|lia]].
    - rewrite (proj1 (law_throws k w this _ x pos Hsize)) in Hins by lia. discriminate.
    - rewrite (proj1 (law_throws k w this _ x pos Hsize)) in Hins by lia. discriminate. }
  destruct (law_apply k w w1 this (Insert x pos) xs Hval Hst Hins) as (Hval1 & Hst1 & _).
  simpl in Hst1.
  set (p := Z.to_nat pos) in *.
  assert (Hp : (p <= List.length xs)%nat) by lia.
  assert (Hlen1 : (p < List.length (take p xs ++ x :: drop p xs))%nat).
  { rewrite length_app. cbn [List.length]. rewrite length_take, length_drop. lia. }
  destruct (law_in_place k w1 this _ p Hval1 Hst1 Hlen1) as ((w2 & Hrun) & _).
  replace (Z.of_nat p) with pos in Hrun by lia.
  exists w2. split; [exact Hrun|].
  destruct (law_apply k w1 w2 this (Erase pos) _ Hval1 Hst1 Hrun) as (_ & Hst2 & _).
  simpl in Hst2. fold p in Hst2.
  assert (Hback : take p (take p xs ++ x :: drop p xs)
                  ++ drop (S p) (take p xs ++ x :: drop p xs) = xs).
  { rewrite take_app_length' by (rewrite length_take; lia).
    rewrite drop_app_ge by (rewrite length_take; lia).
    rewrite length_take. replace (S p - p `min` List.length xs)%nat with 1%nat by lia.
    cbn [drop]. rewrite drop_0. apply take_drop. }
  rewrite Hback in Hst2. apply (law_observe k w2 this xs Hst2).
Qed.

Lemma insert_then_erase_witness :
  exists w2,
    erase (impl SinglyChain) 4%nat 3
      (exec (impl SinglyChain) (main_steps ++ [Mutate 4%nat (Insert 99 3)])) = Ok tt w2 /\
    iterate (impl SinglyChain) 4%nat w2 = Ok [10; 0; 1; 3; 20; 5; 7; 8; 9; 30] w2.
Proof.
  refine (insert_then_erase SinglyChain (main_world SinglyChain) _ 4%nat
            [10; 0; 1; 3; 20; 5; 7; 8; 9; 30] 99 3 _ _ _).
  - apply main_world_reachable.
  - vm_compute. reflexivity.
  - vm_compute. reflexivity.
Defined.

(** X6. In a world a program of vectors reaches, every vector has a
    capacity that is 0 or a power of two, and at most [2 ^ 30]; its length
    is not negative and at most the capacity; the buffer has as many cells
    as the capacity says, and the cells below the length have been
    assigned. *)
Theorem array_capacity_invariant {T} `{Printable T}
    (w : gmap nat (Vec.myvector T)) this v :
  reachable (impl DynamicArray) w -> w !! this = Some v ->
  doubled_capacity v /\
  0 <= Vec.length v <= Vec.capacity v /\ Vec.capacity v <= 2 ^ 30 /\
  Z.of_nat (List.length (Vec.cells v)) = Vec.capacity v /\
  (forall i, (i < Z.to_nat (Vec.length v))%nat -> exists x, Vec.cells v !! i = Some (Some x)).
Proof.
  intros Hreach Hv.
  pose proof (VecMore.vec_reachable_doubled w Hreach this v Hv) as Hd.
  destruct (VecLaws.vec_reachable_valid w Hreach this v Hv)
    as (xs & rest & Hcells & Hn & Hcap & Hmax).
  split; [exact Hd|]. split; [lia|]. split; [|split].
  - destruct Hd as [->|(j & Hj & ->)]; [lia|]. apply Z.pow_le_mono_r; lia.
  - rewrite Hcells, length_app, length_fmap. lia.
  - intros i Hi. rewrite Hcells, Hn, Nat2Z.id in *.
    destruct (lookup_lt_is_Some_2 xs i Hi) as [x Hx]. exists x.
    rewrite lookup_app_l by (rewrite length_fmap; exact Hi).
    rewrite list_lookup_fmap, Hx. reflexivity.
Qed.

Lemma array_capacity_invariant_witness :
  doubled_capacity
    (Vec.mk (Some [Some 10; Some 0; Some 1; Some 3; Some 20; Some 5; Some 7; Some 8;
                   Some 9; Some 30; None; None; None; None; None; None]) 16 10).
Proof.
  refine (proj1 (array_capacity_invariant (main_world DynamicArray) 4%nat _ _ _)).
  - apply main_world_reachable.
  - vm_compute. reflexivity.
Defined.



(** X8. For each of the three kinds, in a world a program reaches, with [a]
    an object that stores [xs]: a command that does not name [a] (a
    declaration, a change, a move or a copy of other objects), whether it
    ends normally or in an exception, leaves [a] with [xs]. *)
Theorem other_objects_unchanged {T} `{Printable T} k (w w' : world (impl k)) cmd a xs :
  reachable (impl k) w -> iterate (impl k) a w = Ok xs w -> a ∉ names cmd ->
  run (impl k) cmd w = Ok tt w' \/ run (impl k) cmd w = Throw w' ->
  iterate (impl k) a w' = Ok xs w' /\
  size (impl k) a w' = Ok (Z.of_nat (List.length xs)) w'.
Proof.
  intros Hreach Hit Ha Hrun. pose proof (reachable_valid k w Hreach) as Hval.
  pose proof (law_iterate_inv k w w a xs Hval Hit) as Hst.
  pose proof (law_frame k w w' cmd a xs Hval Hrun Ha Hst) as Hst'.
  destruct (law_observe k w' a xs Hst') as (Hit' & Hsize' & _). auto.
Qed.

Lemma other_objects_unchanged_witness :
  iterate (impl DoublyChain) 2%nat
    (exec (impl DoublyChain) (main_steps ++ [CopyAssign 1%nat 4%nat]))
  = Ok [10; 0; 1; 3; 20; 5; 7; 8; 9; 30]
      (exec (impl DoublyChain) (main_steps ++ [CopyAssign 1%nat 4%nat])).
Proof.
  refine (proj1 (other_objects_unchanged DoublyChain (main_world DoublyChain) _
                   (CopyAssign 1%nat 4%nat) 2%nat [10; 0; 1; 3; 20; 5; 7; 8; 9; 30]
                   _ _ _ _)).
  - apply main_world_reachable.
  - vm_compute. reflexivity.
  - simpl. set_solver.
  - left. vm_compute. reflexivity.
Defined.

(** X9. For each of the three kinds, in a world a program reaches, on an
    object whose [size()] is [n], with any position [pos] and element [x]:
    [erase(pos)], [operator[](pos)] and an assignment of [x] through it
    have no undefined behaviour and do not run for ever: each ends
    normally, or in [std::out_of_range] with nothing changed. The
    iteration and [print()] end normally with nothing changed. Where the
    object has room for one more element, and [x] is no cell of the
    container itself, [push_back(x)] ends normally, and [insert(x, pos)]
    ends normally or in [std::out_of_range] with nothing changed. *)
Theorem element_operations_are_defined {T} `{Printable T} k (w : world (impl k))
    this n (x : T) pos :
  reachable (impl k) w -> size (impl k) this w = Ok n w ->
  ((exists w', erase (impl k) this pos w = Ok tt w') \/
   erase (impl k) this pos w = Throw w) /\
  ((exists w', subscript_assign (impl k) this pos x w = Ok tt w') \/
   subscript_assign (impl k) this pos x w = Throw w) /\
  ((exists y, subscript (impl k) this pos w = Ok y w) \/
   subscript (impl k) this pos w = Throw w) /\
  (exists xs text,
     iterate (impl k) this w = Ok xs w /\ print (impl k) this w = Ok text w) /\
  (has_room k w this ->
   (exists w', push_back (impl k) this x w = Ok tt w') /\
   ((exists w', insert (impl k) this x pos w = Ok tt w') \/
    insert (impl k) this x pos w = Throw w)).
Proof.
  intros Hreach Hsize. pose proof (reachable_valid k w Hreach) as Hval.
  destruct (law_size_inv k w w this n Hval Hsize) as (_ & _ & xs & Hst & ->).
  destruct (law_observe k w this xs Hst) as (Hit & _ & Hprint & Hsub).
  destruct (law_throws k w this _ x pos Hsize) as (Hti & Hte).
  assert (Hout : pos < 0 \/ pos >= Z.of_nat (List.length xs) \/
                 (pos = Z.of_nat (Z.to_nat pos) /\ (Z.to_nat pos < List.length xs)%nat))
    by lia.
  split; [|split; [|split; [|split]]].
  - destruct Hout as [Hneg|[Hbig|(Hp & Hlt)]].
    + right. apply Hte. lia.
    + right. apply Hte. lia.
    + left. rewrite Hp. apply (law_in_place k w this xs _ Hval Hst Hlt).
  - destruct Hout as [Hneg|[Hbig|(Hp & Hlt)]].
    + right. apply Hte. lia.
    + right. apply Hte. lia.
    + left. rewrite Hp. apply (law_in_place k w this xs _ Hval Hst Hlt).
  - destruct Hout as [Hneg|[Hbig|(Hp & Hlt)]].
    + right. apply Hte. lia.
    + right. apply Hte. lia.
    + left. destruct (lookup_lt_is_Some_2 xs _ Hlt) as [y Hy]. exists y.
      rewrite Hp. exact (Hsub _ y Hy).
  - exists xs, (line xs). auto.
  - intros Hroom. split.
    + destruct (law_insert_room k w this xs x (List.length xs) Hreach Hst Hroom (le_n _))
        as (w' & Hrun).
      rewrite (law_insert_at_size k w this x _ Hval Hsize) in Hrun. eauto.
    + destruct (Z_lt_dec pos 0) as [Hneg|Hnn];
        [|destruct (Z_gt_dec pos (Z.of_nat (List.length xs))) as [Hbig|Hle]].
      * right. apply Hti. lia.
      * right. apply Hti. lia.
      * left. replace pos with (Z.of_nat (Z.to_nat pos)) by lia.
        apply (law_insert_room k w this xs x _ Hreach Hst Hroom). lia.
Qed.

Lemma element_operations_are_defined_witness :
  (exists w', erase (impl SinglyChain) 4%nat 12 (main_world SinglyChain) = Ok tt w') \/
  erase (impl SinglyChain) 4%nat 12 (main_world SinglyChain) = Throw (main_world SinglyChain).
Proof.
  refine (proj1 (element_operations_are_defined SinglyChain (main_world SinglyChain)
                   4%nat 10 0 12 _ _)).
  - apply main_world_reachable.
  - vm_compute. reflexivity.
Defined.

(** ** The nodes of the doubly linked list *)

(** X10. In a world a program of doubly linked lists reaches, when
    [push_back], [insert], [erase] or an assignment through [operator[]]
    has ended normally on a list: the nodes that stay in the list are the
    nodes they were (an element is never moved to another node), in their
    order; [push_back] and [insert] add one node, which is new, at the end
    or at the position; [erase] takes out the node at the position, which
    is destroyed; the assignment keeps the nodes and changes the one value;
    and no node outside the list has changed. *)
Theorem dlist_elements_stay_in_their_nodes {T} `{Printable T}
    (w w' : DList.heap T * gmap nat DList.dlist) this m :
  reachable (impl DoublyChain) w -> apply (impl DoublyChain) m this w = Ok tt w' ->
  exists d lxs d' lxs',
    w.2 !! this = Some d /\ DList.owns w.1 d lxs /\
    w'.2 !! this = Some d' /\ DList.owns w'.1 d' lxs' /\
    DList.next_id w.1 ∉ lxs.*1 /\
    (forall l, l ∉ lxs.*1 -> l <> DList.next_id w.1 ->
               DList.nodes w'.1 !! l = DList.nodes w.1 !! l) /\
    match m with
    | PushBack x => lxs' = lxs ++ [(DList.next_id w.1, x)]
    | Insert x pos =>
        lxs' = take (Z.to_nat pos) lxs ++ (DList.next_id w.1, x) :: drop (Z.to_nat pos) lxs
    | Erase pos =>
        lxs' = take (Z.to_nat pos) lxs ++ drop (S (Z.to_nat pos)) lxs /\
        exists l x, lxs !! Z.to_nat pos = Some (l, x) /\ DList.nodes w'.1 !! l = None
    | Assign index x =>
        lxs'.*1 = lxs.*1 /\ lxs'.*2 = <[Z.to_nat index := x]> lxs.*2
    end.
Proof.
  intros Hreach Hrun. pose proof (reachable_valid DoublyChain w Hreach) as Hval.
  destruct (DListMore.dl_apply_exact w this m w' Hval Hrun)
    as (d & lxs & d' & lxs' & Hd & Hown & Hobjs & Hown' & Hupd & Hdead & Hm).
  exists d, lxs, d', lxs'. split; [exact Hd|]. split; [exact Hown|].
  split; [rewrite Hobjs; apply lookup_insert_eq|]. split; [exact Hown'|].
  assert (Hfresh : DList.next_id w.1 ∉ lxs.*1).
  { intros Hin. destruct Hown as (Hseg & _).
    pose proof (DListFacts.dl_seg_alive _ _ _ _ _ _ Hseg Hin) as Halive.
    apply (proj1 Hval) in Halive. lia. }
  split; [exact Hfresh|]. split; [apply Hupd|].
  destruct m as [x|x pos|pos|index x]; [exact Hm|apply Hm| |split; apply Hm].
  destruct Hm as (Hlxs' & Hpos). split; [exact Hlxs'|].
  destruct (lookup_lt_is_Some_2 lxs (Z.to_nat pos) ltac:(lia)) as [[l x] Hl].
  exists l, x. split; [exact Hl|]. apply Hdead.
  - left. apply list_elem_of_fmap. exists (l, x). split; [reflexivity|].
    eapply list_elem_of_lookup_2; exact Hl.
  - destruct Hown as (_ & Hnd & _). rewrite Hlxs'.
    rewrite <- (take_drop_middle lxs (Z.to_nat pos) (l, x) Hl) in Hnd.
    rewrite fmap_app, fmap_cons in Hnd. apply NoDup_app in Hnd as (_ & Hdisj & Hnd2).
    apply NoDup_cons in Hnd2 as (Hnotin & _). rewrite fmap_app.
    intros [Hin|Hin]%elem_of_app; [exact (Hdisj _ Hin ltac:(set_solver))|exact (Hnotin Hin)].
Qed.

Lemma dlist_elements_stay_in_their_nodes_witness :
  exists d lxs d' lxs',
    (main_world DoublyChain).2 !! 4%nat = Some d /\
    DList.owns (main_world DoublyChain).1 d lxs /\
    (exec (impl DoublyChain) (main_steps ++ [Mutate 4%nat (Erase 3)])).2 !! 4%nat = Some d' /\
    DList.owns (exec (impl DoublyChain) (main_steps ++ [Mutate 4%nat (Erase 3)])).1 d' lxs' /\
    DList.next_id (main_world DoublyChain).1 ∉ lxs.*1 /\
    (forall l, l ∉ lxs.*1 -> l <> DList.next_id (main_world DoublyChain).1 ->
               DList.nodes (exec (impl DoublyChain)
                              (main_steps ++ [Mutate 4%nat (Erase 3)])).1 !! l
               = DList.nodes (main_world DoublyChain).1 !! l) /\
    lxs' = take (Z.to_nat 3) lxs ++ drop (S (Z.to_nat 3)) lxs /\
    exists l x, lxs !! Z.to_nat 3 = Some (l, x) /\
                DList.nodes (exec (impl DoublyChain)
                               (main_steps ++ [Mutate 4%nat (Erase 3)])).1 !! l = None.
Proof.
  refine (dlist_elements_stay_in_their_nodes (main_world DoublyChain)
            (exec (impl DoublyChain) (main_steps ++ [Mutate 4%nat (Erase 3)]))
            4%nat (Erase 3) _ _).
  - apply main_world_reachable.
  - vm_compute. reflexivity.
Defined.

(** X11. A program of doubly linked lists that declares each of its
    objects once, and runs from the start with its exceptions caught,
    leaves a heap in which every node that is alive is in the chain of one
    of the lists (no node is lost), and in which [next] and [prev] of
    every node that is alive are null or name a node that is alive (no
    pointer dangles). *)
Theorem dlist_loses_no_node {T} `{Printable T} (cmds : list (command (T := T))) :
  NoDup (flat_map declares cmds) ->
  no_garbage (exec (impl DoublyChain) cmds) /\
  no_dangling (exec (impl DoublyChain) cmds).1.
Proof.
  intros Hnd.
  assert (Hg : no_garbage (exec (impl DoublyChain) cmds)).
  { apply DListMore.dl_exec_from_garbage.
    - apply DListLaws.dl_valid_init.
    - intros l [nd Hl]. simpl in Hl. rewrite lookup_empty in Hl. discriminate.
    - exact Hnd.
    - intros u _. apply lookup_empty. }
  split; [exact Hg|]. apply DListMore.dl_garbage_dangling; [|exact Hg].
  apply (reachable_valid DoublyChain), exec_reachable.
Qed.

Lemma dlist_loses_no_node_witness :
  no_garbage (exec (impl DoublyChain) main_steps) /\
  no_dangling (exec (impl DoublyChain) main_steps).1.
Proof.
  refine (dlist_loses_no_node main_steps _).
  apply (bool_decide_unpack _). vm_compute. reflexivity.
Defined.

(** X12. In a world a program of doubly linked lists reaches, with [this]
    and [other] two lists: the move assignment [this = std::move(other)]
    ends normally; [this] then has the chain [other] had, made of the same
    nodes (no element is copied and no node is made); the nodes [this] had
    are destroyed, every other node is as it was; [other] has a null head
    and the length 0. *)
Theorem dlist_move_hands_over_nodes {T} `{Printable T}
    (w : DList.heap T * gmap nat DList.dlist) this other dt dl lt ll :
  reachable (impl DoublyChain) w -> this <> other ->
  w.2 !! this = Some dt -> w.2 !! other = Some dl ->
  DList.owns w.1 dt lt -> DList.owns w.1 dl ll ->
  exists w',
    move_assign (impl DoublyChain) this other w = Ok tt w' /\
    w'.2 !! this = Some dl /\ DList.owns w'.1 dl ll /\
    w'.2 !! other = Some (DList.mk None 0) /\
    DList.next_id w'.1 = DList.next_id w.1 /\
    (forall l, l ∈ lt.*1 -> DList.nodes w'.1 !! l = None) /\
    (forall l, l ∉ lt.*1 -> DList.nodes w'.1 !! l = DList.nodes w.1 !! l).
Proof.
  intros Hreach Hne Ht Ho Hot Hol. pose proof (reachable_valid DoublyChain w Hreach) as Hval.
  destruct w as [hp objs]. simpl in Ht, Ho, Hot, Hol.
  destruct (DListMore.dl_take_over_full this other hp objs dt dl lt ll Hval Hne Ht Ho Hot Hol)
    as (h' & Hr & _ & Hol' & Hdead & Hkept & _).
  eexists. split.
  - simpl. unfold DList.move_assign. destruct (decide (this = other)); [congruence|].
    exact Hr.
  - simpl. split; [|split; [exact Hol'|split; [apply lookup_insert_eq|auto]]].
    rewrite lookup_insert_ne by congruence. apply lookup_insert_eq.
Qed.

Lemma dlist_move_hands_over_nodes_witness :
  exists w',
    move_assign (impl DoublyChain) 1%nat 2%nat
      (exec (impl DoublyChain)
         [Construct 1%nat; Mutate 1%nat (PushBack 5);
          Construct 2%nat; Mutate 2%nat (PushBack 7)]) = Ok tt w' /\
    w'.2 !! 1%nat = Some (DList.mk (Some 1%nat) 1) /\
    DList.owns w'.1 (DList.mk (Some 1%nat) 1) [(1%nat, 7)] /\
    w'.2 !! 2%nat = Some (DList.mk None 0) /\
    DList.next_id w'.1
    = DList.next_id (exec (impl DoublyChain)
                       [Construct 1%nat; Mutate 1%nat (PushBack 5);
                        Construct 2%nat; Mutate 2%nat (PushBack 7)]).1 /\
    (forall l, l ∈ [(0%nat, 5)].*1 -> DList.nodes w'.1 !! l = None) /\
    (forall l, l ∉ [(0%nat, 5)].*1 ->
       DList.nodes w'.1 !! l
       = DList.nodes (exec (impl DoublyChain)
                        [Construct 1%nat; Mutate 1%nat (PushBack 5);
                         Construct 2%nat; Mutate 2%nat (PushBack 7)]).1 !! l).
Proof.
  refine (dlist_move_hands_over_nodes
            (exec (impl DoublyChain)
               [Construct 1%nat; Mutate 1%nat (PushBack 5);
                Construct 2%nat; Mutate 2%nat (PushBack 7)])
            1%nat 2%nat (DList.mk (Some 0%nat) 1) (DList.mk (Some 1%nat) 1)
            [(0%nat, 5)] [(1%nat, 7)] _ _ _ _ _ _).
  - apply exec_reachable.
  - lia.
  - vm_compute. reflexivity.
  - vm_compute. reflexivity.
  - split; [|split; [|split]].
    + split; [reflexivity|]. exists None. split; [vm_compute; reflexivity|reflexivity].
    + apply NoDup_singleton.
    + reflexivity.
    + vm_compute. discriminate.
  - split; [|split; [|split]].
    + split; [reflexivity|]. exists None. split; [vm_compute; reflexivity|reflexivity].
    + apply NoDup_singleton.
    + reflexivity.
    + vm_compute. discriminate.
Defined.

(** ** The iterators *)

Section iterators.
Context {T : Type}.

Lemma vec_iter_incr i :
  Nat.iter i Vec.incr (Vec.It 0) = Vec.It (Z.of_nat i).
Proof.
  induction i as [|i IH]; [reflexivity|].
  rewrite Nat.iter_succ, IH. unfold Vec.incr. cbn [Vec.ptr]. f_equal. lia.
Qed.

Lemma sl_iter_incr (xs : list T) i :
  Nat.iter i SList.incr (SList.It (SList.chain_of xs))
  = SList.It (SList.chain_of (drop i xs)).
Proof.
  revert xs. induction i as [|i IH]; intros xs; [rewrite drop_0; reflexivity|].
  destruct xs as [|x xs]; [exact (sl_incr_end (S i))|].
  rewrite Nat.iter_succ_r. cbn [SList.chain_of SList.incr SList.ptr SList.next].
  rewrite IH. reflexivity.
Qed.

Lemma dl_advance_to (hp : DList.heap T) d (lxs : list (nat * T)) q :
  forall i pv p,
    DList.seg (DList.nodes hp) pv p lxs q -> (i <= List.length lxs)%nat ->
    DList.advance i (DList.It p) (hp, d) = Ok (DList.It (DList.ptr_at lxs q i)) (hp, d).
Proof.
  induction lxs as [|[l x] lxs IH]; intros i pv p Hseg Hi.
  - simpl in Hseg, Hi. subst p. replace i with 0%nat by lia. reflexivity.
  - destruct i as [|i]; [rewrite (DListFacts.dl_seg_start _ _ _ _ _ Hseg); reflexivity|].
    destruct Hseg as (-> & nx & Hl & Hrest). simpl in Hl, Hrest, Hi.
    cbn [DList.advance].
    mstep (unfold DList.incr; cbn [DList.ptr fst];
           mstep (apply DListFacts.dl_node_ok; exact Hl); reflexivity).
    cbn [DList.next]. rewrite (IH i _ _ Hrest) by lia. reflexivity.
Qed.
End iterators.

(** X13. On a vector that stores [xs], with [x] its element at the index
    [i]: the iterator that [i] increments make of [begin()] differs from
    [end()], and [*] of it is [x] and changes nothing; the iterator that
    as many increments as there are elements make of [begin()] is
    [end()]. *)
Theorem array_iterator_walk {T} (v : Vec.myvector T) xs i x :
  Vec.holds v xs -> xs !! i = Some x ->
  exists b e,
    Vec.begin v = Ok b v /\ Vec.end_ v = Ok e v /\
    Vec.neq (Nat.iter i Vec.incr b) e = true /\
    Vec.deref (Nat.iter i Vec.incr b) v = Ok x v /\
    Vec.neq (Nat.iter (List.length xs) Vec.incr b) e = false.
Proof.
  intros (rest & Hcells & Hlen & Hcap & _) Hx.
  pose proof (lookup_lt_Some _ _ _ Hx) as Hi.
  exists (Vec.It 0), (Vec.It (Vec.length v)).
  split; [reflexivity|]. split; [reflexivity|]. rewrite !vec_iter_incr.
  unfold Vec.neq. cbn [Vec.ptr]. rewrite Hlen.
  split; [apply negb_true_iff, Z.eqb_neq; lia|].
  split; [|apply negb_false_iff, Z.eqb_eq; reflexivity].
  unfold Vec.deref, gets, bind. cbn [Vec.ptr].
  unfold Vec.cells in Hcells. destruct (Vec.data v) as [b|]; simpl in Hcells.
  - unfold Vec.load. rewrite Hcells.
    assert (Hb : (0 <=? Z.of_nat i) && (Z.of_nat i <? Z.of_nat (List.length ((Some <$> xs) ++ rest)))
                 = true).
    { apply andb_true_iff. split; [apply Z.leb_le; lia|].
      apply Z.ltb_lt. rewrite length_app, length_fmap. lia. }
    rewrite Hb, Nat2Z.id, lookup_app_l by (rewrite length_fmap; exact Hi).
    rewrite list_lookup_fmap, Hx. reflexivity.
  - symmetry in Hcells. apply app_eq_nil in Hcells as (Hnil & _).
    apply fmap_nil_inv in Hnil. subst xs. discriminate.
Qed.

Lemma array_iterator_walk_witness :
  exists b e,
    Vec.begin (Vec.mk (Some [Some 5; Some 6; None; None]) 4 2)
    = Ok b (Vec.mk (Some [Some 5; Some 6; None; None]) 4 2) /\
    Vec.end_ (Vec.mk (Some [Some 5; Some 6; None; None]) 4 2)
    = Ok e (Vec.mk (Some [Some 5; Some 6; None; None]) 4 2) /\
    Vec.neq (Nat.iter 1 Vec.incr b) e = true /\
    Vec.deref (Nat.iter 1 Vec.incr b) (Vec.mk (Some [Some 5; Some 6; None; None]) 4 2)
    = Ok 6 (Vec.mk (Some [Some 5; Some 6; None; None]) 4 2) /\
    Vec.neq (Nat.iter (List.length [5; 6]) Vec.incr b) e = false.
Proof.
  refine (array_iterator_walk (Vec.mk (Some [Some 5; Some 6; None; None]) 4 2)
            [5; 6] 1 6 _ _).
  - exists [None; None]. split; [reflexivity|]. split; [reflexivity|].
    split; [reflexivity|]. vm_compute. discriminate.
  - reflexivity.
Defined.

(** X14. On a singly linked list that stores [xs], with [x] its element at
    the index [i]: the iterator that [i] increments make of [begin()]
    differs from [end()], and [*] of it is [x]; the iterator that as many
    increments as there are elements make of [begin()] is [end()], and [*]
    of [end()], a null pointer, is undefined. *)
Theorem slist_iterator_walk {T} (l : SList.slist T) xs i x :
  SList.holds l xs -> xs !! i = Some x ->
  exists b e,
    SList.begin l = Ok b l /\ SList.end_ l = Ok e l /\
    SList.neq (Nat.iter i SList.incr b) e = true /\
    SList.deref (Nat.iter i SList.incr b) l = Ok x l /\
    Nat.iter (List.length xs) SList.incr b = e /\
    SList.neq (Nat.iter (List.length xs) SList.incr b) e = false /\
    SList.deref e l = Undefined.
Proof.
  intros Hholds Hx. rewrite (SListFacts.sl_holds_eq l xs Hholds).
  exists (SList.It (SList.chain_of xs)), (SList.It None).
  split; [reflexivity|]. split; [reflexivity|]. rewrite !sl_iter_incr.
  rewrite drop_all. cbn [SList.chain_of].
  rewrite (drop_S _ _ _ Hx). cbn [SList.chain_of].
  split; [reflexivity|]. split; [reflexivity|]. split; [reflexivity|].
  split; reflexivity.
Qed.

Lemma slist_iterator_walk_witness :
  exists b e,
    SList.begin (SList.mk (SList.chain_of [5; 6]) 2)
    = Ok b (SList.mk (SList.chain_of [5; 6]) 2) /\
    SList.end_ (SList.mk (SList.chain_of [5; 6]) 2)
    = Ok e (SList.mk (SList.chain_of [5; 6]) 2) /\
    SList.neq (Nat.iter 1 SList.incr b) e = true /\
    SList.deref (Nat.iter 1 SList.incr b) (SList.mk (SList.chain_of [5; 6]) 2)
    = Ok 6 (SList.mk (SList.chain_of [5; 6]) 2) /\
    Nat.iter (List.length [5; 6]) SList.incr b = e /\
    SList.neq (Nat.iter (List.length [5; 6]) SList.incr b) e = false /\
    SList.deref e (SList.mk (SList.chain_of [5; 6]) 2) = Undefined.
Proof.
  refine (slist_iterator_walk (SList.mk (SList.chain_of [5; 6]) 2) [5; 6] 1 6 _ _).
  - split; [reflexivity|]. split; [reflexivity|]. vm_compute. discriminate.
  - reflexivity.
Defined.

(** X15. On a doubly linked list whose chain is made of the nodes [lxs],
    with [l] the node at the index [i] and [x] its value: [i] increments
    of [begin()] end normally at the iterator that points to [l]; it
    differs from [end()], and [*] of it is [x] and changes nothing; [*] of
    [end()], a null pointer, is undefined. *)
Theorem dlist_iterator_walk {T} (hp : DList.heap T) d lxs i l x :
  DList.owns hp d lxs -> lxs !! i = Some (l, x) ->
  exists b e,
    DList.begin (hp, d) = Ok b (hp, d) /\ DList.end_ (hp, d) = Ok e (hp, d) /\
    DList.advance i b (hp, d) = Ok (DList.It (Some l)) (hp, d) /\
    DList.neq (DList.It (Some l)) e = true /\
    DList.deref (DList.It (Some l)) (hp, d) = Ok x (hp, d) /\
    DList.deref e (hp, d) = Undefined.
Proof.
  intros (Hseg & _) Hl. pose proof (lookup_lt_Some _ _ _ Hl) as Hi.
  exists (DList.It (DList.head d)), (DList.It None).
  split; [reflexivity|]. split; [reflexivity|]. split.
  - rewrite (dl_advance_to hp d lxs None i None _ Hseg) by lia.
    unfold DList.ptr_at. rewrite Hl. reflexivity.
  - split; [reflexivity|]. split; [|reflexivity].
    pose proof (DListFacts.dl_seg_lookup _ _ _ _ _ _ _ _ Hseg Hl) as Hnode.
    unfold DList.deref. cbn [DList.ptr].
    mstep (apply DListFacts.dl_node_ok; exact Hnode). reflexivity.
Qed.

Lemma dlist_iterator_walk_witness :
  exists b e,
    DList.begin ((main_world DoublyChain).1, DList.mk (Some 13%nat) 10)
    = Ok b ((main_world DoublyChain).1, DList.mk (Some 13%nat) 10) /\
    DList.end_ ((main_world DoublyChain).1, DList.mk (Some 13%nat) 10)
    = Ok e ((main_world DoublyChain).1, DList.mk (Some 13%nat) 10) /\
    DList.advance 3 b ((main_world DoublyChain).1, DList.mk (Some 13%nat) 10)
    = Ok (DList.It (Some 16%nat)) ((main_world DoublyChain).1, DList.mk (Some 13%nat) 10) /\
    DList.neq (DList.It (Some 16%nat)) e = true /\
    DList.deref (DList.It (Some 16%nat))
      ((main_world DoublyChain).1, DList.mk (Some 13%nat) 10)
    = Ok 3 ((main_world DoublyChain).1, DList.mk (Some 13%nat) 10) /\
    DList.deref e ((main_world DoublyChain).1, DList.mk (Some 13%nat) 10) = Undefined.
Proof.
  refine (dlist_iterator_walk (main_world DoublyChain).1 (DList.mk (Some 13%nat) 10)
            [(13%nat, 10); (14%nat, 0); (15%nat, 1); (16%nat, 3); (17%nat, 20);
             (18%nat, 5); (19%nat, 7); (20%nat, 8); (21%nat, 9); (22%nat, 30)]
            3 16%nat 3 _ _).
  - exact main_d4_owns.
  - reflexivity.
Defined.

(** ** What a declaration and a move leave *)

(** X16. For the two chains, in a world a program reaches, with [a] a
    list that stores [xs] and [b] another object: after the move
    constructor of [b] from [a], and after the move assignment to a list
    [b] from [a], the list [a] that was moved from takes elements again:
    [a.push_back(x)] ends normally, [a] then has the one element [x], and
    [b] still has [xs]. *)
Theorem moved_from_chain_takes_elements {T} `{Printable T} k (w : world (impl k)) a b xs x :
  k <> DynamicArray -> reachable (impl k) w -> a <> b ->
  iterate (impl k) a w = Ok xs w ->
  (exists w' w'',
     move_ctor (impl k) b a w = Ok tt w' /\ push_back (impl k) a x w' = Ok tt w'' /\
     iterate (impl k) a w'' = Ok [x] w'' /\ iterate (impl k) b w'' = Ok xs w'') /\
  (forall ys, iterate (impl k) b w = Ok ys w ->
     exists w' w'',
       move_assign (impl k) b a w = Ok tt w' /\ push_back (impl k) a x w' = Ok tt w'' /\
       iterate (impl k) a w'' = Ok [x] w'' /\ iterate (impl k) b w'' = Ok xs w'').
Proof.
  intros Hk Hreach Hne Ha. pose proof (reachable_valid k w Hreach) as Hval.
  pose proof (law_iterate_inv k w w a xs Hval Ha) as Hsa.
  assert (Hroom : forall w', moved_from_state k w' a -> has_room k w' a).
  { intros w' Hm. destruct k; [congruence| |]; simpl in *; eexists; (split; [exact Hm|]);
      vm_compute; reflexivity. }
  assert (Hpush : forall cmd w',
            run (impl k) cmd w = Ok tt w' -> valid (impl k) w' ->
            stores (impl k) w' b xs -> stores (impl k) w' a [] ->
            moved_from_state k w' a ->
            exists w'', push_back (impl k) a x w' = Ok tt w'' /\
                        iterate (impl k) a w'' = Ok [x] w'' /\
                        iterate (impl k) b w'' = Ok xs w'').
  { intros cmd w' Hrun Hval' Hb' Ha' Hm.
    assert (Hreach' : reachable (impl k) w')
      by exact (reachable_step (impl k) w cmd w' Hreach (or_introl Hrun)).
    destruct (law_insert_room k w' a [] x 0 Hreach' Ha' (Hroom w' Hm) (le_n _))
      as (w'' & Hins).
    destruct (law_observe k w' a [] Ha') as (_ & Hsize & _).
    cbn [List.length] in Hsize.
    rewrite (law_insert_at_size k w' a x _ Hval' Hsize) in Hins.
    exists w''. split; [exact Hins|].
    destruct (law_apply k w' w'' a (PushBack x) [] Hval' Ha' Hins) as (_ & Ha'' & Hframe).
    split; [apply (law_observe k w'' a _ Ha'')|].
    apply (law_observe k w'' b xs). apply Hframe; [congruence|exact Hb']. }
  split.
  - destruct (law_move_ctor k w a b xs Hval Hne Hsa) as (w' & Hrun & Hval' & Hb' & Ha' & Hm).
    destruct (Hpush (MoveCtor b a) w' Hrun Hval' Hb' Ha' Hm) as (w'' & ? & ? & ?).
    exists w', w''. auto.
  - intros ys Hb. pose proof (law_iterate_inv k w w b ys Hval Hb) as Hsb.
    destruct (law_move_assign k w a b xs ys Hval Hne Hsa Hsb)
      as (w' & Hrun & Hval' & Hb' & Ha' & Hm).
    destruct (Hpush (MoveAssign b a) w' Hrun Hval' Hb' Ha' Hm) as (w'' & ? & ? & ?).
    exists w', w''. auto.
Qed.

Lemma moved_from_chain_takes_elements_witness :
  exists w' w'',
    move_ctor (impl SinglyChain) 5%nat 4%nat (main_world SinglyChain) = Ok tt w' /\
    push_back (impl SinglyChain) 4%nat 99 w' = Ok tt w'' /\
    iterate (impl SinglyChain) 4%nat w'' = Ok [99] w'' /\
    iterate (impl SinglyChain) 5%nat w'' = Ok [10; 0; 1; 3; 20; 5; 7; 8; 9; 30] w''.
Proof.
  refine (proj1 (moved_from_chain_takes_elements SinglyChain (main_world SinglyChain)
                   4%nat 5%nat [10; 0; 1; 3; 20; 5; 7; 8; 9; 30] 99 _ _ _ _)).
  - discriminate.
  - apply main_world_reachable.
  - lia.
  - vm_compute. reflexivity.
Defined.

Lemma law_throws_at k {T} `{Printable T} (w : world (impl k)) this n pos :
  valid (impl k) w -> size (impl k) this w = Ok n w -> pos < 0 \/ pos >= n ->
  erase (impl k) this pos w = Throw w /\ subscript (impl k) this pos w = Throw w.
Proof.
  intros Hval Hsize Hpos. destruct k; simpl in *.
  - apply VecLaws.vec_w_size_inv in Hsize as (v & Hv & <- & _).
    split; (eapply on_Throw_same; [exact Hv|]).
    + apply VecFacts.vec_erase_throw. lia.
    + apply VecFacts.vec_subscript_throw. lia.
  - apply SListLaws.sl_w_size_inv in Hsize as (v & Hv & <- & _).
    split; (eapply on_Throw_same; [exact Hv|]).
    + apply SListFacts.sl_erase_throw. lia.
    + apply SListFacts.sl_subscript_throw. lia.
  - apply DListLaws.dl_w_size_inv in Hsize as (d & Hd & <-).
    split; (eapply DListFacts.dl_on_Throw_same; [exact Hd|]).
    + apply DListFacts.dl_erase_throw. lia.
    + apply DListFacts.dl_subscript_throw. lia.
Qed.

(** X17. For each of the three kinds, in a world a program reaches: the
    declaration of a container ends normally and the container is empty:
    [size()] is 0, the iteration visits nothing, [print()] writes the
    newline alone, [erase] and [operator[]] end in [std::out_of_range] at
    every position, and there is room for an element. *)
Theorem new_container_is_empty {T} `{Printable T} k (w : world (impl k)) this pos :
  reachable (impl k) w ->
  exists w1,
    construct (impl k) this w = Ok tt w1 /\
    size (impl k) this w1 = Ok 0 w1 /\ iterate (impl k) this w1 = Ok [] w1 /\
    print (impl k) this w1 = Ok newline w1 /\
    erase (impl k) this pos w1 = Throw w1 /\ subscript (impl k) this pos w1 = Throw w1 /\
    has_room k w1 this.
Proof.
  intros Hreach. pose proof (reachable_valid k w Hreach) as Hval.
  assert (Hc : exists w1, construct (impl k) this w = Ok tt w1 /\
                          stores (impl k) w1 this [] /\ has_room k w1 this).
  { destruct k; simpl in w, Hval |- *.
    - destruct (VecLaws.vec_w_construct w this Hval) as (Hrun & _ & Hst).
      eexists. split; [exact Hrun|]. split; [exact Hst|].
      exists Vec.ctor. split; [apply lookup_insert_eq|]. split; [discriminate|reflexivity].
    - destruct (SListLaws.sl_w_construct w this Hval) as (Hrun & _ & Hst).
      eexists. split; [exact Hrun|]. split; [exact Hst|].
      exists SList.ctor. split; [apply lookup_insert_eq|reflexivity].
    - destruct (DListLaws.dl_w_construct w this Hval) as (Hrun & _ & Hst).
      eexists. split; [exact Hrun|]. split; [exact Hst|].
      exists DList.ctor. split; [apply lookup_insert_eq|reflexivity]. }
  destruct Hc as (w1 & Hrun & Hst & Hroom). exists w1. split; [exact Hrun|].
  destruct (law_observe k w1 this [] Hst) as (Hit & Hsize & Hprint & _).
  cbn [List.length] in Hsize.
  split; [exact Hsize|]. split; [exact Hit|]. split; [exact Hprint|].
  pose proof (law_run_valid k w w1 (Construct this) Hreach (or_introl Hrun)) as Hval1.
  destruct (law_throws_at k w1 this 0 pos Hval1 Hsize ltac:(lia)) as (He & Hs).
  auto.
Qed.

Lemma new_container_is_empty_witness :
  exists w1,
    construct (impl DynamicArray) 7%nat (main_world DynamicArray) = Ok tt w1 /\
    size (impl DynamicArray) 7%nat w1 = Ok 0 w1 /\
    iterate (impl DynamicArray) 7%nat w1 = Ok [] w1 /\
    print (impl DynamicArray) 7%nat w1 = Ok newline w1 /\
    erase (impl DynamicArray) 7%nat 0 w1 = Throw w1 /\
    subscript (impl DynamicArray) 7%nat 0 w1 = Throw w1 /\
    has_room DynamicArray w1 7%nat.
Proof.
  refine (new_container_is_empty DynamicArray (main_world DynamicArray) 7%nat 0 _).
  apply main_world_reachable.
Defined.

(** X18. A vector is declared and takes the elements of [S], at most
    [2 ^ 30] of them, by [push_back]: every call ends normally, and the
    capacity is then the least power of two that is not below the number
    of the elements: it is [2 ^ j] with [j] from 0 to 30, the elements
    fit, and half of it would not hold them (or [j] is 0). *)
Theorem array_capacity_after_appends {T} `{Printable T}
    (w : gmap nat (Vec.myvector T)) this (S : list T) :
  Z.of_nat (List.length S) <= 2 ^ 30 ->
  exists w1 w2 v j,
    construct (impl DynamicArray) this w = Ok tt w1 /\
    push_all (impl DynamicArray) this S w1 = Ok tt w2 /\
    w2 !! this = Some v /\ Vec.length v = Z.of_nat (List.length S) /\
    Vec.capacity v = 2 ^ j /\ 0 <= j <= 30 /\
    Z.of_nat (List.length S) <= 2 ^ j /\
    (j = 0 \/ 2 ^ (j - 1) < Z.of_nat (List.length S)).
Proof.
  intros Hlen.
  destruct (VecLaws.vec_w_push_all S (<[this := Vec.ctor]> w) this Vec.ctor [] 0)
    as (v' & j' & Hrun & Hv' & Hcap & Hj & Htight).
  { apply lookup_insert_eq. }
  { apply VecFacts.vec_holds_ctor. }
  { reflexivity. }
  { lia. }
  { left. reflexivity. }
  { simpl. exact Hlen. }
  exists (<[this := Vec.ctor]> w), (<[this := v']> (<[this := Vec.ctor]> w)), v', j'.
  split; [reflexivity|]. split; [exact Hrun|].
  split; [exact (lookup_insert_eq (<[this := Vec.ctor]> w) this v')|].
  destruct Hv' as (rest & _ & Hn & Hc & _). simpl in Hn, Hc, Htight.
  split; [exact Hn|]. split; [exact Hcap|]. split; [exact Hj|].
  split; [lia|exact Htight].
Qed.

Lemma array_capacity_after_appends_witness :
  exists w1 w2 v j,
    construct (impl DynamicArray) 1%nat ∅ = Ok tt w1 /\
    push_all (impl DynamicArray) 1%nat [1; 2; 3; 4; 5] w1 = Ok tt w2 /\
    w2 !! 1%nat = Some v /\ Vec.length v = Z.of_nat (List.length [1; 2; 3; 4; 5]) /\
    Vec.capacity v = 2 ^ j /\ 0 <= j <= 30 /\
    Z.of_nat (List.length [1; 2; 3; 4; 5]) <= 2 ^ j /\
    (j = 0 \/ 2 ^ (j - 1) < Z.of_nat (List.length [1; 2; 3; 4; 5])).
Proof.
  refine (array_capacity_after_appends (∅ : gmap nat (Vec.myvector Z)) 1%nat
            [1; 2; 3; 4; 5] _).
  vm_compute. discriminate.
Defined.

(** ** The sequences that a program leaves *)

Module ModelFacts.
Import VecFacts VecLaws SListFacts SListLaws DListFacts DListLaws.
Import VecMore SListMore DListMore.
Section facts.
Context {T : Type} `{Printable T}.

(** An [insert] that throws was given a position out of range. *)
Lemma vec_insert_Throw_range (v : Vec.myvector T) xs x pos v' :
  Vec.holds v xs -> Vec.insert (Vec.Outside x) pos v = Throw v' -> pos < 0 \/ pos > Vec.length v.
Proof.
  intros Hv Hins. pose proof Hv as (rest & _ & Hn & _).
  destruct (Z_lt_dec pos 0) as [Hneg|Hnn]; [left; exact Hneg|].
  destruct (Z_gt_dec pos (Vec.length v)) as [Hbig|Hle]; [right; exact Hbig|].
  exfalso. destruct (vec_can_grow_dec v) as [Hg|Hg].
  - destruct (vec_insert_spec v xs x (Z.to_nat pos) Hv Hg) as (v'' & Hins' & _); [lia|].
    rewrite Z2Nat.id in Hins' by lia. congruence.
  - rewrite (vec_insert_no_growth v xs) in Hins by (assumption || lia). discriminate.
Qed.

Lemma sl_insert_Throw_range (l : SList.slist T) xs x pos l' :
  SList.holds l xs -> SList.insert x pos l = Throw l' -> pos < 0 \/ pos > SList.length l.
Proof.
  intros Hv Hins. pose proof Hv as (_ & Hn & Hmax).
  destruct (Z_lt_dec pos 0) as [Hneg|Hnn]; [left; exact Hneg|].
  destruct (Z_gt_dec pos (SList.length l)) as [Hbig|Hle]; [right; exact Hbig|].
  exfalso.
  rewrite <- (Z2Nat.id pos), (sl_insert_run l xs) in Hins by (assumption || lia).
  destruct (Z_lt_dec (SList.length l) INT_MAX) as [Hroom|Hfull].
  - rewrite sl_incr_length in Hins by lia. discriminate.
  - rewrite sl_incr_length_overflow in Hins by lia. discriminate.
Qed.

Lemma dl_insert_Throw_range (hp : DList.heap T) d lxs x pos s :
  DList.heap_ok hp -> DList.owns hp d lxs ->
  DList.insert x pos (hp, d) = Throw s -> pos < 0 \/ pos > DList.length d.
Proof.
  intros Hok Hown Hrun. pose proof Hown as (_ & _ & Hn & Hmax).
  destruct (Z_lt_dec pos 0) as [Hneg|Hnn]; [left; exact Hneg|].
  destruct (Z_gt_dec pos (DList.length d)) as [Hbig|Hle]; [right; exact Hbig|].
  exfalso. rewrite <- (Z2Nat.id pos) in Hrun by lia.
  destruct (dl_insert_run hp d lxs x (Z.to_nat pos) Hok Hown ltac:(lia))
    as (hp'' & hd'' & Hrun' & _).
  rewrite Hrun' in Hrun.
  destruct (Z_lt_dec (DList.length d) INT_MAX) as [Hroom|Hfull].
  - rewrite dl_incr_length in Hrun by lia. discriminate.
  - rewrite dl_incr_length_overflow in Hrun by lia. discriminate.
Qed.

Lemma law_insert_Throw_range k (w w' : world (impl k)) this xs x pos :
  valid (impl k) w -> stores (impl k) w this xs ->
  insert (impl k) this x pos w = Throw w' ->
  pos < 0 \/ pos > Z.of_nat (List.length xs).
Proof.
  intros Hval Hst Hrun. destruct k; simpl in *.
  - destruct Hst as (v & Hv & Hxs).
    apply on_inv_Throw in Hrun as (o & o' & Ho & Hm & _).
    rewrite Hv in Ho. injection Ho as <-.
    pose proof Hxs as (rest & _ & Hn & _). rewrite <- Hn.
    eapply vec_insert_Throw_range; eassumption.
  - destruct Hst as (v & Hv & Hxs).
    apply on_inv_Throw in Hrun as (o & o' & Ho & Hm & _).
    rewrite Hv in Ho. injection Ho as <-.
    pose proof Hxs as (_ & Hn & _). rewrite <- Hn.
    eapply sl_insert_Throw_range; eassumption.
  - destruct Hst as (d & lxs & Hd & Hown & <-).
    apply dl_on_inv_Throw in Hrun as (o & s & Ho & Hm & _).
    rewrite Hd in Ho. injection Ho as <-.
    pose proof Hown as (_ & _ & Hn & _). rewrite length_fmap, <- Hn.
    eapply dl_insert_Throw_range; [apply Hval|exact Hown|exact Hm].
Qed.

(** A change that ends, normally or in an exception, was asked of an
    object of the world. *)
Lemma law_apply_declared k (w w' : world (impl k)) this m :
  valid (impl k) w ->
  apply (impl k) m this w = Ok tt w' \/ apply (impl k) m this w = Throw w' ->
  exists xs, stores (impl k) w this xs.
Proof.
  intros Hval Hrun. destruct k.
  - assert (Hv : exists v, w !! this = Some v).
    { destruct m; simpl in Hrun;
        (destruct Hrun as [Hrun|Hrun];
         [apply on_inv in Hrun as (v & _ & Hv & _)
         |apply on_inv_Throw in Hrun as (v & _ & Hv & _)]); eauto. }
    destruct Hv as (v & Hv). exact (vec_w_stored w this v Hval Hv).
  - assert (Hv : exists v, w !! this = Some v).
    { destruct m; simpl in Hrun;
        (destruct Hrun as [Hrun|Hrun];
         [apply on_inv in Hrun as (v & _ & Hv & _)
         |apply on_inv_Throw in Hrun as (v & _ & Hv & _)]); eauto. }
    destruct Hv as (v & Hv). exact (sl_w_stored w this v Hval Hv).
  - assert (Hv : exists d, w.2 !! this = Some d).
    { destruct m; simpl in Hrun;
        (destruct Hrun as [Hrun|Hrun];
         [apply dl_on_inv in Hrun as (v & _ & Hv & _)
         |apply dl_on_inv_Throw in Hrun as (v & _ & Hv & _)]); eauto. }
    destruct Hv as (v & Hv). exact (dl_w_stored w this v Hval Hv).
Qed.

(** What a change does, by its position. *)
Lemma law_apply_cases k (w w' : world (impl k)) this m :
  valid (impl k) w ->
  apply (impl k) m this w = Ok tt w' \/ apply (impl k) m this w = Throw w' ->
  exists xs,
    stores (impl k) w this xs /\
    ((apply (impl k) m this w = Ok tt w' /\
      in_range m (Z.of_nat (List.length xs)) = true /\
      stores (impl k) w' this (mutate m xs)) \/
     (apply (impl k) m this w = Throw w' /\ w' = w /\
      in_range m (Z.of_nat (List.length xs)) = false)).
Proof.
  intros Hval Hrun.
  destruct (law_apply_declared k w w' this m Hval Hrun) as (xs & Hst).
  exists xs. split; [exact Hst|].
  destruct (law_observe k w this xs Hst) as (_ & Hsize & _).
  destruct (in_range m (Z.of_nat (List.length xs))) eqn:Hin.
  - left. destruct Hrun as [Hrun|Hrun].
    + split; [exact Hrun|]. split; [reflexivity|].
      apply (proj1 (proj2 (law_apply k w w' this m xs Hval Hst Hrun))).
    + exfalso. destruct m as [x|x pos|pos|index x]; simpl in Hin, Hrun.
      * rewrite <- (law_insert_at_size k w this x _ Hval Hsize) in Hrun.
        destruct (law_insert_Throw_range k w w' this xs x _ Hval Hst Hrun); lia.
      * destruct (law_insert_Throw_range k w w' this xs x _ Hval Hst Hrun); lia.
      * destruct (law_in_place k w this xs (Z.to_nat pos) Hval Hst ltac:(lia))
          as ((w'' & Hok) & _).
        rewrite Z2Nat.id in Hok by lia. congruence.
      * destruct (law_in_place k w this xs (Z.to_nat index) Hval Hst ltac:(lia))
          as (_ & Hass).
        destruct (Hass x) as (w'' & Hok).
        rewrite Z2Nat.id in Hok by lia. congruence.
  - right. destruct Hrun as [Hrun|Hrun].
    + exfalso. destruct m as [x|x pos|pos|index x]; simpl in Hin, Hrun.
      * discriminate.
      * rewrite (proj1 (law_throws k w this _ x pos Hsize)) in Hrun by lia.
        discriminate.
      * rewrite (proj1 (law_throws_at k w this _ pos Hval Hsize ltac:(lia))) in Hrun.
        discriminate.
      * destruct (proj2 (law_throws k w this _ x index Hsize) ltac:(lia))
          as (_ & _ & Hthrow).
        rewrite Hthrow in Hrun. discriminate.
    + split; [exact Hrun|]. split; [|reflexivity].
      exact (law_apply_Throw k w w' this m Hval Hrun).
Qed.

Lemma law_construct k (w : world (impl k)) this :
  valid (impl k) w ->
  exists w1, construct (impl k) this w = Ok tt w1 /\ stores (impl k) w1 this [].
Proof.
  intros Hval. destruct k.
  - destruct (vec_w_construct w this Hval) as (Hrun & _ & Hst). eauto.
  - destruct (sl_w_construct w this Hval) as (Hrun & _ & Hst). eauto.
  - destruct (dl_w_construct w this Hval) as (Hrun & _ & Hst). eauto.
Qed.

(** The objects that a move or a copy between two objects names are
    objects of the world. *)
Lemma law_two_declared k (w w' : world (impl k)) this other :
  valid (impl k) w -> this <> other ->
  (move_ctor (impl k) this other w = Ok tt w' \/
   move_ctor (impl k) this other w = Throw w' ->
   exists xs, stores (impl k) w other xs) /\
  (move_assign (impl k) this other w = Ok tt w' \/
   move_assign (impl k) this other w = Throw w' ->
   exists xs ys, stores (impl k) w other xs /\ stores (impl k) w this ys) /\
  (copy_assign (impl k) this other w = Ok tt w' \/
   copy_assign (impl k) this other w = Throw w' ->
   exists xs ys, stores (impl k) w other xs /\ stores (impl k) w this ys).
Proof.
  intros Hval Hne. destruct k; (split; [|split]); intros Hrun.
  - destruct (vec_move_ctor_inv w this other w' Hval Hrun)
      as [(? & _)|(_ & src & Hsrc & _)]; [congruence|].
    exact (vec_w_stored w other src Hval Hsrc).
  - destruct (vec_move_assign_inv w this other w' Hval Hrun)
      as [(? & _)|(_ & o & src & Ho & Hsrc & _)]; [congruence|].
    destruct (vec_w_stored w other src Hval Hsrc) as (xs & ?).
    destruct (vec_w_stored w this o Hval Ho) as (ys & ?). eauto.
  - destruct (vec_copy_assign_inv w this other w' Hval Hrun)
      as [(? & _)|(_ & o & src & xs0 & Ho & Hsrc & _)]; [congruence|].
    destruct (vec_w_stored w other src Hval Hsrc) as (xs & ?).
    destruct (vec_w_stored w this o Hval Ho) as (ys & ?). eauto.
  - destruct (sl_move_ctor_inv w this other w' Hval Hrun)
      as [(? & _)|(_ & src & Hsrc & _)]; [congruence|].
    exact (sl_w_stored w other src Hval Hsrc).
  - destruct (sl_move_assign_inv w this other w' Hval Hrun)
      as [(? & _)|(_ & o & src & Ho & Hsrc & _)]; [congruence|].
    destruct (sl_w_stored w other src Hval Hsrc) as (xs & ?).
    destruct (sl_w_stored w this o Hval Ho) as (ys & ?). eauto.
  - destruct (sl_copy_assign_inv w this other w' Hval Hrun)
      as [(? & _)|(_ & o & src & xs0 & Ho & Hsrc & _)]; [congruence|].
    destruct (sl_w_stored w other src Hval Hsrc) as (xs & ?).
    destruct (sl_w_stored w this o Hval Ho) as (ys & ?). eauto.
  - destruct (dl_move_ctor_inv w this other w' Hval Hrun)
      as [(? & _)|(_ & dl & ll & Hl & _)]; [congruence|].
    exact (dl_w_stored w other dl Hval Hl).
  - destruct (dl_move_assign_inv w this other w' Hval Hrun)
      as [(? & _)|(_ & dt & dl & lt & ll & Ht & Hl & _)]; [congruence|].
    destruct (dl_w_stored w other dl Hval Hl) as (xs & ?).
    destruct (dl_w_stored w this dt Hval Ht) as (ys & ?). eauto.
  - destruct (dl_copy_assign_inv w this other w' Hval Hrun)
      as [(? & _)|(_ & dt & dl & ll & dt' & lt' & Ht & Hl & _)]; [congruence|].
    destruct (dl_w_stored w other dl Hval Hl) as (xs & ?).
    destruct (dl_w_stored w this dt Hval Ht) as (ys & ?). eauto.
Qed.

(** The move constructor of an object from itself leaves it empty. *)
Lemma law_move_ctor_self k (w w' : world (impl k)) a :
  valid (impl k) w ->
  move_ctor (impl k) a a w = Ok tt w' \/ move_ctor (impl k) a a w = Throw w' ->
  stores (impl k) w' a [].
Proof.
  intros Hval Hrun. destruct k.
  - destruct (vec_move_ctor_inv w a a w' Hval Hrun) as [(_ & ->)|(? & _)]; [|congruence].
    exists Vec.moved_from. split; [apply lookup_insert_eq|apply vec_holds_moved_from].
  - destruct (sl_move_ctor_inv w a a w' Hval Hrun) as [(_ & ->)|(? & _)]; [|congruence].
    exists SList.ctor. split; [apply lookup_insert_eq|apply sl_holds_ctor].
  - destruct (dl_move_ctor_inv w a a w' Hval Hrun) as [(_ & ->)|(? & _)]; [|congruence].
    exists DList.ctor, []. simpl. split; [apply lookup_insert_eq|].
    split; [apply dl_owns_nil|reflexivity].
Qed.

(** The objects of the doubly linked lists that a step does not name. *)
Lemma dl_run_objs_frame (w w' : DList.heap T * gmap nat DList.dlist) cmd u :
  valid (impl DoublyChain) w ->
  run (impl DoublyChain) cmd w = Ok tt w' \/ run (impl DoublyChain) cmd w = Throw w' ->
  u ∉ names cmd -> w'.2 !! u = w.2 !! u.
Proof.
  intros Hval Hrun Hu.
  destruct cmd as [this|this m|this other|this other|this other];
    simpl in Hrun, Hu.
  - destruct Hrun as [Hrun|Hrun]; [|discriminate]. destruct w as [hp objs].
    injection Hrun as <-. simpl. apply lookup_insert_ne. set_solver.
  - destruct Hrun as [Hrun|Hrun].
    + destruct (dl_apply_exact w this m w' Hval Hrun)
        as (d & lxs & d' & lxs' & _ & _ & Hw' & _).
      rewrite Hw'. apply lookup_insert_ne. set_solver.
    + rewrite (dl_w_apply_Throw w this m w' Hval Hrun). reflexivity.
  - destruct (dl_move_ctor_inv w this other w' Hval Hrun)
      as [(-> & ->)|(Hne & dl & ll & _ & _ & Hw' & _)].
    + simpl. apply lookup_insert_ne. set_solver.
    + rewrite Hw', !lookup_insert_ne by set_solver. reflexivity.
  - destruct (dl_move_assign_inv w this other w' Hval Hrun)
      as [(-> & ->)|(Hne & dt & dl & lt & ll & _ & _ & _ & _ & Hw' & _)];
      [reflexivity|].
    rewrite Hw', !lookup_insert_ne by set_solver. reflexivity.
  - destruct (dl_copy_assign_inv w this other w' Hval Hrun)
      as [(-> & ->)|(Hne & dt & dl & ll & dt' & lt' & _ & _ & _ & Hw' & _)];
      [reflexivity|].
    rewrite Hw'. apply lookup_insert_ne. set_solver.
Qed.

(** An object that a step does not name holds after it what it held. *)
Lemma law_frame_iff k (w w' : world (impl k)) cmd u xs :
  valid (impl k) w ->
  run (impl k) cmd w = Ok tt w' \/ run (impl k) cmd w = Throw w' ->
  u ∉ names cmd -> (stores (impl k) w' u xs <-> stores (impl k) w u xs).
Proof.
  intros Hval Hrun Hu. split; [|apply (law_frame k w w' cmd u xs Hval Hrun Hu)].
  intros Hst'. destruct k.
  - destruct Hst' as (v & Hv & Hxs). exists v. split; [|exact Hxs].
    simpl in *. rewrite <- (vec_run_frame w cmd w' u Hval Hrun Hu). exact Hv.
  - destruct Hst' as (v & Hv & Hxs). exists v. split; [|exact Hxs].
    simpl in *. rewrite <- (sl_run_frame w cmd w' u Hval Hrun Hu). exact Hv.
  - destruct Hst' as (d & lxs & Hd & Hown & Hvals).
    simpl in Hd. rewrite (dl_run_objs_frame w w' cmd u Hval Hrun Hu) in Hd.
    destruct (dl_w_stored w u d Hval Hd) as (ys & Hst).
    pose proof (law_frame DoublyChain w w' cmd u ys Hval Hrun Hu Hst) as Hst2.
    assert (Hst1 : stores (impl DoublyChain) w' u xs).
    { exists d, lxs. simpl. rewrite (dl_run_objs_frame w w' cmd u Hval Hrun Hu). auto. }
    rewrite (law_stores_inj DoublyChain w' u xs ys Hst1 Hst2). exact Hst.
Qed.

(** The sequences after a step, from the objects that it names. *)
Lemma rep_step k (w w' : world (impl k)) cmd seqs seqs' :
  valid (impl k) w ->
  run (impl k) cmd w = Ok tt w' \/ run (impl k) cmd w = Throw w' ->
  represents k w seqs ->
  (forall u, u ∉ names cmd -> seqs' !! u = seqs !! u) ->
  (forall u, u ∈ names cmd -> exists ys, stores (impl k) w' u ys /\ seqs' !! u = Some ys) ->
  represents k w' seqs'.
Proof.
  intros Hval Hrun Hrep Hout Hin u xs.
  destruct (decide (u ∈ names cmd)) as [Hu|Hu].
  - destruct (Hin u Hu) as (ys & Hst & Hlook). rewrite Hlook. split.
    + intros Hst'. rewrite (law_stores_inj k w' u xs ys Hst' Hst). reflexivity.
    + intros [= <-]. exact Hst.
  - rewrite (law_frame_iff k w w' cmd u xs Hval Hrun Hu), (Hout u Hu). apply Hrep.
Qed.

(** A step of a program does to the sequences of the objects what
    [model_run] says. *)
Lemma law_model_step k (w w' : world (impl k)) cmd seqs :
  valid (impl k) w ->
  run (impl k) cmd w = Ok tt w' \/ run (impl k) cmd w = Throw w' ->
  represents k w seqs -> represents k w' (model_run cmd seqs).
Proof.
  intros Hval Hrun Hrep.
  destruct cmd as [this|this m|this other|this other|this other].
  - destruct (law_construct k w this Hval) as (w1 & Hc & Hst1).
    assert (w' = w1) as ->.
    { simpl in Hrun. destruct Hrun as [Hrun|Hrun]; congruence. }
    apply (rep_step k w w1 (Construct this) seqs _ Hval Hrun Hrep); simpl.
    + intros u Hu. apply lookup_insert_ne. set_solver.
    + intros u Hu. assert (u = this) as -> by set_solver.
      exists []. split; [exact Hst1|apply lookup_insert_eq].
  - destruct (law_apply_cases k w w' this m Hval Hrun)
      as (xs & Hst & [(Hok & Hin & Hst')|(Hthrow & -> & Hin)]);
      pose proof (proj1 (Hrep this xs) Hst) as Hlook; simpl; rewrite Hlook, Hin.
    + apply (rep_step k w w' (Mutate this m) seqs _ Hval Hrun Hrep); simpl.
      * intros u Hu. apply lookup_insert_ne. set_solver.
      * intros u Hu. assert (u = this) as -> by set_solver.
        exists (mutate m xs). split; [exact Hst'|apply lookup_insert_eq].
    + exact Hrep.
  - destruct (decide (this = other)) as [->|Hne].
    + pose proof (law_move_ctor_self k w w' other Hval Hrun) as Hst'.
      apply (rep_step k w w' (MoveCtor other other) seqs _ Hval Hrun Hrep); simpl.
      * intros u Hu. rewrite lookup_insert_ne by set_solver.
        destruct (seqs !! other); [apply lookup_insert_ne; set_solver|reflexivity].
      * intros u Hu. assert (u = other) as -> by set_solver.
        exists []. split; [exact Hst'|apply lookup_insert_eq].
    + destruct (proj1 (law_two_declared k w w' this other Hval Hne) Hrun) as (xs & Hso).
      pose proof (proj1 (Hrep other xs) Hso) as Hlook.
      destruct (law_move_ctor k w other this xs Hval ltac:(congruence) Hso)
        as (w'' & Hok & _ & Hst & Hso' & _).
      assert (w' = w'') as ->.
      { simpl in Hrun. destruct Hrun as [Hrun|Hrun]; congruence. }
      apply (rep_step k w w'' (MoveCtor this other) seqs _ Hval Hrun Hrep);
        simpl; rewrite Hlook.
      * intros u Hu. rewrite !lookup_insert_ne by set_solver. reflexivity.
      * intros u Hu. destruct (decide (u = other)) as [->|Huo].
        { exists []. split; [exact Hso'|apply lookup_insert_eq]. }
        assert (u = this) as -> by set_solver.
        exists xs. split; [exact Hst|].
        rewrite lookup_insert_ne by congruence. apply lookup_insert_eq.
  - simpl. destruct (decide (this = other)) as [->|Hne].
    + assert (w' = w) as ->.
      { pose proof (proj2 (law_self_assign k w other)) as Hself. simpl in Hrun.
        destruct Hrun as [Hrun|Hrun]; congruence. }
      exact Hrep.
    + destruct (proj1 (proj2 (law_two_declared k w w' this other Hval Hne)) Hrun)
        as (xs & ys & Hso & Hst0).
      pose proof (proj1 (Hrep other xs) Hso) as Hlook.
      destruct (law_move_assign k w other this xs ys Hval ltac:(congruence) Hso Hst0)
        as (w'' & Hok & _ & Hst & Hso' & _).
      assert (w' = w'') as ->.
      { simpl in Hrun. destruct Hrun as [Hrun|Hrun]; congruence. }
      rewrite Hlook.
      apply (rep_step k w w'' (MoveAssign this other) seqs _ Hval Hrun Hrep); simpl.
      * intros u Hu. rewrite !lookup_insert_ne by set_solver. reflexivity.
      * intros u Hu. destruct (decide (u = other)) as [->|Huo].
        { exists []. split; [exact Hso'|apply lookup_insert_eq]. }
        assert (u = this) as -> by set_solver.
        exists xs. split; [exact Hst|].
        rewrite lookup_insert_ne by congruence. apply lookup_insert_eq.
  - simpl. destruct (decide (this = other)) as [->|Hne].
    + assert (w' = w) as ->.
      { pose proof (proj1 (law_self_assign k w other)) as Hself. simpl in Hrun.
        destruct Hrun as [Hrun|Hrun]; congruence. }
      exact Hrep.
    + destruct (proj2 (proj2 (law_two_declared k w w' this other Hval Hne)) Hrun)
        as (xs & ys & Hso & Hst0).
      pose proof (proj1 (Hrep other xs) Hso) as Hlook.
      destruct (law_copy_assign k w other this xs ys Hval ltac:(congruence) Hso Hst0)
        as (w'' & Hok & _ & Hst & Hso' & _).
      assert (w' = w'') as ->.
      { simpl in Hrun. destruct Hrun as [Hrun|Hrun]; congruence. }
      rewrite Hlook.
      apply (rep_step k w w'' (CopyAssign this other) seqs _ Hval Hrun Hrep); simpl.
      * intros u Hu. rewrite !lookup_insert_ne by set_solver. reflexivity.
      * intros u Hu. destruct (decide (u = other)) as [->|Huo].
        { exists xs. split; [exact Hso'|].
          rewrite lookup_insert_ne by congruence. exact Hlook. }
        assert (u = this) as -> by set_solver.
        exists xs. split; [exact Hst|apply lookup_insert_eq].
Qed.

Lemma rep_start k : represents k (no_objects (impl k)) ∅.
Proof.
  intros u xs. rewrite lookup_empty. split; [|discriminate].
  destruct k; simpl.
  - intros (v & Hv & _). rewrite lookup_empty in Hv. discriminate.
  - intros (v & Hv & _). rewrite lookup_empty in Hv. discriminate.
  - intros (d & lxs & Hd & _). simpl in Hd. rewrite lookup_empty in Hd. discriminate.
Qed.

(** A program does to the sequences of the objects what [model_exec]
    says, when each of its steps ends. *)
Lemma law_model_exec k cmds : forall (w : world (impl k)) seqs,
  reachable (impl k) w -> represents k w seqs -> defined_from (impl k) w cmds ->
  reachable (impl k) (exec_from (impl k) w cmds) /\
  represents k (exec_from (impl k) w cmds) (model_exec cmds seqs).
Proof.
  induction cmds as [|cmd cmds IH]; intros w seqs Hreach Hrep Hdef; [auto|].
  cbn [defined_from exec_from model_exec fold_left] in *.
  destruct (run (impl k) cmd w) as [[] w'|w'| |] eqn:Hrun; try contradiction.
  - apply IH; [|apply (law_model_step k w w' cmd seqs)|exact Hdef]; auto.
    + exact (reachable_step (impl k) w cmd w' Hreach (or_introl Hrun)).
    + apply reachable_valid. exact Hreach.
  - apply IH; [|apply (law_model_step k w w' cmd seqs)|exact Hdef]; auto.
    + exact (reachable_step (impl k) w cmd w' Hreach (or_intror Hrun)).
    + apply reachable_valid. exact Hreach.
Qed.

Lemma law_program k cmds u xs :
  defined_from (impl k) (no_objects (impl k)) cmds ->
  (iterate (impl k) u (exec (impl k) cmds) = Ok xs (exec (impl k) cmds) <->
   model_exec cmds ∅ !! u = Some xs).
Proof.
  intros Hdef.
  destruct (law_model_exec k cmds (no_objects (impl k)) ∅ (reachable_start _)
              (rep_start k) Hdef) as (Hreach & Hrep).
  fold (exec (impl k) cmds) in Hreach, Hrep. rewrite <- (Hrep u xs). split.
  - apply law_iterate_inv, reachable_valid, Hreach.
  - intros Hst. apply (law_observe k _ u xs Hst).
Qed.
End facts.
End ModelFacts.

(** X19. For each of the three kinds and every program (declarations,
    [push_back], [insert], [erase], assignments through [operator[]], move
    constructions, move and copy assignments, with the exceptions
    caught; the element given to a [push_back] or an [insert] a value
    that is no cell of the container it changes) whose steps all end, none
    with undefined behaviour: the elements that the iteration from [begin()] to [end()] visits in an
    object at the end are the sequence that the plain model of sequences
    computes for it: a change in range is done on the sequence, a change
    out of range does nothing, a move gives the sequence to the target
    and leaves the source empty, a copy gives the target the sequence of
    the source, an assignment of an object to itself does nothing. *)
Theorem program_leaves_model_sequences {T} `{Printable T} k
    (cmds : list (command (T := T))) u xs :
  defined_from (impl k) (no_objects (impl k)) cmds ->
  (iterate (impl k) u (exec (impl k) cmds) = Ok xs (exec (impl k) cmds) <->
   model_exec cmds ∅ !! u = Some xs).
Proof. apply ModelFacts.law_program. Qed.

Lemma program_leaves_model_sequences_witness :
  iterate (impl DynamicArray) 2%nat (exec (impl DynamicArray) main_steps)
  = Ok [10; 0; 1; 3; 20; 5; 7; 8; 9; 30] (exec (impl DynamicArray) main_steps) <->
  model_exec main_steps ∅ !! 2%nat = Some [10; 0; 1; 3; 20; 5; 7; 8; 9; 30].
Proof.
  refine (program_leaves_model_sequences DynamicArray main_steps 2%nat
            [10; 0; 1; 3; 20; 5; 7; 8; 9; 30] _).
  vm_compute. exact I.
Defined.

(** X20. A program (the element given to a [push_back] or an [insert] a
    value that is no cell of the container it changes) whose steps all
    end, none with undefined behaviour, both with the containers of one
    kind and with those of another, leaves the same elements in each object with either kind: the
    iteration visits the same sequence, [print()] writes the same line
    and [size()] gives the same number. *)
Theorem kinds_agree {T} `{Printable T} k1 k2 (cmds : list (command (T := T))) u xs :
  defined_from (impl k1) (no_objects (impl k1)) cmds ->
  defined_from (impl k2) (no_objects (impl k2)) cmds ->
  iterate (impl k1) u (exec (impl k1) cmds) = Ok xs (exec (impl k1) cmds) ->
  iterate (impl k2) u (exec (impl k2) cmds) = Ok xs (exec (impl k2) cmds) /\
  print (impl k1) u (exec (impl k1) cmds) = Ok (line xs) (exec (impl k1) cmds) /\
  print (impl k2) u (exec (impl k2) cmds) = Ok (line xs) (exec (impl k2) cmds) /\
  size (impl k1) u (exec (impl k1) cmds)
  = Ok (Z.of_nat (List.length xs)) (exec (impl k1) cmds) /\
  size (impl k2) u (exec (impl k2) cmds)
  = Ok (Z.of_nat (List.length xs)) (exec (impl k2) cmds).
Proof.
  intros Hd1 Hd2 Hit1.
  pose proof (proj1 (ModelFacts.law_program k1 cmds u xs Hd1) Hit1) as Hmodel.
  pose proof (proj2 (ModelFacts.law_program k2 cmds u xs Hd2) Hmodel) as Hit2.
  split; [exact Hit2|].
  pose proof (law_iterate_inv k1 _ _ u xs
                (reachable_valid k1 _ (exec_reachable (impl k1) cmds)) Hit1) as Hst1.
  pose proof (law_iterate_inv k2 _ _ u xs
                (reachable_valid k2 _ (exec_reachable (impl k2) cmds)) Hit2) as Hst2.
  destruct (law_observe k1 _ u xs Hst1) as (_ & Hsize1 & Hprint1 & _).
  destruct (law_observe k2 _ u xs Hst2) as (_ & Hsize2 & Hprint2 & _).
  auto.
Qed.

Lemma kinds_agree_witness :
  iterate (impl DoublyChain) 4%nat (exec (impl DoublyChain) main_steps)
  = Ok [10; 0; 1; 3; 20; 5; 7; 8; 9; 30] (exec (impl DoublyChain) main_steps) /\
  print (impl DynamicArray) 4%nat (exec (impl DynamicArray) main_steps)
  = Ok (line [10; 0; 1; 3; 20; 5; 7; 8; 9; 30]) (exec (impl DynamicArray) main_steps) /\
  print (impl DoublyChain) 4%nat (exec (impl DoublyChain) main_steps)
  = Ok (line [10; 0; 1; 3; 20; 5; 7; 8; 9; 30]) (exec (impl DoublyChain) main_steps) /\
  size (impl DynamicArray) 4%nat (exec (impl DynamicArray) main_steps)
  = Ok (Z.of_nat (List.length [10; 0; 1; 3; 20; 5; 7; 8; 9; 30]))
      (exec (impl DynamicArray) main_steps) /\
  size (impl DoublyChain) 4%nat (exec (impl DoublyChain) main_steps)
  = Ok (Z.of_nat (List.length [10; 0; 1; 3; 20; 5; 7; 8; 9; 30]))
      (exec (impl DoublyChain) main_steps).
Proof.
  refine (kinds_agree DynamicArray DoublyChain main_steps 4%nat
            [10; 0; 1; 3; 20; 5; 7; 8; 9; 30] _ _ _).
  - vm_compute. exact I.
  - vm_compute. exact I.
  - vm_compute. reflexivity.
Defined.

(** ** Programs that have no undefined behaviour *)

Module SafetyFacts.
Import VecFacts VecLaws VecMore ModelFacts.
Section facts.
Context {T : Type} `{Printable T}.

Lemma mutate_length (m : mutation T) xs :
  in_range m (Z.of_nat (List.length xs)) = true ->
  (List.length (mutate m xs) <= List.length xs + 1)%nat.
Proof.
  destruct m as [x|x pos|pos|index x]; simpl; intros Hin.
  - rewrite length_app. simpl. lia.
  - rewrite length_app. cbn [List.length]. rewrite length_take, length_drop. lia.
  - rewrite length_app, length_take, length_drop. lia.
  - rewrite length_insert. lia.
Qed.

(** A change of an object that has room ends, normally or in the
    exception. *)
Lemma law_apply_ends k (w : world (impl k)) this m xs :
  reachable (impl k) w -> stores (impl k) w this xs -> has_room k w this ->
  exists w', apply (impl k) m this w = Ok tt w' \/ apply (impl k) m this w = Throw w'.
Proof.
  intros Hreach Hst Hroom. pose proof (reachable_valid k w Hreach) as Hval.
  destruct (law_observe k w this xs Hst) as (_ & Hsize & _).
  destruct (in_range m (Z.of_nat (List.length xs))) eqn:Hin;
    destruct m as [x|x pos|pos|index x]; simpl in Hin |- *.
  - destruct (law_insert_room k w this xs x (List.length xs) Hreach Hst Hroom (le_n _))
      as (w' & Hrun).
    rewrite (law_insert_at_size k w this x _ Hval Hsize) in Hrun. eauto.
  - destruct (law_insert_room k w this xs x (Z.to_nat pos) Hreach Hst Hroom ltac:(lia))
      as (w' & Hrun).
    rewrite Z2Nat.id in Hrun by lia. eauto.
  - destruct (law_in_place k w this xs (Z.to_nat pos) Hval Hst ltac:(lia))
      as ((w' & Hrun) & _).
    rewrite Z2Nat.id in Hrun by lia. eauto.
  - destruct (law_in_place k w this xs (Z.to_nat index) Hval Hst ltac:(lia))
      as (_ & Hass).
    destruct (Hass x) as (w' & Hrun). rewrite Z2Nat.id in Hrun by lia. eauto.
  - discriminate.
  - exists w. right. apply (law_throws k w this _ x pos Hsize). lia.
  - exists w. right. apply (law_throws_at k w this _ pos Hval Hsize). lia.
  - exists w. right. apply (law_throws k w this _ x index Hsize). lia.
Qed.

Lemma chain_room k (w : world (impl k)) u xs :
  k <> DynamicArray -> stores (impl k) w u xs ->
  Z.of_nat (List.length xs) < INT_MAX -> has_room k w u.
Proof.
  intros Hk Hst Hlen. destruct k; [congruence| |]; simpl in *.
  - destruct Hst as (l & Hl & _ & Hn & _). exists l. split; [exact Hl|lia].
  - destruct Hst as (d & lxs & Hd & (_ & _ & Hn & _) & <-). exists d.
    split; [exact Hd|]. rewrite length_fmap in Hlen. lia.
Qed.

(** The invariant of a program of lists that assigns none: the objects
    declared hold sequences of at most [n] elements. *)
Lemma chain_defined k cmds : forall (w : world (impl k)) declared (n : Z),
  k <> DynamicArray -> 0 <= n -> reachable (impl k) w ->
  (forall u, u ∈ declared ->
     exists xs, stores (impl k) w u xs /\ Z.of_nat (List.length xs) <= n) ->
  scoped no_assignment declared cmds = true ->
  n + Z.of_nat (List.length cmds) < INT_MAX ->
  defined_from (impl k) w cmds.
Proof.
  induction cmds as [|cmd cmds IH]; intros w declared n Hk Hn Hreach Hinv Hsc Hlen;
    [exact I|].
  pose proof (reachable_valid k w Hreach) as Hval.
  cbn [List.length] in Hlen.
  assert (Hnext : forall w' declared',
            run (impl k) cmd w = Ok tt w' \/ run (impl k) cmd w = Throw w' ->
            scoped no_assignment declared' cmds = true ->
            (forall u, u ∈ declared' ->
               exists xs, stores (impl k) w' u xs /\ Z.of_nat (List.length xs) <= n + 1) ->
            defined_from (impl k) w (cmd :: cmds)).
  { intros w' declared' Hrun Hsc' Hinv'. cbn [defined_from].
    assert (Hd : defined_from (impl k) w' cmds).
    { apply (IH w' declared' (n + 1) Hk); [lia| |exact Hinv'|exact Hsc'|lia].
      exact (reachable_step (impl k) w cmd w' Hreach Hrun). }
    destruct Hrun as [-> | ->]; exact Hd. }
  assert (Hkeep : forall w' u,
            run (impl k) cmd w = Ok tt w' \/ run (impl k) cmd w = Throw w' ->
            u ∈ declared -> u ∉ names cmd ->
            exists xs, stores (impl k) w' u xs /\ Z.of_nat (List.length xs) <= n + 1).
  { intros w' u Hrun Hu Hnot. destruct (Hinv u Hu) as (xs & Hst & Hle).
    exists xs. split; [apply (law_frame k w w' cmd u xs Hval Hrun Hnot Hst)|lia]. }
  destruct cmd as [this|this m|this other|this other|this other];
    cbn [scoped no_assignment andb] in Hsc; try discriminate;
    repeat match goal with
           | Hb : _ && _ = true |- _ => apply andb_true_iff in Hb as [? ?]
           end;
    repeat match goal with
           | Hb : bool_decide _ = true |- _ => apply bool_decide_eq_true in Hb
           end.
  - destruct (law_construct k w this Hval) as (w1 & Hrun & Hst1).
    apply (Hnext w1 (this :: declared) (or_introl Hrun) ltac:(assumption)).
    intros u Hu. destruct (decide (u = this)) as [->|Hne].
    + exists []. split; [exact Hst1|simpl; lia].
    + apply (Hkeep w1 u (or_introl Hrun)); simpl; set_solver.
  - destruct (Hinv this ltac:(assumption)) as (xs & Hst & Hle).
    destruct (law_apply_ends k w this m xs Hreach Hst
                (chain_room k w this xs Hk Hst ltac:(lia))) as (w' & Hrun).
    apply (Hnext w' declared Hrun ltac:(assumption)).
    intros u Hu. destruct (decide (u = this)) as [->|Hne].
    + destruct (law_apply_cases k w w' this m Hval Hrun)
        as (xs0 & Hst0 & [(_ & Hin & Hst')|(_ & -> & _)]).
      * rewrite (law_stores_inj k w this xs0 xs Hst0 Hst) in *.
        exists (mutate m xs). split; [exact Hst'|].
        pose proof (mutate_length m xs Hin). lia.
      * exists xs. split; [exact Hst|lia].
    + apply (Hkeep w' u Hrun Hu). simpl. set_solver.
  - destruct (Hinv other ltac:(assumption)) as (xs & Hso & Hle).
    destruct (law_move_ctor k w other this xs Hval ltac:(congruence) Hso)
      as (w' & Hrun & _ & Hst' & Hso' & _).
    apply (Hnext w' (this :: declared) (or_introl Hrun) ltac:(assumption)).
    intros u Hu. destruct (decide (u = this)) as [->|Hne];
      [exists xs; split; [exact Hst'|lia]|].
    destruct (decide (u = other)) as [->|Hne'];
      [exists []; split; [exact Hso'|simpl; lia]|].
    apply (Hkeep w' u (or_introl Hrun)); simpl; set_solver.
Qed.

(** The invariant of a program of vectors that moves none: the objects
    declared hold sequences of at most [n] elements, and their capacity
    is not 0. *)
Lemma vec_defined cmds : forall (w : gmap nat (Vec.myvector T)) declared (n : Z),
  0 <= n -> reachable (impl DynamicArray) w ->
  (forall u, u ∈ declared ->
     exists v xs, w !! u = Some v /\ Vec.holds v xs /\
                  Z.of_nat (List.length xs) <= n /\ Vec.capacity v <> 0) ->
  scoped no_move declared cmds = true ->
  n + Z.of_nat (List.length cmds) < 2 ^ 30 ->
  defined_from (impl DynamicArray) w cmds.
Proof.
  induction cmds as [|cmd cmds IH]; intros w declared n Hn Hreach Hinv Hsc Hlen;
    [exact I|].
  pose proof (reachable_valid DynamicArray w Hreach) as Hval.
  cbn [List.length] in Hlen.
  assert (Hnext : forall (w' : gmap nat (Vec.myvector T)) declared',
            run (impl DynamicArray) cmd w = Ok tt w' \/
            run (impl DynamicArray) cmd w = Throw w' ->
            scoped no_move declared' cmds = true ->
            (forall u, u ∈ declared' ->
               exists v xs, w' !! u = Some v /\ Vec.holds v xs /\
                            Z.of_nat (List.length xs) <= n + 1 /\ Vec.capacity v <> 0) ->
            defined_from (impl DynamicArray) w (cmd :: cmds)).
  { intros w' declared' Hrun Hsc' Hinv'. cbn [defined_from].
    assert (Hd : defined_from (impl DynamicArray) w' cmds).
    { apply (IH w' declared' (n + 1)); [lia| |exact Hinv'|exact Hsc'|lia].
      exact (reachable_step (impl DynamicArray) w cmd w' Hreach Hrun). }
    destruct Hrun as [-> | ->]; exact Hd. }
  assert (Hkeep : forall (w' : gmap nat (Vec.myvector T)) u,
            run (impl DynamicArray) cmd w = Ok tt w' \/
            run (impl DynamicArray) cmd w = Throw w' ->
            u ∈ declared -> u ∉ names cmd ->
            exists v xs, w' !! u = Some v /\ Vec.holds v xs /\
                         Z.of_nat (List.length xs) <= n + 1 /\ Vec.capacity v <> 0).
  { intros w' u Hrun Hu Hnot. destruct (Hinv u Hu) as (v & xs & Hv & Hxs & Hle & Hc).
    exists v, xs.
    split; [exact (eq_trans (vec_run_frame w cmd w' u Hval Hrun Hnot) Hv)|].
    split; [exact Hxs|]. split; [lia|exact Hc]. }
  destruct cmd as [this|this m|this other|this other|this other];
    cbn [scoped no_move andb] in Hsc; try discriminate;
    repeat match goal with
           | Hb : _ && _ = true |- _ => apply andb_true_iff in Hb as [? ?]
           end;
    repeat match goal with
           | Hb : bool_decide _ = true |- _ => apply bool_decide_eq_true in Hb
           end.
  - destruct (vec_w_construct w this Hval) as (Hrun & _).
    apply (Hnext _ (this :: declared) (or_introl Hrun) ltac:(assumption)).
    intros u Hu. destruct (decide (u = this)) as [->|Hne].
    + exists Vec.ctor, []. rewrite lookup_insert_eq.
      split; [reflexivity|]. split; [apply vec_holds_ctor|]. split; [simpl; lia|].
      discriminate.
    + apply (Hkeep _ u (or_introl Hrun)); simpl; set_solver.
  - destruct (Hinv this ltac:(assumption)) as (v & xs & Hv & Hxs & Hle & Hc).
    assert (Hst : stores (impl DynamicArray) w this xs) by (exists v; auto).
    assert (Hroom : has_room DynamicArray w this).
    { exists v. split; [exact Hv|]. split; [exact Hc|].
      destruct Hxs as (rest & _ & Hl & _). lia. }
    destruct (law_apply_ends DynamicArray w this m xs Hreach Hst Hroom) as (w' & Hrun).
    apply (Hnext w' declared Hrun ltac:(assumption)).
    intros u Hu. destruct (decide (u = this)) as [->|Hne];
      [|apply (Hkeep w' u Hrun Hu); simpl; set_solver].
    destruct Hrun as [Hrun|Hrun].
    + destruct (vec_apply_inv w this m w' Hval Hrun)
        as (v0 & v' & xs0 & Hv0 & -> & Hh & Hh' & Hm).
      simpl in Hv0. rewrite Hv in Hv0. injection Hv0 as <-.
      exists v', (mutate m xs0). rewrite lookup_insert_eq.
      split; [reflexivity|]. split; [exact Hh'|].
      pose proof Hh as (r0 & _ & Hl0 & _). pose proof Hh' as (r' & _ & Hl' & _).
      pose proof Hxs as (r & _ & Hl & _).
      destruct m as [x|x pos|pos|index x]; destruct Hm as (Hm1 & Hm2);
        try (destruct Hm2 as (Hm2 & Hm3)); unfold Vec.grown in *;
        try (destruct (Vec.length v =? Vec.capacity v)); split; lia.
    + rewrite (vec_w_apply_Throw w this m w' Hval Hrun).
      exists v, xs. split; [exact Hv|]. split; [exact Hxs|]. split; [lia|exact Hc].
  - destruct (decide (this = other)) as [->|Hne].
    { apply (Hnext w declared
               (or_introl (proj1 (law_self_assign DynamicArray w other)))
               ltac:(assumption)).
      intros u Hu. destruct (Hinv u Hu) as (v & xs & ? & ? & ? & ?).
      exists v, xs. split; [auto|]. split; [auto|]. split; [lia|auto]. }
    destruct (Hinv other ltac:(assumption)) as (vo & xs & Hvo & Hxo & Hle & Hco).
    destruct (Hinv this ltac:(assumption)) as (vt & ys & Hvt & Hxt & _ & _).
    destruct (law_copy_assign DynamicArray w other this xs ys Hval ltac:(congruence)
                ltac:(exists vo; auto) ltac:(exists vt; auto))
      as (w' & Hrun & _ & (v' & Hv' & Hh') & _ & _).
    apply (Hnext w' declared (or_introl Hrun) ltac:(assumption)).
    intros u Hu. destruct (decide (u = this)) as [->|Hne1].
    + exists v', xs. split; [exact Hv'|]. split; [exact Hh'|]. split; [lia|].
      destruct (vec_copy_assign_inv w this other w' Hval (or_introl Hrun))
        as [(? & _)|(_ & o & src & xs0 & _ & Hsrc & _ & ->)]; [congruence|].
      simpl in Hv', Hsrc. rewrite lookup_insert_eq in Hv'. injection Hv' as <-.
      rewrite Hvo in Hsrc. injection Hsrc as <-. exact Hco.
    + destruct (decide (u = other)) as [->|Hne2].
      * destruct (vec_copy_assign_inv w this other w' Hval (or_introl Hrun))
          as [(? & _)|(_ & o & src & xs0 & _ & _ & _ & ->)]; [congruence|].
        exists vo, xs. rewrite lookup_insert_ne by congruence.
        split; [exact Hvo|]. split; [exact Hxo|]. split; [lia|exact Hco].
      * apply (Hkeep w' u (or_introl Hrun) Hu); simpl; set_solver.
Qed.
End facts.
End SafetyFacts.

(** X21. In a program of singly linked lists, or of doubly linked lists,
    that names only objects declared before (by a declaration or by the
    move constructor from another object), assigns no list (has no move
    assignment and no copy assignment, so that no step of it destroys a
    chain of nodes) and has fewer than [INT_MAX] steps, no step has
    undefined behaviour: each step (a declaration, [push_back], [insert],
    [erase], an assignment through [operator[]] at any position, a move
    construction, also on lists that were moved from) ends normally or in
    the exception [std::out_of_range]. This is about the steps: the
    destruction of the lists where their scope ends is none of them. *)
Theorem list_programs_are_defined {T} `{Printable T} k (cmds : list (command (T := T))) :
  k <> DynamicArray -> scoped no_assignment [] cmds = true ->
  Z.of_nat (List.length cmds) < INT_MAX ->
  defined_from (impl k) (no_objects (impl k)) cmds.
Proof.
  intros Hk Hsc Hlen.
  apply (SafetyFacts.chain_defined k cmds (no_objects (impl k)) [] 0 Hk);
    [lia|apply reachable_start| |exact Hsc|lia].
  intros u Hu. set_solver.
Qed.

Lemma list_programs_are_defined_witness :
  defined_from (impl SinglyChain) (no_objects (impl SinglyChain))
    [Construct 1%nat; Mutate 1%nat (PushBack 5); Mutate 1%nat (Insert 4 0);
     MoveCtor 2%nat 1%nat; Mutate 1%nat (PushBack 99); Mutate 1%nat (Erase 5);
     Mutate 2%nat (Erase 0)] /\
  (exec (impl SinglyChain)
     [Construct 1%nat; Mutate 1%nat (PushBack 5); Mutate 1%nat (Insert 4 0);
      MoveCtor 2%nat 1%nat; Mutate 1%nat (PushBack 99); Mutate 1%nat (Erase 5);
      Mutate 2%nat (Erase 0)]) !! 1%nat
  = Some (SList.mk (SList.chain_of [99]) 1).
Proof.
  split; [|vm_compute; reflexivity].
  refine (list_programs_are_defined SinglyChain
            [Construct 1%nat; Mutate 1%nat (PushBack 5); Mutate 1%nat (Insert 4 0);
             MoveCtor 2%nat 1%nat; Mutate 1%nat (PushBack 99); Mutate 1%nat (Erase 5);
             Mutate 2%nat (Erase 0)] _ _ _).
  - discriminate.
  - vm_compute. reflexivity.
  - vm_compute. reflexivity.
Defined.

(** X22. A program of vectors that names only objects declared before,
    moves no vector (it has no move construction and no move assignment),
    gives [push_back] and [insert] elements that are not cells of the
    vector they change, and has fewer than [2 ^ 30] steps has no undefined
    behaviour: each of its steps (declarations, [push_back], [insert],
    [erase], assignments through [operator[]] at any position, copy
    assignments) ends normally or in the exception [std::out_of_range];
    every growth of a buffer finds a capacity that is not 0 to double. *)
Theorem array_programs_without_moves_are_defined {T} `{Printable T}
    (cmds : list (command (T := T))) :
  scoped no_move [] cmds = true -> Z.of_nat (List.length cmds) < 2 ^ 30 ->
  defined_from (impl DynamicArray) (no_objects (impl DynamicArray)) cmds.
Proof.
  intros Hsc Hlen.
  apply (SafetyFacts.vec_defined cmds (no_objects (impl DynamicArray)) [] 0);
    [lia|apply reachable_start| |exact Hsc|lia].
  intros u Hu. set_solver.
Qed.

Lemma array_programs_without_moves_are_defined_witness :
  defined_from (impl DynamicArray) (no_objects (impl DynamicArray))
    [Construct 1%nat; Mutate 1%nat (PushBack 5); Mutate 1%nat (PushBack 6);
     Construct 2%nat; CopyAssign 2%nat 1%nat; Mutate 2%nat (Erase 7);
     Mutate 2%nat (Insert 4 0)] /\
  (exec (impl DynamicArray)
     [Construct 1%nat; Mutate 1%nat (PushBack 5); Mutate 1%nat (PushBack 6);
      Construct 2%nat; CopyAssign 2%nat 1%nat; Mutate 2%nat (Erase 7);
      Mutate 2%nat (Insert 4 0)]) !! 2%nat
  = Some (Vec.mk (Some [Some 4; Some 5; Some 6; None]) 4 3).
Proof.
  split; [|vm_compute; reflexivity].
  refine (array_programs_without_moves_are_defined
            [Construct 1%nat; Mutate 1%nat (PushBack 5); Mutate 1%nat (PushBack 6);
             Construct 2%nat; CopyAssign 2%nat 1%nat; Mutate 2%nat (Erase 7);
             Mutate 2%nat (Insert 4 0)] _ _).
  - vm_compute. reflexivity.
  - vm_compute. reflexivity.
Defined.

(** ** The back references, the moves and the round trip *)

Module LinkFacts.
Import DListFacts DListLaws DListMore.
Section facts.
Context {T : Type} `{Printable T}.
Implicit Types (hp : DList.heap T) (lxs : list (nat * T)).

Lemma dl_ptr_at_lookup lxs k : DList.ptr_at lxs None k = fst <$> lxs !! k.
Proof. unfold DList.ptr_at. destruct (lxs !! k); reflexivity. Qed.

Lemma dl_last_loc_take lxs j :
  (j < List.length lxs)%nat -> DList.last_loc None (take (S j) lxs) = fst <$> lxs !! j.
Proof.
  intros Hj. unfold DList.last_loc. rewrite last_lookup, length_take.
  replace (Init.Nat.pred (S j `min` List.length lxs)) with j by lia.
  rewrite lookup_take_lt by lia. destruct (lxs !! j); reflexivity.
Qed.

(** The chain of a list, node by node. *)
Lemma dl_owns_links hp d lxs : DList.owns hp d lxs -> DList.links hp d lxs.
Proof.
  intros (Hseg & _). split.
  - rewrite (dl_seg_start _ _ _ _ _ Hseg). apply dl_ptr_at_lookup.
  - intros i l x Hl. pose proof (lookup_lt_Some _ _ _ Hl) as Hi.
    rewrite (dl_seg_lookup _ _ _ _ _ _ _ _ Hseg Hl), dl_ptr_at_lookup.
    destruct i as [|j]; [reflexivity|].
    rewrite dl_last_loc_take by lia. reflexivity.
Qed.
End facts.
End LinkFacts.

(** C1. In every world that a program of doubly linked lists reaches, by
    declarations, [push_back], [insert] and [erase] at any position,
    assignments by index, moves and copies, and also where a call ended in
    an exception: every node [n] on the walk from the head of a list whose
    [next] is a node [m] is named by [prev] of [m], and [m] is alive; [prev]
    of the head is null; and the lists of the world that the next step of
    the program comes to are linked back in the same way. What a change
    does to the nodes: with [lxs] the nodes of the list [this], a
    [push_back], [insert], [erase] or assignment by index that ends
    normally leaves the list with the nodes [lxs'] that are written out
    for it, and these are linked as [DList.links] says: each to the node
    after it by [next] and to the node before it by [prev], the first with
    a null [prev]. In particular, after [erase] the node that was erased
    is destroyed, [prev] of the node behind it names the node before it,
    or is null where the head was erased, in which case that node is the
    head, and [next] of the node before it names the node behind it. The
    copy assignment leaves the target with nodes linked in this way that
    hold the values of the source. *)
Theorem dlist_back_references {T} `{Printable T}
    (w : DList.heap T * gmap nat DList.dlist) this d lxs :
  reachable (impl DoublyChain) w -> w.2 !! this = Some d -> DList.owns w.1 d lxs ->
  DList.back_linked w.1 d /\ DList.head_unlinked w.1 d /\ DList.links w.1 d lxs /\
  (forall cmd (w' : DList.heap T * gmap nat DList.dlist),
     run (impl DoublyChain) cmd w = Ok tt w' \/ run (impl DoublyChain) cmd w = Throw w' ->
     forall that d', w'.2 !! that = Some d' ->
       DList.back_linked w'.1 d' /\ DList.head_unlinked w'.1 d') /\
  (forall m (w' : DList.heap T * gmap nat DList.dlist),
     apply (impl DoublyChain) m this w = Ok tt w' ->
     exists d' lxs',
       w'.2 !! this = Some d' /\ DList.links w'.1 d' lxs' /\ NoDup lxs'.*1 /\
       match m with
       | PushBack x => lxs' = lxs ++ [(DList.next_id w.1, x)]
       | Insert x pos =>
           lxs' = take (Z.to_nat pos) lxs
                  ++ (DList.next_id w.1, x) :: drop (Z.to_nat pos) lxs
       | Erase pos => lxs' = take (Z.to_nat pos) lxs ++ drop (S (Z.to_nat pos)) lxs
       | Assign index x =>
           lxs'.*1 = lxs.*1 /\ lxs'.*2 = <[Z.to_nat index := x]> lxs.*2
       end) /\
  (forall p (w' : DList.heap T * gmap nat DList.dlist) l x,
     erase (impl DoublyChain) this (Z.of_nat p) w = Ok tt w' ->
     lxs !! p = Some (l, x) ->
     exists d',
       w'.2 !! this = Some d' /\
       DList.nodes w'.1 !! l = None /\
       (forall m y, lxs !! S p = Some (m, y) ->
          (p = 0%nat -> DList.head d' = Some m) /\
          DList.nodes w'.1 !! m
          = Some (DList.mkNode y (fst <$> lxs !! S (S p))
                    (match p with O => None | S q => fst <$> lxs !! q end))) /\
       (forall q lp xp, p = S q -> lxs !! q = Some (lp, xp) ->
          DList.nodes w'.1 !! lp
          = Some (DList.mkNode xp (fst <$> lxs !! S p)
                    (match q with O => None | S r => fst <$> lxs !! r end)))) /\
  (forall other dl ll (w' : DList.heap T * gmap nat DList.dlist),
     this <> other -> w.2 !! other = Some dl -> DList.owns w.1 dl ll ->
     copy_assign (impl DoublyChain) this other w = Ok tt w' ->
     exists d' lxs',
       w'.2 !! this = Some d' /\ DList.links w'.1 d' lxs' /\ NoDup lxs'.*1 /\
       lxs'.*2 = ll.*2).
Proof.
  intros Hreach Hd Hown. pose proof (reachable_valid DoublyChain w Hreach) as Hval.
  assert (Hlinked : forall (w0 : DList.heap T * gmap nat DList.dlist) that d0,
            reachable (impl DoublyChain) w0 -> w0.2 !! that = Some d0 ->
            DList.back_linked w0.1 d0 /\ DList.head_unlinked w0.1 d0).
  { intros w0 that d0 Hw0 Hd0.
    destruct (proj1 (proj2 (DListLaws.dl_reachable_valid w0 Hw0)) that d0 Hd0)
      as [lxs0 Hown0].
    split.
    - exact (DListLaws.dl_owns_back_linked _ _ _ Hown0).
    - intros l nd. exact (DListLaws.dl_owns_head_prev _ _ _ l nd Hown0). }
  assert (Hchange : forall m (w' : DList.heap T * gmap nat DList.dlist),
            apply (impl DoublyChain) m this w = Ok tt w' ->
            exists d' lxs',
              w'.2 !! this = Some d' /\ DList.owns w'.1 d' lxs' /\
              (forall l, l ∈ lxs.*1 -> l ∉ lxs'.*1 -> DList.nodes w'.1 !! l = None) /\
              match m with
              | PushBack x => lxs' = lxs ++ [(DList.next_id w.1, x)]
              | Insert x pos =>
                  lxs' = take (Z.to_nat pos) lxs
                         ++ (DList.next_id w.1, x) :: drop (Z.to_nat pos) lxs
              | Erase pos => lxs' = take (Z.to_nat pos) lxs ++ drop (S (Z.to_nat pos)) lxs
              | Assign index x =>
                  lxs'.*1 = lxs.*1 /\ lxs'.*2 = <[Z.to_nat index := x]> lxs.*2
              end).
  { intros m w' Hrun.
    destruct (DListMore.dl_apply_exact w this m w' Hval Hrun)
      as (d0 & lxs0 & d' & lxs' & Hd0 & Hown0 & Hobjs & Hown' & _ & Hdead & Hm).
    rewrite Hd in Hd0. injection Hd0 as <-.
    rewrite (DListFacts.dl_owns_det _ _ _ _ Hown0 Hown) in *.
    exists d', lxs'. split; [rewrite Hobjs; apply lookup_insert_eq|].
    split; [exact Hown'|]. split; [intros l Hl; apply Hdead; auto|].
    destruct m as [x|x pos|pos|index x]; [exact Hm|apply Hm|apply Hm|split; apply Hm]. }
  destruct (Hlinked w this d Hreach Hd) as (Hback & Hhead).
  split; [exact Hback|]. split; [exact Hhead|].
  split; [exact (LinkFacts.dl_owns_links _ _ _ Hown)|].
  split; [|split; [|split]].
  - intros cmd w' Hrun that d' Hd'.
    exact (Hlinked w' that d' (reachable_step (impl DoublyChain) w cmd w' Hreach Hrun) Hd').
  - intros m w' Hrun.
    destruct (Hchange m w' Hrun) as (d' & lxs' & Hd' & Hown' & _ & Hm).
    exists d', lxs'. split; [exact Hd'|].
    split; [exact (LinkFacts.dl_owns_links _ _ _ Hown')|].
    split; [apply Hown'|exact Hm].
  - intros p w' l x Hrun Hl.
    destruct (Hchange (Erase (Z.of_nat p)) w' Hrun) as (d' & lxs' & Hd' & Hown' & Hdead & Hm).
    rewrite Nat2Z.id in Hm. subst lxs'.
    pose proof (lookup_lt_Some _ _ _ Hl) as Hp.
    destruct (LinkFacts.dl_owns_links _ _ _ Hown') as (Hhd & Hnode).
    assert (Hat : forall i, (p <= i)%nat ->
              (take p lxs ++ drop (S p) lxs) !! i = lxs !! S i).
    { intros i Hi. rewrite lookup_app_r by (rewrite length_take; lia).
      rewrite length_take, lookup_drop. f_equal. lia. }
    assert (Hbefore : forall i, (i < p)%nat ->
              (take p lxs ++ drop (S p) lxs) !! i = lxs !! i).
    { intros i Hi. rewrite lookup_app_l by (rewrite length_take; lia).
      apply lookup_take_lt. exact Hi. }
    exists d'. split; [exact Hd'|]. split; [|split].
    + apply Hdead.
      * apply list_elem_of_fmap. exists (l, x). split; [reflexivity|].
        eapply list_elem_of_lookup_2; exact Hl.
      * destruct Hown as (_ & Hnd & _).
        rewrite <- (take_drop_middle lxs p (l, x) Hl) in Hnd.
        rewrite fmap_app, fmap_cons in Hnd. apply NoDup_app in Hnd as (_ & Hdisj & Hnd2).
        apply NoDup_cons in Hnd2 as (Hnotin & _). rewrite fmap_app.
        intros [Hin|Hin]%elem_of_app; [exact (Hdisj _ Hin ltac:(set_solver))|exact (Hnotin Hin)].
    + intros m y Hm. split.
      * intros ->. rewrite Hhd, (Hat 0%nat) by lia. rewrite Hm. reflexivity.
      * rewrite (Hnode p m y) by (rewrite Hat by lia; exact Hm).
        rewrite (Hat (S p)) by lia.
        destruct p as [|q]; [reflexivity|]. rewrite (Hbefore q) by lia. reflexivity.
    + intros q lp xp -> Hlp.
      rewrite (Hnode q lp xp) by (rewrite Hbefore by lia; exact Hlp).
      rewrite (Hat (S q)) by lia.
      destruct q as [|r]; [reflexivity|]. rewrite (Hbefore r) by lia. reflexivity.
  - intros other dl ll w' Hne Hdl Hol Hrun.
    destruct (DListMore.dl_copy_assign_inv w this other w' Hval (or_introl Hrun))
      as [(? & _)|(_ & dt & dl0 & ll0 & dt' & lt' & _ & Hdl0 & Hol0 & Hobjs & _ & Hown' & Hvals & _)];
      [congruence|].
    rewrite Hdl in Hdl0. injection Hdl0 as <-.
    rewrite (DListFacts.dl_owns_det _ _ _ _ Hol0 Hol) in *.
    exists dt', lt'. split; [rewrite Hobjs; apply lookup_insert_eq|].
    split; [exact (LinkFacts.dl_owns_links _ _ _ Hown')|]. split; [apply Hown'|exact Hvals].
Qed.

Lemma dlist_back_references_witness :
  DList.nodes (exec (impl DoublyChain) (main_steps ++ [Mutate 4%nat (Erase 3)])).1 !! 16%nat
  = None /\
  DList.nodes (exec (impl DoublyChain) (main_steps ++ [Mutate 4%nat (Erase 3)])).1 !! 17%nat
  = Some (DList.mkNode 20 (Some 18%nat) (Some 15%nat)) /\
  DList.nodes (exec (impl DoublyChain) (main_steps ++ [Mutate 4%nat (Erase 3)])).1 !! 15%nat
  = Some (DList.mkNode 1 (Some 17%nat) (Some 14%nat)).
Proof.
  destruct (proj1 (proj2 (proj2 (proj2 (proj2 (proj2
              (dlist_back_references (main_world DoublyChain) 4%nat
                 (DList.mk (Some 13%nat) 10) _ (main_world_reachable DoublyChain)
                 ltac:(vm_compute; reflexivity) main_d4_owns))))))
              3%nat
              (exec (impl DoublyChain) (main_steps ++ [Mutate 4%nat (Erase 3)]))
              16%nat 3 ltac:(vm_compute; reflexivity) eq_refl)
    as (d' & _ & Hdead & Hsucc & Hpred).
  split; [exact Hdead|]. split.
  - exact (proj2 (Hsucc 17%nat 20 eq_refl)).
  - exact (Hpred 2%nat 15%nat 1 eq_refl eq_refl).
Defined.

Section after_a_move.
Context {T : Type} `{Printable T}.

(** A list that was moved from takes an element. *)
Lemma law_chain_push_after_move k (w : world (impl k)) a b xs x :
  k <> DynamicArray -> reachable (impl k) w -> a <> b ->
  stores (impl k) w b xs -> stores (impl k) w a [] -> moved_from_state k w a ->
  default_state k w a /\
  exists w', push_back (impl k) a x w = Ok tt w' /\
             iterate (impl k) a w' = Ok [x] w' /\ iterate (impl k) b w' = Ok xs w'.
Proof.
  intros Hk Hreach Hne Hb Ha Hm. pose proof (reachable_valid k w Hreach) as Hval.
  split; [destruct k; [congruence|exact Hm|exact Hm]|].
  assert (Hroom : has_room k w a).
  { apply (SafetyFacts.chain_room k w a [] Hk Ha). vm_compute. reflexivity. }
  destruct (law_insert_room k w a [] x 0 Hreach Ha Hroom (le_n _)) as (w' & Hins).
  destruct (law_observe k w a [] Ha) as (_ & Hsize & _). cbn [List.length] in Hsize.
  rewrite (law_insert_at_size k w a x _ Hval Hsize) in Hins.
  exists w'. split; [exact Hins|].
  destruct (law_apply k w w' a (PushBack x) [] Hval Ha Hins) as (_ & Ha' & Hframe).
  split; [apply (law_observe k w' a _ Ha')|].
  apply (law_observe k w' b xs). apply Hframe; [congruence|exact Hb].
Qed.

(** A vector that was moved from takes none. *)
Lemma vec_push_after_move (w : gmap nat (Vec.myvector T)) a (x : T) :
  w !! a = Some Vec.moved_from ->
  w !! a <> Some Vec.ctor /\
  push_back (impl DynamicArray) a x w = Undefined /\
  insert (impl DynamicArray) a x 0 w = Undefined.
Proof.
  intros Hm. split; [rewrite Hm; discriminate|]. split.
  - apply (on_Undefined a _ w Vec.moved_from Hm).
    rewrite <- (VecFacts.vec_insert_at_size Vec.moved_from x); [|simpl; lia].
    apply VecFacts.vec_insert_capacity_0; reflexivity.
  - apply (on_Undefined a _ w Vec.moved_from Hm).
    apply VecFacts.vec_insert_capacity_0; reflexivity.
Qed.

Lemma law_after_move k (w w' : world (impl k)) a b xs x :
  reachable (impl k) w' -> a <> b ->
  stores (impl k) w' b xs -> stores (impl k) w' a [] -> moved_from_state k w' a ->
  iterate (impl k) b w' = Ok xs w' /\
  iterate (impl k) a w' = Ok [] w' /\ size (impl k) a w' = Ok 0 w' /\
  moved_from_state k w' a /\
  (k <> DynamicArray ->
     default_state k w' a /\
     exists w'', push_back (impl k) a x w' = Ok tt w'' /\
                 iterate (impl k) a w'' = Ok [x] w'' /\
                 iterate (impl k) b w'' = Ok xs w'') /\
  (k = DynamicArray ->
     ~ default_state k w' a /\
     push_back (impl k) a x w' = Undefined /\ insert (impl k) a x 0 w' = Undefined).
Proof.
  intros Hreach Hne Hb Ha Hm.
  destruct (law_observe k w' b xs Hb) as (Hitb & _).
  destruct (law_observe k w' a [] Ha) as (Hita & Hsize & _).
  split; [exact Hitb|]. split; [exact Hita|]. split; [exact Hsize|].
  split; [exact Hm|]. split.
  - intros Hk. apply (law_chain_push_after_move k w' a b xs x Hk Hreach Hne Hb Ha Hm).
  - intros Hk. destruct k; try discriminate.
    apply (vec_push_after_move w' a x Hm).
Qed.
End after_a_move.

(** C4. For each of the three kinds, in a world a program reaches, with [a]
    an object that stores [xs] and [b] another object: the move constructor
    of [b] from [a], and the move assignment to an object [b] from [a], end
    normally; then [b] stores [xs], [a] stores nothing and its [size()] is
    0. The members of [a] are a null [head] and [length] 0 for the chains,
    which is the state of a newly declared list: [a.push_back(x)] ends
    normally and [a] then holds [x], with [b] still holding [xs]. For the
    array they are no buffer, [capacity] 0 and [length] 0, which is not the
    state of a newly declared vector (a buffer of one cell and [capacity]
    1), and not a state in which the vector can be used: the behaviour of
    [a.push_back(x)] and of [a.insert(x, 0)] is undefined. *)
Theorem move_leaves_source_empty {T} `{Printable T} k (w : world (impl k)) a b xs x :
  reachable (impl k) w -> a <> b -> iterate (impl k) a w = Ok xs w ->
  (exists w',
     move_ctor (impl k) b a w = Ok tt w' /\
     iterate (impl k) b w' = Ok xs w' /\
     iterate (impl k) a w' = Ok [] w' /\ size (impl k) a w' = Ok 0 w' /\
     moved_from_state k w' a /\
     (k <> DynamicArray ->
        default_state k w' a /\
        exists w'', push_back (impl k) a x w' = Ok tt w'' /\
                    iterate (impl k) a w'' = Ok [x] w'' /\
                    iterate (impl k) b w'' = Ok xs w'') /\
     (k = DynamicArray ->
        ~ default_state k w' a /\
        push_back (impl k) a x w' = Undefined /\ insert (impl k) a x 0 w' = Undefined)) /\
  (forall ys, iterate (impl k) b w = Ok ys w ->
     exists w',
       move_assign (impl k) b a w = Ok tt w' /\
       iterate (impl k) b w' = Ok xs w' /\
       iterate (impl k) a w' = Ok [] w' /\ size (impl k) a w' = Ok 0 w' /\
       moved_from_state k w' a /\
       (k <> DynamicArray ->
          default_state k w' a /\
          exists w'', push_back (impl k) a x w' = Ok tt w'' /\
                      iterate (impl k) a w'' = Ok [x] w'' /\
                      iterate (impl k) b w'' = Ok xs w'') /\
       (k = DynamicArray ->
          ~ default_state k w' a /\
          push_back (impl k) a x w' = Undefined /\ insert (impl k) a x 0 w' = Undefined)).
Proof.
  intros Hreach Hne Ha. pose proof (reachable_valid k w Hreach) as Hval.
  pose proof (law_iterate_inv k w w a xs Hval Ha) as Hsa.
  split.
  - destruct (law_move_ctor k w a b xs Hval Hne Hsa) as (w' & Hrun & _ & Hb' & Ha' & Hst).
    exists w'. split; [exact Hrun|].
    apply (law_after_move k w w' a b xs x); auto.
    exact (reachable_step (impl k) w (MoveCtor b a) w' Hreach (or_introl Hrun)).
  - intros ys Hb. pose proof (law_iterate_inv k w w b ys Hval Hb) as Hsb.
    destruct (law_move_assign k w a b xs ys Hval Hne Hsa Hsb)
      as (w' & Hrun & _ & Hb' & Ha' & Hst).
    exists w'. split; [exact Hrun|].
    apply (law_after_move k w w' a b xs x); auto.
    exact (reachable_step (impl k) w (MoveAssign b a) w' Hreach (or_introl Hrun)).
Qed.

Lemma move_leaves_source_empty_witness :
  exists w',
    move_ctor (impl DynamicArray) 5%nat 2%nat (main_world DynamicArray) = Ok tt w' /\
    iterate (impl DynamicArray) 5%nat w' = Ok [10; 0; 1; 3; 20; 5; 7; 8; 9; 30] w' /\
    size (impl DynamicArray) 2%nat w' = Ok 0 w' /\
    w' !! 2%nat = Some Vec.moved_from /\
    w' !! 2%nat <> Some Vec.ctor /\
    push_back (impl DynamicArray) 2%nat 7 w' = Undefined.
Proof.
  destruct (proj1 (move_leaves_source_empty DynamicArray (main_world DynamicArray)
                     2%nat 5%nat [10; 0; 1; 3; 20; 5; 7; 8; 9; 30] 7
                     (main_world_reachable DynamicArray) ltac:(lia)
                     ltac:(vm_compute; reflexivity)))
    as (w' & Hrun & Hb & _ & Hsize & Hm & _ & Harr).
  destruct (Harr eq_refl) as (Hnd & Hpush & _).
  exists w'. auto 10.
Defined.

Section round_trip.
Context {T : Type} `{Printable T}.

(** After a [push_back] there is room again, as long as the elements are
    fewer than the container can have. *)
Lemma law_room_after_push k (w w' : world (impl k)) this x ys :
  reachable (impl k) w -> has_room k w this ->
  push_back (impl k) this x w = Ok tt w' -> stores (impl k) w' this ys ->
  Z.of_nat (List.length ys) < max_size (impl k) -> has_room k w' this.
Proof.
  intros Hreach Hroom Hrun Hst Hlen. pose proof (reachable_valid k w Hreach) as Hval.
  destruct k.
  - destruct (VecMore.vec_apply_inv w this (PushBack x) w' Hval Hrun)
      as (v & v' & xs & Hv & -> & _ & _ & _ & Hcap & _).
    destruct Hroom as (v0 & Hv0 & Hc0 & _). simpl in Hv, Hv0.
    rewrite Hv in Hv0. injection Hv0 as <-.
    destruct Hst as (v1 & Hv1 & (rest & _ & Hn & _)). simpl in Hv1.
    rewrite lookup_insert_eq in Hv1. injection Hv1 as <-.
    exists v'. split; [exact (lookup_insert_eq (w : gmap nat _) this v')|]. split.
    + rewrite Hcap. unfold Vec.grown.
      destruct (Vec.length v =? Vec.capacity v); lia.
    + change (max_size (impl DynamicArray)) with (2 ^ 30) in Hlen. lia.
  - apply (SafetyFacts.chain_room SinglyChain w' this ys); [discriminate|exact Hst|exact Hlen].
  - apply (SafetyFacts.chain_room DoublyChain w' this ys); [discriminate|exact Hst|exact Hlen].
Qed.

(** The elements of [S] go behind those that a container with room
    holds. *)
Lemma law_push_all_from k this S : forall (w : world (impl k)) xs,
  reachable (impl k) w -> stores (impl k) w this xs ->
  S = [] \/ has_room k w this ->
  Z.of_nat (List.length xs + List.length S) <= max_size (impl k) ->
  exists w', push_all (impl k) this S w = Ok tt w' /\
             reachable (impl k) w' /\ stores (impl k) w' this (xs ++ S).
Proof.
  induction S as [|x S IH]; intros w xs Hreach Hst Hroom Hlen.
  - exists w. rewrite app_nil_r. auto.
  - destruct Hroom as [Hnil|Hroom]; [discriminate|].
    pose proof (reachable_valid k w Hreach) as Hval.
    destruct (law_insert_room k w this xs x (List.length xs) Hreach Hst Hroom (le_n _))
      as (w1 & Hins).
    destruct (law_observe k w this xs Hst) as (_ & Hsize & _).
    rewrite (law_insert_at_size k w this x _ Hval Hsize) in Hins.
    destruct (law_apply k w w1 this (PushBack x) xs Hval Hst Hins) as (_ & Hst1 & _).
    simpl in Hst1.
    assert (Hreach1 : reachable (impl k) w1)
      by exact (reachable_step (impl k) w (Mutate this (PushBack x)) w1 Hreach
                  (or_introl Hins)).
    cbn [List.length] in Hlen.
    destruct (IH w1 (xs ++ [x]) Hreach1 Hst1) as (w' & Hrun & Hreach' & Hst').
    + destruct S as [|y S]; [left; reflexivity|right].
      apply (law_room_after_push k w w1 this x (xs ++ [x]) Hreach Hroom Hins Hst1).
      rewrite length_app. cbn [List.length] in *. lia.
    + rewrite length_app. cbn [List.length]. lia.
    + exists w'. split; [|split; [exact Hreach'|]].
      * cbn [push_all]. rewrite (bind_Ok _ _ _ _ _ Hins). exact Hrun.
      * rewrite <- app_assoc in Hst'. exact Hst'.
Qed.

(** An array of capacity 0 takes no element. *)
Lemma vec_capacity_0_push (w : gmap nat (Vec.myvector T)) this v (x : T) S :
  reachable (impl DynamicArray) w -> w !! this = Some v -> Vec.capacity v = 0 ->
  push_all (impl DynamicArray) this (x :: S) w = Undefined.
Proof.
  intros Hreach Hv Hc. cbn [push_all]. apply bind_Undefined.
  apply (on_Undefined this _ w v Hv).
  destruct (VecLaws.vec_reachable_valid w Hreach this v Hv) as (xs & Hxs).
  pose proof Hxs as (rest & _ & Hn & Hcap & _).
  assert (Hz : Vec.length v = 0) by lia.
  rewrite <- (VecFacts.vec_insert_at_size v x) by lia. rewrite Hz.
  apply VecFacts.vec_insert_capacity_0; [exact Hc|exact Hz].
Qed.
End round_trip.

(** C7, as amended. For each of the three kinds, in a world a program
    reaches, and for a sequence [S] of at most [max_size] elements
    ([2 ^ 30] for the array, [INT_MAX] for the chains): a container is
    declared, [push_back(x)] is called for each [x] of [S] in order and
    every call ends normally; then the iteration from [begin()] to [end()]
    gives [S], and [size()] its length. The same holds from every
    container of such a world that is empty: a list that was moved from,
    a container that [erase] has emptied; for the array its capacity must
    not be 0, unless [S] is empty. *)
Theorem round_trip_within_int_range {T} `{Printable T} k (w : world (impl k)) this S :
  reachable (impl k) w -> Z.of_nat (List.length S) <= max_size (impl k) ->
  (exists w1 w2,
     construct (impl k) this w = Ok tt w1 /\
     push_all (impl k) this S w1 = Ok tt w2 /\
     iterate (impl k) this w2 = Ok S w2 /\
     size (impl k) this w2 = Ok (Z.of_nat (List.length S)) w2) /\
  (iterate (impl k) this w = Ok [] w -> S = [] \/ has_room k w this ->
   exists w2,
     push_all (impl k) this S w = Ok tt w2 /\
     iterate (impl k) this w2 = Ok S w2 /\
     size (impl k) this w2 = Ok (Z.of_nat (List.length S)) w2).
Proof.
  intros Hreach Hlen. pose proof (reachable_valid k w Hreach) as Hval. split.
  - destruct (law_round_trip k w this S Hval Hlen) as (w1 & w2 & Hc & Hp & _ & Hst).
    exists w1, w2. split; [exact Hc|]. split; [exact Hp|].
    destruct (law_observe k w2 this S Hst) as (Hit & Hsize & _). auto.
  - intros Hempty Hroom.
    pose proof (law_iterate_inv k w w this [] Hval Hempty) as Hst.
    destruct (law_push_all_from k this S w [] Hreach Hst Hroom Hlen)
      as (w2 & Hrun & _ & Hst2).
    exists w2. split; [exact Hrun|].
    destruct (law_observe k w2 this S Hst2) as (Hit & Hsize & _). auto.
Qed.

Lemma round_trip_within_int_range_witness :
  exists w2,
    push_all (impl DoublyChain) 1%nat [3; 1; 2] (main_world DoublyChain) = Ok tt w2 /\
    iterate (impl DoublyChain) 1%nat w2 = Ok [3; 1; 2] w2 /\
    size (impl DoublyChain) 1%nat w2 = Ok 3 w2.
Proof.
  refine (proj2 (round_trip_within_int_range DoublyChain (main_world DoublyChain) 1%nat
                   [3; 1; 2] _ _) _ _).
  - apply main_world_reachable.
  - vm_compute. discriminate.
  - vm_compute. reflexivity.
  - right. eexists. split; [vm_compute; reflexivity|]. vm_compute. reflexivity.
Defined.

(** C7, as it is written, fails in three places, and the amendment leaves
    out no more than these. For the array and a sequence of [2 ^ 30 + 1]
    elements: the capacity is [2 ^ 30] when the last element comes, its
    double is not an [int]. For the chains and a sequence of
    [INT_MAX + 1] elements: [length++] leaves the range of [int]. For an
    array that is empty because it was moved from, whose capacity is 0,
    and a sequence of one element: [resize] leaves the capacity 0 and the
    element is stored outside of the buffer. *)
Lemma round_trip_beyond_int_range :
  (construct (impl DynamicArray) 1%nat;;
   push_all (impl DynamicArray) 1%nat (replicate (Z.to_nat (2 ^ 30 + 1)) 0))
    (no_objects (impl DynamicArray))
  = Undefined /\
  (construct (impl SinglyChain) 1%nat;;
   push_all (impl SinglyChain) 1%nat (replicate (Z.to_nat (INT_MAX + 1)) 0))
    (no_objects (impl SinglyChain))
  = Undefined /\
  (construct (impl DoublyChain) 1%nat;;
   push_all (impl DoublyChain) 1%nat (replicate (Z.to_nat (INT_MAX + 1)) 0))
    (no_objects (impl DoublyChain))
  = Undefined /\
  iterate (impl DynamicArray) 1%nat
    (exec (impl DynamicArray) [Construct 1%nat; MoveCtor 2%nat 1%nat])
  = Ok [] (exec (impl DynamicArray) [Construct 1%nat; MoveCtor 2%nat 1%nat]) /\
  push_all (impl DynamicArray) 1%nat [7]
    (exec (impl DynamicArray) [Construct 1%nat; MoveCtor 2%nat 1%nat])
  = Undefined.
Proof.
  assert (Hbig : forall k, max_size (impl k) < Z.of_nat (Z.to_nat (max_size (impl k) + 1))).
  { intros k. rewrite Z2Nat.id; [lia|]. destruct k; simpl; unfold INT_MAX; lia. }
  split; [|split; [|split; [|split]]].
  - apply (law_round_trip_overflow DynamicArray).
    + apply (reachable_valid DynamicArray), reachable_start.
    + rewrite length_replicate. exact (Hbig DynamicArray).
  - apply (law_round_trip_overflow SinglyChain).
    + apply (reachable_valid SinglyChain), reachable_start.
    + rewrite length_replicate. exact (Hbig SinglyChain).
  - apply (law_round_trip_overflow DoublyChain).
    + apply (reachable_valid DoublyChain), reachable_start.
    + rewrite length_replicate. exact (Hbig DoublyChain).
  - vm_compute. reflexivity.
  - apply (vec_capacity_0_push _ 1%nat Vec.moved_from 7 []).
    + apply exec_reachable.
    + vm_compute. reflexivity.
    + reflexivity.
Qed.

(** ** An element of the vector itself as the argument *)

Module AliasFacts.
Import VecFacts.
Section facts.
Context {T : Type}.
Implicit Types (v : Vec.myvector T) (xs ys : list T) (b A B : list (option T)).

Lemma vec_load_lookup {St} b i (x : T) (s : St) :
  b !! i = Some (Some x) -> Vec.load (Some b) (Z.of_nat i) s = Ok x s.
Proof.
  intros Hx. pose proof (lookup_lt_Some _ _ _ Hx) as Hi. unfold Vec.load.
  destruct (Z.leb_spec 0 (Z.of_nat i)); [|lia].
  destruct (Z.ltb_spec (Z.of_nat i) (Z.of_nat (List.length b))); [|lia].
  simpl. rewrite Nat2Z.id, Hx. reflexivity.
Qed.

(** The loop of [insert] leaves in the cell at the position what was there,
    when a cell is moved, and the cell behind the elements as it was
    when none is. *)
Lemma vec_shift_right_hole ys :
  forall A hole B v i,
    Vec.data v = Some (A ++ (Some <$> ys) ++ hole :: B) ->
    i = Z.of_nat (List.length A + List.length ys) ->
    for_range (List.length ys) i (-1)
      (fun i _ => d ← gets Vec.data; x ← Vec.load d (i - 1); Vec.store_data i x) tt v
    = Ok tt (Vec.set_data
               (Some (A ++ default hole (head (Some <$> ys)) :: (Some <$> ys) ++ B)) v).
Proof.
  induction ys as [|y ys IH] using rev_ind; intros A hole B v i Hd ->; simpl.
  - unfold ret, Vec.set_data. simpl in Hd. rewrite <- Hd.
    destruct v; reflexivity.
  - rewrite length_app. simpl.
    replace (List.length ys + 1)%nat with (S (List.length ys)) by lia. simpl.
    rewrite fmap_app in Hd. simpl in Hd.
    rewrite <- app_assoc in Hd. simpl in Hd.
    unfold bind at 1. unfold bind at 1. unfold gets at 1. rewrite Hd.
    unfold bind at 1.
    rewrite (app_assoc A), vec_load_middle
      by (rewrite length_app, length_fmap; lia).
    assert (Hd' : Vec.data v = Some (((A ++ (Some <$> ys)) ++ [Some y]) ++ hole :: B))
      by (rewrite Hd, <- !app_assoc; reflexivity).
    erewrite vec_store_data_middle; [| exact Hd' | rewrite !length_app, length_fmap; simpl; lia].
    rewrite (IH A (Some y) (Some y :: B)
               (Vec.set_data (Some (((A ++ (Some <$> ys)) ++ [Some y]) ++ Some y :: B)) v)
               (Z.of_nat (List.length A + S (List.length ys)) + -1)).
    + unfold Vec.set_data. simpl. rewrite fmap_app, <- !app_assoc.
      destruct ys; reflexivity.
    + simpl. rewrite <- !app_assoc. reflexivity.
    + lia.
Qed.

(** [v.insert(v[j], pos)] where the vector need not grow: the value that
    is stored is the one that the cell [j] holds after the elements from
    [pos] on were moved one place up. *)
Lemma vec_insert_cell v xs j pos z :
  Vec.holds v xs -> Vec.length v < Vec.capacity v -> (pos <= List.length xs)%nat ->
  (take (S pos) xs ++ drop pos xs) !! j = Some z -> (j < List.length xs)%nat ->
  exists v',
    Vec.insert (Vec.Cell (Z.of_nat j)) (Z.of_nat pos) v = Ok tt v' /\
    Vec.holds v' (take pos xs ++ z :: drop pos xs) /\
    Vec.capacity v' = Vec.capacity v.
Proof.
  intros Hv Hroom Hpos Hz Hj. pose proof Hv as (_ & _ & Hn & _ & _).
  assert (Hg : Vec.can_grow v) by (left; exact Hroom).
  assert (Hne : (Vec.length v =? Vec.capacity v) = false) by (apply Z.eqb_neq; lia).
  destruct (vec_grow_spec v xs Hv Hg) as (r0 & rest & Hgrow & Hcap & Hmax).
  assert (Hgr : Vec.grown v = Vec.capacity v) by (unfold Vec.grown; rewrite Hne; reflexivity).
  set (v1 := Vec.mk (Some ((Some <$> xs) ++ r0 :: rest)) (Vec.grown v) (Vec.length v)) in *.
  pose proof (vec_shift_right_hole (drop pos xs) (Some <$> take pos xs) r0 rest v1
                (Vec.length v)) as Hshift.
  set (hole := default r0 (head (Some <$> drop pos xs))) in *.
  assert (Hcell : ((Some <$> take pos xs) ++ hole :: (Some <$> drop pos xs) ++ rest) !! j
                  = Some (Some z)).
  { destruct (decide (pos = List.length xs)) as [->|Hlt].
    - rewrite firstn_all2, drop_all, app_nil_r in Hz by lia.
      rewrite firstn_all. rewrite lookup_app_l by (rewrite length_fmap; lia).
      rewrite list_lookup_fmap, Hz. reflexivity.
    - destruct (lookup_lt_is_Some_2 xs pos ltac:(lia)) as [xp Hxp].
      assert (Hhole : hole = Some xp).
      { unfold hole. rewrite (drop_S _ _ _ Hxp). reflexivity. }
      rewrite Hhole.
      rewrite (take_S_r _ _ _ Hxp) in Hz.
      change (Some xp :: (Some <$> drop pos xs) ++ rest)
        with ((Some <$> (xp :: drop pos xs)) ++ rest).
      rewrite app_assoc, <- fmap_app.
      rewrite <- app_assoc in Hz. simpl in Hz.
      rewrite lookup_app_l.
      + rewrite list_lookup_fmap, Hz. reflexivity.
      + rewrite length_fmap. eapply lookup_lt_Some. exact Hz. }
  eexists. split; [|split].
  - unfold Vec.insert. mstep reflexivity.
    destruct (Z.gtb_spec (Z.of_nat pos) (Vec.length v)); [lia|].
    destruct (Z.ltb_spec (Z.of_nat pos) 0); [lia|]. cbn [orb].
    mstep reflexivity. mstep (exact Hgrow). mstep reflexivity.
    cbn [Vec.length v1].
    rewrite (for_down_unfold _ _ _ _ (List.length (drop pos xs)))
      by (rewrite length_drop; lia).
    mstep (apply Hshift;
           [simpl; rewrite app_assoc, <- fmap_app, take_drop; reflexivity
           |rewrite length_fmap, length_take, length_drop; lia]).
    rewrite Hne. cbn [Vec.read].
    mstep (unfold bind, gets; cbn [Vec.data Vec.set_data];
           apply vec_load_lookup; exact Hcell).
    mstep (eapply vec_store_data_middle;
           [reflexivity | rewrite length_fmap, length_take; lia]).
    mstep (apply int_in_range; unfold INT_MIN; lia).
    reflexivity.
  - exists rest. unfold Vec.cells. cbn. repeat split.
    + rewrite !fmap_app, <- !app_assoc. reflexivity.
    + rewrite Hn, length_app. simpl. rewrite length_take, length_drop. lia.
    + rewrite Hcap, length_app. simpl. rewrite length_take, length_drop. lia.
    + exact Hmax.
  - exact Hgr.
Qed.

(** A vector that is full and holds an element cannot grow without
    deleting the buffer of that element. *)
Lemma vec_grow_full v xs y i :
  Vec.holds v xs -> xs !! i = Some y -> Vec.length v = Vec.capacity v ->
  (exists v1, Vec.resize v = Ok tt v1) \/ Vec.resize v = Undefined.
Proof.
  intros Hv Hy Hfull. pose proof Hv as (rest & _ & Hn & Hcap & _).
  pose proof (lookup_lt_Some _ _ _ Hy) as Hi.
  destruct (vec_can_grow_dec v) as [Hg|Hg].
  - left. destruct (vec_grow_spec v xs Hv Hg) as (r0 & rest' & Hgrow & _).
    rewrite (proj2 (Z.eqb_eq _ _) Hfull) in Hgrow. eauto.
  - right. apply vec_resize_overflow. unfold Vec.can_grow in Hg. lia.
Qed.

Lemma vec_push_back_cell_full v xs y i :
  Vec.holds v xs -> xs !! i = Some y -> Vec.length v = Vec.capacity v ->
  Vec.push_back (Vec.Cell (Z.of_nat i)) v = Undefined.
Proof.
  intros Hv Hy Hfull. unfold Vec.push_back.
  mstep reflexivity. mstep reflexivity.
  rewrite (proj2 (Z.eqb_eq _ _) Hfull).
  destruct (vec_grow_full v xs y i Hv Hy Hfull) as [(v1 & Hr)|Hr].
  - mstep (exact Hr). reflexivity.
  - apply bind_Undefined. exact Hr.
Qed.

Lemma vec_insert_cell_full v xs y i pos :
  Vec.holds v xs -> xs !! i = Some y -> Vec.length v = Vec.capacity v ->
  (pos <= List.length xs)%nat ->
  Vec.insert (Vec.Cell (Z.of_nat i)) (Z.of_nat pos) v = Undefined.
Proof.
  intros Hv Hy Hfull Hpos. pose proof Hv as (rest0 & Hc & Hn & Hcap & _).
  pose proof (lookup_lt_Some _ _ _ Hy) as Hi.
  unfold Vec.insert. mstep reflexivity.
  destruct (Z.gtb_spec (Z.of_nat pos) (Vec.length v)); [lia|].
  destruct (Z.ltb_spec (Z.of_nat pos) 0); [lia|]. cbn [orb].
  mstep reflexivity. rewrite (proj2 (Z.eqb_eq _ _) Hfull).
  destruct (vec_can_grow_dec v) as [Hg|Hg];
    [|apply bind_Undefined, vec_resize_overflow; unfold Vec.can_grow in Hg; lia].
  destruct (vec_grow_spec v xs Hv Hg) as (r0 & rest & Hgrow & _).
  rewrite (proj2 (Z.eqb_eq _ _) Hfull) in Hgrow.
  set (v1 := Vec.mk (Some ((Some <$> xs) ++ r0 :: rest)) (Vec.grown v) (Vec.length v)) in *.
  mstep (exact Hgrow). mstep reflexivity. cbn [Vec.length v1].
  rewrite (for_down_unfold _ _ _ _ (List.length (drop pos xs)))
    by (rewrite length_drop; lia).
  mstep (apply (vec_shift_right_hole (drop pos xs) (Some <$> take pos xs) r0 rest v1);
         [simpl; rewrite app_assoc, <- fmap_app, take_drop; reflexivity
         |rewrite length_fmap, length_take, length_drop; lia]).
  reflexivity.
Qed.
Lemma vec_insert_at_size_ref (r : Vec.reference T) v :
  0 <= Vec.length v -> Vec.insert r (Vec.length v) v = Vec.push_back r v.
Proof.
  intros Hn. unfold Vec.insert, Vec.push_back, bind, gets.
  destruct (Z.gtb_spec (Vec.length v) (Vec.length v)); [lia|].
  destruct (Z.ltb_spec (Vec.length v) 0); [lia|]. cbn [orb].
  destruct ((if Vec.length v =? Vec.capacity v then Vec.resize else ret tt) v)
    as [[] v1| | |] eqn:Hgrow; try reflexivity.
  assert (Hlen : Vec.length v1 = Vec.length v).
  { destruct (Vec.length v =? Vec.capacity v).
    - apply vec_resize_length; assumption.
    - injection Hgrow as <-. reflexivity. }
  rewrite Hlen. unfold for_down. rewrite Z.sub_diag. change (Z.to_nat 0) with 0%nat.
  cbn [for_range]. unfold ret. cbv beta iota.
  destruct r as [x|i]; cbn [Vec.read].
  - unfold ret. rewrite ?Hlen. reflexivity.
  - destruct (Vec.length v =? Vec.capacity v); [reflexivity|].
    unfold bind, gets, Vec.load.
    destruct (Vec.data v1) as [b|]; [|reflexivity].
    destruct ((0 <=? i) && (i <? Z.of_nat (List.length b))); [|reflexivity].
    destruct (b !! Z.to_nat i) as [[x|]|]; try reflexivity.
    unfold ret. rewrite ?Hlen. reflexivity.
Qed.

Lemma vec_push_back_cell v xs i y :
  Vec.holds v xs -> xs !! i = Some y -> Vec.length v < Vec.capacity v ->
  exists v',
    Vec.push_back (Vec.Cell (Z.of_nat i)) v = Ok tt v' /\
    Vec.holds v' (xs ++ [y]) /\ Vec.capacity v' = Vec.capacity v.
Proof.
  intros Hv Hy Hroom. pose proof Hv as (_ & _ & Hn & _ & _).
  pose proof (lookup_lt_Some _ _ _ Hy) as Hi.
  destruct (vec_insert_cell v xs i (List.length xs) y Hv Hroom) as (v' & Hins & Hv' & Hc);
    [lia | rewrite firstn_all2, drop_all, app_nil_r by lia; exact Hy | exact Hi |].
  exists v'. rewrite <- Hn, vec_insert_at_size_ref in Hins by lia.
  rewrite firstn_all, drop_all in Hv'. auto.
Qed.
End facts.
End AliasFacts.

(** X23. [v.push_back(v[i])], the argument being a reference to the
    element [i] of the vector itself: when the vector has room (fewer
    elements than its capacity) the call ends normally and appends a copy of
    that element, and the capacity is unchanged; when the vector is full
    the behaviour is undefined: [resize] deletes the buffer that the
    reference points into (or the doubled capacity is no [int]) before the
    element is read. *)
Theorem array_push_back_of_own_element {T} (v : Vec.myvector T) xs i y :
  Vec.holds v xs -> xs !! i = Some y ->
  (Vec.length v < Vec.capacity v ->
   exists v',
     Vec.push_back (Vec.Cell (Z.of_nat i)) v = Ok tt v' /\
     Vec.holds v' (xs ++ [y]) /\ Vec.capacity v' = Vec.capacity v) /\
  (Vec.length v = Vec.capacity v ->
   Vec.push_back (Vec.Cell (Z.of_nat i)) v = Undefined).
Proof.
  intros Hv Hy. split; intros Hc.
  - exact (AliasFacts.vec_push_back_cell v xs i y Hv Hy Hc).
  - exact (AliasFacts.vec_push_back_cell_full v xs y i Hv Hy Hc).
Qed.

Lemma array_push_back_of_own_element_witness :
  (exists v',
     Vec.push_back (Vec.Cell 0) (Vec.mk (Some [Some 1; Some 2; Some 3; None]) 4 3)
     = Ok tt v' /\
     Vec.holds v' [1; 2; 3; 1] /\ Vec.capacity v' = 4) /\
  Vec.push_back (Vec.Cell 0) (Vec.mk (Some [Some 1; Some 2]) 2 2) = Undefined.
Proof.
  split.
  - apply (array_push_back_of_own_element
             (Vec.mk (Some [Some 1; Some 2; Some 3; None]) 4 3) [1; 2; 3] 0%nat 1).
    + exists [None]. unfold INT_MAX. cbn. repeat split; lia.
    + reflexivity.
    + cbn. lia.
  - apply (array_push_back_of_own_element
             (Vec.mk (Some [Some 1; Some 2]) 2 2) [1; 2] 0%nat 1).
    + exists []. unfold INT_MAX. cbn. repeat split; lia.
    + reflexivity.
    + reflexivity.
Defined.

(** X24. [v.insert(v[j], pos)], the argument being a reference to the
    element [j] of the vector itself, with [pos] at most the number of the
    elements: when the vector has room, the call ends normally and the
    value placed at [pos] is the one that the cell [j] holds after the
    elements from [pos] on were moved one place up: the element [j] when
    [j <= pos], the element [j - 1] when [pos < j]; so [v.insert(v[1], 0)]
    on 1 2 3 leaves 1 1 2 3. When the vector is full the behaviour is
    undefined, as for [push_back]. *)
Theorem array_insert_of_own_element {T} (v : Vec.myvector T) xs j pos z :
  Vec.holds v xs -> (pos <= List.length xs)%nat -> (j < List.length xs)%nat ->
  (take (S pos) xs ++ drop pos xs) !! j = Some z ->
  (Vec.length v < Vec.capacity v ->
   exists v',
     Vec.insert (Vec.Cell (Z.of_nat j)) (Z.of_nat pos) v = Ok tt v' /\
     Vec.holds v' (take pos xs ++ z :: drop pos xs) /\
     Vec.capacity v' = Vec.capacity v) /\
  (Vec.length v = Vec.capacity v ->
   Vec.insert (Vec.Cell (Z.of_nat j)) (Z.of_nat pos) v = Undefined) /\
  (if decide (pos < j)%nat then xs !! (j - 1)%nat = Some z else xs !! j = Some z).
Proof.
  intros Hv Hpos Hj Hz. split; [|split].
  - intros Hc. exact (AliasFacts.vec_insert_cell v xs j pos z Hv Hc Hpos Hz Hj).
  - intros Hc. destruct (lookup_lt_is_Some_2 xs j Hj) as [y Hy].
    exact (AliasFacts.vec_insert_cell_full v xs y j pos Hv Hy Hc Hpos).
  - destruct (decide (pos < j)%nat) as [Hlt|Hge].
    + rewrite lookup_app_r in Hz by (rewrite length_take; lia).
      rewrite length_take, lookup_drop in Hz. rewrite <- Hz. f_equal. lia.
    + rewrite lookup_app_l in Hz by (rewrite length_take; lia).
      rewrite lookup_take_lt in Hz by lia. exact Hz.
Qed.

Lemma array_insert_of_own_element_witness :
  (exists v',
     Vec.insert (Vec.Cell 1) 0 (Vec.mk (Some [Some 1; Some 2; Some 3; None]) 4 3)
     = Ok tt v' /\
     Vec.holds v' [1; 1; 2; 3] /\ Vec.capacity v' = 4) /\
  Vec.insert (Vec.Cell 1) 0 (Vec.mk (Some [Some 1; Some 2]) 2 2) = Undefined.
Proof.
  split.
  - apply (array_insert_of_own_element
             (Vec.mk (Some [Some 1; Some 2; Some 3; None]) 4 3) [1; 2; 3] 1%nat 0%nat 1).
    + exists [None]. unfold INT_MAX. cbn. repeat split; lia.
    + cbn. lia.
    + cbn. lia.
    + reflexivity.
    + cbn. lia.
  - apply (array_insert_of_own_element
             (Vec.mk (Some [Some 1; Some 2]) 2 2) [1; 2] 1%nat 0%nat 1).
    + exists []. unfold INT_MAX. cbn. repeat split; lia.
    + cbn. lia.
    + cbn. lia.
    + reflexivity.
    + reflexivity.
Defined.
